(** * mscript: a shallow embedding of the parser's expression grammar and of
    the tree-walking interpreter (src/language/parser.ts, interpreter.ts).

    Conventions of the embedding.
    - A JS [number] is an IEEE-754 binary64 value: Rocq's primitive [float].
    - A JS string is a [string]; one [ascii] stands for one code unit, so
      the strings of the embedding are those whose code units are below 256.
    - JS objects that the interpreter mutates in place keep their identity:
      array nodes live in a store ([heap]) and are named by a location,
      environment frames carry a unique [frame_id].
    - A function of the interpreter that reads and writes the interpreter
      state is a function in the monad [M]; a JS exception is the result
      [Aborted (Thrown _)].
    - The interpreter recurses through calls and loops without bound, so the
      recursive functions take a [fuel] argument; running out of it is the
      result [Aborted OutOfFuel], which is never confused with a result of
      the program. *)

From Stdlib Require Import Floats ZArith NArith Ascii String List Bool Lia.
From stdpp Require Import base option gmap strings list pretty.

Open Scope string_scope.
Open Scope Z_scope.

(* ================================================================== *)
(** * JavaScript numbers *)
(* ================================================================== *)

Definition number := float.

(** The number nearest to the integer [z] (round to nearest, ties to even). *)
Definition numberOfZ (z : Z) : number :=
  SF2Prim (binary_normalize prec emax z 0 false).

(** The number nearest to the rational [num / den], for [0 <= num], [0 < den],
    with the sign [neg]. *)
Definition numberOfRatio (neg : bool) (num den : Z) : number :=
  if num =? 0 then (if neg then PrimFloat.neg_zero else PrimFloat.zero)
  else
    let '(mz, ez, lz) := SFdiv_core_binary prec emax num 0 den 0 in
    SF2Prim (binary_round_aux prec emax neg mz ez lz).

Definition numberOfNat (n : nat) : number := numberOfZ (Z.of_nat n).

(** A finite non-zero number as the exact rational
    [(-1)^s * num / den], [den] a power of two. *)
Definition numberRatio (x : number) : option (bool * Z * Z) :=
  match Prim2SF x with
  | S754_finite s m e =>
      Some (s, Z.pos m * 2 ^ Z.max e 0, 2 ^ Z.max (- e) 0)
  | _ => None
  end.

(** ECMAScript's ToIntegerOrInfinity. *)
Inductive IntegerOrInfinity :=
| NegativeInfinity
| Finite (z : Z)
| PositiveInfinity.

Definition toIntegerOrInfinity (x : number) : IntegerOrInfinity :=
  match Prim2SF x with
  | S754_nan | S754_zero _ => Finite 0
  | S754_infinity s => if s then NegativeInfinity else PositiveInfinity
  | S754_finite s m e =>
      let q := if 0 <=? e then Z.pos m * 2 ^ e else Z.pos m / 2 ^ (- e) in
      Finite (if s then - q else q)
  end.

(** [Math.floor]. *)
Definition Math_floor (x : number) : number :=
  match Prim2SF x with
  | S754_finite s m e =>
      if 0 <=? e then x
      else
        let q := (if s then Z.neg m else Z.pos m) / 2 ^ (- e) in
        if q =? 0 then PrimFloat.zero else numberOfZ q
  | _ => x
  end.

(** The [%] operator on numbers: the remainder has the sign of the dividend
    and is exact. *)
Definition numberRemainder (x y : number) : number :=
  match Prim2SF x, Prim2SF y with
  | S754_nan, _ | _, S754_nan | S754_infinity _, _ | _, S754_zero _ => PrimFloat.nan
  | S754_zero _, _ | S754_finite _ _ _, S754_infinity _ => x
  | S754_finite sx mx ex, S754_finite _ my ey =>
      let e := Z.min ex ey in
      let r := Z.rem (Z.pos mx * 2 ^ (ex - e)) (Z.pos my * 2 ^ (ey - e)) in
      if r =? 0 then (if sx then PrimFloat.neg_zero else PrimFloat.zero)
      else SF2Prim (binary_normalize prec emax (if sx then - r else r) e false)
  end.

(** What the embedding takes from the JavaScript engine as it is:
    [Math.pow], whose results the language standard leaves to the engine, and
    the sequence of results of [Math.random]. *)
Class JsEngine := {
  Math_pow : number -> number -> number;
  Math_random : nat -> number
}.

(* ------------------------------------------------------------------ *)
(** ** Number to string: ECMAScript's Number::toString, radix 10 *)

(** The decimal exponent [n] of the positive rational [num / den]:
    [10^(n-1) <= num/den < 10^n]. *)
Fixpoint decimalExponentUp (fuel : nat) (num den : Z) (n : Z) : Z :=
  match fuel with
  | O => n
  | S f => if num <? den * 10 ^ n then n else decimalExponentUp f num den (n + 1)
  end.

Fixpoint decimalExponentDown (fuel : nat) (num den : Z) (n : Z) : Z :=
  match fuel with
  | O => n
  | S f =>
      if den <=? num * 10 ^ (1 - n) then n
      else decimalExponentDown f num den (n - 1)
  end.

Definition decimalExponent (num den : Z) : Z :=
  if den <=? num then decimalExponentUp 400 num den 1
  else decimalExponentDown 400 num den 0.

(** The rational [s * 10^p] as a number. *)
Definition numberOfDecimal (neg : bool) (s : Z) (p : Z) : number :=
  if 0 <=? p then
    (if neg then PrimFloat.opp (numberOfZ (s * 10 ^ p)) else numberOfZ (s * 10 ^ p))
  else numberOfRatio neg s (10 ^ (- p)).

(** The digits [s] (with [k] digits) and the exponent [n] such that
    [s * 10^(n-k)] reads back as [x] with [k] as small as possible. *)
Fixpoint shortestDigits (fuel : nat) (x : number) (num den n k : Z) : Z * Z * Z :=
  match fuel with
  | O => (0, n, k)
  | S f =>
      let p := k - n in
      let num' := num * 10 ^ Z.max p 0 in
      let den' := den * 10 ^ Z.max (- p) 0 in
      let lo := num' / den' in
      let r := num' mod den' in
      let okLo := PrimFloat.eqb (numberOfDecimal false lo (- p)) x in
      let okHi := PrimFloat.eqb (numberOfDecimal false (lo + 1) (- p)) x in
      let hi := if lo + 1 =? 10 ^ k then (10 ^ (k - 1), n + 1, k) else (lo + 1, n, k) in
      if okLo && okHi then
        match 2 * r ?= den' with
        | Lt => (lo, n, k)
        | Gt => hi
        | Eq => if Z.even lo then (lo, n, k) else hi
        end
      else if okLo then (lo, n, k)
      else if okHi then hi
      else shortestDigits f x num den n (k + 1)
  end.

Definition zeros (n : Z) : string := String.concat "" (repeat "0" (Z.to_nat n)).

Definition prettyZ (z : Z) : string := pretty (Z.to_N z).

Definition numberToString (x : number) : string :=
  match Prim2SF x with
  | S754_nan => "NaN"
  | S754_zero _ => "0"
  | S754_infinity s => if s then "-Infinity" else "Infinity"
  | S754_finite sg m e =>
      let num := Z.pos m * 2 ^ Z.max e 0 in
      let den := 2 ^ Z.max (- e) 0 in
      let '(s, n, k) :=
        shortestDigits 18 (PrimFloat.abs x) num den (decimalExponent num den) 1 in
      let digits := prettyZ s in
      let body :=
        if (k <=? n) && (n <=? 21) then digits ++ zeros (n - k)
        else if (0 <? n) && (n <=? 21) then
          substring 0 (Z.to_nat n) digits ++ "." ++
          substring (Z.to_nat n) (Z.to_nat (k - n)) digits
        else if (-6 <? n) && (n <=? 0) then "0." ++ zeros (- n) ++ digits
        else
          let ex := (if 0 <=? n - 1 then "+" else "-") ++ prettyZ (Z.abs (n - 1)) in
          if k =? 1 then digits ++ "e" ++ ex
          else substring 0 1 digits ++ "." ++
               substring 1 (Z.to_nat (k - 1)) digits ++ "e" ++ ex
      in
      if sg then "-" ++ body else body
  end.

(* ------------------------------------------------------------------ *)
(** ** String to number *)

Definition digitValue (c : ascii) : option Z :=
  let n := Z.of_N (N_of_ascii c) in
  if (48 <=? n) && (n <=? 57) then Some (n - 48) else None.

(** Reads decimal digits: the value read after [acc], their count, the rest. *)
Fixpoint scanDigits (s : string) (acc : Z) (count : Z) : Z * Z * string :=
  match s with
  | String c rest =>
      match digitValue c with
      | Some d => scanDigits rest (acc * 10 + d) (count + 1)
      | None => (acc, count, s)
      end
  | EmptyString => (acc, count, s)
  end.

Definition scanSign (s : string) : bool * string :=
  match s with
  | String "-" rest => (true, rest)
  | String "+" rest => (false, rest)
  | _ => (false, s)
  end.

(** The longest prefix of [s] that is a decimal numeral (optional sign,
    digits, optional fraction, optional exponent), as
    (sign, mantissa, decimal exponent, rest); [None] when no prefix is one. *)
Definition scanNumber (s : string) : option (bool * Z * Z * string) :=
  let '(neg, s1) := scanSign s in
  let '(int, nInt, s2) := scanDigits s1 0 0 in
  let '(mant, nFrac, s3) :=
    match s2 with
    | String "." rest => scanDigits rest int 0
    | _ => (int, 0, s2)
    end in
  if nInt + nFrac =? 0 then None
  else
    let '(ex, s4) :=
      match s3 with
      | String c rest =>
          if (Ascii.eqb c "e" || Ascii.eqb c "E")%bool then
            let '(eneg, r1) := scanSign rest in
            let '(ev, n, r2) := scanDigits r1 0 0 in
            if n =? 0 then (0, s3) else ((if eneg then - ev else ev), r2)
          else (0, s3)
      | EmptyString => (0, s3)
      end in
    Some (neg, mant, ex - nFrac, s4).

(** The numeric prefix of a string, 0 when there is none. *)
Definition stringToNumberPrefix (s : string) : number :=
  match scanNumber s with
  | Some (neg, mant, p, _) => numberOfDecimal neg mant p
  | None => PrimFloat.zero
  end.

Definition isWhiteSpace (c : ascii) : bool :=
  let n := N_of_ascii c in
  ((n =? 32) || (n =? 9) || (n =? 10) || (n =? 11) || (n =? 12) || (n =? 13) ||
   (n =? 160))%N.

Fixpoint trimStart (s : string) : string :=
  match s with
  | String c rest => if isWhiteSpace c then trimStart rest else s
  | EmptyString => s
  end.

Definition onlyWhiteSpace (s : string) : bool :=
  match trimStart s with EmptyString => true | _ => false end.

(** The value of a digit in a numeral of the given radix: the decimal
    digits, and the letters [a] to [f] in either case. *)
Definition radixDigitValue (radix : Z) (c : ascii) : option Z :=
  let n := Z.of_N (N_of_ascii c) in
  let v :=
    if (48 <=? n) && (n <=? 57) then Some (n - 48)
    else if (97 <=? n) && (n <=? 102) then Some (n - 87)
    else if (65 <=? n) && (n <=? 70) then Some (n - 55)
    else None in
  match v with
  | Some d => if d <? radix then Some d else None
  | None => None
  end.

(** Reads digits of the radix: the value read after [acc], their count, the
    rest. *)
Fixpoint scanRadixDigits (radix : Z) (s : string) (acc : Z) (count : Z) : Z * Z * string :=
  match s with
  | String c rest =>
      match radixDigitValue radix c with
      | Some d => scanRadixDigits radix rest (acc * radix + d) (count + 1)
      | None => (acc, count, s)
      end
  | EmptyString => (acc, count, s)
  end.

(** A binary, octal or hexadecimal integer numeral at the start of [s]
    ([0b], [0o], [0x], in either case, and at least one digit): its value
    and the rest. *)
Definition scanNonDecimal (s : string) : option (Z * string) :=
  match s with
  | String "0" (String c rest) =>
      let radix :=
        if (Ascii.eqb c "x" || Ascii.eqb c "X")%bool then Some 16
        else if (Ascii.eqb c "o" || Ascii.eqb c "O")%bool then Some 8
        else if (Ascii.eqb c "b" || Ascii.eqb c "B")%bool then Some 2
        else None in
      match radix with
      | Some r =>
          let '(v, n, rest') := scanRadixDigits r rest 0 0 in
          if n =? 0 then None else Some (v, rest')
      | None => None
      end
  | _ => None
  end.

(** ECMAScript's StringToNumber, which the relational operators apply to a
    string operand compared with a number: the whole trimmed string must be
    a numeral, which is a decimal numeral, a signed [Infinity], or an
    unsigned binary, octal or hexadecimal integer; the empty string is 0,
    anything else is NaN. *)
Definition jsStringToNumber (s : string) : number :=
  let t := trimStart s in
  if onlyWhiteSpace t then PrimFloat.zero
  else
    match scanNonDecimal t with
    | Some (v, rest) => if onlyWhiteSpace rest then numberOfZ v else PrimFloat.nan
    | None =>
        match scanNumber t with
        | Some (neg, mant, p, rest) =>
            if onlyWhiteSpace rest then numberOfDecimal neg mant p else PrimFloat.nan
        | None =>
            let '(neg, r) := scanSign t in
            if String.prefix "Infinity" r
               && onlyWhiteSpace (substring 8 (String.length r) r)
            then (if neg then PrimFloat.neg_infinity else PrimFloat.infinity)
            else PrimFloat.nan
        end
    end.

(* ================================================================== *)
(** * Values (mValue.ts) *)
(* ================================================================== *)

(** [MScalar = string | number]. *)
Inductive MScalar :=
| MNumber (n : number)
| MString (s : string).

(** The identity of an array node (a JS object). *)
Definition loc := positive.

(** [MValue = MScalar | MArray]; an array node is held by reference. *)
Inductive MValue :=
| MScalarValue (s : MScalar)
| MArrayValue (array : loc).

(** [MReference]: the two kinds of l-value.  An environment is named by the
    identity of its frame. *)
Inductive MReference :=
| ArrayReference (array : loc) (key : string)
| EnvironmentReference (environment : nat) (name : string).

(** What a slot of an environment holds: a value, or (put there by a host
    only) a reference that name lookup follows. *)
Inductive EnvironmentValue :=
| Binding (v : MValue)
| IndirectReference (r : MReference).

(** An array node: its self-value and its children by key. *)
Record MArray := {
  arrayValue : MScalar;
  arrayChildren : gmap string MValue
}.

(** An environment: a JS [Map] with its identity. *)
Record Environment := {
  frame_id : nat;
  bindings : gmap string EnvironmentValue
}.

Definition Heap := gmap loc MArray.

(** A host function: it reads its arguments (array nodes through the store)
    and returns a scalar or nothing. *)
Definition Extern := Heap -> list MValue -> option MScalar.

Definition emptyString : MScalar := MString "".

(** Modelled from the spec: [mValueToScalar] of the absent mValue.ts, "Array
    nodes with a self-value yield that self-value; Array nodes without one
    yield the empty string" (4.3.2). *)
Definition mValueToScalar (h : Heap) (v : MValue) : MScalar :=
  match v with
  | MScalarValue s => s
  | MArrayValue l =>
      match h !! l with
      | Some a => arrayValue a
      | None => emptyString
      end
  end.

(** Modelled from the spec: the coercion "to string" of the absent mValue.ts
    (4.3.2): a number renders in canonical form. *)
Definition scalarToString (s : MScalar) : string :=
  match s with
  | MNumber n => numberToString n
  | MString s => s
  end.

(** Modelled from the spec: the coercion "to number" of the absent mValue.ts
    (4.3.2): the longest numeric prefix of a string, 0 when there is none. *)
Definition scalarToNumber (s : MScalar) : number :=
  match s with
  | MNumber n => n
  | MString s => stringToNumberPrefix s
  end.

Definition mValueToString (h : Heap) (v : MValue) : string :=
  scalarToString (mValueToScalar h v).

Definition mValueToNumber (h : Heap) (v : MValue) : number :=
  scalarToNumber (mValueToScalar h v).

(** Modelled from the spec: [mArrayGet] of the absent mValue.ts, the child
    of an array node at a key, if any. *)
Definition mArrayGet (h : Heap) (array : loc) (key : string) : option MValue :=
  a ← h !! array; arrayChildren a !! key.

(** Modelled from the spec: [mArraySet] of the absent mValue.ts, which sets
    the child at a key in place. *)
Definition mArraySet (h : Heap) (array : loc) (key : string) (v : MValue) : Heap :=
  match h !! array with
  | Some a =>
      <[array := {| arrayValue := arrayValue a;
                    arrayChildren := <[key := v]> (arrayChildren a) |}]> h
  | None => h
  end.

(** Modelled from the spec: [mArrayKill] of the absent mValue.ts, which
    deletes the keyed child with its subtree (4.3.4, kill). *)
Definition mArrayKill (h : Heap) (array : loc) (key : string) : Heap :=
  match h !! array with
  | Some a =>
      <[array := {| arrayValue := arrayValue a;
                    arrayChildren := delete key (arrayChildren a) |}]> h
  | None => h
  end.

(** The order of the keys of an array node.  The repository's test "order"
    expects the keys 1, 2, 10 to be visited as 1, 10, 2: keys are compared
    as strings, code unit by code unit. *)
Definition keyBefore (a b : string) : bool := String.ltb a b.

Definition smallestKey (keys : list string) : option string :=
  foldr (fun k acc =>
           match acc with
           | Some m => if keyBefore k m then Some k else acc
           | None => Some k
           end) None keys.

Definition largestKey (keys : list string) : option string :=
  foldr (fun k acc =>
           match acc with
           | Some m => if keyBefore m k then Some k else acc
           | None => Some k
           end) None keys.

Definition keysOf (h : Heap) (array : loc) : list string :=
  match h !! array with
  | Some a => (map_to_list (arrayChildren a)).*1
  | None => []
  end.

(** Modelled from the spec: [mArrayGetNextKey] of the absent mValue.ts, the
    next child key after [key], the empty string at the end (4.3.5). *)
Definition mArrayGetNextKey (h : Heap) (array : loc) (key : string) : string :=
  default "" (smallestKey (filter (fun k => keyBefore key k = true) (keysOf h array))).

(** Modelled from the spec: [mArrayGetPreviousKey] of the absent mValue.ts,
    the previous child key; from the empty string, the last key. *)
Definition mArrayGetPreviousKey (h : Heap) (array : loc) (key : string) : string :=
  default ""
    (largestKey
       (filter (fun k => key = "" \/ keyBefore k key = true) (keysOf h array))).

(* ================================================================== *)
(** * The syntax tree (parser.ts) *)
(* ================================================================== *)

Record Position := { line : nat; column : nat }.

Record TextRange := { start : Position; end_ : Position }.

Record IdentifierAstNode := { text : string; identifierRange : TextRange }.

Module UnaryOp.
Inductive t := Not | Plus | Minus.
End UnaryOp.

Module BinaryOp.
Inductive t :=
| Or | And | Equals | LessThan | GreaterThan | Add | Subtract | Multiply
| Power | Divide | IntegerDivide | Modulo | Concatenate.
End BinaryOp.

(** Expressions.  The fields the interpreter tests for presence
    ([direction], [extractionStart], [extractionEnd], [findStart]) are
    options.  The interpreter recurses on fuel, so no induction scheme over
    the syntax is generated. *)
Unset Elimination Schemes.

Inductive ExpressionAstNode :=
| VariableNode (node : VariableAstNode)
| NumberLiteral (value : number) (range : TextRange)
| StringLiteral (value : string) (range : TextRange)
| CallNode (node : CallAstNode)
| UnaryOpNode (right : ExpressionAstNode) (op : UnaryOp.t) (range : TextRange)
| BinaryOpNode (left right : ExpressionAstNode) (op : BinaryOp.t)
    (isNegated : bool) (range : TextRange)
| OrderBuiltin (variable : VariableAstNode)
    (direction : option ExpressionAstNode) (range : TextRange)
| LengthBuiltin (arg : ExpressionAstNode) (range : TextRange)
| ExtractBuiltinNode (node : ExtractBuiltinAstNode)
| SelectBuiltin (args : list SelectBuiltinArgAstNode) (range : TextRange)
| FindBuiltin (haystack needle : ExpressionAstNode)
    (findStart : option ExpressionAstNode) (range : TextRange)
| RandomBuiltin (max : ExpressionAstNode) (range : TextRange)
| AsciiBuiltin (value : ExpressionAstNode) (range : TextRange)
| CharBuiltin (value : ExpressionAstNode) (range : TextRange)
with VariableAstNode :=
| MkVariable (name : IdentifierAstNode) (subscripts : list ExpressionAstNode)
    (range : TextRange)
with CallAstNode :=
| MkCall (name : IdentifierAstNode) (args : list CallArgumentAstNode)
    (range : TextRange)
with CallArgumentAstNode :=
| Reference (name : IdentifierAstNode) (range : TextRange)
| Argument (node : ExpressionAstNode)
with ExtractBuiltinAstNode :=
| MkExtract (target : ExpressionAstNode)
    (extractionStart extractionEnd : option ExpressionAstNode) (range : TextRange)
with SelectBuiltinArgAstNode :=
| MkSelectArg (condition value : ExpressionAstNode) (range : TextRange).

Definition variableName (v : VariableAstNode) : string :=
  match v with MkVariable name _ _ => text name end.

Definition variableSubscripts (v : VariableAstNode) : list ExpressionAstNode :=
  match v with MkVariable _ subscripts _ => subscripts end.

Definition variableRange (v : VariableAstNode) : TextRange :=
  match v with MkVariable _ _ range => range end.

Definition callRange (c : CallAstNode) : TextRange :=
  match c with MkCall _ _ range => range end.

Definition extractRange (e : ExtractBuiltinAstNode) : TextRange :=
  match e with MkExtract _ _ _ range => range end.

(** The text range of an expression node. *)
Definition expressionRange (e : ExpressionAstNode) : TextRange :=
  match e with
  | VariableNode v => variableRange v
  | CallNode c => callRange c
  | ExtractBuiltinNode x => extractRange x
  | NumberLiteral _ r | StringLiteral _ r | UnaryOpNode _ _ r
  | BinaryOpNode _ _ _ _ r | OrderBuiltin _ _ r | LengthBuiltin _ r
  | SelectBuiltin _ r | FindBuiltin _ _ _ r | RandomBuiltin _ r
  | AsciiBuiltin _ r | CharBuiltin _ r => r
  end.

Inductive WriteArgumentAstNode :=
| WriteExpression (node : ExpressionAstNode)
| ExclamationPointFormatter
| QuestionMarkFormatter (minColumn : ExpressionAstNode)
| HashFormatter.

Record ForParameterAstNode := {
  expressions : list ExpressionAstNode;
  forParameterRange : TextRange
}.

Record ForArgumentAstNode := {
  forVariable : VariableAstNode;
  parameters : list ForParameterAstNode;
  forArgumentRange : TextRange
}.

Inductive SetTarget :=
| TargetVariable (node : VariableAstNode)
| TargetExtract (node : ExtractBuiltinAstNode).

Record SetArgAstNode := {
  setTarget : SetTarget;
  setValue : ExpressionAstNode;
  setArgRange : TextRange
}.

Record MergeAstNode := {
  mergeLeft : VariableAstNode;
  mergeRight : VariableAstNode;
  mergeRange : TextRange
}.

(** Commands.  [CommandBodyAstNode] is the union of the command nodes. *)
Inductive CommandAstNode :=
| MkCommand (condition : option ExpressionAstNode) (body : CommandBodyAstNode)
    (range : TextRange)
with CommandBodyAstNode :=
| CommentBody (range : TextRange)
| WriteBody (args : list WriteArgumentAstNode) (range : TextRange)
| QuitBody (returnValue : option ExpressionAstNode) (range : TextRange)
| CallBody (node : CallAstNode)
| DoBlockBody (children : list CommandAstNode) (range : TextRange)
| IfBody (conditions : list ExpressionAstNode) (children : list CommandAstNode)
    (range : TextRange)
| ElseBody (children : list CommandAstNode) (range : TextRange)
| ForBody (arg : option ForArgumentAstNode) (children : list CommandAstNode)
    (range : TextRange)
| SetBody (args : list SetArgAstNode) (range : TextRange)
| NewBody (args : list IdentifierAstNode) (range : TextRange)
| KillBody (args : list VariableAstNode) (range : TextRange)
| MergeBody (node : MergeAstNode)
| HaltBody (range : TextRange).

Set Elimination Schemes.

Definition commandRange (c : CommandAstNode) : TextRange :=
  match c with MkCommand _ _ range => range end.

Record Tag := { index : nat; params : option (list string) }.

Record TopLevelAstNode := {
  tags : gmap string Tag;
  topLevelChildren : list CommandAstNode;
  topLevelRange : TextRange
}.

(** mError.ts. *)
Record MError := { message : string; errorLine : nat; errorColumn : nat }.

(* ================================================================== *)
(** * The interpreter state and its monad (interpreter.ts) *)
(* ================================================================== *)

Module CommandResult.
Inductive t := Continue | Quit | Halt.
End CommandResult.

(** [InterpreterState].  [valueStack] has its top first;
    [environmentStack] is in index order (frame 0 first), a hole of the JS
    array being [None].  [heap], [nextFrameId] and [randomCalls] are the
    parts of the JS heap and engine the interpreter reaches. *)
Record InterpreterState := {
  ast : TopLevelAstNode;
  externs : gmap string Extern;
  valueStack : list MScalar;
  environmentStack : list (option Environment);
  outputColumn : number;
  output : list string;
  errors : list MError;
  heap : Heap;
  nextFrameId : nat;
  randomCalls : nat
}.

Definition setValueStack (v : list MScalar) (s : InterpreterState) :=
  {| ast := ast s; externs := externs s; valueStack := v;
     environmentStack := environmentStack s; outputColumn := outputColumn s;
     output := output s; errors := errors s; heap := heap s;
     nextFrameId := nextFrameId s; randomCalls := randomCalls s |}.

Definition setEnvironmentStack (e : list (option Environment)) (s : InterpreterState) :=
  {| ast := ast s; externs := externs s; valueStack := valueStack s;
     environmentStack := e; outputColumn := outputColumn s;
     output := output s; errors := errors s; heap := heap s;
     nextFrameId := nextFrameId s; randomCalls := randomCalls s |}.

Definition setOutput (o : list string) (c : number) (s : InterpreterState) :=
  {| ast := ast s; externs := externs s; valueStack := valueStack s;
     environmentStack := environmentStack s; outputColumn := c;
     output := o; errors := errors s; heap := heap s;
     nextFrameId := nextFrameId s; randomCalls := randomCalls s |}.

Definition setErrors (e : list MError) (s : InterpreterState) :=
  {| ast := ast s; externs := externs s; valueStack := valueStack s;
     environmentStack := environmentStack s; outputColumn := outputColumn s;
     output := output s; errors := e; heap := heap s;
     nextFrameId := nextFrameId s; randomCalls := randomCalls s |}.

Definition setHeap (h : Heap) (s : InterpreterState) :=
  {| ast := ast s; externs := externs s; valueStack := valueStack s;
     environmentStack := environmentStack s; outputColumn := outputColumn s;
     output := output s; errors := errors s; heap := h;
     nextFrameId := nextFrameId s; randomCalls := randomCalls s |}.

Definition setNextFrameId (n : nat) (s : InterpreterState) :=
  {| ast := ast s; externs := externs s; valueStack := valueStack s;
     environmentStack := environmentStack s; outputColumn := outputColumn s;
     output := output s; errors := errors s; heap := heap s;
     nextFrameId := n; randomCalls := randomCalls s |}.

Definition setRandomCalls (n : nat) (s : InterpreterState) :=
  {| ast := ast s; externs := externs s; valueStack := valueStack s;
     environmentStack := environmentStack s; outputColumn := outputColumn s;
     output := output s; errors := errors s; heap := heap s;
     nextFrameId := nextFrameId s; randomCalls := n |}.

Inductive JsError := TypeError | RangeError.

(** Why a run gives no result: a JS exception; a place where the code goes on
    with [undefined] although its types promise a value (a [pop()!] on an
    empty value stack, a reference read as a value), which the embedding does
    not follow; a string with a code unit from 256 on, which the embedding
    does not have; the fuel of the embedding. *)
Inductive Abort :=
| Thrown (e : JsError)
| UndefinedValue
| WideString
| OutOfFuel.

Inductive Result (A : Type) :=
| Ok (a : A) (s : InterpreterState)
| Aborted (e : Abort).

Arguments Ok {A} a s.
Arguments Aborted {A} e.

Definition M (A : Type) : Type := InterpreterState -> Result A.

Definition ret {A} (a : A) : M A := fun s => Ok a s.

Definition bind {A B} (m : M A) (f : A -> M B) : M B :=
  fun s =>
    match m s with
    | Ok a s' => f a s'
    | Aborted e => Aborted e
    end.

Notation "'let*' x ':=' m 'in' k" := (bind m (fun x => k))
  (at level 10, x pattern, m at level 100, k at level 200).

Notation "m ';;;' k" := (bind m (fun _ => k))
  (at level 100, k at level 200, right associativity).

Definition abort {A} (e : Abort) : M A := fun _ => Aborted e.

Definition throw {A} (e : JsError) : M A := abort (Thrown e).

Definition getState : M InterpreterState := fun s => Ok s s.

Definition modify (f : InterpreterState -> InterpreterState) : M unit :=
  fun s => Ok tt (f s).

(** [state.valueStack.push(v)]. *)
Definition push (v : MScalar) : M unit :=
  modify (fun s => setValueStack (v :: valueStack s) s).

(** [state.valueStack.pop()!]. *)
Definition pop : M MScalar :=
  fun s =>
    match valueStack s with
    | v :: rest => Ok v (setValueStack rest s)
    | [] => Aborted UndefinedValue
    end.

(** [state.valueStack.length = n]: the [n] oldest values stay. *)
Definition truncateValueStack (n : nat) : M unit :=
  fun s =>
    let len := length (valueStack s) in
    if decide (n <= len)%nat
    then Ok tt (setValueStack (drop (len - n) (valueStack s)) s)
    else Aborted UndefinedValue.

(** [state.environmentStack.length = n]: a shorter array is cut, a longer one
    gets holes. *)
Definition setEnvironmentStackLength (n : nat) : M unit :=
  modify (fun s =>
    let stack := environmentStack s in
    setEnvironmentStack (take n stack ++ replicate (n - length stack) None) s).

(** [new Map()] pushed on the environment stack, with the given bindings;
    the result is the identity of the new frame. *)
Definition pushEnvironment (b : gmap string EnvironmentValue) : M nat :=
  fun s =>
    let id := nextFrameId s in
    Ok id (setNextFrameId (S id)
             (setEnvironmentStack
                (environmentStack s ++ [Some {| frame_id := id; bindings := b |}]) s)).

(** [environment.set(name, value)] on the [Map] of identity [id]: a frame of
    the stack is updated in place; a [Map] that is no longer on the stack is
    unreachable, and writing to it has no effect that can be seen. *)
Definition updateFrames (id : nat) (f : gmap string EnvironmentValue -> gmap string EnvironmentValue)
    (stack : list (option Environment)) : list (option Environment) :=
  (fun slot =>
     match slot with
     | Some env =>
         if decide (frame_id env = id)
         then Some {| frame_id := id; bindings := f (bindings env) |}
         else slot
     | None => None
     end) <$> stack.

Definition environmentSet (id : nat) (name : string) (v : MValue) : M unit :=
  modify (fun s =>
    setEnvironmentStack (updateFrames id <[name := Binding v]> (environmentStack s)) s).

Definition environmentDelete (id : nat) (name : string) : M unit :=
  modify (fun s =>
    setEnvironmentStack (updateFrames id (delete name) (environmentStack s)) s).

Fixpoint findFrame (id : nat) (stack : list (option Environment)) : option Environment :=
  match stack with
  | [] => None
  | Some env :: rest =>
      if decide (frame_id env = id) then Some env else findFrame id rest
  | None :: rest => findFrame id rest
  end.

(** [reportError(message, node, state)]. *)
Definition reportError (message : string) (range : TextRange) : M unit :=
  modify (fun s =>
    setErrors (errors s ++ [{| message := message;
                               errorLine := line (start range);
                               errorColumn := column (start range) |}]) s).

(** A new array node [{kind: Array, value}] in the store. *)
Definition newArray (value : MScalar) : M loc :=
  fun s =>
    let l := fresh (dom (heap s)) in
    Ok l (setHeap (<[l := {| arrayValue := value; arrayChildren := ∅ |}]> (heap s)) s).

(* ================================================================== *)
(** * JavaScript operations the interpreter applies to scalars and strings *)
(* ================================================================== *)

Definition newline : string := String (ascii_of_nat 10) "".

Definition doubleQuote : string := String (ascii_of_nat 34) "".

Definition numberOfBool (b : bool) : number :=
  if b then PrimFloat.one else PrimFloat.zero.

(** [x !== 0] on numbers. *)
Definition nonZero (x : number) : bool := negb (PrimFloat.eqb x PrimFloat.zero).

(** [a === b] on scalars: no conversion between a string and a number. *)
Definition jsStrictEquals (a b : MScalar) : bool :=
  match a, b with
  | MNumber x, MNumber y => PrimFloat.eqb x y
  | MString x, MString y => String.eqb x y
  | _, _ => false
  end.

Definition jsToNumber (v : MScalar) : number :=
  match v with
  | MNumber n => n
  | MString s => jsStringToNumber s
  end.

(** [a < b] on scalars: two strings are compared code unit by code unit,
    anything else as numbers. *)
Definition jsLessThan (a b : MScalar) : bool :=
  match a, b with
  | MString x, MString y => String.ltb x y
  | _, _ => PrimFloat.ltb (jsToNumber a) (jsToNumber b)
  end.

(** The truth of a value in a JS condition. *)
Definition jsTruthy (v : MValue) : bool :=
  match v with
  | MScalarValue (MNumber n) => negb (PrimFloat.is_nan n) && nonZero n
  | MScalarValue (MString s) => negb (String.eqb s "")
  | MArrayValue _ => true
  end.

(** A relative index of [slice], for a string of length [len]. *)
Definition sliceIndex (len : Z) (x : number) : Z :=
  match toIntegerOrInfinity x with
  | NegativeInfinity => 0
  | Finite z => if z <? 0 then Z.max (len + z) 0 else Z.min z len
  | PositiveInfinity => len
  end.

(** [s.slice(from, to)]; [to = None] is an absent second argument. *)
Definition jsSlice (s : string) (from : number) (to : option number) : string :=
  let len := Z.of_nat (String.length s) in
  let i := sliceIndex len from in
  let j := match to with Some t => sliceIndex len t | None => len end in
  substring (Z.to_nat i) (Z.to_nat (j - i)) s.

(** [s[i]] for a number [i]: a code unit at an index of the string,
    [undefined] anywhere else. *)
Definition jsCharAt (s : string) (i : number) : option ascii :=
  match toIntegerOrInfinity i with
  | Finite z =>
      if (0 <=? z) && PrimFloat.eqb (numberOfZ z) i
      then String.get (Z.to_nat z) s else None
  | _ => None
  end.

(** [String.fromCharCode(x)]: the string of the one code unit [x] modulo
    2^16.  A code unit of this embedding has 8 bits: a code from 256 on has
    no string here, and the result is [None]. *)
Definition fromCharCode (x : number) : option string :=
  let code :=
    match toIntegerOrInfinity x with
    | Finite z => z mod 65536
    | _ => 0
    end in
  if code <? 256 then Some (String (ascii_of_N (Z.to_N code)) "") else None.

(** [" ".repeat(count)]: a RangeError for a negative or infinite count.
    (An engine also refuses a result longer than its longest string.) *)
Definition repeatSpace (count : number) : option string :=
  match toIntegerOrInfinity count with
  | Finite z => if z <? 0 then None else Some (String.concat "" (repeat " " (Z.to_nat z)))
  | _ => None
  end.

(** The value of a binary operator on two scalars: the [switch] of
    [interpretBinaryOp]. *)
Definition binaryOpValue `{JsEngine} (op : BinaryOp.t) (left right : MScalar) : MScalar :=
  let l := scalarToNumber left in
  let r := scalarToNumber right in
  match op with
  | BinaryOp.Or => MNumber (numberOfBool (nonZero l || nonZero r))
  | BinaryOp.And => MNumber (numberOfBool (nonZero l && nonZero r))
  | BinaryOp.Equals => MNumber (numberOfBool (jsStrictEquals left right))
  | BinaryOp.LessThan => MNumber (numberOfBool (jsLessThan left right))
  | BinaryOp.GreaterThan => MNumber (numberOfBool (jsLessThan right left))
  | BinaryOp.Add => MNumber (PrimFloat.add l r)
  | BinaryOp.Subtract => MNumber (PrimFloat.sub l r)
  | BinaryOp.Multiply => MNumber (PrimFloat.mul l r)
  | BinaryOp.Power => MNumber (Math_pow l r)
  | BinaryOp.Divide => MNumber (PrimFloat.div l r)
  | BinaryOp.IntegerDivide => MNumber (Math_floor (PrimFloat.div l r))
  | BinaryOp.Modulo => MNumber (numberRemainder l r)
  | BinaryOp.Concatenate => MString (scalarToString left ++ scalarToString right)
  end.

(** [value = mValueToNumber(value) === 0 ? 1 : 0]. *)
Definition negateValue (v : MScalar) : MScalar :=
  MNumber (numberOfBool (PrimFloat.eqb (scalarToNumber v) PrimFloat.zero)).

Definition unaryOpValue (op : UnaryOp.t) (right : MScalar) : MScalar :=
  match op with
  | UnaryOp.Not => negateValue right
  | UnaryOp.Plus => MNumber (scalarToNumber right)
  | UnaryOp.Minus => MNumber (PrimFloat.opp (scalarToNumber right))
  end.

(** The scan of [interpretFindBuiltin]: [i] is a number (it starts from
    [findStart]), [matchProgress] counts the code units of the needle matched
    so far.  The result is the number pushed.  Every second step at least
    advances [i], so [steps = 2 * length + 3] steps reach the end. *)
Fixpoint findLoop (steps : nat) (haystack needle : string) (i : number)
    (matchProgress : nat) : number :=
  match steps with
  | O => PrimFloat.zero
  | S steps' =>
      if negb (PrimFloat.ltb i (numberOfNat (String.length haystack)))
      then PrimFloat.zero
      else if negb (bool_decide (jsCharAt haystack i = String.get matchProgress needle))
      then
        if bool_decide (0 < matchProgress)%nat
        then findLoop steps' haystack needle i 0
        else findLoop steps' haystack needle (PrimFloat.add i PrimFloat.one) 0
      else
        let matchProgress' := S matchProgress in
        let i' := PrimFloat.add i PrimFloat.one in
        if bool_decide (String.length needle <= matchProgress')%nat
        then PrimFloat.add i' PrimFloat.one
        else findLoop steps' haystack needle i' matchProgress'
  end.

Definition findFrom (haystack needle : string) (findStart : number) : number :=
  findLoop (2 * String.length haystack + 3) haystack needle findStart 0.

(* ================================================================== *)
(** * The interpreter (interpreter.ts) *)
(* ================================================================== *)

(** What [getReference] returns: a reference, [null] (nothing to read
    there), or [undefined] (a subscript failed or is the empty string). *)
Inductive ReferenceResult :=
| FoundReference (r : MReference)
| NullReference
| UndefinedReference.

(** The scan of the environment stack in [getReference], from frame [i - 1]
    down to frame 0. *)
Inductive Lookup :=
| LookupThrows
| LookupIndirect (r : MReference)
| LookupBinding (environment : nat) (v : MValue)
| LookupNothing.

Fixpoint lookupName (name : string) (stack : list (option Environment)) (i : nat) : Lookup :=
  match i with
  | O => LookupNothing
  | S j =>
      match stack !! j with
      | Some (Some possibleEnvironment) =>
          match bindings possibleEnvironment !! name with
          | None => lookupName name stack j
          | Some (IndirectReference r) => LookupIndirect r
          | Some (Binding v) => LookupBinding (frame_id possibleEnvironment) v
          end
      | _ => LookupThrows
      end
  end.

Definition getReferenceValue (reference : MReference) : M MValue :=
  let* s := getState in
  match reference with
  | ArrayReference array key =>
      ret (default (MScalarValue emptyString) (mArrayGet (heap s) array key))
  | EnvironmentReference environment name =>
      match findFrame environment (environmentStack s) with
      | Some env =>
          match bindings env !! name with
          | Some (Binding v) => ret v
          | Some (IndirectReference _) => abort UndefinedValue
          | None => ret (MScalarValue emptyString)
          end
      | None => abort UndefinedValue
      end
  end.

Definition setReferenceValue (reference : MReference) (value : MValue) : M unit :=
  match reference with
  | ArrayReference array key =>
      modify (fun s => setHeap (mArraySet (heap s) array key value) s)
  | EnvironmentReference environment name => environmentSet environment name value
  end.

Definition getSpecialVariable (name : string) : M (option MValue) :=
  let* s := getState in
  match environmentStack s !! 0%nat with
  | Some (Some env) =>
      match bindings env !! name with
      | Some (Binding v) => ret (Some v)
      | Some (IndirectReference _) => abort UndefinedValue
      | None => ret None
      end
  | _ => throw TypeError
  end.

Definition setSpecialVariable (name : string) (value : MValue) : M unit :=
  let* s := getState in
  match environmentStack s with
  | Some env :: rest =>
      modify (setEnvironmentStack
                (Some {| frame_id := frame_id env;
                         bindings := <[name := Binding value]> (bindings env) |} :: rest))
  | _ => throw TypeError
  end.

(** Modelled from the spec: [mValueCopy] of the absent mValue.ts, the deep
    copy of a value (4.3.4, merge): a scalar is itself, an array node is a
    new node with the same self-value and copies of the children.  [depth]
    bounds the depth of the tree copied. *)
Fixpoint mapM {A B} (f : A -> M B) (l : list A) : M (list B) :=
  match l with
  | [] => ret []
  | x :: rest =>
      let* y := f x in
      let* ys := mapM f rest in
      ret (y :: ys)
  end.

Fixpoint mValueCopy (depth : nat) (v : MValue) : M MValue :=
  match v with
  | MScalarValue _ => ret v
  | MArrayValue l =>
      match depth with
      | O => abort OutOfFuel
      | S depth' =>
          let* s := getState in
          match heap s !! l with
          | None => abort UndefinedValue
          | Some a =>
              let* copies :=
                mapM (fun pair : string * MValue =>
                        let* c := mValueCopy depth' pair.2 in ret (pair.1, c))
                     (map_to_list (arrayChildren a)) in
              fun s' =>
                let l' := fresh (dom (heap s')) in
                Ok (MArrayValue l')
                   (setHeap (<[l' := {| arrayValue := arrayValue a;
                                        arrayChildren := list_to_map copies |}]>
                               (heap s')) s')
          end
      end
  end.

Section Interpreter.

Context {engine : JsEngine}.

(** The two mutually recursive entry points, one level of fuel down, and the
    bound of the [while (true)] loops. *)
Variable interpretExpression : ExpressionAstNode -> M bool.
Variable interpretCommand : CommandAstNode -> M CommandResult.t.
Variable fuel : nat.

Definition getSubscriptKey (i : nat) (subscripts : option (list ExpressionAstNode))
    (subscriptValues : option (list string)) : M (option string) :=
  match subscriptValues with
  | Some values => ret (values !! i)
  | None =>
      match subscripts with
      | Some nodes =>
          match nodes !! i with
          | Some node =>
              let* subscript := interpretExpression node in
              if subscript : bool then
                let* v := pop in ret (Some (scalarToString v))
              else ret None
          | None => throw TypeError
          end
      | None => ret None
      end
  end.

(** The subscript loop of [getReference], [count] subscripts from index [i]
    on; [array] and [subscriptKey] are the node and key of the level above,
    [value] what was read there. *)
Fixpoint getReferenceLoop (count i : nat) (environment : nat) (name : string)
    (subscripts : option (list ExpressionAstNode)) (subscriptValues : option (list string))
    (canCreate : bool) (array : option loc) (subscriptKey : option string)
    (value : option MValue) : M ReferenceResult :=
  match count with
  | O =>
      match array, subscriptKey with
      | Some a, Some k => ret (FoundReference (ArrayReference a k))
      | _, _ => abort UndefinedValue
      end
  | S count' =>
      let* node :=
        match value with
        | Some (MArrayValue l) => ret (Some l)
        | _ =>
            if canCreate then
              let* l := newArray (match value with
                                  | Some (MScalarValue v) => v
                                  | _ => emptyString
                                  end) in
              (if bool_decide (0 < i)%nat then
                 match array, subscriptKey with
                 | Some a, Some k =>
                     modify (fun s => setHeap (mArraySet (heap s) a k (MArrayValue l)) s)
                 | _, _ => abort UndefinedValue
                 end
               else environmentSet environment name (MArrayValue l)) ;;;
              ret (Some l)
            else ret None
        end in
      match node with
      | None => ret NullReference
      | Some l =>
          let* key := getSubscriptKey i subscripts subscriptValues in
          match key with
          | None | Some EmptyString => ret UndefinedReference
          | Some k =>
              let* s := getState in
              getReferenceLoop count' (S i) environment name subscripts subscriptValues
                canCreate (Some l) (Some k) (mArrayGet (heap s) l k)
          end
      end
  end.

Definition getReference (name : string) (subscriptCount : nat)
    (subscripts : option (list ExpressionAstNode)) (subscriptValues : option (list string))
    (canCreate : bool) : M ReferenceResult :=
  let* s := getState in
  let stack := environmentStack s in
  match lookupName name stack (length stack) with
  | LookupThrows => throw TypeError
  | LookupIndirect r => ret (FoundReference r)
  | found =>
      let* (environment, value) :=
        match found with
        | LookupBinding environment v => ret (environment, Some v)
        | _ =>
            match stack !! 0%nat with
            | Some (Some env) => ret (frame_id env, None)
            | _ => abort UndefinedValue
            end
        end in
      if bool_decide (subscriptCount = 0)%nat
      then ret (FoundReference (EnvironmentReference environment name))
      else getReferenceLoop subscriptCount 0 environment name subscripts subscriptValues
             canCreate None None value
  end.

(** [subscriptCount = None] is the default, the number of subscripts of the
    node. *)
Definition getVariableReference (node : VariableAstNode) (subscriptCount : option nat)
    (subscriptValues : option (list string)) (canCreate : bool) : M (option MReference) :=
  let* reference :=
    getReference (variableName node)
      (default (length (variableSubscripts node)) subscriptCount)
      (Some (variableSubscripts node)) subscriptValues canCreate in
  match reference with
  | NullReference =>
      reportError "Variable does not exist" (variableRange node) ;;; ret None
  | UndefinedReference => ret None
  | FoundReference r => ret (Some r)
  end.

Definition getCallArgumentReference (node : CallArgumentAstNode) : M (option MValue) :=
  match node with
  | Reference name range =>
      let* reference := getReference (text name) 0 None None false in
      match reference with
      | FoundReference r => let* v := getReferenceValue r in ret (Some v)
      | _ => reportError "Referenced variable does not exist" range ;;; ret None
      end
  | Argument expression =>
      let* ok := interpretExpression expression in
      if ok : bool then let* v := pop in ret (Some (MScalarValue v)) else ret None
  end.

Definition setVariable (node : VariableAstNode) (value : MValue) : M bool :=
  let* startReference := getVariableReference node None None true in
  match startReference with
  | None => ret false
  | Some r => setReferenceValue r value ;;; ret true
  end.

Definition interpretVariable (node : VariableAstNode) : M bool :=
  let* reference := getVariableReference node None None false in
  match reference with
  | None => ret false
  | Some r =>
      let* value := getReferenceValue r in
      let* s := getState in
      push (mValueToScalar (heap s) value) ;;; ret true
  end.

(** The argument loop of [interpretExtern]: [None] when an argument fails. *)
Fixpoint externArguments (args : list CallArgumentAstNode) : M (option (list MValue)) :=
  match args with
  | [] => ret (Some [])
  | arg :: rest =>
      let* value := getCallArgumentReference arg in
      match value with
      | None => ret None
      | Some v =>
          let* values := externArguments rest in
          ret (cons v <$> values)
      end
  end.

Definition interpretExtern (node : CallAstNode) (extern : Extern) (hasReturnValue : bool)
    : M bool :=
  let '(MkCall _ args _) := node in
  let* argValues := externArguments args in
  match argValues with
  | None => ret false
  | Some values =>
      let* s := getState in
      let returnValue := extern (heap s) values in
      (if hasReturnValue then push (default emptyString returnValue) else ret tt) ;;;
      ret true
  end.

Fixpoint interpretChildCommands (children : list CommandAstNode) : M CommandResult.t :=
  match children with
  | [] => ret CommandResult.Continue
  | command :: rest =>
      let* result := interpretCommand command in
      match result with
      | CommandResult.Continue => interpretChildCommands rest
      | _ => ret result
      end
  end.

Definition interpretTopLevel (start : nat) : M CommandResult.t :=
  let* s := getState in
  interpretChildCommands (drop start (topLevelChildren (ast s))).

(** The first loop of [interpretCall]: parameter [i] is bound to argument
    [i] while both exist; [false] when an argument fails. *)
Fixpoint bindArguments (environment : nat) (params : list string)
    (args : list CallArgumentAstNode) : M bool :=
  match params, args with
  | param :: params', arg :: args' =>
      let* value := getCallArgumentReference arg in
      match value with
      | None => ret false
      | Some v =>
          environmentSet environment param v ;;;
          bindArguments environment params' args'
      end
  | _, _ => ret true
  end.

(** The second loop: the parameters without an argument are bound to the
    empty string. *)
Fixpoint bindMissing (environment : nat) (params : list string) : M unit :=
  match params with
  | [] => ret tt
  | param :: rest =>
      environmentSet environment param (MScalarValue emptyString) ;;;
      bindMissing environment rest
  end.

Definition interpretCall (node : CallAstNode) (hasReturnValue : bool) : M bool :=
  let '(MkCall name args range) := node in
  let* s := getState in
  match tags (ast s) !! text name with
  | None =>
      match externs s !! text name with
      | Some extern => interpretExtern node extern hasReturnValue
      | None =>
          reportError ("Tag " ++ doubleQuote ++ text name ++ doubleQuote ++ " not found")
            range ;;;
          ret false
      end
  | Some tag =>
      let callEnvironmentStackLength := length (environmentStack s) in
      let* bound :=
        match params tag with
        | Some tagParams =>
            let* environment := pushEnvironment ∅ in
            let* ok := bindArguments environment tagParams args in
            if ok : bool then
              bindMissing environment (drop (length args) tagParams) ;;; ret true
            else ret false
        | None => ret true
        end in
      if bound : bool then
        let* s1 := getState in
        let callValueStackLength := length (valueStack s1) in
        let* _ := interpretTopLevel (index tag) in
        (if hasReturnValue then
           let* s2 := getState in
           if bool_decide (length (valueStack s2) = callValueStackLength)
           then push emptyString else ret tt
         else truncateValueStack callValueStackLength) ;;;
        setEnvironmentStackLength callEnvironmentStackLength ;;;
        ret true
      else ret false
  end.

Definition interpretUnaryOp (right : ExpressionAstNode) (op : UnaryOp.t) : M bool :=
  let* ok := interpretExpression right in
  if ok : bool then
    let* r := pop in
    push (unaryOpValue op r) ;;; ret true
  else ret false.

Definition interpretBinaryOp (left right : ExpressionAstNode) (op : BinaryOp.t)
    (isNegated : bool) : M bool :=
  let* okLeft := interpretExpression left in
  if okLeft : bool then
    let* okRight := interpretExpression right in
    if okRight : bool then
      let* r := pop in
      let* l := pop in
      let value := binaryOpValue op l r in
      push (if isNegated then negateValue value else value) ;;; ret true
    else ret false
  else ret false.

(** [Math.max(a, b)]. *)
Definition Math_max (a b : number) : number :=
  if PrimFloat.is_nan a || PrimFloat.is_nan b then PrimFloat.nan
  else if PrimFloat.ltb a b then b
  else if PrimFloat.ltb b a then a
  else if PrimFloat.get_sign a then b else a.

Definition minusOne : number := PrimFloat.opp PrimFloat.one.

(** The direction of [$O]: [Some] of it, or [None] when [interpretOrderBuiltin]
    returns [false] before it looks at the variable. *)
Definition orderDirection (direction : option ExpressionAstNode) : M (option number) :=
  match direction with
  | Some node =>
      let* ok := interpretExpression node in
      if ok : bool then
        let* v := pop in
        let d := scalarToNumber v in
        if negb (PrimFloat.eqb d PrimFloat.one) && negb (PrimFloat.eqb d minusOne) then
          reportError "Expected 1 or -1 for order builtin's direction argument"
            (expressionRange node) ;;;
          ret None
        else ret (Some d)
      else ret None
  | None => ret (Some PrimFloat.one)
  end.

Definition interpretOrderBuiltin (variable : VariableAstNode)
    (direction : option ExpressionAstNode) : M bool :=
  let* checked := orderDirection direction in
  match checked with
  | None => ret false
  | Some d =>
      let subscripts := variableSubscripts variable in
      if bool_decide (length subscripts = 0)%nat then push emptyString ;;; ret true
      else
        let lastSubscript := (length subscripts - 1)%nat in
        let* reference := getVariableReference variable (Some lastSubscript) None false in
        match reference with
        | None => ret false
        | Some r =>
            let* value := getReferenceValue r in
            match subscripts !! lastSubscript with
            | None => throw TypeError
            | Some node =>
                let* ok := interpretExpression node in
                if ok : bool then
                  let* k := pop in
                  let finalSubscriptKey := scalarToString k in
                  match value with
                  | MScalarValue _ => push emptyString ;;; ret true
                  | MArrayValue array =>
                      let* s := getState in
                      let nextKey :=
                        if PrimFloat.ltb d PrimFloat.zero
                        then mArrayGetPreviousKey (heap s) array finalSubscriptKey
                        else mArrayGetNextKey (heap s) array finalSubscriptKey in
                      push (MString nextKey) ;;; ret true
                  end
                else ret false
            end
        end
  end.

Definition interpretLengthBuiltin (arg : ExpressionAstNode) : M bool :=
  let* ok := interpretExpression arg in
  if ok : bool then
    let* v := pop in
    push (MNumber (numberOfNat (String.length (scalarToString v)))) ;;; ret true
  else ret false.

Definition getExtractionStart (node : ExtractBuiltinAstNode) : M (option number) :=
  let '(MkExtract _ extractionStart _ _) := node in
  match extractionStart with
  | Some e =>
      let* ok := interpretExpression e in
      if ok : bool then
        let* v := pop in ret (Some (PrimFloat.sub (scalarToNumber v) PrimFloat.one))
      else ret None
  | None => ret (Some PrimFloat.zero)
  end.

Definition getExtractionEnd (node : ExtractBuiltinAstNode) (start : number)
    : M (option number) :=
  let '(MkExtract _ _ extractionEnd _) := node in
  match extractionEnd with
  | Some e =>
      let* ok := interpretExpression e in
      if ok : bool then let* v := pop in ret (Some (scalarToNumber v)) else ret None
  | None => ret (Some (PrimFloat.add start PrimFloat.one))
  end.

Definition interpretExtractBuiltin (node : ExtractBuiltinAstNode) : M bool :=
  let '(MkExtract target _ _ _) := node in
  let* ok := interpretExpression target in
  if ok : bool then
    let* v := pop in
    let value := scalarToString v in
    let* start := getExtractionStart node in
    match start with
    | None => ret false
    | Some start =>
        let* end' := getExtractionEnd node start in
        match end' with
        | None => ret false
        | Some end' => push (MString (jsSlice value start (Some end'))) ;;; ret true
        end
    end
  else ret false.

Fixpoint interpretSelectArgs (args : list SelectBuiltinArgAstNode) (range : TextRange)
    : M bool :=
  match args with
  | [] => reportError "All select conditions were false" range ;;; ret false
  | MkSelectArg condition value _ :: rest =>
      let* ok := interpretExpression condition in
      if ok : bool then
        let* c := pop in
        if PrimFloat.eqb (scalarToNumber c) PrimFloat.zero
        then interpretSelectArgs rest range
        else interpretExpression value
      else ret false
  end.

Definition interpretSelectBuiltin (args : list SelectBuiltinArgAstNode) (range : TextRange)
    : M bool :=
  interpretSelectArgs args range.

(** When a start is given, the code evaluates [node.haystack] a second time
    and takes the start from its value. *)
Definition interpretFindBuiltin (haystackNode needleNode : ExpressionAstNode)
    (findStartNode : option ExpressionAstNode) : M bool :=
  let* ok := interpretExpression haystackNode in
  if ok : bool then
    let* h := pop in
    let haystack := scalarToString h in
    let* ok := interpretExpression needleNode in
    if ok : bool then
      let* n := pop in
      let needle := scalarToString n in
      let* findStart :=
        match findStartNode with
        | Some _ =>
            let* ok := interpretExpression haystackNode in
            if ok : bool then
              let* v := pop in
              ret (Some (Math_max (PrimFloat.sub (scalarToNumber v) PrimFloat.one)
                           PrimFloat.zero))
            else ret None
        | None => ret (Some PrimFloat.zero)
        end in
      match findStart with
      | None => ret false
      | Some findStart =>
          if String.eqb needle "" then push (MNumber PrimFloat.one) ;;; ret true
          else push (MNumber (findFrom haystack needle findStart)) ;;; ret true
      end
    else ret false
  else ret false.

Definition interpretRandomBuiltin (max : ExpressionAstNode) : M bool :=
  let* ok := interpretExpression max in
  if ok : bool then
    let* v := pop in
    let max := Math_floor (scalarToNumber v) in
    let* s := getState in
    modify (setRandomCalls (S (randomCalls s))) ;;;
    push (MNumber (Math_floor (PrimFloat.mul (Math_random (randomCalls s))
                                 (PrimFloat.add max PrimFloat.one)))) ;;;
    ret true
  else ret false.

Definition interpretAsciiBuiltin (value : ExpressionAstNode) : M bool :=
  let* ok := interpretExpression value in
  if ok : bool then
    let* v := pop in
    push (MNumber match scalarToString v with
                  | String c _ => numberOfZ (Z.of_N (N_of_ascii c))
                  | EmptyString => minusOne
                  end) ;;;
    ret true
  else ret false.

Definition interpretCharBuiltin (value : ExpressionAstNode) : M bool :=
  let* ok := interpretExpression value in
  if ok : bool then
    let* v := pop in
    match fromCharCode (scalarToNumber v) with
    | Some character => push (MString character) ;;; ret true
    | None => abort WideString
    end
  else ret false.

(** The body of [interpretExpression]. *)
Definition interpretExpressionStep (node : ExpressionAstNode) : M bool :=
  match node with
  | VariableNode v => interpretVariable v
  | NumberLiteral value _ => push (MNumber value) ;;; ret true
  | StringLiteral value _ => push (MString value) ;;; ret true
  | CallNode c => interpretCall c true
  | UnaryOpNode operand op _ => interpretUnaryOp operand op
  | BinaryOpNode lhs rhs op isNegated _ => interpretBinaryOp lhs rhs op isNegated
  | OrderBuiltin variable direction _ => interpretOrderBuiltin variable direction
  | LengthBuiltin arg _ => interpretLengthBuiltin arg
  | ExtractBuiltinNode x => interpretExtractBuiltin x
  | SelectBuiltin args range => interpretSelectBuiltin args range
  | FindBuiltin haystack needle findStart _ => interpretFindBuiltin haystack needle findStart
  | RandomBuiltin max _ => interpretRandomBuiltin max
  | AsciiBuiltin value _ => interpretAsciiBuiltin value
  | CharBuiltin value _ => interpretCharBuiltin value
  end.

Fixpoint interpretWriteArgs (args : list WriteArgumentAstNode) : M CommandResult.t :=
  match args with
  | [] => ret CommandResult.Continue
  | arg :: rest =>
      match arg with
      | HashFormatter =>
          modify (setOutput [] PrimFloat.zero) ;;; interpretWriteArgs rest
      | ExclamationPointFormatter =>
          modify (fun s => setOutput (output s ++ [newline]) PrimFloat.zero s) ;;;
          interpretWriteArgs rest
      | QuestionMarkFormatter minColumn =>
          let* ok := interpretExpression minColumn in
          if ok : bool then
            let* v := pop in
            let minColumn := Math_floor (scalarToNumber v) in
            let* s := getState in
            if PrimFloat.ltb (outputColumn s) minColumn then
              match repeatSpace (PrimFloat.sub minColumn (outputColumn s)) with
              | Some spaces =>
                  modify (setOutput (output s ++ [spaces]) minColumn) ;;;
                  interpretWriteArgs rest
              | None => throw RangeError
              end
            else interpretWriteArgs rest
          else ret CommandResult.Halt
      | WriteExpression e =>
          let* ok := interpretExpression e in
          if ok : bool then
            let* v := pop in
            let value := scalarToString v in
            modify (fun s =>
              setOutput (output s ++ [value])
                (PrimFloat.add (outputColumn s) (numberOfNat (String.length value))) s) ;;;
            interpretWriteArgs rest
          else ret CommandResult.Halt
      end
  end.

Definition interpretWrite (args : list WriteArgumentAstNode) : M CommandResult.t :=
  interpretWriteArgs args.

Definition interpretQuit (returnValue : option ExpressionAstNode) : M CommandResult.t :=
  match returnValue with
  | None => ret CommandResult.Quit
  | Some e =>
      let* ok := interpretExpression e in
      if ok : bool then ret CommandResult.Quit else ret CommandResult.Halt
  end.

(** The loop of [interpretDoBlock]: [Halt] when a command halts, [Continue]
    at the end of the block or at a [Quit]. *)
Fixpoint interpretDoBlockLoop (children : list CommandAstNode) : M CommandResult.t :=
  match children with
  | [] => ret CommandResult.Continue
  | command :: rest =>
      let* blockResult := interpretCommand command in
      match blockResult with
      | CommandResult.Quit => ret CommandResult.Continue
      | CommandResult.Halt => ret CommandResult.Halt
      | CommandResult.Continue => interpretDoBlockLoop rest
      end
  end.

Definition interpretDoBlock (children : list CommandAstNode) : M CommandResult.t :=
  let* s := getState in
  let startEnvironmentStackLength := length (environmentStack s) in
  let* result := interpretDoBlockLoop children in
  match result with
  | CommandResult.Halt => ret CommandResult.Halt
  | _ =>
      setEnvironmentStackLength startEnvironmentStackLength ;;;
      ret CommandResult.Continue
  end.

Definition TEST : string := "$TEST".

Fixpoint interpretIf (conditions : list ExpressionAstNode) (children : list CommandAstNode)
    : M CommandResult.t :=
  match conditions with
  | [] =>
      setSpecialVariable TEST (MScalarValue (MNumber PrimFloat.one)) ;;;
      interpretChildCommands children
  | condition :: rest =>
      let* ok := interpretExpression condition in
      if ok : bool then
        let* v := pop in
        if PrimFloat.eqb (scalarToNumber v) PrimFloat.zero then
          setSpecialVariable TEST (MScalarValue (MNumber PrimFloat.zero)) ;;;
          ret CommandResult.Continue
        else interpretIf rest children
      else ret CommandResult.Halt
  end.

Definition interpretElse (children : list CommandAstNode) : M CommandResult.t :=
  let* test := getSpecialVariable TEST in
  let* s := getState in
  match test with
  | Some t =>
      if jsTruthy t && nonZero (mValueToNumber (heap s) t)
      then ret CommandResult.Continue
      else interpretChildCommands children
  | None => interpretChildCommands children
  end.

Fixpoint interpretForWithNoArgLoop (n : nat) (children : list CommandAstNode)
    : M CommandResult.t :=
  match n with
  | O => abort OutOfFuel
  | S n' =>
      let* result := interpretChildCommands children in
      match result with
      | CommandResult.Halt => ret CommandResult.Halt
      | CommandResult.Quit => ret CommandResult.Continue
      | CommandResult.Continue => interpretForWithNoArgLoop n' children
      end
  end.

Definition interpretForWithNoArg (children : list CommandAstNode) : M CommandResult.t :=
  interpretForWithNoArgLoop fuel children.

Definition interpretForWithStart (variable : VariableAstNode) (start : ExpressionAstNode)
    (children : list CommandAstNode) : M CommandResult.t :=
  let* ok := interpretExpression start in
  if ok : bool then
    let* startValue := pop in
    let* set := setVariable variable (MScalarValue startValue) in
    if set : bool then
      let* result := interpretChildCommands children in
      match result with
      | CommandResult.Halt => ret CommandResult.Halt
      | _ => ret CommandResult.Continue
      end
    else ret CommandResult.Halt
  else ret CommandResult.Halt.

(** The end of an iteration of the two counting loops: the variable is read
    again and the increment added; [false] when that fails. *)
Definition stepVariable (variable : VariableAstNode) (incrementValue : number) : M bool :=
  let* ok := interpretVariable variable in
  if ok : bool then
    let* v := pop in
    let nextVariableValue := PrimFloat.add (scalarToNumber v) incrementValue in
    setVariable variable (MScalarValue (MNumber nextVariableValue))
  else ret false.

Fixpoint interpretForWithStartIncrementLoop (n : nat) (variable : VariableAstNode)
    (incrementValue : number) (children : list CommandAstNode) : M CommandResult.t :=
  match n with
  | O => abort OutOfFuel
  | S n' =>
      let* result := interpretChildCommands children in
      match result with
      | CommandResult.Halt => ret CommandResult.Halt
      | CommandResult.Quit => ret CommandResult.Continue
      | CommandResult.Continue =>
          let* ok := stepVariable variable incrementValue in
          if ok : bool
          then interpretForWithStartIncrementLoop n' variable incrementValue children
          else ret CommandResult.Halt
      end
  end.

Definition interpretForWithStartIncrement (variable : VariableAstNode)
    (start increment : ExpressionAstNode) (children : list CommandAstNode)
    : M CommandResult.t :=
  let* ok := interpretExpression start in
  if ok : bool then
    let* ok := interpretExpression increment in
    if ok : bool then
      let* i := pop in
      let incrementValue := scalarToNumber i in
      let* st := pop in
      let startValue := scalarToNumber st in
      let* set := setVariable variable (MScalarValue (MNumber startValue)) in
      if set : bool
      then interpretForWithStartIncrementLoop fuel variable incrementValue children
      else ret CommandResult.Halt
    else ret CommandResult.Halt
  else ret CommandResult.Halt.

Fixpoint interpretForWithStartIncrementEndLoop (n : nat) (variable : VariableAstNode)
    (incrementValue endValue : number) (children : list CommandAstNode)
    : M CommandResult.t :=
  match n with
  | O => abort OutOfFuel
  | S n' =>
      let* ok := interpretVariable variable in
      if ok : bool then
        let* v := pop in
        let variableValue := scalarToNumber v in
        if (PrimFloat.ltb incrementValue PrimFloat.zero
            && PrimFloat.ltb variableValue endValue)
           || (PrimFloat.leb PrimFloat.zero incrementValue
               && PrimFloat.ltb endValue variableValue)
        then ret CommandResult.Continue
        else
          let* result := interpretChildCommands children in
          match result with
          | CommandResult.Halt => ret CommandResult.Halt
          | CommandResult.Quit => ret CommandResult.Continue
          | CommandResult.Continue =>
              let* ok := stepVariable variable incrementValue in
              if ok : bool
              then interpretForWithStartIncrementEndLoop n' variable incrementValue
                     endValue children
              else ret CommandResult.Halt
          end
      else ret CommandResult.Halt
  end.

Definition interpretForWithStartIncrementEnd (variable : VariableAstNode)
    (start increment end' : ExpressionAstNode) (children : list CommandAstNode)
    : M CommandResult.t :=
  let* ok := interpretExpression start in
  if ok : bool then
    let* ok := interpretExpression increment in
    if ok : bool then
      let* ok := interpretExpression end' in
      if ok : bool then
        let* e := pop in
        let endValue := scalarToNumber e in
        let* i := pop in
        let incrementValue := scalarToNumber i in
        let* st := pop in
        let startValue := scalarToNumber st in
        let* set := setVariable variable (MScalarValue (MNumber startValue)) in
        if set : bool
        then interpretForWithStartIncrementEndLoop fuel variable incrementValue endValue
               children
        else ret CommandResult.Halt
      else ret CommandResult.Halt
    else ret CommandResult.Halt
  else ret CommandResult.Halt.

(** One parameter of a [for]: its sweep. *)
Definition interpretForParameter (variable : VariableAstNode)
    (parameter : ForParameterAstNode) (children : list CommandAstNode) (range : TextRange)
    : M CommandResult.t :=
  match expressions parameter with
  | [start] => interpretForWithStart variable start children
  | [start; increment] => interpretForWithStartIncrement variable start increment children
  | [start; increment; end'] =>
      interpretForWithStartIncrementEnd variable start increment end' children
  | other =>
      reportError ("Invalid number of expressions in for parameter: "
                   ++ pretty (N.of_nat (length other))) range ;;;
      ret CommandResult.Halt
  end.

(** The loop of [interpretFor] over the parameters. *)
Fixpoint interpretForParameters (variable : VariableAstNode)
    (parameters : list ForParameterAstNode) (children : list CommandAstNode)
    (range : TextRange) : M CommandResult.t :=
  match parameters with
  | [] => ret CommandResult.Continue
  | parameter :: rest =>
      let* result := interpretForParameter variable parameter children range in
      match result with
      | CommandResult.Continue => interpretForParameters variable rest children range
      | _ => ret result
      end
  end.

Definition interpretFor (arg : option ForArgumentAstNode) (children : list CommandAstNode)
    (range : TextRange) : M CommandResult.t :=
  match arg with
  | None => interpretForWithNoArg children
  | Some a => interpretForParameters (forVariable a) (parameters a) children range
  end.

Definition replaceStringRange (destination source : string) (start end' : number) : string :=
  let before := jsSlice destination PrimFloat.zero (Some start) in
  let after := jsSlice destination end' None in
  before ++ source ++ after.

Definition interpretSetExtract (node : ExtractBuiltinAstNode) (value : string)
    : M CommandResult.t :=
  let '(MkExtract target _ _ _) := node in
  match target with
  | VariableNode variable =>
      let* start := getExtractionStart node in
      match start with
      | None => ret CommandResult.Halt
      | Some start =>
          let* end' := getExtractionEnd node start in
          match end' with
          | None => ret CommandResult.Halt
          | Some end' =>
              let* reference := getVariableReference variable None None true in
              match reference with
              | None => ret CommandResult.Halt
              | Some r =>
                  let* current := getReferenceValue r in
                  let* s := getState in
                  let destination := mValueToString (heap s) current in
                  let newValue := replaceStringRange destination value start end' in
                  setReferenceValue r (MScalarValue (MString newValue)) ;;;
                  ret CommandResult.Continue
              end
          end
      end
  | _ => ret CommandResult.Continue
  end.

Definition interpretSetArgument (node : SetArgAstNode) : M CommandResult.t :=
  let* ok := interpretExpression (setValue node) in
  if ok : bool then
    let* value := pop in
    match setTarget node with
    | TargetExtract x => interpretSetExtract x (scalarToString value)
    | TargetVariable v =>
        let* set := setVariable v (MScalarValue value) in
        if set : bool then ret CommandResult.Continue else ret CommandResult.Halt
    end
  else ret CommandResult.Halt.

Fixpoint interpretSet (args : list SetArgAstNode) : M CommandResult.t :=
  match args with
  | [] => ret CommandResult.Continue
  | arg :: rest =>
      let* result := interpretSetArgument arg in
      match result with
      | CommandResult.Continue => interpretSet rest
      | _ => ret result
      end
  end.

Definition interpretNew (args : list IdentifierAstNode) : M CommandResult.t :=
  match args with
  | [] => ret CommandResult.Continue
  | _ =>
      let environment :=
        foldl (fun m arg => <[text arg := Binding (MScalarValue emptyString)]> m) ∅ args in
      pushEnvironment environment ;;; ret CommandResult.Continue
  end.

(** [state.environmentStack = [new Map()]]. *)
Definition resetEnvironmentStack : M unit :=
  fun s =>
    let id := nextFrameId s in
    Ok tt (setNextFrameId (S id)
             (setEnvironmentStack [Some {| frame_id := id; bindings := ∅ |}] s)).

Fixpoint interpretKillArgs (args : list VariableAstNode) : M CommandResult.t :=
  match args with
  | [] => ret CommandResult.Continue
  | arg :: rest =>
      let* reference :=
        getReference (variableName arg) (length (variableSubscripts arg))
          (Some (variableSubscripts arg)) None false in
      match reference with
      | NullReference => interpretKillArgs rest
      | UndefinedReference => ret CommandResult.Halt
      | FoundReference (ArrayReference array key) =>
          modify (fun s => setHeap (mArrayKill (heap s) array key) s) ;;;
          interpretKillArgs rest
      | FoundReference (EnvironmentReference environment name) =>
          environmentDelete environment name ;;; interpretKillArgs rest
      end
  end.

Definition interpretKill (args : list VariableAstNode) : M CommandResult.t :=
  match args with
  | [] => resetEnvironmentStack ;;; ret CommandResult.Continue
  | _ => interpretKillArgs args
  end.

Fixpoint interpretSubscripts (nodes : list ExpressionAstNode) : M (option (list string)) :=
  match nodes with
  | [] => ret (Some [])
  | subscript :: rest =>
      let* ok := interpretExpression subscript in
      if ok : bool then
        let* v := pop in
        let* values := interpretSubscripts rest in
        ret (cons (scalarToString v) <$> values)
      else ret None
  end.

(** The overlap test of [interpretMerge]: the same name, and the evaluated
    subscripts equal at every position both lists have. *)
Fixpoint sameSubscripts (leftSubscriptValues rightSubscriptValues : list string) : bool :=
  match leftSubscriptValues, rightSubscriptValues with
  | l :: ls, r :: rs => if String.eqb l r then sameSubscripts ls rs else false
  | _, _ => true
  end.

Definition doVariablesOverlap (leftName : string) (leftSubscriptValues : list string)
    (rightName : string) (rightSubscriptValues : list string) : bool :=
  String.eqb leftName rightName && sameSubscripts leftSubscriptValues rightSubscriptValues.

(** The copy loop of [interpretMerge] over the children of the source. *)
Fixpoint mergeChildren (destination : loc) (pairs : list (string * MValue)) : M unit :=
  match pairs with
  | [] => ret tt
  | (key, value) :: rest =>
      let* copy := mValueCopy fuel value in
      modify (fun s => setHeap (mArraySet (heap s) destination key copy) s) ;;;
      mergeChildren destination rest
  end.

(** [interpretMerge] from the point where both subscript lists are
    evaluated. *)
Definition mergeVariables (node : MergeAstNode)
    (leftSubscriptValues rightSubscriptValues : list string) : M CommandResult.t :=
  if doVariablesOverlap (variableName (mergeLeft node)) leftSubscriptValues
       (variableName (mergeRight node)) rightSubscriptValues
  then
    reportError "Cannot merge overlapping variables" (mergeRange node) ;;;
    ret CommandResult.Halt
  else
    let* destinationReference :=
      getVariableReference (mergeLeft node) (Some (length leftSubscriptValues))
        (Some leftSubscriptValues) true in
    match destinationReference with
    | None => ret CommandResult.Halt
    | Some dref =>
        let* current := getReferenceValue dref in
        let* destination :=
          match current with
          | MArrayValue l => ret l
          | MScalarValue v =>
              let* l := newArray v in
              setReferenceValue dref (MArrayValue l) ;;; ret l
          end in
        let* sourceReference :=
          getVariableReference (mergeRight node) (Some (length rightSubscriptValues))
            (Some rightSubscriptValues) false in
        match sourceReference with
        | None => ret CommandResult.Halt
        | Some sref =>
            let* source := getReferenceValue sref in
            match source with
            | MScalarValue _ => ret CommandResult.Continue
            | MArrayValue l =>
                let* s := getState in
                match heap s !! l with
                | Some a =>
                    mergeChildren destination (map_to_list (arrayChildren a)) ;;;
                    ret CommandResult.Continue
                | None => abort UndefinedValue
                end
            end
        end
    end.

Definition interpretMerge (node : MergeAstNode) : M CommandResult.t :=
  let* leftSubscriptValues := interpretSubscripts (variableSubscripts (mergeLeft node)) in
  match leftSubscriptValues with
  | None => ret CommandResult.Halt
  | Some leftValues =>
      let* rightSubscriptValues :=
        interpretSubscripts (variableSubscripts (mergeRight node)) in
      match rightSubscriptValues with
      | None => ret CommandResult.Halt
      | Some rightValues => mergeVariables node leftValues rightValues
      end
  end.

(** The [switch] of [interpretCommand].  Its [default] branch ("Unrecognized
    command") is for kinds that [CommandBodyAstNode] does not have. *)
Definition interpretCommandBody (body : CommandBodyAstNode) : M CommandResult.t :=
  match body with
  | CommentBody _ => ret CommandResult.Continue
  | WriteBody args _ => interpretWrite args
  | QuitBody returnValue _ => interpretQuit returnValue
  | DoBlockBody children _ => interpretDoBlock children
  | IfBody conditions children _ => interpretIf conditions children
  | ElseBody children _ => interpretElse children
  | ForBody arg children range => interpretFor arg children range
  | SetBody args _ => interpretSet args
  | NewBody args _ => interpretNew args
  | KillBody args _ => interpretKill args
  | MergeBody node => interpretMerge node
  | HaltBody _ => ret CommandResult.Halt
  | CallBody c =>
      let* ok := interpretCall c false in
      ret (if ok : bool then CommandResult.Continue else CommandResult.Halt)
  end.

(** The body of [interpretCommand]. *)
Definition interpretCommandStep (node : CommandAstNode) : M CommandResult.t :=
  let '(MkCommand condition body _) := node in
  match condition with
  | Some c =>
      let* ok := interpretExpression c in
      if ok : bool then
        let* v := pop in
        if PrimFloat.eqb (scalarToNumber v) PrimFloat.zero
        then ret CommandResult.Continue
        else interpretCommandBody body
      else ret CommandResult.Halt
  | None => interpretCommandBody body
  end.

End Interpreter.

(** [interpretExpression] and [interpretCommand]: each level of recursion
    (a sub-expression, a nested command, a call) takes one unit of fuel. *)
Fixpoint interpretExpression `{JsEngine} (fuel : nat) (node : ExpressionAstNode)
    {struct fuel} : M bool :=
  match fuel with
  | O => abort OutOfFuel
  | S fuel' =>
      interpretExpressionStep (interpretExpression fuel') (interpretCommand fuel') node
  end
with interpretCommand `{JsEngine} (fuel : nat) (node : CommandAstNode)
    {struct fuel} : M CommandResult.t :=
  match fuel with
  | O => abort OutOfFuel
  | S fuel' =>
      interpretCommandStep (interpretExpression fuel') (interpretCommand fuel') fuel' node
  end.

Definition makeInterpreterState (ast : TopLevelAstNode) (externs : gmap string Extern)
    : InterpreterState :=
  {| ast := ast; externs := externs; valueStack := [];
     environmentStack := [Some {| frame_id := 0; bindings := ∅ |}];
     outputColumn := PrimFloat.zero; output := []; errors := [];
     heap := ∅; nextFrameId := 1; randomCalls := 0 |}.

(** The first loop of [interpretTag]: parameter [i] is bound to the value
    [args[i]] while both exist. *)
Fixpoint bindValues (environment : nat) (params : list string) (args : list MValue)
    : M unit :=
  match params, args with
  | param :: params', arg :: args' =>
      environmentSet environment param arg ;;; bindValues environment params' args'
  | _, _ => ret tt
  end.

(** [interpretTag]: [Some] of the value returned, [None] for [undefined]
    (the tag halted). *)
Definition interpretTag `{JsEngine} (fuel : nat) (tag : option Tag) (args : list MValue)
    : M (option MValue) :=
  let* s := getState in
  let callEnvironmentStackLength := length (environmentStack s) in
  match tag ≫= params with
  | Some tagParams =>
      let* environment := pushEnvironment ∅ in
      bindValues environment tagParams args ;;;
      bindMissing environment (drop (length args) tagParams)
  | None => ret tt
  end ;;;
  let* s1 := getState in
  let callValueStackLength := length (valueStack s1) in
  let* result :=
    interpretTopLevel (interpretCommand fuel) (default 0%nat (index <$> tag)) in
  match result with
  | CommandResult.Halt => ret None
  | _ =>
      setEnvironmentStackLength callEnvironmentStackLength ;;;
      let* s2 := getState in
      if bool_decide (length (valueStack s2) = callValueStackLength)
      then ret (Some (MScalarValue emptyString))
      else let* v := pop in ret (Some (MScalarValue v))
  end.

(** What [interpret] gives: the pair [{output, errors}], or no result. *)
Inductive Outcome :=
| Returned (output : string) (errors : list MError)
| NoResult (e : Abort).

Definition interpret `{JsEngine} (fuel : nat) (ast : TopLevelAstNode)
    (externs : gmap string Extern) : Outcome :=
  match interpretTag fuel (tags ast !! "main") [] (makeInterpreterState ast externs) with
  | Ok _ s => Returned (String.concat "" (output s)) (errors s)
  | Aborted e => NoResult e
  end.

(* ================================================================== *)
(** * The parser (parser.ts) *)
(* ================================================================== *)

(** The tokens are the tokenizer's (tokenizer.ts is not part of the sources):
    the kinds the parser tests for, and the fields it reads. *)
Module TokenKind.
Inductive t :=
| LeadingWhitespace | Space | TrailingWhitespace | Comment
| Identifier | Number | String
| Dot | Comma | Colon | LeftParen | RightParen | Equals | Dollar | SingleQuote
| Underscore | Hash | ExclamationPoint | QuestionMark | BackSlash | ForwardSlash
| Asterisk | DoubleAsterisk | Plus | Minus | Ampersand | LessThan | GreaterThan.

#[global] Instance eq_dec : EqDecision t.
Proof. solve_decision. Defined.
End TokenKind.

(** A token: [tokenText] is the text of an identifier, [tokenString] the
    value of a string literal, [tokenNumber] the value of a numeric one. *)
Record Token := {
  kind : TokenKind.t;
  tokenText : string;
  tokenString : string;
  tokenNumber : number;
  tokenRange : TextRange
}.

Record ParserPosition := {
  positionLine : nat;
  positionColumn : nat;
  nextUnparsedLine : nat
}.

Record ParserState := {
  position : ParserPosition;
  indentationLevel : nat;
  parserErrors : list MError
}.

Record ParserResult := {
  resultAst : option TopLevelAstNode;
  resultErrors : list MError
}.

Inductive ParseStep (A : Type) :=
| Parsed (a : A) (s : ParserState)
| ParseAborted (e : Abort).

Arguments Parsed {A} a s.
Arguments ParseAborted {A} e.

(** A function of the parser: it reads and writes the parser state. *)
Definition P (A : Type) : Type := ParserState -> ParseStep A.

Definition pret {A} (a : A) : P A := fun s => Parsed a s.

Definition pbind {A B} (m : P A) (f : A -> P B) : P B :=
  fun s =>
    match m s with
    | Parsed a s' => f a s'
    | ParseAborted e => ParseAborted e
    end.

Notation "'do*' x ':=' m 'in' k" := (pbind m (fun x => k))
  (at level 10, x pattern, m at level 100, k at level 200).

Notation "m ';;' k" := (pbind m (fun _ => k))
  (at level 100, k at level 200, right associativity, only parsing).

Definition pabort {A} (e : Abort) : P A := fun _ => ParseAborted e.

Definition pget : P ParserState := fun s => Parsed s s.

Definition setPosition (p : ParserPosition) : P unit :=
  fun s => Parsed tt {| position := p; indentationLevel := indentationLevel s;
                        parserErrors := parserErrors s |}.

Definition setColumn (c : nat) : P unit :=
  do* s := pget in
  setPosition {| positionLine := positionLine (position s); positionColumn := c;
                 nextUnparsedLine := nextUnparsedLine (position s) |}.

Definition setIndentationLevel (n : nat) : P unit :=
  fun s => Parsed tt {| position := position s; indentationLevel := n;
                        parserErrors := parserErrors s |}.

Definition makeIdentifierAstNode (token : Token) : IdentifierAstNode :=
  {| text := tokenText token; identifierRange := tokenRange token |}.

Definition makeParserPosition : ParserPosition :=
  {| positionLine := 0; positionColumn := 0; nextUnparsedLine := 1 |}.

Definition jumpToLine (l : nat) : P unit :=
  setPosition {| positionLine := l; positionColumn := 0; nextUnparsedLine := l + 1 |}.

Definition moveToNextUnparsedLine : P unit :=
  do* s := pget in jumpToLine (nextUnparsedLine (position s)).

Definition toLowerCase (s : string) : string :=
  string_of_list_ascii
    (List.map (fun c =>
                 let n := N_of_ascii c in
                 if ((65 <=? n) && (n <=? 90))%N then ascii_of_N (n + 32) else c)
              (list_ascii_of_string s)).

Definition range (a b : Position) : TextRange := {| start := a; end_ := b |}.

(** The truth of an optional token or node in a JS condition. *)
Definition present {A} (o : option A) : bool :=
  match o with
  | Some _ => true
  | None => false
  end.

Section Parser.

Variable input : list (list Token).

(** [input[line][column]]; reading past the tokens is a TypeError at the
    first use of the token. *)
Definition getToken : P Token :=
  do* s := pget in
  match input !! positionLine (position s) ≫= (.!! positionColumn (position s)) with
  | Some token => pret token
  | None => pabort (Thrown TypeError)
  end.

Definition nextToken : P Token :=
  do* token := getToken in
  do* s := pget in
  (if bool_decide (kind token = TokenKind.TrailingWhitespace) then pret tt
   else setColumn (positionColumn (position s) + 1)) ;;
  pret token.

Definition matchToken (validKind : TokenKind.t) : P (option Token) :=
  do* token := getToken in
  if bool_decide (kind token = validKind)
  then (do* t := nextToken in pret (Some t))
  else pret None.

Definition isWhitespaceKind (k : TokenKind.t) : bool :=
  match k with
  | TokenKind.Space | TokenKind.TrailingWhitespace | TokenKind.LeadingWhitespace => true
  | _ => false
  end.

Definition getWhitespace : P bool :=
  do* token := getToken in pret (isWhitespaceKind (kind token)).

Definition matchWhitespace : P bool :=
  do* ws := getWhitespace in
  if ws : bool then nextToken ;; pret true else pret false.

Definition reportErrorAt (message : string) (textRange : TextRange) : P unit :=
  fun s =>
    Parsed tt {| position := position s; indentationLevel := indentationLevel s;
                 parserErrors :=
                   parserErrors s ++ [{| message := message;
                                         errorLine := line (start textRange);
                                         errorColumn := column (start textRange) |}] |}.

Definition parserReportError (message : string) : P unit :=
  do* token := getToken in reportErrorAt message (tokenRange token).

(** The recursive entry points, one level of fuel down, and the bound of the
    loops. *)
Variable parseExpression : P (option ExpressionAstNode).
Variable parseCommand : P (option CommandAstNode).
Variable fuel : nat.

(** The loop of [parseArgs]; [None] is the [return] of [undefined]. *)
Fixpoint parseArgsLoop (n : nat) (args : list CallArgumentAstNode)
    : P (option (list CallArgumentAstNode)) :=
  match n with
  | O => pabort OutOfFuel
  | S n' =>
      do* token := getToken in
      if bool_decide (kind token = TokenKind.RightParen) then pret (Some args)
      else
        do* dot := matchToken TokenKind.Dot in
        match dot with
        | Some dot =>
            do* name := matchToken TokenKind.Identifier in
            match name with
            | None =>
                parserReportError "Expected variable name to reference" ;; pret None
            | Some name =>
                let args' :=
                  (args ++ [Reference (makeIdentifierAstNode name)
                              (range (start (tokenRange dot)) (end_ (tokenRange name)))])%list in
                do* comma := matchToken TokenKind.Comma in
                if present comma then parseArgsLoop n' args' else pret (Some args')
            end
        | None =>
            do* expression := parseExpression in
            match expression with
            | None => pret (Some args)
            | Some e =>
                let args' := (args ++ [Argument e])%list in
                do* comma := matchToken TokenKind.Comma in
                if present comma then parseArgsLoop n' args' else pret (Some args')
            end
        end
  end.

Definition parseArgs : P (option (list CallArgumentAstNode)) :=
  do* paren := matchToken TokenKind.LeftParen in
  match paren with
  | Some _ =>
      do* args := parseArgsLoop fuel [] in
      match args with
      | None => pret None
      | Some args =>
          do* close := matchToken TokenKind.RightParen in
          match close with
          | Some _ => pret (Some args)
          | None => parserReportError "Unterminated argument list" ;; pret None
          end
      end
  | None => pret (Some [])
  end.

Fixpoint parseSubscriptsLoop (n : nat) (args : list ExpressionAstNode)
    : P (list ExpressionAstNode) :=
  match n with
  | O => pabort OutOfFuel
  | S n' =>
      do* token := getToken in
      if bool_decide (kind token = TokenKind.RightParen) then pret args
      else
        do* expression := parseExpression in
        match expression with
        | None => pret args
        | Some e =>
            do* comma := matchToken TokenKind.Comma in
            if present comma then parseSubscriptsLoop n' (args ++ [e])%list
            else pret (args ++ [e])%list
        end
  end.

Definition parseSubscripts : P (option (list ExpressionAstNode)) :=
  do* paren := matchToken TokenKind.LeftParen in
  match paren with
  | Some _ =>
      do* args := parseSubscriptsLoop fuel [] in
      do* close := matchToken TokenKind.RightParen in
      match close with
      | Some _ => pret (Some args)
      | None => parserReportError "Unterminated subscript list" ;; pret None
      end
  | None => pret (Some [])
  end.

Definition parseCall : P (option CallAstNode) :=
  do* nameToken := getToken in
  if bool_decide (kind nameToken = TokenKind.Identifier) then
    nextToken ;;
    do* args := parseArgs in
    match args with
    | None => pret None
    | Some args =>
        do* lastToken := getToken in
        pret (Some (MkCall (makeIdentifierAstNode nameToken) args
                      (range (start (tokenRange nameToken)) (start (tokenRange lastToken)))))
    end
  else parserReportError "Expected an identifier" ;; pret None.

Definition parseVariable : P (option VariableAstNode) :=
  do* firstToken := matchToken TokenKind.Identifier in
  match firstToken with
  | None =>
      parserReportError "Expected variable to start with an identifier" ;; pret None
  | Some firstToken =>
      do* subscripts := parseSubscripts in
      match subscripts with
      | None => pret None
      | Some subscripts =>
          do* lastToken := getToken in
          pret (Some (MkVariable (makeIdentifierAstNode firstToken) subscripts
                        (range (start (tokenRange firstToken))
                           (start (tokenRange lastToken)))))
      end
  end.

(** [parseNodeList]: nodes separated by commas, up to a whitespace token. *)
Fixpoint parseNodeListLoop {T} (n : nat) (parser : P (option T)) (nodes : list T)
    : P (option (list T)) :=
  match n with
  | O => pabort OutOfFuel
  | S n' =>
      do* ws := matchWhitespace in
      if ws : bool then pret (Some nodes)
      else
        do* expression := parser in
        match expression with
        | None => pret None
        | Some e =>
            do* comma := matchToken TokenKind.Comma in
            if present comma then parseNodeListLoop n' parser (nodes ++ [e])%list
            else pret (Some (nodes ++ [e])%list)
        end
  end.

Definition parseNodeList {T} (parser : P (option T)) : P (option (list T)) :=
  parseNodeListLoop fuel parser [].

Definition parseBuiltinArgs {T} (builtinName : Token) (parser : P (option T))
    (minArgCount maxArgCount : option nat) : P (option (list T)) :=
  do* paren := matchToken TokenKind.LeftParen in
  match paren with
  | None => parserReportError "Expected argument list after builtin name" ;; pret None
  | Some _ =>
      do* args := parseNodeList parser in
      match args with
      | None => pret None
      | Some args =>
          do* close := matchToken TokenKind.RightParen in
          match close with
          | None => parserReportError "Unterminated argument list" ;; pret None
          | Some _ =>
              match minArgCount with
              | Some m =>
                  if bool_decide (length args < m)%nat then
                    reportErrorAt ("Builtin expects at least " ++ pretty (N.of_nat m)
                                   ++ " arguments") (tokenRange builtinName)
                  else pret tt
              | None => pret tt
              end ;;
              match maxArgCount with
              | Some m =>
                  if bool_decide (m < length args)%nat then
                    reportErrorAt ("Builtin expects at most " ++ pretty (N.of_nat m)
                                   ++ " arguments") (tokenRange builtinName)
                  else pret tt
              | None => pret tt
              end ;;
              pret (Some args)
          end
      end
  end.

Definition parseSelectBuiltinArg : P (option SelectBuiltinArgAstNode) :=
  do* condition := parseExpression in
  match condition with
  | None => pret None
  | Some condition =>
      do* colon := matchToken TokenKind.Colon in
      match colon with
      | None =>
          parserReportError "Expected colon between select condition and value" ;;
          pret None
      | Some _ =>
          do* value := parseExpression in
          match value with
          | None => pret None
          | Some value =>
              pret (Some (MkSelectArg condition value
                            (range (start (expressionRange condition))
                               (end_ (expressionRange value)))))
          end
      end
  end.

(** The range of a builtin node: from its name to the current token. *)
Definition builtinRange (builtinName : Token) : P TextRange :=
  do* lastToken := getToken in
  pret (range (start (tokenRange builtinName)) (start (tokenRange lastToken))).

(** [args[0]] where the node's type promises an expression: with no argument
    the code goes on with [undefined]. *)
Definition firstArg {T} (args : list T) : P T :=
  match args with
  | a :: _ => pret a
  | [] => pabort UndefinedValue
  end.

Definition parseOrderBuiltin (builtinName : Token) : P (option ExpressionAstNode) :=
  do* args := parseBuiltinArgs builtinName parseExpression (Some 1%nat) (Some 2%nat) in
  match args with
  | None => pret None
  | Some args =>
      match args with
      | [] => pabort (Thrown TypeError)
      | VariableNode variable :: rest =>
          do* r := builtinRange builtinName in
          pret (Some (OrderBuiltin variable (head rest) r))
      | _ :: _ =>
          reportErrorAt "Expected the first argument for the order builtin to be a variable"
            (tokenRange builtinName) ;;
          pret None
      end
  end.

Definition parseLengthBuiltin (builtinName : Token) : P (option ExpressionAstNode) :=
  do* args := parseBuiltinArgs builtinName parseExpression (Some 1%nat) (Some 1%nat) in
  match args with
  | None => pret None
  | Some args =>
      do* r := builtinRange builtinName in
      do* arg := firstArg args in
      pret (Some (LengthBuiltin arg r))
  end.

Definition parseExtractBuiltin (builtinName : Token) : P (option ExpressionAstNode) :=
  do* args := parseBuiltinArgs builtinName parseExpression (Some 1%nat) (Some 3%nat) in
  match args with
  | None => pret None
  | Some args =>
      do* r := builtinRange builtinName in
      do* target := firstArg args in
      pret (Some (ExtractBuiltinNode (MkExtract target (args !! 1%nat) (args !! 2%nat) r)))
  end.

Definition parseSelectBuiltin (builtinName : Token) : P (option ExpressionAstNode) :=
  do* args := parseBuiltinArgs builtinName parseSelectBuiltinArg None None in
  match args with
  | None => pret None
  | Some args =>
      do* r := builtinRange builtinName in
      pret (Some (SelectBuiltin args r))
  end.

Definition parseFindBuiltin (builtinName : Token) : P (option ExpressionAstNode) :=
  do* args := parseBuiltinArgs builtinName parseExpression (Some 2%nat) (Some 3%nat) in
  match args with
  | None => pret None
  | Some args =>
      do* r := builtinRange builtinName in
      match args with
      | haystack :: needle :: rest => pret (Some (FindBuiltin haystack needle (head rest) r))
      | _ => pabort UndefinedValue
      end
  end.

Definition parseRandomBuiltin (builtinName : Token) : P (option ExpressionAstNode) :=
  do* args := parseBuiltinArgs builtinName parseExpression (Some 1%nat) (Some 1%nat) in
  match args with
  | None => pret None
  | Some args =>
      do* r := builtinRange builtinName in
      do* max := firstArg args in
      pret (Some (RandomBuiltin max r))
  end.

Definition parseAsciiBuiltin (builtinName : Token) : P (option ExpressionAstNode) :=
  do* args := parseBuiltinArgs builtinName parseExpression (Some 1%nat) (Some 1%nat) in
  match args with
  | None => pret None
  | Some args =>
      do* r := builtinRange builtinName in
      do* value := firstArg args in
      pret (Some (AsciiBuiltin value r))
  end.

Definition parseCharBuiltin (builtinName : Token) : P (option ExpressionAstNode) :=
  do* args := parseBuiltinArgs builtinName parseExpression (Some 1%nat) (Some 1%nat) in
  match args with
  | None => pret None
  | Some args =>
      do* r := builtinRange builtinName in
      do* value := firstArg args in
      pret (Some (CharBuiltin value r))
  end.

Definition builtinVariants : list (string * (Token -> P (option ExpressionAstNode))) :=
  [("order", parseOrderBuiltin); ("length", parseLengthBuiltin);
   ("extract", parseExtractBuiltin); ("select", parseSelectBuiltin);
   ("find", parseFindBuiltin); ("random", parseRandomBuiltin);
   ("ascii", parseAsciiBuiltin); ("char", parseCharBuiltin)].

Definition parseBuiltin : P (option ExpressionAstNode) :=
  do* builtinName := matchToken TokenKind.Identifier in
  match builtinName with
  | None => parserReportError "Expected builtin name" ;; pret None
  | Some builtinName =>
      let lowerCaseBuiltinName := toLowerCase (tokenText builtinName) in
      match List.find (fun variant => String.prefix lowerCaseBuiltinName variant.1)
              builtinVariants with
      | Some variant => variant.2 builtinName
      | None => reportErrorAt "Unrecognized builtin" (tokenRange builtinName) ;; pret None
      end
  end.

Definition parsePrimary : P (option ExpressionAstNode) :=
  do* firstToken := getToken in
  match kind firstToken with
  | TokenKind.Dollar =>
      nextToken ;;
      do* second := matchToken TokenKind.Dollar in
      match second with
      | None => parseBuiltin
      | Some _ => do* c := parseCall in pret (CallNode <$> c)
      end
  | TokenKind.String =>
      nextToken ;;
      pret (Some (StringLiteral (tokenString firstToken) (tokenRange firstToken)))
  | TokenKind.Number =>
      nextToken ;;
      pret (Some (NumberLiteral (tokenNumber firstToken) (tokenRange firstToken)))
  | TokenKind.Identifier => do* v := parseVariable in pret (VariableNode <$> v)
  | TokenKind.LeftParen =>
      nextToken ;;
      do* expression := parseExpression in
      match expression with
      | None => pret None
      | Some e =>
          do* close := matchToken TokenKind.RightParen in
          match close with
          | Some _ => pret (Some e)
          | None => parserReportError "Unterminated parenthesis" ;; pret None
          end
      end
  | _ => parserReportError "Expected an expression" ;; pret None
  end.

Definition unaryOpOfToken (k : TokenKind.t) : option UnaryOp.t :=
  match k with
  | TokenKind.SingleQuote => Some UnaryOp.Not
  | TokenKind.Minus => Some UnaryOp.Minus
  | TokenKind.Plus => Some UnaryOp.Plus
  | _ => None
  end.

Fixpoint parseUnaryOp (n : nat) : P (option ExpressionAstNode) :=
  match n with
  | O => pabort OutOfFuel
  | S n' =>
      do* token := getToken in
      match unaryOpOfToken (kind token) with
      | None => parsePrimary
      | Some op =>
          nextToken ;;
          do* operand := parseUnaryOp n' in
          match operand with
          | None => pret None
          | Some operand =>
              pret (Some (UnaryOpNode operand op
                            (range (start (tokenRange token))
                               (end_ (expressionRange operand)))))
          end
      end
  end.

(** The two [switch]es of [parseExpression] on the operator token. *)
Definition binaryOpOfToken (k : TokenKind.t) (isNegated : bool) : option BinaryOp.t :=
  match k with
  | TokenKind.ExclamationPoint => Some BinaryOp.Or
  | TokenKind.Ampersand => Some BinaryOp.And
  | TokenKind.Equals => Some BinaryOp.Equals
  | TokenKind.LessThan => Some BinaryOp.LessThan
  | TokenKind.GreaterThan => Some BinaryOp.GreaterThan
  | _ =>
      if isNegated then None
      else
        match k with
        | TokenKind.Plus => Some BinaryOp.Add
        | TokenKind.Minus => Some BinaryOp.Subtract
        | TokenKind.Asterisk => Some BinaryOp.Multiply
        | TokenKind.DoubleAsterisk => Some BinaryOp.Power
        | TokenKind.ForwardSlash => Some BinaryOp.Divide
        | TokenKind.BackSlash => Some BinaryOp.IntegerDivide
        | TokenKind.Hash => Some BinaryOp.Modulo
        | TokenKind.Underscore => Some BinaryOp.Concatenate
        | _ => None
        end
  end.

(** The [while (true)] loop of [parseExpression], [lhs] being the expression
    parsed so far. *)
Fixpoint parseExpressionLoop (n : nat) (lhs : ExpressionAstNode)
    : P (option ExpressionAstNode) :=
  match n with
  | O => pabort OutOfFuel
  | S n' =>
      do* quote := matchToken TokenKind.SingleQuote in
      let isNegated := present quote in
      do* token := getToken in
      match binaryOpOfToken (kind token) isNegated with
      | None => pret (Some lhs)
      | Some op =>
          nextToken ;;
          do* rhs := parseUnaryOp fuel in
          match rhs with
          | None => pret None
          | Some rhs =>
              parseExpressionLoop n'
                (BinaryOpNode lhs rhs op isNegated
                   (range (start (expressionRange lhs)) (end_ (expressionRange rhs))))
          end
      end
  end.

(** The body of [parseExpression]. *)
Definition parseExpressionStep : P (option ExpressionAstNode) :=
  do* lhs := parseUnaryOp fuel in
  match lhs with
  | None => pret None
  | Some lhs => parseExpressionLoop fuel lhs
  end.

(** The dots of a body line in [parseBlock]: [Some true] when the block ended
    (a dot is missing), [None] for the [return] of [undefined]. *)
Fixpoint parseIndentation (level : nat) : P (option bool) :=
  match level with
  | O => pret (Some false)
  | S level' =>
      do* dot := matchToken TokenKind.Dot in
      if present dot then
        do* space := matchToken TokenKind.Space in
        if present space then parseIndentation level'
        else parserReportError "Expected space after dot" ;; pret None
      else pret (Some true)
  end.

(** The two nested loops of [parseBlock]. *)
Fixpoint parseBlockLoop (n : nat) (startOnNextLine : bool) (commands : list CommandAstNode)
    : P (option (list CommandAstNode)) :=
  match n with
  | O => pabort OutOfFuel
  | S n' =>
      do* s := pget in
      do* skipLine :=
        if bool_decide (positionLine (position s) < length input)%nat then
          if startOnNextLine then pret true
          else do* token := getToken in
               pret (bool_decide (kind token = TokenKind.TrailingWhitespace))
        else pret false in
      if skipLine : bool then
        moveToNextUnparsedLine ;;
        do* s1 := pget in
        if bool_decide (length input <= positionLine (position s1))%nat
        then pret (Some commands)
        else
          let startColumn := positionColumn (position s1) in
          do* leading := matchToken TokenKind.LeadingWhitespace in
          do* didBlockEnd :=
            if present leading then parseIndentation (indentationLevel s1)
            else pret (Some true) in
          match didBlockEnd with
          | None => pret None
          | Some true => setColumn startColumn ;; pret (Some commands)
          | Some false => parseBlockLoop n' false commands
          end
      else
        do* command := parseCommand in
        match command with
        | None => pret None
        | Some c => parseBlockLoop n' false (commands ++ [c])%list
        end
  end.

Definition parseBlock (startOnNextLine : bool) : P (option (list CommandAstNode)) :=
  parseBlockLoop fuel startOnNextLine [].

(** The range of a command node: from [firstToken] to the current token. *)
Definition rangeFrom (firstToken : Token) : P TextRange :=
  do* lastToken := getToken in
  pret (range (start (tokenRange firstToken)) (start (tokenRange lastToken))).

Fixpoint parseWriteLoop (n : nat) (isInFormat : bool) (args : list WriteArgumentAstNode)
    : P (option (list WriteArgumentAstNode)) :=
  match n with
  | O => pabort OutOfFuel
  | S n' =>
      do* ws := matchWhitespace in
      if ws : bool then pret (Some args)
      else
        do* token := getToken in
        match kind token with
        | TokenKind.Hash =>
            nextToken ;; parseWriteLoop n' true (args ++ [HashFormatter])%list
        | TokenKind.ExclamationPoint =>
            nextToken ;; parseWriteLoop n' true (args ++ [ExclamationPointFormatter])%list
        | TokenKind.QuestionMark =>
            nextToken ;;
            do* expression := parseExpression in
            match expression with
            | None => pret None
            | Some e => parseWriteLoop n' true (args ++ [QuestionMarkFormatter e])%list
            end
        | _ =>
            do* parsed :=
              if isInFormat then pret (Some args)
              else
                do* expression := parseExpression in
                pret ((fun e => (args ++ [WriteExpression e])%list) <$> expression) in
            match parsed with
            | None => pret None
            | Some args' =>
                do* comma := matchToken TokenKind.Comma in
                if present comma then parseWriteLoop n' false args' else pret (Some args')
            end
        end
  end.

Definition parseWrite : P (option CommandBodyAstNode) :=
  do* firstToken := getToken in
  do* args := parseWriteLoop fuel false [] in
  match args with
  | None => pret None
  | Some args => do* r := rangeFrom firstToken in pret (Some (WriteBody args r))
  end.

Definition parseQuit : P (option CommandBodyAstNode) :=
  do* firstToken := getToken in
  do* ws := getWhitespace in
  if ws : bool then pret (Some (QuitBody None (tokenRange firstToken)))
  else
    do* returnValue := parseExpression in
    match returnValue with
    | None => pret None
    | Some e => do* r := rangeFrom firstToken in pret (Some (QuitBody (Some e) r))
    end.

Definition parseDo : P (option CommandBodyAstNode) :=
  do* ws := getWhitespace in
  if ws : bool then
    do* firstToken := getToken in
    do* s := pget in
    let startLine := positionLine (position s) in
    let startColumn := positionColumn (position s) in
    setIndentationLevel (indentationLevel s + 1) ;;
    do* block := parseBlock true in
    do* s1 := pget in
    setIndentationLevel (indentationLevel s1 - 1) ;;
    match block with
    | None => pret None
    | Some block =>
        setPosition {| positionLine := startLine; positionColumn := startColumn;
                       nextUnparsedLine := positionLine (position s1) |} ;;
        do* r := rangeFrom firstToken in
        pret (Some (DoBlockBody block r))
    end
  else do* c := parseCall in pret (CallBody <$> c).

(** The in-line commands of [if], [else] and [for], up to a whitespace
    token. *)
Fixpoint parseChildren (n : nat) (children : list CommandAstNode)
    : P (option (list CommandAstNode)) :=
  match n with
  | O => pabort OutOfFuel
  | S n' =>
      do* ws := matchWhitespace in
      if ws : bool then pret (Some children)
      else
        do* command := parseCommand in
        match command with
        | None => pret None
        | Some c => parseChildren n' (children ++ [c])%list
        end
  end.

Fixpoint parseIfConditions (n : nat) (conditions : list ExpressionAstNode)
    : P (option (list ExpressionAstNode)) :=
  match n with
  | O => pabort OutOfFuel
  | S n' =>
      do* ws := matchWhitespace in
      if ws : bool then pret (Some conditions)
      else
        do* expression := parseExpression in
        match expression with
        | None => pret None
        | Some e =>
            do* comma := matchToken TokenKind.Comma in
            if present comma then parseIfConditions n' (conditions ++ [e])%list
            else
              do* ws := matchWhitespace in
              if ws : bool then pret (Some (conditions ++ [e])%list)
              else parserReportError "Expected space after if conditions" ;; pret None
        end
  end.

Definition parseIf : P (option CommandBodyAstNode) :=
  do* firstToken := getToken in
  do* conditions := parseIfConditions fuel [] in
  match conditions with
  | None => pret None
  | Some conditions =>
      do* children := parseChildren fuel [] in
      match children with
      | None => pret None
      | Some children =>
          do* r := rangeFrom firstToken in
          pret (Some (IfBody conditions children r))
      end
  end.

Definition parseElse : P (option CommandBodyAstNode) :=
  do* ws := matchWhitespace in
  if ws : bool then
    do* firstToken := getToken in
    do* children := parseChildren fuel [] in
    match children with
    | None => pret None
    | Some children =>
        do* r := rangeFrom firstToken in pret (Some (ElseBody children r))
    end
  else parserReportError "Expected no arguments for else command" ;; pret None.

(** The loop of [parseForParameter]: up to three expressions separated by
    colons, [i] of them read so far. *)
Fixpoint parseForParameterLoop (n i : nat) (parts : list ExpressionAstNode)
    : P (option (list ExpressionAstNode)) :=
  match n with
  | O => pret (Some parts)
  | S n' =>
      do* part := parseExpression in
      match part with
      | None => pret None
      | Some e =>
          let parts' := (parts ++ [e])%list in
          if bool_decide (i < 2)%nat then
            do* colon := matchToken TokenKind.Colon in
            if present colon then parseForParameterLoop n' (S i) parts'
            else pret (Some parts')
          else parseForParameterLoop n' (S i) parts'
      end
  end.

Definition parseForParameter : P (option ForParameterAstNode) :=
  do* firstToken := getToken in
  do* parts := parseForParameterLoop 3 0 [] in
  match parts with
  | None => pret None
  | Some parts =>
      do* r := rangeFrom firstToken in
      pret (Some {| expressions := parts; forParameterRange := r |})
  end.

Fixpoint parseForParameters (n : nat) (parsed : list ForParameterAstNode)
    : P (option (list ForParameterAstNode)) :=
  match n with
  | O => pabort OutOfFuel
  | S n' =>
      do* parameter := parseForParameter in
      match parameter with
      | None => pret None
      | Some p =>
          do* comma := matchToken TokenKind.Comma in
          if present comma then parseForParameters n' (parsed ++ [p])%list
          else pret (Some (parsed ++ [p])%list)
      end
  end.

Definition parseForArgument : P (option ForArgumentAstNode) :=
  do* variable := parseVariable in
  match variable with
  | None => pret None
  | Some variable =>
      do* equals := matchToken TokenKind.Equals in
      if present equals then
        do* parsed := parseForParameters fuel [] in
        match parsed with
        | None => pret None
        | Some parsed =>
            do* lastToken := getToken in
            pret (Some {| forVariable := variable; parameters := parsed;
                          forArgumentRange :=
                            range (start (variableRange variable))
                              (start (tokenRange lastToken)) |})
        end
      else parserReportError "Expected equals after for loop variable" ;; pret None
  end.

Definition parseFor : P (option CommandBodyAstNode) :=
  do* firstToken := getToken in
  do* ws := matchWhitespace in
  do* arg :=
    if ws : bool then pret (Some None)
    else
      do* arg := parseForArgument in
      do* ws := matchWhitespace in
      if ws : bool then pret (Some arg)
      else parserReportError "Expected space after for loop argument" ;; pret None in
  match arg with
  | None => pret None
  | Some arg =>
      do* children := parseChildren fuel [] in
      match children with
      | None => pret None
      | Some children =>
          do* r := rangeFrom firstToken in pret (Some (ForBody arg children r))
      end
  end.

(** The target of one argument of [set]; [None] is the [return] of
    [undefined]. *)
Definition parseSetTarget : P (option SetTarget) :=
  do* dollar := matchToken TokenKind.Dollar in
  if present dollar then
    do* target := parseBuiltin in
    match target with
    | Some (ExtractBuiltinNode x) => pret (Some (TargetExtract x))
    | Some other =>
        reportErrorAt "Extract is the only settable builtin" (expressionRange other) ;;
        pret None
    | None => pret None
    end
  else do* v := parseVariable in pret (TargetVariable <$> v).

Definition setTargetRange (t : SetTarget) : TextRange :=
  match t with
  | TargetVariable v => variableRange v
  | TargetExtract x => extractRange x
  end.

Fixpoint parseSetLoop (n : nat) (args : list SetArgAstNode)
    : P (option (list SetArgAstNode)) :=
  match n with
  | O => pabort OutOfFuel
  | S n' =>
      do* ws := matchWhitespace in
      if ws : bool then pret (Some args)
      else
        do* target := parseSetTarget in
        match target with
        | None => pret None
        | Some target =>
            do* equals := matchToken TokenKind.Equals in
            if present equals then
              do* expression := parseExpression in
              match expression with
              | None => pret None
              | Some e =>
                  let arg :=
                    {| setTarget := target; setValue := e;
                       setArgRange := range (start (setTargetRange target))
                                        (end_ (expressionRange e)) |} in
                  do* comma := matchToken TokenKind.Comma in
                  if present comma then parseSetLoop n' (args ++ [arg])%list
                  else pret (Some (args ++ [arg])%list)
              end
            else
              parserReportError "Expected equals after identifier in set command" ;;
              pret None
        end
  end.

Definition parseSet : P (option CommandBodyAstNode) :=
  do* firstToken := getToken in
  do* args := parseSetLoop fuel [] in
  match args with
  | None => pret None
  | Some args => do* r := rangeFrom firstToken in pret (Some (SetBody args r))
  end.

Fixpoint parseIdentifierListLoop (n : nat) (identifiers : list IdentifierAstNode)
    : P (option (list IdentifierAstNode)) :=
  match n with
  | O => pabort OutOfFuel
  | S n' =>
      do* ws := matchWhitespace in
      if ws : bool then pret (Some identifiers)
      else
        do* token := matchToken TokenKind.Identifier in
        match token with
        | None => pret None
        | Some token =>
            let identifiers' := (identifiers ++ [makeIdentifierAstNode token])%list in
            do* comma := matchToken TokenKind.Comma in
            if present comma then parseIdentifierListLoop n' identifiers'
            else pret (Some identifiers')
        end
  end.

Definition parseIdentifierList : P (option (list IdentifierAstNode)) :=
  parseIdentifierListLoop fuel [].

Definition parseNew : P (option CommandBodyAstNode) :=
  do* firstToken := getToken in
  do* args := parseIdentifierList in
  match args with
  | None => pret None
  | Some args => do* r := rangeFrom firstToken in pret (Some (NewBody args r))
  end.

Definition parseKill : P (option CommandBodyAstNode) :=
  do* firstToken := getToken in
  do* args := parseNodeList parseVariable in
  match args with
  | None => pret None
  | Some args => do* r := rangeFrom firstToken in pret (Some (KillBody args r))
  end.

Definition parseMerge : P (option CommandBodyAstNode) :=
  do* lhs := parseVariable in
  match lhs with
  | None => pret None
  | Some lhs =>
      do* equals := matchToken TokenKind.Equals in
      if present equals then
        do* rhs := parseVariable in
        match rhs with
        | None => pret None
        | Some rhs =>
            pret (Some (MergeBody {| mergeLeft := lhs; mergeRight := rhs;
                                     mergeRange := range (start (variableRange lhs))
                                                     (end_ (variableRange rhs)) |}))
        end
      else parserReportError "Expected equals between variables to merge" ;; pret None
  end.

Definition parseHalt : P (option CommandBodyAstNode) :=
  do* token := getToken in pret (Some (HaltBody (tokenRange token))).

Definition commandBodyVariants : list (string * P (option CommandBodyAstNode)) :=
  [("write", parseWrite); ("quit", parseQuit); ("do", parseDo); ("if", parseIf);
   ("else", parseElse); ("for", parseFor); ("set", parseSet); ("new", parseNew);
   ("kill", parseKill); ("merge", parseMerge); ("halt", parseHalt)].

Definition bodyRange (b : CommandBodyAstNode) : TextRange :=
  match b with
  | CallBody c => callRange c
  | MergeBody m => mergeRange m
  | CommentBody r | WriteBody _ r | QuitBody _ r | DoBlockBody _ r | IfBody _ _ r
  | ElseBody _ r | ForBody _ _ r | SetBody _ r | NewBody _ r | KillBody _ r
  | HaltBody r => r
  end.

(** The loop of [parseCommand] over the variants: every variant whose name
    starts with the command's name runs; [None] is the [return] of
    [undefined], [Some body] the body so far. *)
Fixpoint parseVariants (lowerCaseName : string)
    (variants : list (string * P (option CommandBodyAstNode)))
    (body : option CommandBodyAstNode) : P (option (option CommandBodyAstNode)) :=
  match variants with
  | [] => pret (Some body)
  | variant :: rest =>
      if String.prefix lowerCaseName variant.1 then
        do* parsed := variant.2 in
        match parsed with
        | None => pret None
        | Some b => parseVariants lowerCaseName rest (Some b)
        end
      else parseVariants lowerCaseName rest body
  end.

(** The body of [parseCommand]. *)
Definition parseCommandStep : P (option CommandAstNode) :=
  do* commentToken := matchToken TokenKind.Comment in
  match commentToken with
  | Some t => pret (Some (MkCommand None (CommentBody (tokenRange t)) (tokenRange t)))
  | None =>
      do* nameToken := matchToken TokenKind.Identifier in
      match nameToken with
      | None => parserReportError "Expected command name" ;; pret None
      | Some nameToken =>
          do* colon := matchToken TokenKind.Colon in
          do* condition :=
            if present colon then
              do* c := parseExpression in pret (Some <$> c)
            else pret (Some None) in
          match condition with
          | None => pret None
          | Some condition =>
              do* ws := matchWhitespace in
              if ws : bool then
                do* body :=
                  parseVariants (toLowerCase (tokenText nameToken)) commandBodyVariants
                    None in
                match body with
                | None => pret None
                | Some None =>
                    reportErrorAt "Unrecognized command name" (tokenRange nameToken) ;;
                    pret None
                | Some (Some body) =>
                    do* ws := matchWhitespace in
                    if ws : bool then
                      pret (Some (MkCommand condition body
                                    (range (start (tokenRange nameToken))
                                       (end_ (bodyRange body)))))
                    else
                      parserReportError "Expected space between arguments and next commands" ;;
                      pret None
                end
              else
                parserReportError "Expected space between command and arguments" ;;
                pret None
          end
      end
  end.

(** The parameter loop of [parseTag], [i] names read so far. *)
Fixpoint parseTagParams (n i : nat) (tagParams : list string) : P (list string) :=
  match n with
  | O => pabort OutOfFuel
  | S n' =>
      do* paramToken := matchToken TokenKind.Identifier in
      match paramToken with
      | None =>
          (if bool_decide (0 < i)%nat then parserReportError "Expected parameter name"
           else pret tt) ;;
          pret tagParams
      | Some t =>
          let tagParams' := (tagParams ++ [tokenText t])%list in
          do* comma := matchToken TokenKind.Comma in
          if present comma then parseTagParams n' (S i) tagParams' else pret tagParams'
      end
  end.

(** [parseTag]: [Some] of the parameters ([None] for [null], a tag with no
    list), or [None] for [undefined]. *)
Definition parseTag : P (option (option (list string))) :=
  do* token := getToken in
  do* tagParams :=
    if bool_decide (kind token = TokenKind.LeftParen) then
      nextToken ;;
      do* names := parseTagParams fuel 0 [] in
      do* close := matchToken TokenKind.RightParen in
      if present close then pret (Some (Some names))
      else parserReportError "Unterminated parameter list" ;; pret None
    else pret (Some None) in
  match tagParams with
  | None => pret None
  | Some tagParams =>
      do* ws := matchWhitespace in
      if ws : bool then pret (Some tagParams)
      else parserReportError "Expected space after tag name" ;; pret None
  end.

(** The loop of [parseTopLevel] over the lines. *)
Fixpoint parseTopLevelLoop (n : nat) (topLevel : TopLevelAstNode)
    : P (option TopLevelAstNode) :=
  match n with
  | O => pabort OutOfFuel
  | S n' =>
      do* s := pget in
      if bool_decide (positionLine (position s) < length input)%nat then
        do* firstToken := getToken in
        do* named :=
          if bool_decide (kind firstToken = TokenKind.Identifier) then
            nextToken ;;
            do* tagParams := parseTag in
            match tagParams with
            | None => pret None
            | Some tagParams =>
                let name := tokenText firstToken in
                pret (Some
                  (match tags topLevel !! name with
                   | Some _ => topLevel
                   | None =>
                       {| tags := <[name := {| index := length (topLevelChildren topLevel);
                                               params := tagParams |}]> (tags topLevel);
                          topLevelChildren := topLevelChildren topLevel;
                          topLevelRange := topLevelRange topLevel |}
                   end))
            end
          else
            do* ws := matchWhitespace in
            if ws : bool then pret (Some topLevel)
            else parserReportError "Expected leading space" ;; pret None in
        match named with
        | None => pret None
        | Some topLevel =>
            do* block := parseBlock false in
            match block with
            | None => pret None
            | Some block =>
                parseTopLevelLoop n'
                  {| tags := tags topLevel;
                     topLevelChildren := (topLevelChildren topLevel ++ block)%list;
                     topLevelRange := topLevelRange topLevel |}
            end
        end
      else pret (Some topLevel)
  end.

Definition parseTopLevel : P (option TopLevelAstNode) :=
  let origin := {| line := 0; column := 0 |} in
  let last :=
    match List.last input [] with
    | [] => None
    | t :: rest => Some (end_ (tokenRange (List.last rest t)))
    end in
  match input, last with
  | _ :: _, None => pabort (Thrown TypeError)
  | _, _ =>
      parseTopLevelLoop fuel
        {| tags := ∅; topLevelChildren := [];
           topLevelRange := range origin (default origin last) |}
  end.

End Parser.

(** [parseExpression] and [parseCommand]: each level of recursion takes one
    unit of fuel. *)
Fixpoint parseExpression (input : list (list Token)) (fuel : nat) {struct fuel}
    : P (option ExpressionAstNode) :=
  match fuel with
  | O => pabort OutOfFuel
  | S fuel' => parseExpressionStep input (parseExpression input fuel') fuel'
  end.

Fixpoint parseCommand (input : list (list Token)) (fuel : nat) {struct fuel}
    : P (option CommandAstNode) :=
  match fuel with
  | O => pabort OutOfFuel
  | S fuel' =>
      parseCommandStep input (parseExpression input fuel') (parseCommand input fuel') fuel'
  end.

(** [parse]: the tree, if any, and the errors; [None] when the parser itself
    gives no result. *)
Definition parse (fuel : nat) (input : list (list Token)) : option ParserResult :=
  match parseTopLevel input (parseCommand input fuel) fuel
          {| position := makeParserPosition; indentationLevel := 0; parserErrors := [] |}
  with
  | Parsed a s => Some {| resultAst := a; resultErrors := parserErrors s |}
  | ParseAborted _ => None
  end.

(* ================================================================== *)
(** * Examples: an engine, positions, small programs *)
(* ================================================================== *)

(** [x ** n] for a natural exponent, by repeated multiplication. *)
Fixpoint powerOfNat (x : number) (n : nat) : number :=
  match n with
  | O => PrimFloat.one
  | S n' => PrimFloat.mul x (powerOfNat x n')
  end.

(** The engine of the closed examples: [Math.pow] on natural exponents
    (NaN elsewhere), and a [Math.random] that always returns 0. *)
Definition exampleEngine : JsEngine :=
  {| Math_pow := fun x y =>
       match toIntegerOrInfinity y with
       | Finite z =>
           if (0 <=? z) && PrimFloat.eqb (numberOfZ z) y
           then powerOfNat x (Z.to_nat z) else PrimFloat.nan
       | _ => PrimFloat.nan
       end;
     Math_random := fun _ => PrimFloat.zero |}.

Definition at_ (l c : nat) : Position := {| line := l; column := c |}.

Definition noRange : TextRange := range (at_ 0 0) (at_ 0 0).

Definition identifier (name : string) : IdentifierAstNode :=
  {| text := name; identifierRange := noRange |}.

Definition emptyProgram : TopLevelAstNode :=
  {| tags := ∅; topLevelChildren := []; topLevelRange := noRange |}.

Definition initialState : InterpreterState := makeInterpreterState emptyProgram ∅.

(** A scalar as a literal expression. *)
Definition scalarLiteral (v : MScalar) (r : TextRange) : ExpressionAstNode :=
  match v with
  | MNumber n => NumberLiteral n r
  | MString s => StringLiteral s r
  end.

(* ================================================================== *)
(** * Basic facts about the state and the monad *)
(* ================================================================== *)

Lemma setValueStack_setValueStack v w s :
  setValueStack v (setValueStack w s) = setValueStack v s.
Proof. reflexivity. Qed.

Lemma setValueStack_same s : setValueStack (valueStack s) s = s.
Proof. destruct s; reflexivity. Qed.

Lemma bind_ret_l {A B} (a : A) (f : A -> M B) s : bind (ret a) f s = f a s.
Proof. reflexivity. Qed.

Lemma bind_Ok {A B} (m : M A) (f : A -> M B) s a s' :
  m s = Ok a s' -> bind m f s = f a s'.
Proof. intros H. unfold bind. rewrite H. reflexivity. Qed.

Lemma bind_Aborted {A B} (m : M A) (f : A -> M B) s e :
  m s = Aborted e -> bind m f s = Aborted e.
Proof. intros H. unfold bind. rewrite H. reflexivity. Qed.

Lemma pop_push {A} v (k : MScalar -> M A) s :
  bind pop k (setValueStack (v :: valueStack s) s) = k v (setValueStack (valueStack s) s).
Proof. reflexivity. Qed.

(** A literal pushes its value and changes nothing else. *)
Lemma interpretExpression_literal `{JsEngine} n v r s :
  interpretExpression (S n) (scalarLiteral v r) s
  = Ok true (setValueStack (v :: valueStack s) s).
Proof. destruct v; reflexivity. Qed.

(* ================================================================== *)
(** * C1: the comparison operators *)
(* ================================================================== *)


(** The value a binary operator node pushes when both operands are literals. *)
Lemma interpretBinaryOp_literals `{JsEngine} n a b op isNegated r ra rb s :
  interpretExpression (S (S n))
    (BinaryOpNode (scalarLiteral a ra) (scalarLiteral b rb) op isNegated r) s
  = Ok true
      (setValueStack
         ((if isNegated then negateValue (binaryOpValue op a b) else binaryOpValue op a b)
          :: valueStack s) s).
Proof.
  destruct a, b; reflexivity.
Qed.

(** C1, as the code has it, on the two examples of the claim: [1="1"]
    evaluates to 0 and ["10">"9"] evaluates to 0. *)
Lemma comparison_counterexample :
  interpretExpression (H := exampleEngine) 2
    (BinaryOpNode (NumberLiteral 1%float noRange) (StringLiteral "1" noRange)
       BinaryOp.Equals false noRange) initialState
  = Ok true (setValueStack [MNumber 0%float] initialState)
  /\ interpretExpression (H := exampleEngine) 2
       (BinaryOpNode (StringLiteral "10" noRange) (StringLiteral "9" noRange)
          BinaryOp.GreaterThan false noRange) initialState
     = Ok true (setValueStack [MNumber 0%float] initialState).
Proof. split; reflexivity. Qed.

(** A string compared with a number is converted as JavaScript converts it:
    a hexadecimal, octal or binary numeral is read as a number, a string
    that is no numeral is NaN and compares false.  So ["0x10"<17] and
    ["0b11">2] evaluate to 1, and ["1a"<2] to 0. *)
Example comparison_converts_numerals :
  let run a b op :=
    interpretExpression (H := exampleEngine) 2
      (BinaryOpNode (StringLiteral a noRange) (NumberLiteral b noRange) op false noRange)
      initialState in
  run "0x10" 17%float BinaryOp.LessThan
  = Ok true (setValueStack [MNumber 1%float] initialState)
  /\ run "0b11" 2%float BinaryOp.GreaterThan
     = Ok true (setValueStack [MNumber 1%float] initialState)
  /\ run "1a" 2%float BinaryOp.LessThan
     = Ok true (setValueStack [MNumber 0%float] initialState).
Proof. repeat split; vm_compute; reflexivity. Qed.

(** C1 (amended): on scalar operands [a] and [b], [=] gives 1 exactly when
    [a] and [b] are two equal numbers or two equal strings (a number and a
    string are never equal), and 0 otherwise; [<] and [>] give 1 exactly
    when, for two strings, the first is before (after) the second in
    code-unit order, and otherwise when the operands, a string operand
    converted as a whole to a number ([jsToNumber], JavaScript's conversion
    of a string to a number), satisfy the numeric comparison. *)
Theorem comparison_operators `{JsEngine} n (a b : MScalar) r ra rb s :
  let run op :=
    interpretExpression (S (S n))
      (BinaryOpNode (scalarLiteral a ra) (scalarLiteral b rb) op false r) s in
  let pushes (c : bool) :=
    Ok true (setValueStack (MNumber (if c then 1%float else 0%float) :: valueStack s) s) in
  run BinaryOp.Equals
  = pushes match a, b with
           | MNumber x, MNumber y => PrimFloat.eqb x y
           | MString x, MString y => bool_decide (x = y)
           | _, _ => false
           end
  /\ run BinaryOp.LessThan
     = pushes match a, b with
              | MString x, MString y => bool_decide (String.compare x y = Lt)
              | _, _ => PrimFloat.ltb (jsToNumber a) (jsToNumber b)
              end
  /\ run BinaryOp.GreaterThan
     = pushes match a, b with
              | MString x, MString y => bool_decide (String.compare y x = Lt)
              | _, _ => PrimFloat.ltb (jsToNumber b) (jsToNumber a)
              end.
Proof.
  intros run pushes. subst run pushes. cbv beta.
  rewrite !interpretBinaryOp_literals. cbn [binaryOpValue].
  assert (Heq : forall x y : string, String.eqb x y = bool_decide (x = y)).
  { intros x y. destruct (String.eqb_spec x y); [rewrite bool_decide_true | rewrite bool_decide_false]; done. }
  assert (Hlt : forall x y : string, String.ltb x y = bool_decide (String.compare x y = Lt)).
  { intros x y. unfold String.ltb. destruct (String.compare x y); done. }
  repeat split; f_equal; f_equal; f_equal; f_equal;
    destruct a, b; cbn; rewrite ?Heq, ?Hlt; reflexivity.
Qed.


(* ================================================================== *)
(** * Token grids of small programs *)
(* ================================================================== *)

(** A token of kind [k] on line [l], from column [a] to column [b]. *)
Definition token (k : TokenKind.t) (l a b : nat) : Token :=
  {| kind := k; tokenText := ""; tokenString := ""; tokenNumber := PrimFloat.zero;
     tokenRange := range (at_ l a) (at_ l b) |}.

Definition identifierToken (name : string) (l a b : nat) : Token :=
  {| kind := TokenKind.Identifier; tokenText := name; tokenString := "";
     tokenNumber := PrimFloat.zero; tokenRange := range (at_ l a) (at_ l b) |}.

Definition numberToken (value : number) (l a b : nat) : Token :=
  {| kind := TokenKind.Number; tokenText := ""; tokenString := "";
     tokenNumber := value; tokenRange := range (at_ l a) (at_ l b) |}.

Definition stringToken (value : string) (l a b : nat) : Token :=
  {| kind := TokenKind.String; tokenText := ""; tokenString := value;
     tokenNumber := PrimFloat.zero; tokenRange := range (at_ l a) (at_ l b) |}.

(** The interpreter on the tree the parser gives for a token grid, when the
    parser reports no error. *)
Definition interpretTokens `{JsEngine} (fuel : nat) (input : list (list Token))
    : option Outcome :=
  match parse fuel input with
  | Some {| resultAst := Some tree; resultErrors := [] |} => Some (interpret fuel tree ∅)
  | _ => None
  end.

(* ================================================================== *)
(** * C3: [$F] *)
(* ================================================================== *)

(** C3, as the code has it: [$F("aaab","aab")] is 0 although "aab" occurs in
    "aaab" (the scan does not go back after a partial match), and
    [$F("abcabc","bc",3)] is 4, the result without a start (the start is
    taken from the haystack's numeric value, not from the third argument). *)
Lemma find_misses_occurrence :
  interpretExpression (H := exampleEngine) 2
    (FindBuiltin (StringLiteral "aaab" noRange) (StringLiteral "aab" noRange) None noRange)
    initialState
  = Ok true (setValueStack [MNumber 0%float] initialState)
  /\ interpretExpression (H := exampleEngine) 2
       (FindBuiltin (StringLiteral "abcabc" noRange) (StringLiteral "bc" noRange)
          (Some (NumberLiteral 3%float noRange)) noRange)
       initialState
     = Ok true (setValueStack [MNumber 4%float] initialState).
Proof. split; vm_compute; reflexivity. Qed.

(* ================================================================== *)
(** * C4: exceptions *)
(* ================================================================== *)

(** The token grid of the four lines
    [ n a], [ d], [ . k], [ w a]. *)
Definition killInBlockTokens : list (list Token) :=
  [ [token TokenKind.LeadingWhitespace 0 0 1; identifierToken "n" 0 1 2;
     token TokenKind.Space 0 2 3; identifierToken "a" 0 3 4;
     token TokenKind.TrailingWhitespace 0 4 4];
    [token TokenKind.LeadingWhitespace 1 0 1; identifierToken "d" 1 1 2;
     token TokenKind.TrailingWhitespace 1 2 2];
    [token TokenKind.LeadingWhitespace 2 0 1; token TokenKind.Dot 2 1 2;
     token TokenKind.Space 2 2 3; identifierToken "k" 2 3 4;
     token TokenKind.TrailingWhitespace 2 4 4];
    [token TokenKind.LeadingWhitespace 3 0 1; identifierToken "w" 3 1 2;
     token TokenKind.Space 3 2 3; identifierToken "a" 3 3 4;
     token TokenKind.TrailingWhitespace 3 4 4] ].

(** The same program as a tree: [new a], a [do] block that holds [kill] with
    no argument, [write a]. *)
Definition killInBlock : TopLevelAstNode :=
  {| tags := ∅;
     topLevelChildren :=
       [ MkCommand None (NewBody [identifier "a"] noRange) noRange;
         MkCommand None
           (DoBlockBody [MkCommand None (KillBody [] noRange) noRange] noRange) noRange;
         MkCommand None
           (WriteBody [WriteExpression (VariableNode (MkVariable (identifier "a") [] noRange))]
              noRange) noRange ];
     topLevelRange := noRange |}.

(** The token grid of the line [ w ?1/0]. *)
Definition padToInfinityTokens : list (list Token) :=
  [ [token TokenKind.LeadingWhitespace 0 0 1; identifierToken "w" 0 1 2;
     token TokenKind.Space 0 2 3; token TokenKind.QuestionMark 0 3 4;
     numberToken 1%float 0 4 5; token TokenKind.ForwardSlash 0 5 6;
     numberToken 0%float 0 6 7; token TokenKind.TrailingWhitespace 0 7 7] ].

(** C4, as the code has it: [interpret] throws a TypeError on the program
    [new a; do (kill); write a] (the [kill] replaces the environment stack by
    one frame, the end of the block sets the length of the stack back to 2,
    which leaves a hole at index 1, and the lookup of [a] reads the hole),
    and a RangeError on [write ?1/0] (a padding of infinitely many spaces). *)
Lemma interpret_throws :
  interpret (H := exampleEngine) 10 killInBlock ∅ = NoResult (Thrown TypeError)
  /\ interpretTokens (H := exampleEngine) 10 killInBlockTokens
     = Some (NoResult (Thrown TypeError))
  /\ interpretTokens (H := exampleEngine) 10 padToInfinityTokens
     = Some (NoResult (Thrown RangeError)).
Proof. repeat split; vm_compute; reflexivity. Qed.

(* ================================================================== *)
(** * C2: [for] with parameters *)
(* ================================================================== *)

(** The token grid of the line [ f i=1:1,0 q:i>1  w i]. *)
Definition forQuitTokens : list (list Token) :=
  [ [token TokenKind.LeadingWhitespace 0 0 1; identifierToken "f" 0 1 2;
     token TokenKind.Space 0 2 3; identifierToken "i" 0 3 4;
     token TokenKind.Equals 0 4 5; numberToken 1%float 0 5 6;
     token TokenKind.Colon 0 6 7; numberToken 1%float 0 7 8;
     token TokenKind.Comma 0 8 9; numberToken 0%float 0 9 10;
     token TokenKind.Space 0 10 11; identifierToken "q" 0 11 12;
     token TokenKind.Colon 0 12 13; identifierToken "i" 0 13 14;
     token TokenKind.GreaterThan 0 14 15; numberToken 1%float 0 15 16;
     token TokenKind.Space 0 16 17; token TokenKind.Space 0 17 18;
     identifierToken "w" 0 18 19; token TokenKind.Space 0 19 20;
     identifierToken "i" 0 20 21; token TokenKind.TrailingWhitespace 0 21 21] ].


(** A result that is not [Quit]. *)
Definition neverQuit (r : Result CommandResult.t) : Prop :=
  match r with
  | Ok CommandResult.Quit _ => False
  | _ => True
  end.

Section ForSweeps.

Context {engine : JsEngine}.
Variable interpretExpression : ExpressionAstNode -> M bool.
Variable interpretCommand : CommandAstNode -> M CommandResult.t.
Variable fuel : nat.

Lemma interpretForWithStart_neverQuit variable start children s :
  neverQuit (interpretForWithStart interpretExpression interpretCommand variable start
               children s).
Proof.
  unfold interpretForWithStart, bind, ret.
  repeat (case_match; simpl; try done).
Qed.

Lemma stepLoop_neverQuit n variable incrementValue children s :
  neverQuit (interpretForWithStartIncrementLoop interpretExpression interpretCommand n
               variable incrementValue children s).
Proof.
  revert s. induction n as [|n IH]; intros s; [done|].
  cbn [interpretForWithStartIncrementLoop]. unfold bind at 1.
  destruct (interpretChildCommands _ _ s) as [[] s1|]; try done.
  unfold bind. destruct (stepVariable _ _ _ s1) as [[] s2|]; [apply IH|done..].
Qed.

Lemma interpretForWithStartIncrement_neverQuit variable start increment children s :
  neverQuit (interpretForWithStartIncrement interpretExpression interpretCommand fuel
               variable start increment children s).
Proof.
  unfold interpretForWithStartIncrement, bind, ret.
  repeat (case_match; simpl; try done).
  apply stepLoop_neverQuit.
Qed.

Lemma endLoop_neverQuit n variable incrementValue endValue children s :
  neverQuit (interpretForWithStartIncrementEndLoop interpretExpression interpretCommand n
               variable incrementValue endValue children s).
Proof.
  revert s. induction n as [|n IH]; intros s; [done|].
  cbn [interpretForWithStartIncrementEndLoop]. unfold bind at 1.
  destruct (interpretVariable _ _ s) as [[] s1|]; try done.
  unfold bind at 1. destruct (pop s1) as [v s2|]; try done.
  case_match; [done|].
  unfold bind at 1.
  destruct (interpretChildCommands _ _ s2) as [[] s3|]; try done.
  unfold bind. destruct (stepVariable _ _ _ s3) as [[] s4|]; [apply IH|done..].
Qed.

Lemma interpretForWithStartIncrementEnd_neverQuit variable start increment end' children s :
  neverQuit (interpretForWithStartIncrementEnd interpretExpression interpretCommand fuel
               variable start increment end' children s).
Proof.
  unfold interpretForWithStartIncrementEnd, bind, ret.
  repeat (case_match; simpl; try done).
  apply endLoop_neverQuit.
Qed.

Lemma interpretForParameter_neverQuit variable parameter children r s :
  neverQuit (interpretForParameter interpretExpression interpretCommand fuel variable
               parameter children r s).
Proof.
  unfold interpretForParameter.
  destruct (expressions parameter) as [|e1 [|e2 [|e3 [|e4 rest]]]].
  - done.
  - apply interpretForWithStart_neverQuit.
  - apply interpretForWithStartIncrement_neverQuit.
  - apply interpretForWithStartIncrementEnd_neverQuit.
  - done.
Qed.


End ForSweeps.

(* ================================================================== *)
(** * C10: arguments beyond the parameter list *)
(* ================================================================== *)

Lemma bind_ext {A B} (m : M A) (f g : A -> M B) s :
  (forall a s', f a s' = g a s') -> bind m f s = bind m g s.
Proof. intros H. unfold bind. destruct (m s); [apply H|reflexivity]. Qed.

Lemma bind_cong_l {A B} (m1 m2 : M A) (f : A -> M B) s :
  m1 s = m2 s -> bind m1 f s = bind m2 f s.
Proof. intros H. unfold bind. rewrite H. reflexivity. Qed.

Section ExtraArguments.

Context {engine : JsEngine}.
Variable interpretExpression : ExpressionAstNode -> M bool.
Variable interpretCommand : CommandAstNode -> M CommandResult.t.

(** The binding loop looks at no argument beyond the parameters. *)
Lemma bindArguments_take environment tagParams args s :
  bindArguments interpretExpression environment tagParams args s
  = bindArguments interpretExpression environment tagParams
      (take (length tagParams) args) s.
Proof.
  revert args s. induction tagParams as [|p ps IH]; intros [|a args] s; try reflexivity.
  cbn [bindArguments length take]. apply bind_ext. intros [v|] s1; [|reflexivity].
  apply bind_ext. intros _ s2. apply IH.
Qed.

Lemma bindValues_take environment tagParams (args : list MValue) s :
  bindValues environment tagParams args s
  = bindValues environment tagParams (take (length tagParams) args) s.
Proof.
  revert args s. induction tagParams as [|p ps IH]; intros [|a args] s; try reflexivity.
  cbn [bindValues length take]. apply bind_ext. intros _ s1. apply IH.
Qed.

Lemma drop_length_take {A} (l : list A) (tagParams : list string) :
  drop (length (take (length tagParams) l)) tagParams = drop (length l) tagParams.
Proof.
  rewrite length_take. destruct (decide (length l <= length tagParams)%nat).
  - by rewrite Nat.min_r.
  - rewrite Nat.min_l by lia. rewrite !drop_ge; [done|lia..].
Qed.

(** C10: a call of a tag that declares the parameters [tagParams] (or none)
    gives the same result, in the same state, as the call with only the
    first [length tagParams] arguments (no argument at all for a tag
    without a parameter list): the other arguments are never evaluated. *)
Theorem extra_arguments_ignored name args r hasReturnValue s tag :
  tags (ast s) !! text name = Some tag ->
  interpretCall interpretExpression interpretCommand (MkCall name args r) hasReturnValue s
  = interpretCall interpretExpression interpretCommand
      (MkCall name (take (length (default [] (params tag))) args) r) hasReturnValue s.
Proof.
  intros Htag. unfold interpretCall.
  rewrite !(bind_Ok getState _ s s s eq_refl), Htag.
  destruct (params tag) as [tagParams|]; [|reflexivity].
  simpl. apply bind_cong_l. apply bind_ext. intros environment s2.
  rewrite drop_length_take. apply bind_cong_l, bindArguments_take.
Qed.

End ExtraArguments.

(** The same for [interpretTag], whose arguments are values. *)
Lemma interpretTag_extra_arguments `{JsEngine} fuel tag (args : list MValue) s :
  interpretTag fuel tag args s
  = interpretTag fuel tag (take (length (default [] (tag ≫= params))) args) s.
Proof.
  unfold interpretTag. destruct (tag ≫= params) as [tagParams|]; [|reflexivity].
  simpl. rewrite !(bind_Ok getState _ s s s eq_refl).
  apply bind_cong_l, bind_ext. intros environment s2.
  rewrite drop_length_take. apply bind_cong_l, bindValues_take.
Qed.

(** A program with the tag [greet(name)], whose body writes [name] and
    quits, and the call [greet("Test",$$missing())]: evaluating the second
    argument would report that the tag [missing] is not found. *)
Definition greetProgram : TopLevelAstNode :=
  {| tags := {[ "greet" := {| index := 0; params := Some ["name"] |} ]};
     topLevelChildren :=
       [ MkCommand None
           (WriteBody [WriteExpression (VariableNode (MkVariable (identifier "name") []
                                                        noRange))] noRange) noRange;
         MkCommand None (QuitBody None noRange) noRange ];
     topLevelRange := noRange |}.

Definition greetCall (args : list CallArgumentAstNode) : CallAstNode :=
  MkCall (identifier "greet") args noRange.

Definition greetArguments : list CallArgumentAstNode :=
  [ Argument (StringLiteral "Test" noRange);
    Argument (CallNode (MkCall (identifier "missing") [] noRange)) ].

Lemma extra_arguments_ignored_witness :
  interpretCall (interpretExpression (H := exampleEngine) 5)
    (interpretCommand (H := exampleEngine) 5) (greetCall greetArguments) false
    (makeInterpreterState greetProgram ∅)
  = interpretCall (interpretExpression (H := exampleEngine) 5)
      (interpretCommand (H := exampleEngine) 5)
      (greetCall [Argument (StringLiteral "Test" noRange)]) false
      (makeInterpreterState greetProgram ∅).
Proof.
  apply (extra_arguments_ignored _ _ (identifier "greet") greetArguments noRange false
           (makeInterpreterState greetProgram ∅)
           {| index := 0; params := Some ["name"] |}).
  vm_compute. reflexivity.
Defined.

(** What the call does: it writes "Test" and reports nothing. *)
Example greet_call_result :
  interpretCall (interpretExpression (H := exampleEngine) 5)
    (interpretCommand (H := exampleEngine) 5) (greetCall greetArguments) false
    (makeInterpreterState greetProgram ∅)
  = Ok true (setOutput ["Test"] 4%float
               (setNextFrameId 2 (makeInterpreterState greetProgram ∅))).
Proof. vm_compute. reflexivity. Qed.

(* ================================================================== *)
(** * C7: [$O] *)
(* ================================================================== *)

Definition orderDirectionError (node : ExpressionAstNode) : MError :=
  {| message := "Expected 1 or -1 for order builtin's direction argument";
     errorLine := line (start (expressionRange node));
     errorColumn := column (start (expressionRange node)) |}.

Section OrderBuiltin.

Context {engine : JsEngine}.
Variable interpretExpression : ExpressionAstNode -> M bool.

(** C7: (1) when the direction is given and its value is a number other
    than 1 and -1, [$O] reports the error, returns [false] and leaves no
    value on the stack (the value of the direction is popped); (2) for a
    variable without subscripts the result is the empty string; (3) when the
    parent of the last subscript resolves to a value that is not an array
    node, the result is the empty string (the value of the last subscript
    is popped, the empty string pushed). *)
Theorem order_builtin_edge_cases variable :
  (forall node s s1 d rest,
      interpretExpression node s = Ok true s1 ->
      valueStack s1 = d :: rest ->
      PrimFloat.eqb (scalarToNumber d) 1 = false ->
      PrimFloat.eqb (scalarToNumber d) (-1) = false ->
      interpretOrderBuiltin interpretExpression variable (Some node) s
      = Ok false
          (setErrors (errors s1 ++ [orderDirectionError node]) (setValueStack rest s1)))
  /\ (forall direction s s1 d,
         variableSubscripts variable = [] ->
         orderDirection interpretExpression direction s = Ok (Some d) s1 ->
         interpretOrderBuiltin interpretExpression variable direction s
         = Ok true (setValueStack (emptyString :: valueStack s1) s1))
  /\ (forall direction s s1 d reference s2 parent s3 node s4 key rest,
         orderDirection interpretExpression direction s = Ok (Some d) s1 ->
         variableSubscripts variable <> [] ->
         getVariableReference interpretExpression variable
           (Some (length (variableSubscripts variable) - 1)%nat) None false s1
         = Ok (Some reference) s2 ->
         getReferenceValue reference s2 = Ok (MScalarValue parent) s3 ->
         last (variableSubscripts variable) = Some node ->
         interpretExpression node s3 = Ok true s4 ->
         valueStack s4 = key :: rest ->
         interpretOrderBuiltin interpretExpression variable direction s
         = Ok true (setValueStack (emptyString :: rest) s4)).
Proof.
  split; [|split].
  - intros node s s1 d rest He Hs H1 H2.
    assert (Hd : orderDirection interpretExpression (Some node) s
                 = Ok None (setErrors (errors s1 ++ [orderDirectionError node])
                              (setValueStack rest s1))).
    { unfold orderDirection. rewrite (bind_Ok _ _ _ _ _ He).
      unfold bind at 1, pop. rewrite Hs.
      change minusOne with (-1)%float. change PrimFloat.one with 1%float.
      rewrite H1, H2. reflexivity. }
    unfold interpretOrderBuiltin. rewrite (bind_Ok _ _ _ _ _ Hd). reflexivity.
  - intros direction s s1 d Hsubs Hd.
    unfold interpretOrderBuiltin. rewrite (bind_Ok _ _ _ _ _ Hd), Hsubs.
    reflexivity.
  - intros direction s s1 d reference s2 parent s3 node s4 key rest
      Hd Hsubs Href Hval Hlast He Hs.
    unfold interpretOrderBuiltin. rewrite (bind_Ok _ _ _ _ _ Hd).
    rewrite bool_decide_false by (by destruct (variableSubscripts variable)).
    rewrite (bind_Ok _ _ _ _ _ Href), (bind_Ok _ _ _ _ _ Hval).
    rewrite last_lookup in Hlast.
    replace (pred (length (variableSubscripts variable)))
      with (length (variableSubscripts variable) - 1)%nat in Hlast by lia.
    rewrite Hlast, (bind_Ok _ _ _ _ _ He).
    unfold bind at 1, pop. rewrite Hs. reflexivity.
Qed.

End OrderBuiltin.

Definition variableX (subscripts : list ExpressionAstNode) : VariableAstNode :=
  MkVariable (identifier "x") subscripts noRange.

(** The three cases on [$O(x,-2)], [$O(x)] and [$O(x("a"))], [x] being
    undefined. *)
Lemma order_builtin_edge_cases_witness :
  let run := interpretExpression (H := exampleEngine) 3 in
  interpretOrderBuiltin run (variableX []) (Some (NumberLiteral (-2)%float noRange))
    initialState
  = Ok false (setErrors [orderDirectionError (NumberLiteral (-2)%float noRange)] initialState)
  /\ interpretOrderBuiltin run (variableX []) None initialState
     = Ok true (setValueStack [emptyString] initialState)
  /\ interpretOrderBuiltin run (variableX [StringLiteral "a" noRange]) None initialState
     = Ok true (setValueStack [emptyString] initialState).
Proof.
  intros run. split; [|split].
  - apply (proj1 (order_builtin_edge_cases run (variableX []))
             (NumberLiteral (-2)%float noRange) initialState
             (setValueStack [MNumber (-2)%float] initialState) (MNumber (-2)%float) []);
      reflexivity.
  - apply (proj1 (proj2 (order_builtin_edge_cases run (variableX [])))
             None initialState initialState 1%float); reflexivity.
  - apply (proj2 (proj2 (order_builtin_edge_cases run (variableX [StringLiteral "a" noRange])))
             None initialState initialState 1%float (EnvironmentReference 0 "x")
             initialState emptyString initialState (StringLiteral "a" noRange)
             (setValueStack [MString "a"] initialState) (MString "a") []);
      try reflexivity; try done.
Defined.

(* ================================================================== *)
(** * C8: binary operators associate to the left *)
(* ================================================================== *)

Definition tokenIn (k : TokenKind.t) (r : TextRange) : Token :=
  {| kind := k; tokenText := ""; tokenString := ""; tokenNumber := PrimFloat.zero;
     tokenRange := r |}.

Definition numberIn (value : number) (r : TextRange) : Token :=
  {| kind := TokenKind.Number; tokenText := ""; tokenString := "";
     tokenNumber := value; tokenRange := r |}.

(** The token of a binary operator. *)
Definition binaryOpToken (op : BinaryOp.t) : TokenKind.t :=
  match op with
  | BinaryOp.Or => TokenKind.ExclamationPoint
  | BinaryOp.And => TokenKind.Ampersand
  | BinaryOp.Equals => TokenKind.Equals
  | BinaryOp.LessThan => TokenKind.LessThan
  | BinaryOp.GreaterThan => TokenKind.GreaterThan
  | BinaryOp.Add => TokenKind.Plus
  | BinaryOp.Subtract => TokenKind.Minus
  | BinaryOp.Multiply => TokenKind.Asterisk
  | BinaryOp.Power => TokenKind.DoubleAsterisk
  | BinaryOp.Divide => TokenKind.ForwardSlash
  | BinaryOp.IntegerDivide => TokenKind.BackSlash
  | BinaryOp.Modulo => TokenKind.Hash
  | BinaryOp.Concatenate => TokenKind.Underscore
  end.

(** The operators that a leading ['] negates. *)
Definition negatable (op : BinaryOp.t) : bool :=
  match op with
  | BinaryOp.Or | BinaryOp.And | BinaryOp.Equals | BinaryOp.LessThan
  | BinaryOp.GreaterThan => true
  | _ => false
  end.

(** The tokens of an operator, with its ['] when it is negated. *)
Definition operatorTokens (op : BinaryOp.t) (isNegated : bool) (q r : TextRange)
    : list Token :=
  ((if isNegated then [tokenIn TokenKind.SingleQuote q] else [])
   ++ [tokenIn (binaryOpToken op) r])%list.

(** The tree of [(a op1 b) op2 c], [ra], [rb] and [rc] being the ranges of
    the three numbers. *)
Definition leftAssociated (a b c : number) (op1 : BinaryOp.t) (n1 : bool)
    (op2 : BinaryOp.t) (n2 : bool) (ra rb rc : TextRange) : ExpressionAstNode :=
  BinaryOpNode
    (BinaryOpNode (NumberLiteral a ra) (NumberLiteral b rb) op1 n1
       (range (start ra) (end_ rb)))
    (NumberLiteral c rc) op2 n2 (range (start ra) (end_ rc)).

(** The value of an operator, negated or not. *)
Definition operatorValue `{JsEngine} (op : BinaryOp.t) (isNegated : bool)
    (l r : MScalar) : MScalar :=
  if isNegated then negateValue (binaryOpValue op l r) else binaryOpValue op l r.

Definition startOfLine (column : nat) : ParserState :=
  {| position := {| positionLine := 0; positionColumn := column; nextUnparsedLine := 1 |};
     indentationLevel := 0; parserErrors := [] |}.

Lemma leftAssociated_value `{JsEngine} n a b c op1 n1 op2 n2 ra rb rc s :
  interpretExpression (S (S (S n))) (leftAssociated a b c op1 n1 op2 n2 ra rb rc) s
  = Ok true
      (setValueStack
         (operatorValue op2 n2 (operatorValue op1 n1 (MNumber a) (MNumber b)) (MNumber c)
          :: valueStack s) s).
Proof. reflexivity. Qed.

Section LeftToRight.
Context {engine : JsEngine}.

(** C8: binary operators have no precedence and associate to the left.
    For all numbers [a], [b], [c] and all binary operators [op1], [op2],
    each plain or (where the language allows it) negated with ['], the
    tokens of [a op1 b op2 c] followed by whitespace and the tokens of
    [(a op1 b) op2 c] parse, with enough fuel, to the same tree up to the
    ranges of the numbers: the tree whose left operand is [a op1 b]; and
    evaluating it pushes the value of [op2] applied to the value of
    [a op1 b] and to [c]. *)
Theorem binary_operators_left_to_right
    (a b c : number) (op1 op2 : BinaryOp.t) (n1 n2 : bool) (k : TokenKind.t)
    (ra rb rc q1 r1 q2 r2 rs : TextRange) (rest : list Token)
    (pl pr ra' rb' rc' q1' r1' q2' r2' rs' : TextRange) (rest' : list Token)
    (n m : nat) (s : InterpreterState) :
  (n1 = true -> negatable op1 = true) ->
  (n2 = true -> negatable op2 = true) ->
  isWhitespaceKind k = true ->
  let flat :=
    ([numberIn a ra] ++ operatorTokens op1 n1 q1 r1 ++ [numberIn b rb]
     ++ operatorTokens op2 n2 q2 r2 ++ [numberIn c rc; tokenIn k rs] ++ rest)%list in
  let parenthesized :=
    ([tokenIn TokenKind.LeftParen pl; numberIn a ra'] ++ operatorTokens op1 n1 q1' r1'
     ++ [numberIn b rb'; tokenIn TokenKind.RightParen pr]
     ++ operatorTokens op2 n2 q2' r2' ++ [numberIn c rc'; tokenIn k rs'] ++ rest')%list in
  let value :=
    operatorValue op2 n2 (operatorValue op1 n1 (MNumber a) (MNumber b)) (MNumber c) in
  parseExpression [flat] (4 + n) (startOfLine 0)
    = Parsed (Some (leftAssociated a b c op1 n1 op2 n2 ra rb rc))
        (startOfLine (5 + Nat.b2n n1 + Nat.b2n n2))
  /\ parseExpression [parenthesized] (4 + n) (startOfLine 0)
    = Parsed (Some (leftAssociated a b c op1 n1 op2 n2 ra' rb' rc'))
        (startOfLine (7 + Nat.b2n n1 + Nat.b2n n2))
  /\ interpretExpression (3 + m) (leftAssociated a b c op1 n1 op2 n2 ra rb rc) s
    = Ok true (setValueStack (value :: valueStack s) s)
  /\ interpretExpression (3 + m) (leftAssociated a b c op1 n1 op2 n2 ra' rb' rc') s
    = Ok true (setValueStack (value :: valueStack s) s).
Proof.
  intros H1 H2 Hk flat parenthesized value.
  assert (k = TokenKind.Space \/ k = TokenKind.LeadingWhitespace
          \/ k = TokenKind.TrailingWhitespace) as Hkind
    by (destruct k; try discriminate Hk; auto).
  split; [|split; [|split; apply leftAssociated_value]].
  - subst flat.
    destruct n1; [specialize (H1 eq_refl)|clear H1];
      (destruct n2; [specialize (H2 eq_refl)|clear H2]);
      destruct op1; try discriminate H1; destruct op2; try discriminate H2;
      destruct Hkind as [->|[->| ->]]; reflexivity.
  - subst parenthesized.
    destruct n1; [specialize (H1 eq_refl)|clear H1];
      (destruct n2; [specialize (H2 eq_refl)|clear H2]);
      destruct op1; try discriminate H1; destruct op2; try discriminate H2;
      destruct Hkind as [->|[->| ->]]; reflexivity.
Qed.

End LeftToRight.

Definition threePlusFourTimesThree : list (list Token) :=
  [ [token TokenKind.LeadingWhitespace 0 0 1; identifierToken "w" 0 1 2;
     token TokenKind.Space 0 2 3; numberToken 3%float 0 3 4;
     token TokenKind.Plus 0 4 5; numberToken 4%float 0 5 6;
     token TokenKind.Asterisk 0 6 7; numberToken 3%float 0 7 8;
     token TokenKind.TrailingWhitespace 0 8 8] ].

(** [3+4*3] is [(3+4)*3 = 21]: the instance of the theorem, and the output
    of the program [ w 3+4*3]. *)
Lemma binary_operators_left_to_right_witness :
  let r := noRange in
  let tree :=
    leftAssociated 3%float 4%float 3%float BinaryOp.Add false BinaryOp.Multiply false
      r r r in
  (parseExpression
     [[numberIn 3%float r; tokenIn TokenKind.Plus r; numberIn 4%float r;
       tokenIn TokenKind.Asterisk r; numberIn 3%float r;
       tokenIn TokenKind.TrailingWhitespace r]] 4 (startOfLine 0)
   = Parsed (Some tree) (startOfLine 5)
   /\ interpretExpression (H := exampleEngine) 3 tree initialState
      = Ok true (setValueStack [MNumber 21%float] initialState))
  /\ interpretTokens (H := exampleEngine) 20 threePlusFourTimesThree
     = Some (Returned "21" []).
Proof.
  intros r tree. split; [|vm_compute; reflexivity].
  destruct (binary_operators_left_to_right (engine := exampleEngine)
              3%float 4%float 3%float BinaryOp.Add BinaryOp.Multiply false false
              TokenKind.TrailingWhitespace r r r r r r r r [] r r r r r r r r r r []
              0 0 initialState) as (Hflat & _ & Hvalue & _);
    [discriminate|discriminate|reflexivity|].
  split; [exact Hflat|exact Hvalue].
Defined.

(* ================================================================== *)
(** * C9: [$TEST] lives in the global frame only *)
(* ================================================================== *)

(** ** The programs of the parser

    The identifiers of the tokenizer are letter sequences, so no parameter
    of a tag and no argument of [new] is called [$TEST]. *)

Definition isNotTest (name : string) : bool := negb (String.eqb name TEST).

Fixpoint commandOk (c : CommandAstNode) : bool :=
  match c with
  | MkCommand _ body _ => bodyOk body
  end
with bodyOk (body : CommandBodyAstNode) : bool :=
  match body with
  | DoBlockBody children _ => forallb commandOk children
  | IfBody _ children _ => forallb commandOk children
  | ElseBody children _ => forallb commandOk children
  | ForBody _ children _ => forallb commandOk children
  | NewBody args _ => forallb (fun arg => isNotTest (text arg)) args
  | _ => true
  end.

Definition tagOk (tag : Tag) : bool := forallb isNotTest (default [] (params tag)).

Definition astOk (a : TopLevelAstNode) : bool :=
  forallb commandOk (topLevelChildren a)
  && forallb (fun entry : string * Tag => tagOk entry.2) (map_to_list (tags a)).

(** ** The invariant *)

Definition isBinding (v : EnvironmentValue) : Prop :=
  match v with
  | Binding _ => True
  | IndirectReference _ => False
  end.

Definition direct (b : gmap string EnvironmentValue) : Prop :=
  map_Forall (fun _ v => isBinding v) b.

(** A frame above the global one, whose identity is [globalId]: it does not
    bind [$TEST], and it is another [Map] than the global frame. *)
Definition frameOk (globalId : nat) (slot : option Environment) : Prop :=
  match slot with
  | Some env =>
      bindings env !! TEST = None /\ frame_id env <> globalId /\ direct (bindings env)
  | None => True
  end.

Definition stackOk (next : nat) (stack : list (option Environment)) : Prop :=
  match stack with
  | Some globalFrame :: rest =>
      (frame_id globalFrame < next)%nat /\ direct (bindings globalFrame)
      /\ Forall (frameOk (frame_id globalFrame)) rest
  | _ => False
  end.

(** What the claim says of a state: no frame but frame 0 binds [$TEST]. *)
Definition testOnlyInGlobalFrame (s : InterpreterState) : Prop :=
  forall (i : nat) (env : Environment),
    environmentStack s !! S i = Some (Some env) -> bindings env !! TEST = None.

(** The identity of the global frame. *)
Definition globalFrameId (s : InterpreterState) : option nat :=
  match environmentStack s with
  | Some globalFrame :: _ => Some (frame_id globalFrame)
  | _ => None
  end.

(** A reference through which [$TEST] may be written: one to the global
    frame. *)
Definition targetOk (environment : nat) (name : string) (s : InterpreterState) : Prop :=
  name = TEST -> globalFrameId s = Some environment.

Definition referenceOk (r : MReference) (s : InterpreterState) : Prop :=
  match r with
  | EnvironmentReference environment name => targetOk environment name s
  | ArrayReference _ _ => True
  end.

Definition hoare {A} (P : InterpreterState -> Prop) (m : M A)
    (Q : A -> InterpreterState -> Prop) : Prop :=
  forall s x s', P s -> m s = Ok x s' -> Q x s'.

Lemma hoare_bind {A B} P R Q (m : M A) (f : A -> M B) :
  hoare P m R -> (forall x, hoare (R x) (f x) Q) -> hoare P (bind m f) Q.
Proof.
  intros Hm Hf s y s' HP. unfold bind. destruct (m s) as [x s1|] eqn:E; [|done].
  intros Hy. exact (Hf x s1 y s' (Hm s x s1 HP E) Hy).
Qed.

Lemma hoare_ret {A} (P : InterpreterState -> Prop) (Q : A -> InterpreterState -> Prop) x :
  (forall s, P s -> Q x s) -> hoare P (ret x) Q.
Proof. intros H s y s' HP [= <- <-]. auto. Qed.

Lemma hoare_weaken {A} (P P' : InterpreterState -> Prop) (m : M A)
    (Q Q' : A -> InterpreterState -> Prop) :
  hoare P' m Q' -> (forall s, P s -> P' s) -> (forall x s, Q' x s -> Q x s) ->
  hoare P m Q.
Proof. intros H HP HQ s x s' Hs E. eauto. Qed.

(** The state is read, not changed. *)
Lemma hoare_getState_bind {B} P Q (f : InterpreterState -> M B) :
  (forall s0, P s0 -> hoare (fun s => s = s0) (f s0) Q) -> hoare P (bind getState f) Q.
Proof. intros H s y s' HP. unfold bind, getState. intros E. exact (H s HP s y s' eq_refl E). Qed.

Lemma stackOk_testOnly s :
  stackOk (nextFrameId s) (environmentStack s) -> testOnlyInGlobalFrame s.
Proof.
  unfold stackOk, testOnlyInGlobalFrame.
  destruct (environmentStack s) as [|[g|] rest]; try done.
  intros (_ & _ & Hrest) i env Hi. simpl in Hi.
  rewrite Forall_lookup in Hrest. apply (Hrest i (Some env) Hi).
Qed.

Lemma direct_insert name v b : direct b -> direct (<[name := Binding v]> b).
Proof. intros H. apply map_Forall_insert_2; done. Qed.

Lemma direct_delete name b : direct b -> direct (delete name b).
Proof. intros H. apply map_Forall_delete. done. Qed.

Lemma direct_empty : direct ∅.
Proof. apply map_Forall_empty. Qed.

(** Writing to the frames of identity [id]: a function that keeps [$TEST]
    unbound where it is, or the identity of the global frame. *)
Lemma stackOk_updateFrames next stack id f :
  stackOk next stack ->
  (forall b, direct b -> direct (f b)) ->
  (forall b, b !! TEST = None -> f b !! TEST = None)
  \/ (exists g rest, stack = Some g :: rest /\ id = frame_id g) ->
  stackOk next (updateFrames id f stack).
Proof.
  unfold stackOk. destruct stack as [|[g|] rest]; try done.
  intros (Hlt & Hg & Hrest) Hf Hcase. cbn [updateFrames fmap list_fmap].
  assert (frame_id (if decide (frame_id g = id)
                    then {| frame_id := id; bindings := f (bindings g) |} else g)
          = frame_id g) as Hid by (case_decide; [simpl; congruence|done]).
  destruct (decide (frame_id g = id)) as [Heq|Hne]; cbn [frame_id bindings].
  - subst id. split; [done|]. split; [auto|].
    rewrite Forall_fmap. eapply Forall_impl; [exact Hrest|].
    intros [env|]; [|done]. simpl. intros (Ht & Hn & Hd).
    case_decide; [done|]. done.
  - split; [done|]. split; [done|].
    rewrite Forall_fmap. eapply Forall_impl; [exact Hrest|].
    intros [env|]; [|done]. simpl. intros (Ht & Hn & Hd).
    case_decide; [|done]. simpl.
    destruct Hcase as [Hkeep|(g' & rest' & [= <- <-] & ->)]; [|done].
    split; [auto|]. split; [congruence|auto].
Qed.

Lemma lookupName_direct name stack i r :
  Forall (fun slot => match slot with
                      | Some env => direct (bindings env)
                      | None => True
                      end) stack ->
  lookupName name stack i = LookupIndirect r -> False.
Proof.
  intros Hall. induction i as [|j IH]; simpl; [done|].
  destruct (stack !! j) as [[env|]|] eqn:Ej; try done.
  destruct (bindings env !! name) as [[v|r']|] eqn:En; try done.
  intros _. rewrite Forall_lookup in Hall.
  exact (Hall j (Some env) Ej name (IndirectReference r') En).
Qed.

Lemma stackOk_direct next stack :
  stackOk next stack ->
  Forall (fun slot => match slot with
                      | Some env => direct (bindings env)
                      | None => True
                      end) stack.
Proof.
  unfold stackOk. destruct stack as [|[g|] rest]; try done.
  intros (_ & Hg & Hrest). constructor; [done|].
  eapply Forall_impl; [exact Hrest|]. intros [env|]; [|done]. by intros (_ & _ & ?).
Qed.

(** [$TEST] is found in the global frame, if anywhere. *)
Lemma lookupName_TEST next g rest i id v :
  stackOk next (Some g :: rest) ->
  lookupName TEST (Some g :: rest) i = LookupBinding id v -> id = frame_id g.
Proof.
  intros (_ & _ & Hrest). induction i as [|j IH]; simpl; [done|].
  destruct j as [|j]; simpl.
  - destruct (bindings g !! TEST) as [[w|r]|]; try done. by intros [= <- _].
  - destruct (rest !! j) as [[env|]|] eqn:Ej; try done.
    rewrite Forall_lookup in Hrest. destruct (Hrest j (Some env) Ej) as (Hno & _).
    rewrite Hno. exact IH.
Qed.

Create HintDb keeps.

Section GlobalFrame.

Context {engine : JsEngine}.
Variable program : TopLevelAstNode.
Hypothesis programOk : astOk program = true.

(** The invariant of the interpreter's states. *)
Definition globalOnly (s : InterpreterState) : Prop :=
  ast s = program /\ stackOk (nextFrameId s) (environmentStack s).

Definition keeps {A} (m : M A) : Prop := hoare globalOnly m (fun _ => globalOnly).

Lemma keeps_bind {A B} (m : M A) (f : A -> M B) :
  keeps m -> (forall x, keeps (f x)) -> keeps (bind m f).
Proof. intros Hm Hf. eapply hoare_bind; [exact Hm|exact Hf]. Qed.

Lemma keeps_ret {A} (x : A) : keeps (ret x).
Proof. apply hoare_ret. auto. Qed.

Lemma keeps_abort {A} e : keeps (@abort A e).
Proof. intros s x s' _. discriminate. Qed.

Lemma keeps_throw {A} e : keeps (@throw A e).
Proof. apply keeps_abort. Qed.

Lemma keeps_getState {B} (f : InterpreterState -> M B) :
  (forall s0, globalOnly s0 -> keeps (f s0)) -> keeps (bind getState f).
Proof.
  intros H. apply hoare_getState_bind. intros s0 H0 s x s' -> E. exact (H s0 H0 s0 x s' H0 E).
Qed.

Lemma keeps_modify f : (forall s, globalOnly s -> globalOnly (f s)) -> keeps (modify f).
Proof. intros H s x s' Hs [= _ <-]. auto. Qed.

Lemma keeps_pop : keeps pop.
Proof.
  intros s x s' Hs. unfold pop. destruct (valueStack s); [done|]. intros [= _ <-]. exact Hs.
Qed.

Lemma keeps_push v : keeps (push v).
Proof. apply keeps_modify. intros s Hs. exact Hs. Qed.

Lemma keeps_truncateValueStack n : keeps (truncateValueStack n).
Proof.
  intros s x s' Hs. unfold truncateValueStack. case_decide; [|done]. intros [= _ <-]. exact Hs.
Qed.

Lemma keeps_reportError message range : keeps (reportError message range).
Proof. apply keeps_modify. intros s Hs. exact Hs. Qed.

Lemma keeps_newArray v : keeps (newArray v).
Proof. intros s x s' Hs. unfold newArray. intros [= _ <-]. exact Hs. Qed.

Lemma getReferenceValue_state r s v s' : getReferenceValue r s = Ok v s' -> s' = s.
Proof.
  unfold getReferenceValue, bind, getState. destruct r as [array key|environment name].
  - by intros [= _ <-].
  - destruct (findFrame environment (environmentStack s)) as [env|]; [|done].
    destruct (bindings env !! name) as [[w|r]|]; try done; by intros [= _ <-].
Qed.

Lemma keeps_getReferenceValue r : keeps (getReferenceValue r).
Proof. intros s x s' Hs E. by rewrite (getReferenceValue_state _ _ _ _ E). Qed.

Lemma keeps_environmentSet_other id name v :
  isNotTest name = true -> keeps (environmentSet id name v).
Proof.
  intros Hname. apply keeps_modify. intros s [Ha Hs]. split; [exact Ha|].
  cbn. apply stackOk_updateFrames; [exact Hs|apply direct_insert|left].
  intros b Hb. rewrite lookup_insert_ne; [done|].
  intros ->. unfold isNotTest in Hname. by rewrite String.eqb_refl in Hname.
Qed.

Lemma globalFrameId_spec s id :
  globalFrameId s = Some id ->
  exists g rest, environmentStack s = Some g :: rest /\ id = frame_id g.
Proof.
  unfold globalFrameId. destruct (environmentStack s) as [|[g|] rest]; try done.
  intros [= <-]. eauto.
Qed.

(** A write through a reference of [getReference]. *)
Lemma environmentSet_target id name v :
  hoare (fun s => globalOnly s /\ targetOk id name s) (environmentSet id name v)
    (fun _ => globalOnly).
Proof.
  intros s x s' [[Ha Hs] Ht] [= _ <-]. split; [exact Ha|]. cbn.
  apply stackOk_updateFrames; [exact Hs|apply direct_insert|].
  destruct (String.eqb name TEST) eqn:E.
  - right. apply String.eqb_eq in E. apply globalFrameId_spec. auto.
  - left. intros b Hb. rewrite lookup_insert_ne; [done|].
    intros ->. by rewrite String.eqb_refl in E.
Qed.

Lemma keeps_environmentDelete id name : keeps (environmentDelete id name).
Proof.
  apply keeps_modify. intros s [Ha Hs]. split; [exact Ha|]. cbn.
  apply stackOk_updateFrames; [exact Hs|apply direct_delete|left].
  intros b Hb. destruct (decide (name = TEST)) as [->|Hne].
  - apply lookup_delete_eq.
  - by rewrite lookup_delete_ne.
Qed.

Lemma setReferenceValue_hoare r v :
  hoare (fun s => globalOnly s /\ referenceOk r s) (setReferenceValue r v)
    (fun _ => globalOnly).
Proof.
  destruct r as [array key|environment name]; simpl.
  - intros s1 x s' [Hs _] [= _ <-]. exact Hs.
  - apply environmentSet_target.
Qed.

Lemma keeps_setSpecialVariable name v : keeps (setSpecialVariable name v).
Proof.
  intros s x s' [Ha Hs]. unfold setSpecialVariable, bind, getState, modify.
  destruct (environmentStack s) as [|[g|] rest] eqn:E; try done.
  intros [= _ <-]. split; [exact Ha|]. cbn.
  destruct Hs as (Hlt & Hd & Hrest). cbn. split; [done|]. split; [|done].
  by apply direct_insert.
Qed.

Lemma keeps_getSpecialVariable name : keeps (getSpecialVariable name).
Proof.
  intros s x s' Hs. unfold getSpecialVariable, bind, getState.
  destruct (environmentStack s !! 0%nat) as [[g|]|]; try done.
  destruct (bindings g !! name) as [[w|r]|]; try done; by intros [= _ <-].
Qed.

Lemma keeps_pushEnvironment b :
  direct b -> b !! TEST = None -> keeps (pushEnvironment b).
Proof.
  intros Hd Hb s x s' [Ha Hs] [= _ <-]. split; [exact Ha|]. cbn.
  unfold stackOk in *. destruct (environmentStack s) as [|[g|] rest]; try done.
  destruct Hs as (Hlt & Hg & Hrest). cbn. split; [lia|]. split; [done|].
  apply Forall_app. split; [done|]. constructor; [|done]. simpl.
  split; [done|]. split; [lia|done].
Qed.

Lemma keeps_resetEnvironmentStack : keeps resetEnvironmentStack.
Proof.
  intros s x s' [Ha Hs] [= _ <-]. split; [exact Ha|]. cbn.
  split; [lia|]. split; [apply direct_empty|done].
Qed.

(** The stack is cut to a length it had in a state of the invariant. *)
Lemma keeps_setEnvironmentStackLength s0 :
  globalOnly s0 -> keeps (setEnvironmentStackLength (length (environmentStack s0))).
Proof.
  intros [_ H0]. apply keeps_modify. intros s [Ha Hs]. split; [exact Ha|]. cbn.
  unfold stackOk in *.
  destruct (environmentStack s0) as [|slot0 rest0]; [done|].
  destruct (environmentStack s) as [|[g|] rest]; try done.
  destruct Hs as (Hlt & Hg & Hrest). cbn. split; [done|]. split; [done|].
  apply Forall_app. split.
  - apply Forall_take. done.
  - apply Forall_replicate. done.
Qed.

Section Step.

Variable ie : ExpressionAstNode -> M bool.
Variable ic : CommandAstNode -> M CommandResult.t.
Variable fuel : nat.
Hypothesis Hie : forall e, keeps (ie e).
Hypothesis Hic : forall c, commandOk c = true -> keeps (ic c).

Ltac keeps_step :=
  lazymatch goal with
  | |- keeps (ret _) => apply keeps_ret
  | |- keeps (abort _) => apply keeps_abort
  | |- keeps (throw _) => apply keeps_throw
  | |- keeps pop => apply keeps_pop
  | |- keeps (push _) => apply keeps_push
  | |- keeps (reportError _ _) => apply keeps_reportError
  | |- keeps (truncateValueStack _) => apply keeps_truncateValueStack
  | |- keeps (newArray _) => apply keeps_newArray
  | |- keeps (getReferenceValue _) => apply keeps_getReferenceValue
  | |- keeps (environmentDelete _ _) => apply keeps_environmentDelete
  | |- keeps (setSpecialVariable _ _) => apply keeps_setSpecialVariable
  | |- keeps (getSpecialVariable _) => apply keeps_getSpecialVariable
  | |- keeps (ie _) => apply Hie
  | |- keeps (modify _) => apply keeps_modify; let Hs := fresh in intros ? Hs; exact Hs
  | |- keeps (bind getState _) => apply keeps_getState; intros ? ?
  | |- keeps (bind _ _) => apply keeps_bind; [|intros ?]
  | |- keeps (match ?x with _ => _ end) => destruct x
  end.

Ltac keeps_auto := repeat first [ assumption | solve [auto 4 with keeps] | keeps_step ].

Lemma keeps_getSubscriptKey i subscripts subscriptValues :
  keeps (getSubscriptKey ie i subscripts subscriptValues).
Proof. unfold getSubscriptKey. keeps_auto. Qed.

Definition referenceResultOk (result : ReferenceResult) (s : InterpreterState) : Prop :=
  globalOnly s
  /\ match result with
     | FoundReference r => referenceOk r s
     | _ => True
     end.

Lemma getReferenceLoop_hoare count :
  forall i environment name subscripts subscriptValues canCreate array subscriptKey value,
    hoare (fun s => globalOnly s /\ (i = 0%nat -> targetOk environment name s))
      (getReferenceLoop ie count i environment name subscripts subscriptValues canCreate
         array subscriptKey value)
      referenceResultOk.
Proof.
  induction count as [|count IH];
    intros i environment name subscripts subscriptValues canCreate array subscriptKey value;
    simpl.
  - destruct array, subscriptKey; try (intros ? ? ? _; discriminate).
    apply hoare_ret. intros s1 [Hs _]. by split.
  - eapply hoare_bind with (R := fun _ => globalOnly).
    + destruct value as [[v|l]|]; try (apply hoare_ret; tauto);
        (destruct canCreate; [|apply hoare_ret; tauto]);
        (eapply hoare_bind with
           (R := fun _ s => globalOnly s /\ (i = 0%nat -> targetOk environment name s));
         [intros s x s' Hs [= _ <-]; exact Hs|]);
        intros l; (eapply hoare_bind with (R := fun _ => globalOnly);
                   [|intros ?; apply hoare_ret; tauto]);
        case_bool_decide.
      * destruct array, subscriptKey; try (intros ? ? ? _; discriminate).
        intros s1 x s' [Hs _] [= _ <-]. exact Hs.
      * eapply hoare_weaken; [apply environmentSet_target| |auto].
        intros s [Hs Ht]. split; [done|]. apply Ht. lia.
      * destruct array, subscriptKey; try (intros ? ? ? _; discriminate).
        intros s1 x s' [Hs _] [= _ <-]. exact Hs.
      * eapply hoare_weaken; [apply environmentSet_target| |auto].
        intros s [Hs Ht]. split; [done|]. apply Ht. lia.
    + intros [l|]; [|apply hoare_ret; intros s Hs; by split].
      eapply hoare_bind; [apply keeps_getSubscriptKey|]. intros [[|c k]|].
      * apply hoare_ret. intros s Hs. by split.
      * apply hoare_getState_bind. intros s0 H0.
        eapply hoare_weaken; [apply IH| |auto].
        intros s ->. split; [done|]. lia.
      * apply hoare_ret. intros s Hs. by split.
Qed.

Lemma getReference_hoare name subscriptCount subscripts subscriptValues canCreate :
  hoare globalOnly
    (getReference ie name subscriptCount subscripts subscriptValues canCreate)
    referenceResultOk.
Proof.
  unfold getReference. apply hoare_getState_bind. intros s0 [Ha H0].
  assert (forall id, globalFrameId s0 = Some id ->
          hoare (fun s => s = s0)
            (if bool_decide (subscriptCount = 0%nat)
             then ret (FoundReference (EnvironmentReference id name))
             else getReferenceLoop ie subscriptCount 0 id name subscripts subscriptValues
                    canCreate None None None)
            referenceResultOk) as Hglobal.
  { intros id Hid. case_bool_decide.
    - apply hoare_ret. intros s ->. split; [by split|]. simpl. by intros _.
    - eapply hoare_weaken; [apply getReferenceLoop_hoare| |auto].
      intros s ->. split; [by split|]. by intros _ _. }
  destruct (lookupName name (environmentStack s0) (length (environmentStack s0)))
    as [|r|id v|] eqn:El.
  - intros s x s' _. discriminate.
  - destruct (lookupName_direct _ _ _ _ (stackOk_direct _ _ H0) El).
  - assert (targetOk id name s0) as Ht.
    { intros ->. unfold globalFrameId. unfold stackOk in H0.
      destruct (environmentStack s0) as [|[g|] rest] eqn:E; try done.
      f_equal. symmetry. eapply (lookupName_TEST (nextFrameId s0)); [|exact El].
      exact H0. }
    intros s x s' -> E. unfold bind at 1, ret at 1 in E.
    case_bool_decide.
    + injection E as <- <-. split; [by split|]. exact Ht.
    + eapply getReferenceLoop_hoare; [|exact E]. split; [by split|]. by intros _.
  - intros s x s' -> E. unfold bind at 1 in E.
    unfold stackOk in H0.
    destruct (environmentStack s0) as [|[g|] rest] eqn:E0; try done.
    simpl in E. unfold ret at 1 in E.
    eapply (Hglobal (frame_id g)); [|reflexivity|exact E].
    unfold globalFrameId. by rewrite E0.
Qed.

Lemma keeps_getReference name subscriptCount subscripts subscriptValues canCreate :
  keeps (getReference ie name subscriptCount subscripts subscriptValues canCreate).
Proof.
  eapply hoare_weaken; [apply getReference_hoare|auto|]. by intros x s [Hs _].
Qed.

Lemma getVariableReference_hoare node subscriptCount subscriptValues canCreate :
  hoare globalOnly (getVariableReference ie node subscriptCount subscriptValues canCreate)
    (fun reference s =>
       globalOnly s
       /\ match reference with
          | Some r => referenceOk r s
          | None => True
          end).
Proof.
  unfold getVariableReference. eapply hoare_bind; [apply getReference_hoare|].
  intros [r| |].
  - apply hoare_ret. auto.
  - eapply hoare_bind with (R := fun _ => globalOnly).
    + intros s x s' [Hs _] [= _ <-]. exact Hs.
    + intros ?. apply hoare_ret. auto.
  - apply hoare_ret. intros s [Hs _]. auto.
Qed.

Lemma keeps_getVariableReference node subscriptCount subscriptValues canCreate :
  keeps (getVariableReference ie node subscriptCount subscriptValues canCreate).
Proof.
  eapply hoare_weaken; [apply getVariableReference_hoare|auto|]. by intros x s [Hs _].
Qed.

#[local] Hint Resolve keeps_getReference keeps_getVariableReference
  keeps_getSubscriptKey : keeps.

Lemma keeps_getCallArgumentReference node : keeps (getCallArgumentReference ie node).
Proof. unfold getCallArgumentReference. keeps_auto. Qed.

Lemma keeps_setVariable node value : keeps (setVariable ie node value).
Proof.
  unfold setVariable. eapply hoare_bind; [apply getVariableReference_hoare|].
  intros [r|].
  - eapply hoare_bind; [apply setReferenceValue_hoare|]. intros ?. apply keeps_ret.
  - apply hoare_ret. tauto.
Qed.

Lemma keeps_interpretVariable node : keeps (interpretVariable ie node).
Proof. unfold interpretVariable. keeps_auto. Qed.

#[local] Hint Resolve keeps_getCallArgumentReference keeps_setVariable
  keeps_interpretVariable : keeps.

Lemma keeps_externArguments args : keeps (externArguments ie args).
Proof. induction args as [|arg rest IH]; simpl; keeps_auto. Qed.

#[local] Hint Resolve keeps_externArguments : keeps.

Lemma keeps_interpretExtern node extern hasReturnValue :
  keeps (interpretExtern ie node extern hasReturnValue).
Proof. unfold interpretExtern. keeps_auto. Qed.

Lemma keeps_interpretChildCommands children :
  forallb commandOk children = true -> keeps (interpretChildCommands ic children).
Proof.
  induction children as [|command rest IH]; simpl; [intros _; apply keeps_ret|].
  intros [Hc Hrest]%andb_prop. apply keeps_bind; [by apply Hic|].
  intros [| |]; keeps_auto.
Qed.

Lemma forallb_drop {A} (f : A -> bool) n l : forallb f l = true -> forallb f (drop n l) = true.
Proof.
  revert l. induction n as [|n IH]; intros [|x l]; simpl; try done.
  intros [_ H]%andb_prop. auto.
Qed.

Lemma keeps_interpretTopLevel start : keeps (interpretTopLevel ic start).
Proof.
  unfold interpretTopLevel. apply keeps_getState. intros s0 [Ha _].
  apply keeps_interpretChildCommands. rewrite Ha. apply forallb_drop.
  unfold astOk in programOk. by apply andb_prop in programOk as [? _].
Qed.

Lemma keeps_bindArguments environment params args :
  forallb isNotTest params = true -> keeps (bindArguments ie environment params args).
Proof.
  revert args. induction params as [|param rest IH]; intros args; simpl;
    [intros _; apply keeps_ret|].
  intros [Hp Hrest]%andb_prop. destruct args as [|arg args]; [apply keeps_ret|].
  apply keeps_bind; [auto with keeps|]. intros [v|]; [|apply keeps_ret].
  apply keeps_bind; [by apply keeps_environmentSet_other|]. intros ?. by apply IH.
Qed.

Lemma keeps_bindMissing environment params :
  forallb isNotTest params = true -> keeps (bindMissing environment params).
Proof.
  induction params as [|param rest IH]; simpl; [intros _; apply keeps_ret|].
  intros [Hp Hrest]%andb_prop.
  apply keeps_bind; [by apply keeps_environmentSet_other|]. intros ?. by apply IH.
Qed.

Lemma keeps_bindValues environment params args :
  forallb isNotTest params = true -> keeps (bindValues environment params args).
Proof.
  revert args. induction params as [|param rest IH]; intros args; simpl;
    [intros _; apply keeps_ret|].
  intros [Hp Hrest]%andb_prop. destruct args as [|arg args]; [apply keeps_ret|].
  apply keeps_bind; [by apply keeps_environmentSet_other|]. intros ?. by apply IH.
Qed.

(** The parameters of the tags of the program. *)
Lemma tag_parameters name tag tagParams :
  tags program !! name = Some tag -> params tag = Some tagParams ->
  forallb isNotTest tagParams = true.
Proof.
  intros Htag Hparams. unfold astOk in programOk.
  apply andb_prop in programOk as [_ Htags].
  rewrite forallb_forall in Htags.
  specialize (Htags (name, tag)). unfold tagOk in Htags. simpl in Htags.
  rewrite Hparams in Htags. apply Htags.
  apply list_elem_of_In, elem_of_map_to_list. exact Htag.
Qed.

#[local] Hint Resolve keeps_interpretExtern keeps_interpretChildCommands
  keeps_interpretTopLevel keeps_bindArguments keeps_bindMissing forallb_drop : keeps.

Lemma keeps_interpretCall node hasReturnValue :
  keeps (interpretCall ie ic node hasReturnValue).
Proof.
  unfold interpretCall. destruct node as [name args range].
  apply keeps_getState. intros s0 H0.
  destruct (tags (ast s0) !! text name) as [tag|] eqn:Etag; [|keeps_auto].
  destruct H0 as [Ha H0]. rewrite Ha in Etag.
  pose proof (keeps_setEnvironmentStackLength s0 (conj Ha H0)) as Hcut.
  apply keeps_bind.
  - destruct (params tag) as [tagParams|] eqn:Eparams; [|apply keeps_ret].
    pose proof (tag_parameters _ _ _ Etag Eparams) as Hparams.
    apply keeps_bind; [apply keeps_pushEnvironment; [apply direct_empty|done]|].
    intros environment. keeps_auto.
  - intros bound. keeps_auto.
Qed.

#[local] Hint Resolve keeps_interpretCall : keeps.

Lemma keeps_orderDirection direction : keeps (orderDirection ie direction).
Proof. unfold orderDirection. keeps_auto. Qed.

#[local] Hint Resolve keeps_orderDirection : keeps.

Lemma keeps_getExtractionStart node : keeps (getExtractionStart ie node).
Proof. unfold getExtractionStart. keeps_auto. Qed.

Lemma keeps_getExtractionEnd node start : keeps (getExtractionEnd ie node start).
Proof. unfold getExtractionEnd. keeps_auto. Qed.

#[local] Hint Resolve keeps_getExtractionStart keeps_getExtractionEnd : keeps.

Lemma keeps_interpretSelectArgs args range : keeps (interpretSelectArgs ie args range).
Proof. induction args as [|arg rest IH]; simpl; keeps_auto. Qed.

#[local] Hint Resolve keeps_interpretSelectArgs : keeps.

Lemma keeps_interpretExpressionStep node :
  keeps (interpretExpressionStep ie ic node).
Proof.
  destruct node; simpl;
    unfold interpretUnaryOp, interpretBinaryOp, interpretOrderBuiltin,
      interpretLengthBuiltin, interpretExtractBuiltin, interpretSelectBuiltin,
      interpretFindBuiltin, interpretRandomBuiltin, interpretAsciiBuiltin,
      interpretCharBuiltin;
    keeps_auto.
Qed.

Lemma keeps_interpretWriteArgs args : keeps (interpretWriteArgs ie args).
Proof. induction args as [|arg rest IH]; simpl; keeps_auto. Qed.

Lemma keeps_interpretDoBlockLoop children :
  forallb commandOk children = true -> keeps (interpretDoBlockLoop ic children).
Proof.
  induction children as [|command rest IH]; simpl; [intros _; apply keeps_ret|].
  intros [Hc Hrest]%andb_prop. apply keeps_bind; [by apply Hic|].
  intros [| |]; keeps_auto.
Qed.

#[local] Hint Resolve keeps_interpretWriteArgs keeps_interpretDoBlockLoop : keeps.

Lemma keeps_interpretDoBlock children :
  forallb commandOk children = true -> keeps (interpretDoBlock ic children).
Proof.
  intros Hchildren. unfold interpretDoBlock. apply keeps_getState. intros s0 H0.
  pose proof (keeps_setEnvironmentStackLength s0 H0) as Hcut. keeps_auto.
Qed.

Lemma keeps_interpretIf conditions children :
  forallb commandOk children = true -> keeps (interpretIf ie ic conditions children).
Proof.
  intros Hchildren. induction conditions as [|condition rest IH]; simpl; keeps_auto.
Qed.

Lemma keeps_interpretElse children :
  forallb commandOk children = true -> keeps (interpretElse ic children).
Proof. intros Hchildren. unfold interpretElse. keeps_auto. Qed.

Lemma keeps_interpretForWithNoArgLoop n children :
  forallb commandOk children = true -> keeps (interpretForWithNoArgLoop ic n children).
Proof. intros Hchildren. induction n as [|n IH]; simpl; keeps_auto. Qed.

Lemma keeps_stepVariable variable incrementValue :
  keeps (stepVariable ie variable incrementValue).
Proof. unfold stepVariable. keeps_auto. Qed.

#[local] Hint Resolve keeps_stepVariable : keeps.

Lemma keeps_interpretForWithStartIncrementLoop n variable incrementValue children :
  forallb commandOk children = true ->
  keeps (interpretForWithStartIncrementLoop ie ic n variable incrementValue children).
Proof. intros Hchildren. induction n as [|n IH]; simpl; keeps_auto. Qed.

Lemma keeps_interpretForWithStartIncrementEndLoop n variable incrementValue endValue
    children :
  forallb commandOk children = true ->
  keeps (interpretForWithStartIncrementEndLoop ie ic n variable incrementValue endValue
           children).
Proof. intros Hchildren. induction n as [|n IH]; simpl; keeps_auto. Qed.

#[local] Hint Resolve keeps_interpretForWithNoArgLoop
  keeps_interpretForWithStartIncrementLoop
  keeps_interpretForWithStartIncrementEndLoop : keeps.

Lemma keeps_interpretForParameter variable parameter children range :
  forallb commandOk children = true ->
  keeps (interpretForParameter ie ic fuel variable parameter children range).
Proof.
  intros Hchildren.
  unfold interpretForParameter, interpretForWithStart, interpretForWithStartIncrement,
    interpretForWithStartIncrementEnd.
  keeps_auto.
Qed.

#[local] Hint Resolve keeps_interpretForParameter : keeps.

Lemma keeps_interpretForParameters variable parameters children range :
  forallb commandOk children = true ->
  keeps (interpretForParameters ie ic fuel variable parameters children range).
Proof.
  intros Hchildren. induction parameters as [|parameter rest IH]; simpl; keeps_auto.
Qed.

Lemma keeps_interpretSetExtract node value : keeps (interpretSetExtract ie node value).
Proof.
  unfold interpretSetExtract. destruct node as [target extractionStart extractionEnd range].
  destruct target; try apply keeps_ret.
  apply keeps_bind; [auto with keeps|]. intros [start|]; [|apply keeps_ret].
  apply keeps_bind; [auto with keeps|]. intros [end'|]; [|apply keeps_ret].
  eapply hoare_bind; [apply getVariableReference_hoare|].
  intros [r|]; [|apply hoare_ret; tauto].
  eapply hoare_bind with (R := fun _ s => globalOnly s /\ referenceOk r s).
  { intros s x s' Hs E. by rewrite (getReferenceValue_state _ _ _ _ E). }
  intros current. apply hoare_getState_bind. intros s0 H0.
  eapply hoare_bind with (R := fun _ => globalOnly).
  - eapply hoare_weaken; [apply setReferenceValue_hoare| |auto]. by intros s ->.
  - intros ?. apply keeps_ret.
Qed.

#[local] Hint Resolve keeps_interpretSetExtract : keeps.

Lemma keeps_interpretSetArgument node : keeps (interpretSetArgument ie node).
Proof. unfold interpretSetArgument. keeps_auto. Qed.

#[local] Hint Resolve keeps_interpretSetArgument : keeps.

Lemma keeps_interpretSet args : keeps (interpretSet ie args).
Proof. induction args as [|arg rest IH]; simpl; keeps_auto. Qed.

Lemma new_bindings (args : list IdentifierAstNode) b :
  forallb (fun arg => isNotTest (text arg)) args = true ->
  direct b -> b !! TEST = None ->
  let environment :=
    foldl (fun m arg => <[text arg := Binding (MScalarValue emptyString)]> m) b args in
  direct environment /\ environment !! TEST = None.
Proof.
  revert b. induction args as [|arg rest IH]; intros b; simpl; [auto|].
  intros [Harg Hrest]%andb_prop Hd Hb. apply IH; [done|by apply direct_insert|].
  rewrite lookup_insert_ne; [done|]. intros E. unfold isNotTest in Harg.
  rewrite E, String.eqb_refl in Harg. done.
Qed.

Lemma keeps_interpretNew args :
  forallb (fun arg => isNotTest (text arg)) args = true -> keeps (interpretNew args).
Proof.
  intros Hargs. unfold interpretNew. destruct args as [|arg rest]; [apply keeps_ret|].
  destruct (new_bindings (arg :: rest) ∅ Hargs direct_empty) as [Hd Hb]; [done|].
  apply keeps_bind; [by apply keeps_pushEnvironment|]. intros ?. apply keeps_ret.
Qed.

Lemma keeps_interpretKillArgs args : keeps (interpretKillArgs ie args).
Proof. induction args as [|arg rest IH]; simpl; keeps_auto. Qed.

Lemma keeps_interpretKill args : keeps (interpretKill ie args).
Proof.
  unfold interpretKill. destruct args; [|apply keeps_interpretKillArgs].
  apply keeps_bind; [apply keeps_resetEnvironmentStack|]. intros ?. apply keeps_ret.
Qed.

Lemma keeps_interpretSubscripts nodes : keeps (interpretSubscripts ie nodes).
Proof. induction nodes as [|node rest IH]; simpl; keeps_auto. Qed.

Lemma keeps_mapM {A B} (f : A -> M B) l : (forall x, keeps (f x)) -> keeps (mapM f l).
Proof. intros Hf. induction l as [|x rest IH]; simpl; keeps_auto. Qed.

Lemma keeps_mValueCopy depth v : keeps (mValueCopy depth v).
Proof.
  revert v. induction depth as [|depth IH]; intros [v|l]; simpl; try keeps_auto.
  - apply keeps_mapM. intros pair. keeps_auto.
  - intros s1 y s' Hs [= _ <-]. exact Hs.
Qed.

#[local] Hint Resolve keeps_mValueCopy keeps_interpretSubscripts : keeps.

Lemma keeps_mergeChildren destination pairs : keeps (mergeChildren fuel destination pairs).
Proof. induction pairs as [|[key value] rest IH]; simpl; keeps_auto. Qed.

#[local] Hint Resolve keeps_mergeChildren : keeps.

Lemma keeps_mergeVariables node leftSubscriptValues rightSubscriptValues :
  keeps (mergeVariables ie fuel node leftSubscriptValues rightSubscriptValues).
Proof.
  unfold mergeVariables. destruct (doVariablesOverlap _ _ _ _); [keeps_auto|].
  eapply hoare_bind; [apply getVariableReference_hoare|].
  intros [dref|]; [|apply hoare_ret; tauto].
  eapply hoare_bind with (R := fun _ s => globalOnly s /\ referenceOk dref s).
  { intros s x s' Hs E. by rewrite (getReferenceValue_state _ _ _ _ E). }
  intros current. eapply hoare_bind with (R := fun _ => globalOnly).
  - destruct current as [v|l]; [|apply hoare_ret; tauto].
    eapply hoare_bind with (R := fun _ s => globalOnly s /\ referenceOk dref s).
    { intros s x s' [Hs Hr] [= _ <-]. split; [exact Hs|].
      destruct dref; [done|exact Hr]. }
    intros l. eapply hoare_bind; [apply setReferenceValue_hoare|].
    intros ?. apply keeps_ret.
  - intros destination.
    match goal with |- hoare _ ?m _ => change (keeps m) end. keeps_auto.
Qed.

#[local] Hint Resolve keeps_mergeVariables : keeps.

Lemma keeps_interpretMerge node : keeps (interpretMerge ie fuel node).
Proof. unfold interpretMerge. keeps_auto. Qed.

Lemma keeps_interpretCommandBody body :
  bodyOk body = true -> keeps (interpretCommandBody ie ic fuel body).
Proof.
  destruct body; simpl; intros Hbody.
  - apply keeps_ret.
  - apply keeps_interpretWriteArgs.
  - unfold interpretQuit. keeps_auto.
  - keeps_auto.
  - by apply keeps_interpretDoBlock.
  - by apply keeps_interpretIf.
  - by apply keeps_interpretElse.
  - unfold interpretFor, interpretForWithNoArg. destruct arg.
    + by apply keeps_interpretForParameters.
    + by apply keeps_interpretForWithNoArgLoop.
  - apply keeps_interpretSet.
  - by apply keeps_interpretNew.
  - apply keeps_interpretKill.
  - apply keeps_interpretMerge.
  - apply keeps_ret.
Qed.

Lemma keeps_interpretCommandStep node :
  commandOk node = true -> keeps (interpretCommandStep ie ic fuel node).
Proof.
  destruct node as [condition body range]. simpl. intros Hbody.
  pose proof (keeps_interpretCommandBody body Hbody). keeps_auto.
Qed.

End Step.

(** The invariant is kept by every expression and by every command of the
    program, whatever the fuel. *)
Lemma keeps_interpret fuel :
  (forall e, keeps (interpretExpression fuel e))
  /\ (forall c, commandOk c = true -> keeps (interpretCommand fuel c)).
Proof.
  induction fuel as [|fuel [IHe IHc]]; simpl.
  - split; intros; apply keeps_abort.
  - split.
    + intros e. by apply keeps_interpretExpressionStep.
    + intros c Hc. by apply keeps_interpretCommandStep.
Qed.

Lemma keeps_interpretTag fuel tagName args :
  keeps (interpretTag fuel (tags program !! tagName) args).
Proof.
  unfold interpretTag. apply keeps_getState. intros s0 H0.
  pose proof (keeps_setEnvironmentStackLength s0 H0) as Hcut.
  destruct (keeps_interpret fuel) as [He Hc].
  pose proof (keeps_interpretTopLevel _ Hc) as Htop.
  apply keeps_bind.
  - destruct (tags program !! tagName) as [tag|] eqn:Etag; [|apply keeps_ret].
    simpl. destruct (params tag) as [tagParams|] eqn:Eparams; [|apply keeps_ret].
    pose proof (tag_parameters _ _ _ Etag Eparams) as Hparams.
    apply keeps_bind; [apply keeps_pushEnvironment; [apply direct_empty|done]|].
    intros environment. apply keeps_bind; [by apply keeps_bindValues|].
    intros ?. apply keeps_bindMissing. by apply forallb_drop.
  - intros ?. apply keeps_getState. intros s1 H1. apply keeps_bind; [apply Htop|].
    intros [| |]; try apply keeps_ret.
    + apply keeps_bind; [exact Hcut|]. intros ?. apply keeps_getState. intros s2 H2.
      case_bool_decide; [apply keeps_ret|].
      apply keeps_bind; [apply keeps_pop|]. intros ?. apply keeps_ret.
    + apply keeps_bind; [exact Hcut|]. intros ?. apply keeps_getState. intros s2 H2.
      case_bool_decide; [apply keeps_ret|].
      apply keeps_bind; [apply keeps_pop|]. intros ?. apply keeps_ret.
Qed.

Lemma globalOnly_makeInterpreterState externs :
  globalOnly (makeInterpreterState program externs).
Proof.
  split; [done|]. simpl. split; [lia|]. split; [apply direct_empty|done].
Qed.

End GlobalFrame.

(** The global frame with [$TEST] set to [value]. *)
Definition setTest (value : MValue) (globalFrame : Environment) : Environment :=
  {| frame_id := frame_id globalFrame;
     bindings := <[TEST := Binding value]> (bindings globalFrame) |}.

(** The conditions of an [if] all hold: each one evaluates, from [s] on, to
    a value whose number is not 0, and the last leaves the state [s']. *)
Fixpoint conditionsHold (ie : ExpressionAstNode -> M bool)
    (conditions : list ExpressionAstNode) (s s' : InterpreterState) : Prop :=
  match conditions with
  | [] => s' = s
  | condition :: rest =>
      exists s1 v tail,
        ie condition s = Ok true s1
        /\ valueStack s1 = v :: tail
        /\ PrimFloat.eqb (scalarToNumber v) PrimFloat.zero = false
        /\ conditionsHold ie rest (setValueStack tail s1) s'
  end.

Lemma pop_Ok s v tail :
  valueStack s = v :: tail -> pop s = Ok v (setValueStack tail s).
Proof. intros E. unfold pop. by rewrite E. Qed.

Lemma interpretIf_holds ie ic conditions children s s1 :
  conditionsHold ie conditions s s1 ->
  interpretIf ie ic conditions children s
  = (setSpecialVariable TEST (MScalarValue (MNumber PrimFloat.one)) ;;;
     interpretChildCommands ic children) s1.
Proof.
  revert s. induction conditions as [|condition rest IH]; intros s; simpl.
  - by intros ->.
  - intros (s2 & v & tail & E & Hstack & Hv & Hrest).
    rewrite (bind_Ok _ _ _ _ _ E). rewrite (bind_Ok _ _ _ _ _ (pop_Ok _ _ _ Hstack)).
    rewrite Hv. by apply IH.
Qed.

Lemma interpretIf_fails ie ic before condition after children s s1 s2 v tail :
  conditionsHold ie before s s1 ->
  ie condition s1 = Ok true s2 ->
  valueStack s2 = v :: tail ->
  PrimFloat.eqb (scalarToNumber v) PrimFloat.zero = true ->
  interpretIf ie ic (before ++ condition :: after) children s
  = (setSpecialVariable TEST (MScalarValue (MNumber PrimFloat.zero)) ;;;
     ret CommandResult.Continue) (setValueStack tail s2).
Proof.
  revert s. induction before as [|c rest IH]; intros s; simpl.
  - intros -> E Hstack Hv.
    rewrite (bind_Ok _ _ _ _ _ E). rewrite (bind_Ok _ _ _ _ _ (pop_Ok _ _ _ Hstack)).
    by rewrite Hv.
  - intros (s3 & w & tail' & E' & Hstack' & Hw & Hrest) E Hstack Hv.
    rewrite (bind_Ok _ _ _ _ _ E'). rewrite (bind_Ok _ _ _ _ _ (pop_Ok _ _ _ Hstack')).
    rewrite Hw. by apply IH.
Qed.

Lemma setSpecialVariable_frame name value s globalFrame rest :
  environmentStack s = Some globalFrame :: rest ->
  setSpecialVariable name value s
  = Ok tt (setEnvironmentStack
             (Some {| frame_id := frame_id globalFrame;
                      bindings := <[name := Binding value]> (bindings globalFrame) |}
              :: rest) s).
Proof. intros Hstack. unfold setSpecialVariable, bind, getState, modify. by rewrite Hstack. Qed.

Lemma interpretElse_reads ic children s globalFrame rest :
  environmentStack s = Some globalFrame :: rest ->
  interpretElse ic children s
  = match bindings globalFrame !! TEST with
    | Some (Binding test) =>
        if jsTruthy test && nonZero (mValueToNumber (heap s) test)
        then Ok CommandResult.Continue s
        else interpretChildCommands ic children s
    | Some (IndirectReference _) => Aborted UndefinedValue
    | None => interpretChildCommands ic children s
    end.
Proof.
  intros Hstack. unfold interpretElse, getSpecialVariable, bind, getState.
  rewrite Hstack. simpl. destruct (bindings globalFrame !! TEST) as [[test|r]|]; try done.
  unfold ret. by destruct (jsTruthy test && nonZero (mValueToNumber (heap s) test)).
Qed.

(** C9: [$TEST] is bound in frame 0 only.  For a program of the parser (no
    tag parameter and no argument of [new] is called [$TEST]), the invariant
    [globalOnly] holds in the initial state and is kept by every expression,
    by every command of the program and by every tag, whatever the fuel; in
    a state of the invariant no frame above frame 0 binds [$TEST].
    [setSpecialVariable] writes [$TEST] to frame 0 and [getSpecialVariable]
    reads it there, whatever the frames above.
    - An [if] whose conditions all hold sets [$TEST] to 1 in frame 0, leaves
      the other frames as they are, and runs its commands from there.
    - An [if] with a condition whose number is 0, the conditions before it
      holding, sets [$TEST] to 0 in frame 0, leaves the other frames as
      they are, and continues without running its commands or evaluating
      the conditions after.
    - An [else] reads [$TEST] in frame 0, whatever the frames above bind: it
      continues without running its commands when the value there is true
      and its number is not 0, and runs its commands when the value is
      anything else or when frame 0 does not bind [$TEST]. *)
Theorem test_only_in_global_frame `{JsEngine} (program : TopLevelAstNode) :
  astOk program = true ->
  (forall externs, globalOnly program (makeInterpreterState program externs))
  /\ (forall fuel e s ok s',
        globalOnly program s -> interpretExpression fuel e s = Ok ok s' ->
        globalOnly program s')
  /\ (forall fuel c s result s',
        commandOk c = true -> globalOnly program s ->
        interpretCommand fuel c s = Ok result s' -> globalOnly program s')
  /\ (forall fuel tagName args s result s',
        globalOnly program s ->
        interpretTag fuel (tags program !! tagName) args s = Ok result s' ->
        globalOnly program s')
  /\ (forall s, globalOnly program s -> testOnlyInGlobalFrame s)
  /\ (forall s value globalFrame rest,
        environmentStack s = Some globalFrame :: rest ->
        setSpecialVariable TEST value s
        = Ok tt (setEnvironmentStack (Some (setTest value globalFrame) :: rest) s)
        /\ (direct (bindings globalFrame) ->
            exists test,
              getSpecialVariable TEST s = Ok test s
              /\ Binding <$> test = bindings globalFrame !! TEST))
  /\ (forall fuel conditions children r r' s s1 globalFrame rest,
        conditionsHold (interpretExpression fuel) conditions s s1 ->
        environmentStack s1 = Some globalFrame :: rest ->
        interpretCommand (S fuel) (MkCommand None (IfBody conditions children r) r') s
        = interpretChildCommands (interpretCommand fuel) children
            (setEnvironmentStack
               (Some (setTest (MScalarValue (MNumber 1%float)) globalFrame) :: rest) s1))
  /\ (forall fuel before condition after children r r' s s1 s2 v tail globalFrame rest,
        conditionsHold (interpretExpression fuel) before s s1 ->
        interpretExpression fuel condition s1 = Ok true s2 ->
        valueStack s2 = v :: tail ->
        PrimFloat.eqb (scalarToNumber v) PrimFloat.zero = true ->
        environmentStack s2 = Some globalFrame :: rest ->
        interpretCommand (S fuel)
          (MkCommand None (IfBody (before ++ condition :: after) children r) r') s
        = Ok CommandResult.Continue
            (setEnvironmentStack
               (Some (setTest (MScalarValue (MNumber 0%float)) globalFrame) :: rest)
               (setValueStack tail s2)))
  /\ (forall fuel children r r' s globalFrame rest,
        environmentStack s = Some globalFrame :: rest ->
        interpretCommand (S fuel) (MkCommand None (ElseBody children r) r') s
        = match bindings globalFrame !! TEST with
          | Some (Binding test) =>
              if jsTruthy test && nonZero (mValueToNumber (heap s) test)
              then Ok CommandResult.Continue s
              else interpretChildCommands (interpretCommand fuel) children s
          | Some (IndirectReference _) => Aborted UndefinedValue
          | None => interpretChildCommands (interpretCommand fuel) children s
          end).
Proof.
  intros Hprogram.
  split; [intros externs; apply globalOnly_makeInterpreterState|].
  split; [intros fuel e s ok s' Hs E;
          exact (proj1 (keeps_interpret program Hprogram fuel) e s ok s' Hs E)|].
  split; [intros fuel c s result s' Hc Hs E;
          exact (proj2 (keeps_interpret program Hprogram fuel) c Hc s result s' Hs E)|].
  split; [intros fuel tagName args s result s' Hs E;
          exact (keeps_interpretTag program Hprogram fuel tagName args s result s' Hs E)|].
  split; [intros s [_ Hs]; by apply stackOk_testOnly|].
  split; [|split; [|split]].
  - intros s value globalFrame rest Hstack. split.
    + unfold setSpecialVariable, bind, getState, modify. by rewrite Hstack.
    + intros Hdirect. unfold getSpecialVariable, bind, getState. rewrite Hstack. simpl.
      destruct (bindings globalFrame !! TEST) as [[v|r]|] eqn:E.
      * by exists (Some v).
      * destruct (Hdirect TEST (IndirectReference r) E).
      * by exists None.
  - intros fuel conditions children r r' s s1 globalFrame rest Hhold Hstack.
    change (interpretIf (interpretExpression fuel) (interpretCommand fuel) conditions
              children s
            = interpretChildCommands (interpretCommand fuel) children
                (setEnvironmentStack
                   (Some (setTest (MScalarValue (MNumber 1%float)) globalFrame) :: rest) s1)).
    rewrite (interpretIf_holds _ _ _ _ _ _ Hhold).
    by rewrite (bind_Ok _ _ _ _ _ (setSpecialVariable_frame _ _ _ _ _ Hstack)).
  - intros fuel before condition after children r r' s s1 s2 v tail globalFrame rest
      Hhold E Hvalues Hv Hstack.
    change (interpretIf (interpretExpression fuel) (interpretCommand fuel)
              (before ++ condition :: after) children s
            = Ok CommandResult.Continue
                (setEnvironmentStack
                   (Some (setTest (MScalarValue (MNumber 0%float)) globalFrame) :: rest)
                   (setValueStack tail s2))).
    rewrite (interpretIf_fails _ _ _ _ _ _ _ _ _ _ _ Hhold E Hvalues Hv).
    by rewrite (bind_Ok _ _ _ _ _ (setSpecialVariable_frame _ _ _ _ _
                                     (Hstack : environmentStack (setValueStack tail s2) = _))).
  - intros fuel children r r' s globalFrame rest Hstack.
    exact (interpretElse_reads (interpretCommand fuel) children s globalFrame rest Hstack).
Qed.

Definition newX : CommandAstNode :=
  MkCommand None (NewBody [identifier "x"] noRange) noRange.

Definition newProgram : TopLevelAstNode :=
  {| tags := {["main" := {| index := 0; params := None |}]};
     topLevelChildren := [newX];
     topLevelRange := noRange |}.

Definition haltNow : CommandAstNode := MkCommand None (HaltBody noRange) noRange.

Definition ifNumber (c : number) : CommandAstNode :=
  MkCommand None (IfBody [NumberLiteral c noRange] [] noRange) noRange.

Definition elseHalt : CommandAstNode :=
  MkCommand None (ElseBody [haltNow] noRange) noRange.

(** After [new x] in the initial state there are two frames, and the new one
    does not bind [$TEST].  After [if 1] an [else] does not run its [halt];
    after [if 0] it does. *)
Lemma test_only_in_global_frame_witness :
  astOk newProgram = true
  /\ commandOk newX = true
  /\ (exists s',
        interpretCommand (H := exampleEngine) 2 newX (makeInterpreterState newProgram ∅)
        = Ok CommandResult.Continue s'
        /\ length (environmentStack s') = 2%nat
        /\ testOnlyInGlobalFrame s')
  /\ (exists s1 s0,
        interpretCommand (H := exampleEngine) 2 (ifNumber 1%float) initialState
        = Ok CommandResult.Continue s1
        /\ interpretCommand (H := exampleEngine) 3 elseHalt s1
           = Ok CommandResult.Continue s1
        /\ interpretCommand (H := exampleEngine) 2 (ifNumber 0%float) initialState
           = Ok CommandResult.Continue s0
        /\ interpretCommand (H := exampleEngine) 3 elseHalt s0
           = Ok CommandResult.Halt s0).
Proof.
  split; [vm_compute; reflexivity|]. split; [reflexivity|].
  destruct (test_only_in_global_frame (H := exampleEngine) newProgram)
    as (Hinit & _ & Hcommand & _ & Honly & _ & Hif & Hifnot & Helse);
    [vm_compute; reflexivity|].
  split.
  - eexists. split; [reflexivity|]. split; [reflexivity|].
    apply Honly. eapply (Hcommand 2%nat newX); [reflexivity|apply (Hinit ∅)|reflexivity].
  - set (globalFrame := {| frame_id := 0; bindings := ∅ |}).
    set (s1 := setEnvironmentStack
                 [Some (setTest (MScalarValue (MNumber 1%float)) globalFrame)]
                 initialState).
    set (s0 := setEnvironmentStack
                 [Some (setTest (MScalarValue (MNumber 0%float)) globalFrame)]
                 initialState).
    exists s1, s0.
    split; [|split; [|split]].
    + apply (Hif 1%nat [NumberLiteral 1%float noRange] [] noRange noRange initialState
               initialState globalFrame []); [|reflexivity].
      exists (setValueStack [MNumber 1%float] initialState), (MNumber 1%float), [].
      repeat split; reflexivity.
    + exact (Helse 2%nat [haltNow] noRange noRange s1
               (setTest (MScalarValue (MNumber 1%float)) globalFrame) [] eq_refl).
    + apply (Hifnot 1%nat [] (NumberLiteral 0%float noRange) [] [] noRange noRange
               initialState initialState (setValueStack [MNumber 0%float] initialState)
               (MNumber 0%float) [] globalFrame []); reflexivity.
    + exact (Helse 2%nat [haltNow] noRange noRange s0
               (setTest (MScalarValue (MNumber 0%float)) globalFrame) [] eq_refl).
Defined.

(* ================================================================== *)
(** * C5: a scalar slot on the path of a write becomes an array node *)
(* ================================================================== *)

(** The keys of a resolution: subscript [j] gives the non-empty key
    [keys !! j] and leaves the state as it is.  So it is when the keys are
    evaluated before ([subscriptValues]), and when the subscripts are
    expressions without effect, such as literals. *)
Definition keysResolve (ie : ExpressionAstNode -> M bool)
    (subscripts : option (list ExpressionAstNode)) (subscriptValues : option (list string))
    (keys : list string) : Prop :=
  forall j k, keys !! j = Some k ->
    k <> "" /\ forall s, getSubscriptKey ie j subscripts subscriptValues s = Ok (Some k) s.

(** The same in the states of [States] only: so it is for subscripts that
    are variables, in the states where they hold their values. *)
Definition keysResolveIn (States : InterpreterState -> Prop)
    (ie : ExpressionAstNode -> M bool) (subscripts : option (list ExpressionAstNode))
    (subscriptValues : option (list string)) (keys : list string) : Prop :=
  forall j k, keys !! j = Some k ->
    k <> ""
    /\ forall s, States s -> getSubscriptKey ie j subscripts subscriptValues s = Ok (Some k) s.

(** The states of [States] are not left by what a write to the variable
    [name] does to the state: a new array node, a child set in an array
    node, [name] bound to an array node. *)
Definition closedUnderWrites (name : string) (States : InterpreterState -> Prop) : Prop :=
  (forall s v,
     States s ->
     States (setHeap (<[fresh (dom (heap s)) :=
                          {| arrayValue := v; arrayChildren := ∅ |}]> (heap s)) s))
  /\ (forall s array key v,
        States s -> States (setHeap (mArraySet (heap s) array key v) s))
  /\ (forall s environment l,
        States s ->
        States (setEnvironmentStack
                  (updateFrames environment <[name := Binding (MArrayValue l)]>
                     (environmentStack s)) s)).

(** The self-value of the array node at [l], if there is one. *)
Definition selfValue (h : Heap) (l : loc) : option MScalar := arrayValue <$> h !! l.

(** [value ?? ""] for the value read at a slot that holds no array node. *)
Definition slotScalar (value : option MValue) : MScalar :=
  match value with
  | Some (MScalarValue v) => v
  | _ => emptyString
  end.

Definition holdsArray (value : option MValue) : bool :=
  match value with
  | Some (MArrayValue _) => true
  | _ => false
  end.

(** The variables [variables], each with the scalar it holds: the scan of
    the frames finds the variable bound to the scalar. *)
Definition variablesHold (variables : list (string * MScalar)) (s : InterpreterState)
    : Prop :=
  Forall (fun variable : string * MScalar =>
            exists environment env,
              lookupName variable.1 (environmentStack s) (length (environmentStack s))
              = LookupBinding environment (MScalarValue variable.2)
              /\ findFrame environment (environmentStack s) = Some env
              /\ bindings env !! variable.1 = Some (Binding (MScalarValue variable.2)))
    variables.

Lemma keysResolve_everywhere ie subscripts subscriptValues keys name :
  keysResolve ie subscripts subscriptValues keys ->
  closedUnderWrites name (fun _ => True)
  /\ keysResolveIn (fun _ => True) ie subscripts subscriptValues keys.
Proof.
  intros HK. split; [by repeat split|].
  intros j k Hj. destruct (HK j k Hj) as [Hne Hkey]. split; [done|]. intros s _. apply Hkey.
Qed.

Lemma keysResolveIn_weaken (States States' : InterpreterState -> Prop) ie subscripts
    subscriptValues keys :
  (forall s, States s -> States' s) ->
  keysResolveIn States' ie subscripts subscriptValues keys ->
  keysResolveIn States ie subscripts subscriptValues keys.
Proof.
  intros Hsub HK j k Hk. destruct (HK j k Hk) as [Hne Hkey]. split; [done|].
  intros s Hs. apply Hkey. by apply Hsub.
Qed.

Lemma keysResolve_values ie subscripts keys :
  Forall (fun k => k <> "") keys -> keysResolve ie subscripts (Some keys) keys.
Proof.
  intros Hkeys j k Hj. split.
  - rewrite Forall_lookup in Hkeys. exact (Hkeys j k Hj).
  - intros s. unfold getSubscriptKey. by rewrite Hj.
Qed.

Lemma keysResolve_literals `{JsEngine} n scalars r :
  Forall (fun c => scalarToString c <> "") scalars ->
  keysResolve (interpretExpression (S n))
    (Some ((fun c => scalarLiteral c r) <$> scalars)) None (scalarToString <$> scalars).
Proof.
  intros Hkeys j k Hj. apply list_lookup_fmap_Some in Hj as (c & -> & Hc). split.
  - rewrite Forall_lookup in Hkeys. exact (Hkeys j c Hc).
  - intros s. unfold getSubscriptKey. rewrite list_lookup_fmap, Hc. simpl option_map.
    cbn [fmap option_fmap option_map].
    rewrite (bind_Ok _ _ _ _ _ (interpretExpression_literal n c r s)).
    rewrite pop_push. unfold bind, ret. by rewrite setValueStack_same.
Qed.

Lemma mArraySet_lookup_ne h array key v l :
  l <> array -> mArraySet h array key v !! l = h !! l.
Proof.
  intros Hne. unfold mArraySet, Heap in *. destruct (h !! array); [|done].
  by rewrite lookup_insert_ne.
Qed.

Lemma mArraySet_lookup h array key v a :
  h !! array = Some a ->
  mArraySet h array key v !! array
  = Some {| arrayValue := arrayValue a; arrayChildren := <[key := v]> (arrayChildren a) |}.
Proof. intros Ha. unfold mArraySet, Heap in *. rewrite Ha. by rewrite lookup_insert_eq. Qed.

Lemma selfValue_mArraySet h array key v l :
  selfValue (mArraySet h array key v) l = selfValue h l.
Proof.
  unfold selfValue. destruct (decide (l = array)) as [->|Hne].
  - destruct (h !! array) as [a|] eqn:Ha.
    + by rewrite (mArraySet_lookup _ _ _ _ _ Ha).
    + unfold mArraySet. rewrite Ha. by rewrite Ha.
  - by rewrite mArraySet_lookup_ne.
Qed.

Lemma fresh_lookup (h : Heap) : h !! fresh (dom h) = None.
Proof. apply not_elem_of_dom. apply is_fresh. Qed.

Lemma lookupName_updateFrames name stack id w w' n :
  lookupName name stack n = LookupBinding id w ->
  lookupName name (updateFrames id <[name := Binding w']> stack) n = LookupBinding id w'.
Proof.
  induction n as [|j IH]; simpl; [done|].
  unfold updateFrames at 1. rewrite list_lookup_fmap.
  destruct (stack !! j) as [[env|]|]; simpl; try done.
  destruct (bindings env !! name) as [[w0|r]|] eqn:E; try done.
  - intros [= <- <-]. rewrite decide_True by done. simpl. by rewrite lookup_insert_eq.
  - intros H. case_decide.
    + simpl. by rewrite lookup_insert_eq.
    + rewrite E. by apply IH.
Qed.

Lemma findFrame_updateFrames id f stack :
  findFrame id (updateFrames id f stack)
  = (fun env => {| frame_id := id; bindings := f (bindings env) |}) <$> findFrame id stack.
Proof.
  induction stack as [|[env|] rest IH]; simpl; [done| |exact IH].
  case_decide; simpl.
  - by rewrite decide_True.
  - rewrite decide_False by done. exact IH.
Qed.

Lemma findFrame_lookup stack j env :
  stack !! j = Some (Some env) -> is_Some (findFrame (frame_id env) stack).
Proof.
  revert j. induction stack as [|[env'|] rest IH]; intros [|j]; simpl; try done.
  - intros [= ->]. by rewrite decide_True.
  - intros H. case_decide; [done|]. by apply (IH j).
  - apply IH.
Qed.

Lemma lookupName_findFrame name stack n id w :
  lookupName name stack n = LookupBinding id w -> is_Some (findFrame id stack).
Proof.
  induction n as [|j IH]; simpl; [done|].
  destruct (stack !! j) as [[env|]|] eqn:Ej; try done.
  destruct (bindings env !! name) as [[w0|r]|]; try done.
  intros [= <- _]. by apply (findFrame_lookup _ j).
Qed.

Lemma length_updateFrames id f stack : length (updateFrames id f stack) = length stack.
Proof. unfold updateFrames. apply length_fmap. Qed.

Lemma lookupName_updateFrames_other name other id b stack n :
  other <> name ->
  lookupName other (updateFrames id <[name := b]> stack) n = lookupName other stack n.
Proof.
  intros Hne. induction n as [|j IH]; simpl; [done|].
  unfold updateFrames at 1. rewrite list_lookup_fmap.
  destruct (stack !! j) as [[env|]|]; simpl; try done.
  case_decide as Hid; simpl; [|by rewrite IH].
  rewrite lookup_insert_ne by done. rewrite IH, Hid.
  by destruct (bindings env !! other) as [[w|r]|].
Qed.

Lemma findFrame_updateFrames_any environment id f stack :
  findFrame environment (updateFrames id f stack)
  = (fun env =>
       if decide (frame_id env = id)
       then {| frame_id := id; bindings := f (bindings env) |} else env)
    <$> findFrame environment stack.
Proof.
  induction stack as [|[env|] rest IH]; simpl; [done| |exact IH].
  destruct (decide (frame_id env = id)) as [Hid|Hid]; simpl.
  - destruct (decide (id = environment)) as [->|Hne].
    + rewrite decide_True by done. simpl. by rewrite decide_True.
    + rewrite decide_False by congruence. exact IH.
  - destruct (decide (frame_id env = environment)) as [He|He]; simpl.
    + by rewrite decide_False.
    + exact IH.
Qed.

Lemma variablesHold_closed name variables :
  Forall (fun variable : string * MScalar => variable.1 <> name) variables ->
  closedUnderWrites name (variablesHold variables).
Proof.
  intros Hother. split; [|split].
  - intros s v Hs. exact Hs.
  - intros s array key v Hs. exact Hs.
  - intros s id l Hs. unfold variablesHold in *. rewrite Forall_forall in Hs, Hother.
    apply Forall_forall. intros variable Hin.
    destruct (Hs variable Hin) as (environment & env & Hlookup & Hframe & Hbound).
    specialize (Hother variable Hin). simpl.
    exists environment. eexists.
    rewrite length_updateFrames, lookupName_updateFrames_other by done.
    rewrite findFrame_updateFrames_any, Hframe. simpl.
    split; [done|]. split; [reflexivity|].
    case_decide; simpl; [|done]. by rewrite lookup_insert_ne.
Qed.

(** A bound name without subscripts reads the value that the frame of the
    scan binds. *)
Lemma interpretVariable_binding (ie : ExpressionAstNode -> M bool)
    (name : IdentifierAstNode) (r : TextRange) (s : InterpreterState) (environment : nat)
    (env : Environment) (value : MValue) :
  lookupName (text name) (environmentStack s) (length (environmentStack s))
  = LookupBinding environment value ->
  findFrame environment (environmentStack s) = Some env ->
  bindings env !! text name = Some (Binding value) ->
  interpretVariable ie (MkVariable name [] r) s
  = Ok true (setValueStack (mValueToScalar (heap s) value :: valueStack s) s).
Proof.
  intros Hlookup Hframe Hbound.
  unfold interpretVariable, getVariableReference, getReference. simpl.
  unfold bind at 1 2 3. unfold getState at 1. rewrite Hlookup. simpl.
  unfold bind at 1, getReferenceValue, bind at 1, getState at 1.
  by rewrite Hframe, Hbound.
Qed.

(** Subscripts that are variables without subscripts resolve to the scalars
    that the variables hold, in the states where they hold them. *)
Lemma keysResolveIn_variables `{JsEngine} n variables r :
  Forall (fun variable : string * MScalar => scalarToString variable.2 <> "") variables ->
  keysResolveIn (variablesHold variables) (interpretExpression (S n))
    (Some ((fun variable : string * MScalar =>
              VariableNode (MkVariable (identifier variable.1) [] r)) <$> variables))
    None ((fun variable : string * MScalar => scalarToString variable.2) <$> variables).
Proof.
  intros Hkeys j k Hj. apply list_lookup_fmap_Some in Hj as ([i c] & -> & Hc). split.
  - rewrite Forall_lookup in Hkeys. exact (Hkeys j (i, c) Hc).
  - intros s Hs. unfold variablesHold in Hs. rewrite Forall_lookup in Hs.
    destruct (Hs j (i, c) Hc) as (environment & env & Hlookup & Hframe & Hbound).
    unfold getSubscriptKey. rewrite list_lookup_fmap, Hc. simpl option_map.
    cbn [fmap option_fmap option_map].
    assert (interpretExpression (S n) (VariableNode (MkVariable (identifier i) [] r)) s
            = Ok true (setValueStack (c :: valueStack s) s)) as E.
    { exact (interpretVariable_binding (interpretExpression n) (identifier i) r s
               environment env (MScalarValue c) Hlookup Hframe Hbound). }
    rewrite (bind_Ok _ _ _ _ _ E). rewrite pop_push. unfold bind, ret.
    by rewrite setValueStack_same.
Qed.


Section Promotion.

Variable ie : ExpressionAstNode -> M bool.
Variable environment : nat.
Variable name : string.
Variable subscripts : option (list ExpressionAstNode).
Variable subscriptValues : option (list string).
Variable keys : list string.
Variable States : InterpreterState -> Prop.
Hypothesis closed : closedUnderWrites name States.
Hypothesis keysOk : keysResolveIn States ie subscripts subscriptValues keys.

#[local] Arguments getSubscriptKey : simpl never.

(** The loop of [getReference] from a slot [(array, key)] of an array node
    that holds no array node: the nodes of the rest of the path are created. *)
Lemma getReferenceLoop_creates count :
  forall i array key value s,
    States s ->
    (S i + count)%nat = length keys ->
    is_Some (heap s !! array) ->
    holdsArray value = false ->
    exists array' key' s',
      getReferenceLoop ie count (S i) environment name subscripts subscriptValues true
        (Some array) (Some key) value s
      = Ok (FoundReference (ArrayReference array' key')) s'
      /\ States s'
      /\ environmentStack s' = environmentStack s
      /\ valueStack s' = valueStack s
      /\ (forall l, is_Some (heap s !! l) -> l <> array -> heap s' !! l = heap s !! l)
      /\ selfValue (heap s') array = selfValue (heap s) array
      /\ (count <> 0%nat ->
          mArrayGet (heap s') array key = Some (MArrayValue (fresh (dom (heap s))))
          /\ selfValue (heap s') (fresh (dom (heap s))) = Some (slotScalar value)).
Proof.
  destruct closed as (Hnew & Hset & _).
  induction count as [|count IH]; intros i array key value s Hs Hlen [a Ha] Hvalue.
  - simpl. exists array, key, s. repeat split; try done.
  - assert (exists k, keys !! S i = Some k) as [k Hk].
    { apply lookup_lt_is_Some. lia. }
    destruct (keysOk _ _ Hk) as [Hne Hkey].
    set (l := fresh (dom (heap s))).
    set (h1 := <[l := {| arrayValue := slotScalar value; arrayChildren := ∅ |}]> (heap s)).
    set (s2 := setHeap (mArraySet h1 array key (MArrayValue l)) (setHeap h1 s)).
    assert (States s2) as Hs2.
    { apply (Hset (setHeap h1 s)). apply Hnew. exact Hs. }
    assert (l <> array) as Hl.
    { intros E. pose proof (fresh_lookup (heap s)) as Hf. fold l in Hf. congruence. }
    assert (h1 !! array = Some a) as Ha1.
    { unfold h1, Heap in *. by rewrite lookup_insert_ne. }
    assert (heap s2 !! l = Some {| arrayValue := slotScalar value; arrayChildren := ∅ |})
      as Hl2.
    { simpl. rewrite mArraySet_lookup_ne by done. unfold h1, Heap in *.
      by rewrite lookup_insert_eq. }
    destruct (IH (S i) l k (mArrayGet (heap s2) l k) s2)
      as (array' & key' & s' & E & Hs' & He & Hv & Ho & Hself & _).
    { exact Hs2. }
    { lia. }
    { by rewrite Hl2. }
    { unfold mArrayGet. rewrite Hl2. simpl. by rewrite lookup_empty. }
    exists array', key', s'. split.
    + assert (getReferenceLoop ie (S count) (S i) environment name subscripts
                subscriptValues true (Some array) (Some key) value s
              = (let* key' := getSubscriptKey ie (S i) subscripts subscriptValues in
                 match key' with
                 | None | Some EmptyString => ret UndefinedReference
                 | Some k =>
                     let* s := getState in
                     getReferenceLoop ie count (S (S i)) environment name subscripts
                       subscriptValues true (Some l) (Some k) (mArrayGet (heap s) l k)
                 end) s2) as ->.
      { destruct value as [[v|l']|]; try done; reflexivity. }
      rewrite (bind_Ok _ _ _ _ _ (Hkey s2 Hs2)).
      destruct k as [|c k]; [done|]. exact E.
    + split; [exact Hs'|]. split; [by rewrite He|]. split; [by rewrite Hv|].
      split; [|split].
      * intros l0 [a0 H0] Hne0. assert (l0 <> l) as Hfresh.
        { intros ->. pose proof (fresh_lookup (heap s)) as Hf. fold l in Hf. congruence. }
        rewrite Ho; [|simpl|done].
        -- simpl. rewrite mArraySet_lookup_ne by done. unfold h1, Heap in *.
           by rewrite lookup_insert_ne.
        -- rewrite mArraySet_lookup_ne by done. unfold h1, Heap in *.
           rewrite lookup_insert_ne by done. by rewrite H0.
      * unfold selfValue. rewrite Ho; [|simpl|done].
        -- simpl. rewrite (mArraySet_lookup _ _ _ _ _ Ha1). by rewrite Ha.
        -- rewrite (mArraySet_lookup _ _ _ _ _ Ha1). done.
      * intros _. split.
        -- unfold mArrayGet. rewrite Ho; [|simpl|done].
           ++ simpl. rewrite (mArraySet_lookup _ _ _ _ _ Ha1). simpl.
              by rewrite lookup_insert_eq.
           ++ rewrite (mArraySet_lookup _ _ _ _ _ Ha1). done.
        -- rewrite Hself. unfold selfValue. by rewrite Hl2.
Qed.

(** [getReference] for a write to a variable that holds a scalar: the
    variable's slot gets a new array node, whose self-value is the scalar. *)
Lemma getReference_promotes s v :
  States s ->
  lookupName name (environmentStack s) (length (environmentStack s))
  = LookupBinding environment (MScalarValue v) ->
  keys <> [] ->
  exists array key s',
    getReference ie name (length keys) subscripts subscriptValues true s
    = Ok (FoundReference (ArrayReference array key)) s'
    /\ States s'
    /\ environmentStack s'
       = updateFrames environment <[name := Binding (MArrayValue (fresh (dom (heap s))))]>
           (environmentStack s)
    /\ valueStack s' = valueStack s
    /\ selfValue (heap s') (fresh (dom (heap s))) = Some v.
Proof.
  intros Hs Hlookup Hkeys. destruct closed as (Hnew & _ & Henv).
  assert (exists k0, keys !! 0%nat = Some k0) as [k0 Hk].
  { apply lookup_lt_is_Some. destruct keys; [done|simpl; lia]. }
  destruct (keysOk _ _ Hk) as [Hne Hkey].
  assert (exists count, length keys = S count) as [count Hcount].
  { destruct keys; [done|]. simpl. eauto. }
  set (l := fresh (dom (heap s))).
  set (h1 := <[l := {| arrayValue := v; arrayChildren := ∅ |}]> (heap s)).
  set (s2 := setEnvironmentStack
               (updateFrames environment <[name := Binding (MArrayValue l)]>
                  (environmentStack s)) (setHeap h1 s)).
  assert (States s2) as Hs2.
  { apply (Henv (setHeap h1 s)). apply Hnew. exact Hs. }
  assert (heap s2 !! l = Some {| arrayValue := v; arrayChildren := ∅ |}) as Hl2.
  { simpl. unfold h1, Heap in *. by rewrite lookup_insert_eq. }
  destruct (getReferenceLoop_creates count 0 l k0 (mArrayGet (heap s2) l k0) s2)
    as (array' & key' & s' & E & Hs' & He & Hv & Ho & Hself & _).
  { exact Hs2. }
  { lia. }
  { by rewrite Hl2. }
  { unfold mArrayGet. rewrite Hl2. simpl. by rewrite lookup_empty. }
  exists array', key', s'. split.
  - unfold getReference. unfold bind at 1, getState at 1. rewrite Hlookup.
    unfold bind at 1, ret at 1. rewrite Hcount. rewrite bool_decide_eq_false_2 by lia.
    assert (getReferenceLoop ie (S count) 0 environment name subscripts
              subscriptValues true None None (Some (MScalarValue v)) s
            = (let* key' := getSubscriptKey ie 0 subscripts subscriptValues in
               match key' with
               | None | Some EmptyString => ret UndefinedReference
               | Some k =>
                   let* s := getState in
                   getReferenceLoop ie count 1 environment name subscripts
                     subscriptValues true (Some l) (Some k) (mArrayGet (heap s) l k)
               end) s2) as -> by reflexivity.
    rewrite (bind_Ok _ _ _ _ _ (Hkey s2 Hs2)).
    destruct k0 as [|c k0]; [done|]. exact E.
  - split; [exact Hs'|]. split; [by rewrite He|]. split; [by rewrite Hv|].
    rewrite Hself. unfold selfValue. by rewrite Hl2.
Qed.

End Promotion.

(** A subscripted write to a variable that holds a scalar, and the read of
    the variable after it. *)
Lemma setVariable_keeps_scalar ie nameNode nodes keys States r r' value s environment v :
  closedUnderWrites (text nameNode) States ->
  keysResolveIn States ie (Some nodes) None keys ->
  States s ->
  length keys = length nodes ->
  keys <> [] ->
  lookupName (text nameNode) (environmentStack s) (length (environmentStack s))
  = LookupBinding environment (MScalarValue v) ->
  exists s',
    setVariable ie (MkVariable nameNode nodes r) value s = Ok true s'
    /\ interpretVariable ie (MkVariable nameNode [] r') s'
       = Ok true (setValueStack (v :: valueStack s') s').
Proof.
  intros Hclosed HK Hs Hlen Hne Hlookup.
  destruct (getReference_promotes ie environment (text nameNode) (Some nodes) None keys
              States Hclosed HK s v Hs Hlookup Hne)
    as (array & key & s1 & E & _ & He & Hv & Hself).
  exists (setHeap (mArraySet (heap s1) array key value) s1). split.
  - unfold setVariable, getVariableReference, bind. simpl. rewrite <- Hlen, E. reflexivity.
  - set (l := fresh (dom (heap s))) in *.
    destruct (lookupName_findFrame _ _ _ _ _ Hlookup) as [env Henv].
    unfold interpretVariable, getVariableReference, getReference, bind, getState. simpl.
    rewrite He, length_updateFrames.
    rewrite (lookupName_updateFrames _ _ _ _ (MArrayValue l) _ Hlookup). simpl.
    unfold getReferenceValue, bind, getState. simpl.
    rewrite He, findFrame_updateFrames, Henv. simpl. rewrite lookup_insert_eq.
    unfold ret. simpl. do 3 f_equal.
    pose proof (selfValue_mArraySet (heap s1) array key value l) as Hset.
    rewrite Hself in Hset. unfold selfValue in Hset.
    destruct (mArraySet (heap s1) array key value !! l) as [a|]; [|done].
    by injection Hset.
Qed.

(** [ s x=5], [ s x($$f())=1], [ w "[",x,"]"], [ q], and the tag [f()] with
    [ k x] and [ q 1]: the subscript of the write kills [x]. *)
Definition effectTokens : list (list Token) :=
  [ [token TokenKind.LeadingWhitespace 0 0 1; identifierToken "s" 0 1 2;
     token TokenKind.Space 0 2 3; identifierToken "x" 0 3 4;
     token TokenKind.Equals 0 4 5; numberToken 5%float 0 5 6;
     token TokenKind.TrailingWhitespace 0 6 6];
    [token TokenKind.LeadingWhitespace 1 0 1; identifierToken "s" 1 1 2;
     token TokenKind.Space 1 2 3; identifierToken "x" 1 3 4;
     token TokenKind.LeftParen 1 4 5; token TokenKind.Dollar 1 5 6;
     token TokenKind.Dollar 1 6 7; identifierToken "f" 1 7 8;
     token TokenKind.LeftParen 1 8 9; token TokenKind.RightParen 1 9 10;
     token TokenKind.RightParen 1 10 11; token TokenKind.Equals 1 11 12;
     numberToken 1%float 1 12 13; token TokenKind.TrailingWhitespace 1 13 13];
    [token TokenKind.LeadingWhitespace 2 0 1; identifierToken "w" 2 1 2;
     token TokenKind.Space 2 2 3; stringToken "[" 2 3 6; token TokenKind.Comma 2 6 7;
     identifierToken "x" 2 7 8; token TokenKind.Comma 2 8 9; stringToken "]" 2 9 12;
     token TokenKind.TrailingWhitespace 2 12 12];
    [token TokenKind.LeadingWhitespace 3 0 1; identifierToken "q" 3 1 2;
     token TokenKind.TrailingWhitespace 3 2 2];
    [identifierToken "f" 4 0 1; token TokenKind.LeftParen 4 1 2;
     token TokenKind.RightParen 4 2 3; token TokenKind.TrailingWhitespace 4 3 3];
    [token TokenKind.LeadingWhitespace 5 0 1; identifierToken "k" 5 1 2;
     token TokenKind.Space 5 2 3; identifierToken "x" 5 3 4;
     token TokenKind.TrailingWhitespace 5 4 4];
    [token TokenKind.LeadingWhitespace 6 0 1; identifierToken "q" 6 1 2;
     token TokenKind.Space 6 2 3; numberToken 1%float 6 3 4;
     token TokenKind.TrailingWhitespace 6 4 4] ].



(** The global frame binds [x] to the string [a]. *)
Definition scalarX : InterpreterState :=
  setEnvironmentStack
    [Some {| frame_id := 0;
             bindings := {["x" := Binding (MScalarValue (MString "a"))]} |}]
    initialState.

(** The global frame binds [x] to the string [a] and [i] to the number 1. *)
Definition scalarXI : InterpreterState :=
  setEnvironmentStack
    [Some {| frame_id := 0;
             bindings := {["x" := Binding (MScalarValue (MString "a"));
                           "i" := Binding (MScalarValue (MNumber 1%float))]} |}]
    initialState.

(** [ s x="a",i=1,x(i)=5 w x]. *)
Definition promotionTokens : list (list Token) :=
  [ [token TokenKind.LeadingWhitespace 0 0 1; identifierToken "s" 0 1 2;
     token TokenKind.Space 0 2 3; identifierToken "x" 0 3 4;
     token TokenKind.Equals 0 4 5; stringToken "a" 0 5 8; token TokenKind.Comma 0 8 9;
     identifierToken "i" 0 9 10; token TokenKind.Equals 0 10 11;
     numberToken 1%float 0 11 12; token TokenKind.Comma 0 12 13;
     identifierToken "x" 0 13 14; token TokenKind.LeftParen 0 14 15;
     identifierToken "i" 0 15 16; token TokenKind.RightParen 0 16 17;
     token TokenKind.Equals 0 17 18; numberToken 5%float 0 18 19;
     token TokenKind.Space 0 19 20; identifierToken "w" 0 20 21;
     token TokenKind.Space 0 21 22; identifierToken "x" 0 22 23;
     token TokenKind.TrailingWhitespace 0 23 23] ].


(* ================================================================== *)
(** * C6: merge *)
(* ================================================================== *)

(** ** The overlap test *)

Lemma sameSubscripts_prefix (L R : list string) :
  sameSubscripts L R = true <-> L `prefix_of` R \/ R `prefix_of` L.
Proof.
  revert R. induction L as [|l L IH]; intros [|r R]; simpl.
  - split; [intros _; left; done|done].
  - split; [intros _; left; apply prefix_nil|done].
  - split; [intros _; right; apply prefix_nil|done].
  - destruct (String.eqb l r) eqn:E.
    + apply String.eqb_eq in E as ->. rewrite IH. split.
      * intros [H|H]; [left|right]; by apply prefix_cons.
      * intros [H|H]; [left|right]; by apply prefix_cons_inv_2 in H.
    + apply String.eqb_neq in E. split; [done|].
      intros [H|H]; apply prefix_cons_inv_1 in H; congruence.
Qed.

Lemma doVariablesOverlap_spec leftName L rightName R :
  doVariablesOverlap leftName L rightName R = true
  <-> leftName = rightName /\ (L `prefix_of` R \/ R `prefix_of` L).
Proof.
  unfold doVariablesOverlap. rewrite andb_true_iff, String.eqb_eq, sameSubscripts_prefix.
  done.
Qed.

Definition overlapError (node : MergeAstNode) : MError :=
  {| message := "Cannot merge overlapping variables";
     errorLine := line (start (mergeRange node));
     errorColumn := column (start (mergeRange node)) |}.

Definition missingError (node : VariableAstNode) : MError :=
  {| message := "Variable does not exist";
     errorLine := line (start (variableRange node));
     errorColumn := column (start (variableRange node)) |}.

(** ** The errors of a merge whose subscripts are evaluated *)

(** [m] reports nothing. *)
Definition quiet {A} (m : M A) : Prop :=
  forall E, hoare (fun s => errors s = E) m (fun _ s => errors s = E).

Lemma quiet_bind {A B} (m : M A) (f : A -> M B) :
  quiet m -> (forall x, quiet (f x)) -> quiet (bind m f).
Proof. intros Hm Hf E. eapply hoare_bind; [apply Hm|]. intros x. apply Hf. Qed.

Lemma quiet_ret {A} (x : A) : quiet (ret x).
Proof. intros E. by apply hoare_ret. Qed.

Lemma quiet_abort {A} e : quiet (@abort A e).
Proof. intros E s x s' _. discriminate. Qed.

Lemma quiet_getState : quiet getState.
Proof. by intros E s x s' Hs [= _ <-]. Qed.

Lemma quiet_modify f : (forall s, errors (f s) = errors s) -> quiet (modify f).
Proof. intros H E s x s' Hs [= _ <-]. by rewrite H. Qed.

Lemma quiet_newArray v : quiet (newArray v).
Proof. by intros E s x s' Hs [= _ <-]. Qed.

Lemma quiet_getReferenceValue r : quiet (getReferenceValue r).
Proof. intros E s x s' Hs H. by rewrite (getReferenceValue_state _ _ _ _ H). Qed.

Lemma quiet_setReferenceValue r v : quiet (setReferenceValue r v).
Proof. destruct r; simpl; by apply quiet_modify. Qed.

Ltac quiet_step :=
  lazymatch goal with
  | |- quiet (ret _) => apply quiet_ret
  | |- quiet (abort _) => apply quiet_abort
  | |- quiet (throw _) => apply quiet_abort
  | |- quiet getState => apply quiet_getState
  | |- quiet (newArray _) => apply quiet_newArray
  | |- quiet (getReferenceValue _) => apply quiet_getReferenceValue
  | |- quiet (setReferenceValue _ _) => apply quiet_setReferenceValue
  | |- quiet (environmentSet _ _ _) => apply quiet_modify; done
  | |- quiet (modify _) => apply quiet_modify; done
  | |- quiet (bind _ _) => apply quiet_bind; [|intros ?]
  | |- quiet (match ?x with _ => _ end) => destruct x
  end.

Ltac quiet_auto := repeat first [ assumption | quiet_step ].

Lemma quiet_mapM {A B} (f : A -> M B) l : (forall x, quiet (f x)) -> quiet (mapM f l).
Proof. intros Hf. induction l as [|x rest IH]; simpl; quiet_auto; auto. Qed.

Lemma quiet_mValueCopy depth v : quiet (mValueCopy depth v).
Proof.
  revert v. induction depth as [|depth IH]; intros [v|l]; simpl; try quiet_auto.
  - apply quiet_mapM. intros pair. quiet_auto. apply IH.
  - by intros E s1 y s' Hs [= _ <-].
Qed.

Lemma quiet_mergeChildren fuel destination pairs :
  quiet (mergeChildren fuel destination pairs).
Proof.
  induction pairs as [|[key value] rest IH]; simpl; quiet_auto. apply quiet_mValueCopy.
Qed.

Section EvaluatedSubscripts.

Variable ie : ExpressionAstNode -> M bool.
Variable subscripts : option (list ExpressionAstNode).
Variable values : list string.

Lemma quiet_getSubscriptKey i : quiet (getSubscriptKey ie i subscripts (Some values)).
Proof. apply quiet_ret. Qed.

Lemma quiet_getReferenceLoop count :
  forall i environment name canCreate array subscriptKey value,
    quiet (getReferenceLoop ie count i environment name subscripts (Some values) canCreate
             array subscriptKey value).
Proof.
  induction count as [|count IH];
    intros i environment name canCreate array subscriptKey value; simpl.
  - quiet_auto.
  - apply quiet_bind; [quiet_auto|]. intros [l|]; [|apply quiet_ret].
    apply quiet_bind; [apply quiet_getSubscriptKey|]. intros [[|c k]|]; quiet_auto.
    apply IH.
Qed.

Lemma quiet_getReference name subscriptCount canCreate :
  quiet (getReference ie name subscriptCount subscripts (Some values) canCreate).
Proof.
  unfold getReference. apply quiet_bind; [apply quiet_getState|]. intros s0.
  destruct (lookupName _ _ _); quiet_auto; apply quiet_getReferenceLoop.
Qed.

End EvaluatedSubscripts.

Lemma getVariableReference_errors ie node subscriptCount values canCreate E :
  hoare (fun s => errors s = E)
    (getVariableReference ie node subscriptCount (Some values) canCreate)
    (fun reference s =>
       match reference with
       | Some _ => errors s = E
       | None => (errors s = E \/ errors s = (E ++ [missingError node])%list)
       end).
Proof.
  unfold getVariableReference. eapply hoare_bind; [apply quiet_getReference|].
  intros [r| |].
  - by apply hoare_ret.
  - eapply hoare_bind with (R := fun _ s => errors s = (E ++ [missingError node])%list).
    + intros s x s' Hs [= _ <-]. simpl. by rewrite Hs.
    + intros ?. apply hoare_ret. auto.
  - apply hoare_ret. auto.
Qed.

(** Without overlap, a merge reports at most that a variable does not
    exist, and then it halts. *)
Lemma mergeVariables_errors ie fuel node L R E :
  doVariablesOverlap (variableName (mergeLeft node)) L (variableName (mergeRight node)) R
  = false ->
  hoare (fun s => errors s = E) (mergeVariables ie fuel node L R)
    (fun result s =>
       errors s = E
       \/ (result = CommandResult.Halt
           /\ (errors s = (E ++ [missingError (mergeLeft node)])%list
               \/ errors s = (E ++ [missingError (mergeRight node)])%list))).
Proof.
  intros Hoverlap. unfold mergeVariables. rewrite Hoverlap.
  eapply hoare_bind; [apply getVariableReference_errors|].
  intros [dref|]; [|apply hoare_ret; intros s [H|H]; auto].
  eapply hoare_bind; [apply quiet_getReferenceValue|]. intros current.
  eapply hoare_bind with (R := fun _ s => errors s = E).
  { destruct current as [v|l]; [|by apply hoare_ret].
    eapply hoare_bind; [apply quiet_newArray|]. intros l.
    eapply hoare_bind; [apply quiet_setReferenceValue|]. intros ?. by apply hoare_ret. }
  intros destination.
  eapply hoare_bind; [apply getVariableReference_errors|].
  intros [sref|]; [|apply hoare_ret; intros s [H|H]; auto].
  eapply hoare_bind; [apply quiet_getReferenceValue|]. intros [v|l].
  - apply hoare_ret. auto.
  - eapply hoare_bind; [apply quiet_getState|]. intros s0.
    destruct (heap s0 !! l) as [a|]; [|intros ? ? ? _; discriminate].
    eapply hoare_bind; [apply quiet_mergeChildren|]. intros ?. apply hoare_ret. auto.
Qed.

(** ** Trees of array nodes *)

(** The tree of [v] in the store [h] has depth at most [d], all its nodes
    are in the store, and none of them is in [X]. *)
Fixpoint treeOutside (d : nat) (h : gmap loc MArray) (X : gset loc) (v : MValue) : Prop :=
  match v with
  | MScalarValue _ => True
  | MArrayValue l =>
      match d with
      | O => False
      | S d' =>
          (l ∉ X)
          /\ match h !! l with
             | Some a => map_Forall (fun _ w => treeOutside d' h X w) (arrayChildren a)
             | None => False
             end
      end
  end.

(** [v'] in [h'] is a copy of [v] in [h]: the same scalar, or array nodes of
    the same self-value whose children are copies, key by key. *)
Fixpoint sameTree (d : nat) (h : gmap loc MArray) (v : MValue) (h' : gmap loc MArray)
    (v' : MValue) : Prop :=
  match v, v' with
  | MScalarValue c, MScalarValue c' => c = c'
  | MArrayValue l, MArrayValue l' =>
      match d with
      | O => False
      | S d' =>
          match h !! l, h' !! l' with
          | Some a, Some a' =>
              arrayValue a = arrayValue a'
              /\ forall k,
                   option_Forall2 (fun w w' => sameTree d' h w h' w')
                     (arrayChildren a !! k) (arrayChildren a' !! k)
          | _, _ => False
          end
      end
  | _, _ => False
  end.

(** The nodes outside [X] are in [g] what they are in [h]. *)
Definition preserved (h g : gmap loc MArray) (X : gset loc) : Prop :=
  forall l a, l ∉ X -> h !! l = Some a -> g !! l = Some a.

Lemma preserved_refl h X : preserved h h X.
Proof. by intros l a _ H. Qed.

Lemma preserved_trans h g k X : preserved h g X -> preserved g k X -> preserved h k X.
Proof. intros H1 H2 l a Hl H. eauto. Qed.

Lemma preserved_subseteq h g X : h ⊆ g -> preserved h g X.
Proof. intros Hsub l a _ H. by eapply lookup_weaken. Qed.

Lemma preserved_weaken h g X Y : X ⊆ Y -> preserved h g X -> preserved h g Y.
Proof. intros HXY H l a Hl. apply H. set_solver. Qed.

Lemma treeOutside_preserved d h g X v :
  preserved h g X -> treeOutside d h X v -> treeOutside d g X v.
Proof.
  intros Hp. revert v. induction d as [|d IH]; intros [c|l]; simpl; try done.
  intros [Hl H]. split; [done|].
  destruct (h !! l) as [a|] eqn:E; [|done]. rewrite (Hp l a Hl E).
  intros k w Hk. apply IH. exact (H k w Hk).
Qed.

Lemma treeOutside_subseteq d h X Y v :
  Y ⊆ X -> treeOutside d h X v -> treeOutside d h Y v.
Proof.
  intros HYX. revert v. induction d as [|d IH]; intros [c|l]; simpl; try done.
  intros [Hl H]. split; [set_solver|].
  destruct (h !! l) as [a|]; [|done].
  intros k w Hk. apply IH. exact (H k w Hk).
Qed.

Lemma sameTree_preserved d h g X h' g' X' v v' :
  preserved h g X -> preserved h' g' X' ->
  treeOutside d h X v -> treeOutside d h' X' v' ->
  sameTree d h v h' v' <-> sameTree d g v g' v'.
Proof.
  intros Hp Hp'. revert v v'.
  induction d as [|d IH]; intros [c|l] [c'|l']; simpl; try done.
  intros [Hl H] [Hl' H'].
  destruct (h !! l) as [a|] eqn:E; [|done]. rewrite (Hp l a Hl E).
  destruct (h' !! l') as [a'|] eqn:E'; [|done]. rewrite (Hp' l' a' Hl' E').
  apply and_iff_compat_l. apply forall_proper. intros k.
  destruct (arrayChildren a !! k) as [w|] eqn:Ew,
           (arrayChildren a' !! k) as [w'|] eqn:Ew';
    try (split; intros Hx; inversion Hx; fail).
  - split; intros Hx; inversion Hx; subst; constructor;
      by apply (IH w w' (H k w Ew) (H' k w' Ew')).
  - split; constructor.
Qed.

(** ** [mValueCopy] *)

(** From [s] to [s'] only the store has changed, and it has grown. *)
Definition grows (s s' : InterpreterState) : Prop :=
  (exists h, s' = setHeap h s) /\ (heap s : gmap loc MArray) ⊆ heap s'.

Lemma grows_refl s : grows s s.
Proof. split; [exists (heap s); by destruct s|done]. Qed.

Lemma grows_trans s1 s2 s3 : grows s1 s2 -> grows s2 s3 -> grows s1 s3.
Proof.
  intros [[h2 ->] H12] [[h3 ->] H23]. split; [by exists h3|]. by etrans.
Qed.

(** [v'] in [s'] is a new copy of [v] in [s]. *)
Definition copyOf (d : nat) (s : InterpreterState) (v : MValue) (s' : InterpreterState)
    (v' : MValue) : Prop :=
  sameTree d (heap s) v (heap s') v' /\ treeOutside d (heap s') (dom (heap s)) v'.

Lemma Forall2_with_Forall {A B} (P : A -> Prop) (R R' : A -> B -> Prop) l k :
  Forall P l -> Forall2 R l k -> (forall x y, P x -> R x y -> R' x y) -> Forall2 R' l k.
Proof.
  intros HP HR Himpl. revert HP. induction HR as [|x y l k Hxy HR IH]; [constructor|].
  intros [Hx Hl]%Forall_cons. constructor; auto.
Qed.

Lemma Forall2_fst {A B C} (R : A * B -> A * C -> Prop) l k :
  Forall2 R l k -> (forall x y, R x y -> y.1 = x.1) -> k.*1 = l.*1.
Proof.
  intros HR Hfst. induction HR as [|x y l k Hxy HR IH]; [done|].
  rewrite !fmap_cons. f_equal; [by apply Hfst|exact IH].
Qed.

Definition copyPair (d : nat) (s s' : InterpreterState) (p c : string * MValue) : Prop :=
  c.1 = p.1 /\ copyOf d s p.2 s' c.2.

Lemma copyOf_grows_r d s s1 s2 X v v' :
  treeOutside d (heap s) X v -> grows s1 s2 -> copyOf d s v s1 v' -> copyOf d s v s2 v'.
Proof.
  intros Hv [_ Hsub] [Hsame Hout]. split.
  - apply (sameTree_preserved d (heap s) (heap s) X (heap s1) (heap s2) (dom (heap s)) v v');
      [apply preserved_refl|by apply preserved_subseteq|done|done|done].
  - eapply treeOutside_preserved; [|exact Hout]. by apply preserved_subseteq.
Qed.

Lemma copyOf_grows_l d s0 s s' X v v' :
  treeOutside d (heap s0) X v -> grows s0 s -> copyOf d s v s' v' -> copyOf d s0 v s' v'.
Proof.
  intros Hv [_ Hsub] [Hsame Hout]. split.
  - apply (sameTree_preserved d (heap s0) (heap s) X (heap s') (heap s') (dom (heap s)) v v');
      [by apply preserved_subseteq|apply preserved_refl|done|done|done].
  - eapply treeOutside_subseteq; [|exact Hout]. by apply subseteq_dom.
Qed.

Section Copy.

Variable depth : nat.
Hypothesis copyChild :
  forall v s X, treeOutside depth (heap s) X v ->
    exists v' s', mValueCopy depth v s = Ok v' s' /\ grows s s' /\ copyOf depth s v s' v'.

Lemma mapM_copies pairs :
  forall s X,
    Forall (fun p : string * MValue => treeOutside depth (heap s) X p.2) pairs ->
    exists cs s1,
      mapM (fun pair : string * MValue =>
              let* c := mValueCopy depth pair.2 in ret (pair.1, c)) pairs s
      = Ok cs s1
      /\ grows s s1 /\ Forall2 (copyPair depth s s1) pairs cs.
Proof.
  induction pairs as [|p rest IH]; intros s X Hall; simpl.
  - exists [], s. split; [done|]. split; [apply grows_refl|constructor].
  - apply Forall_cons in Hall as [Hp Hrest].
    destruct (copyChild p.2 s X Hp) as (v' & sa & Ecopy & Hga & Hcopy).
    destruct (IH sa X) as (cs & s1 & E1 & Hg1 & HF).
    { eapply Forall_impl; [exact Hrest|]. intros q Hq.
      eapply treeOutside_preserved; [|exact Hq]. apply preserved_subseteq, Hga. }
    exists ((p.1, v') :: cs), s1. split; [|split].
    + assert ((let* c := mValueCopy depth p.2 in ret (p.1, c)) s = Ok (p.1, v') sa) as Ehead
        by (by rewrite (bind_Ok _ _ _ _ _ Ecopy)).
      rewrite (bind_Ok _ _ _ _ _ Ehead). by rewrite (bind_Ok _ _ _ _ _ E1).
    + by eapply grows_trans.
    + constructor.
      * split; [done|]. simpl.
        exact (copyOf_grows_r depth s sa s1 X p.2 v' Hp Hg1 Hcopy).
      * eapply Forall2_with_Forall; [exact Hrest|exact HF|].
        intros q c Hq [Hfst Hc]. split; [done|].
        exact (copyOf_grows_l depth s sa s1 X q.2 c.2 Hq Hga Hc).
Qed.

End Copy.

(** With a depth that bounds the tree, [mValueCopy] gives a new copy, and
    changes nothing that was in the store. *)
Lemma mValueCopy_copies depth :
  forall v s X, treeOutside depth (heap s) X v ->
    exists v' s', mValueCopy depth v s = Ok v' s' /\ grows s s' /\ copyOf depth s v s' v'.
Proof.
  induction depth as [|depth IH]; intros [c|l] s X; simpl; try done.
  - intros _. exists (MScalarValue c), s. split; [done|]. split; [apply grows_refl|by split].
  - intros _. exists (MScalarValue c), s. split; [done|]. split; [apply grows_refl|by split].
  - intros [Hl H]. destruct ((heap s : gmap loc MArray) !! l) as [a|] eqn:E; [|done].
    destruct (mapM_copies depth IH (map_to_list (arrayChildren a)) s X)
      as (cs & s1 & E1 & Hg1 & HF).
    { apply Forall_forall. intros [k w] Hkw. apply (H k w).
      by apply elem_of_map_to_list. }
    set (l' := fresh (dom (heap s1))).
    set (node := {| arrayValue := arrayValue a; arrayChildren := list_to_map cs |}).
    assert (heap s1 !! l' = None) as Hfresh by apply fresh_lookup.
    assert ((heap s1 : gmap loc MArray) ⊆ <[l' := node]> (heap s1)) as Hsub
      by by apply insert_subseteq.
    assert (cs.*1 = (map_to_list (arrayChildren a)).*1) as Hkeys.
    { eapply Forall2_fst; [exact HF|]. by intros x y [? _]. }
    assert (NoDup cs.*1) as Hnodup by (rewrite Hkeys; apply NoDup_fst_map_to_list).
    exists (MArrayValue l'), (setHeap (<[l' := node]> (heap s1)) s1). split; [|split; [|split]].
    + unfold bind at 1, getState. unfold Heap in *. rewrite E.
      by rewrite (bind_Ok _ _ _ _ _ E1).
    + eapply grows_trans; [exact Hg1|]. split; [by eexists|done].
    + simpl. rewrite E. unfold Heap in *. rewrite lookup_insert_eq. split; [done|].
      intros k. unfold node. cbn [arrayChildren].
      destruct (arrayChildren a !! k) as [w|] eqn:Ew.
      * apply elem_of_map_to_list in Ew.
        apply list_elem_of_lookup in Ew as [i Hi].
        destruct (Forall2_lookup_l _ _ _ _ _ HF Hi) as ([k' c] & Hc & Hfst & Hcopy).
        simpl in Hfst. subst k'.
        rewrite (elem_of_list_to_map_1 cs k c Hnodup);
          [|by apply list_elem_of_lookup; exists i].
        constructor. simpl in Hcopy.
        apply (sameTree_preserved depth (heap s) (heap s) X (heap s1)
                 (<[l' := node]> (heap s1)) (dom (heap s)) w c);
          [apply preserved_refl|by apply preserved_subseteq| |apply Hcopy|apply Hcopy].
        apply (H k w). apply elem_of_map_to_list, list_elem_of_lookup. by exists i.
      * rewrite not_elem_of_list_to_map_1; [constructor|].
        rewrite Hkeys. intros ([k' w] & Hk & Hin)%list_elem_of_fmap. simpl in Hk. subst k'.
        apply elem_of_map_to_list in Hin. congruence.
    + simpl. split.
      * intros Hin. apply elem_of_dom in Hin as [a0 Ha0].
        destruct Hg1 as [_ Hsub1]. pose proof (lookup_weaken _ _ _ _ Ha0 Hsub1) as Ha1.
        unfold Heap in *. congruence.
      * unfold Heap in *. rewrite lookup_insert_eq. simpl.
        intros k c Hk. apply elem_of_list_to_map_2 in Hk.
        apply list_elem_of_lookup in Hk as [i Hi].
        destruct (Forall2_lookup_r _ _ _ _ _ HF Hi) as (p & Hp & Hfst & Hcopy).
        eapply treeOutside_preserved; [|apply Hcopy]. by apply preserved_subseteq.
Qed.

(** ** The copy loop of [interpretMerge] *)

Lemma dom_mArraySet (h : gmap loc MArray) array key v : dom (mArraySet h array key v) = dom h.
Proof.
  unfold mArraySet, Heap in *. destruct (h !! array) as [a|] eqn:E; [|done].
  by apply dom_insert_lookup_L.
Qed.

Lemma preserved_mArraySet (h : gmap loc MArray) array key v :
  preserved h (mArraySet h array key v) {[array]}.
Proof.
  intros l a Hl Ha. rewrite mArraySet_lookup_ne; [done|]. set_solver.
Qed.

(** What the loop has done to the node [destination], whose children were
    those of [a], when it ends in [s'] with the children of [a']. *)
Definition merged (fuel : nat) (destination : loc) (pairs : list (string * MValue))
    (s : InterpreterState) (a : MArray) (s' : InterpreterState) (a' : MArray) : Prop :=
  (exists h, s' = setHeap h s)
  /\ preserved (heap s) (heap s') {[destination]}
  /\ (heap s' : gmap loc MArray) !! destination = Some a'
  /\ arrayValue a' = arrayValue a
  /\ (forall k, k ∉ pairs.*1 -> arrayChildren a' !! k = arrayChildren a !! k)
  /\ Forall (fun p : string * MValue =>
               exists c, arrayChildren a' !! p.1 = Some c /\ copyOf fuel s p.2 s' c) pairs.

Lemma mergeChildren_merged fuel destination pairs :
  forall s a,
    (heap s : gmap loc MArray) !! destination = Some a ->
    NoDup pairs.*1 ->
    Forall (fun p : string * MValue => treeOutside fuel (heap s) {[destination]} p.2)
      pairs ->
    exists s' a',
      mergeChildren fuel destination pairs s = Ok tt s'
      /\ merged fuel destination pairs s a s' a'.
Proof.
  induction pairs as [|[k v] rest IH]; intros s a Ha Hnodup Hall.
  - exists s, a. split; [done|]. split; [exists (heap s); by destruct s|].
    split; [apply preserved_refl|]. repeat split; done.
  - rewrite fmap_cons in Hnodup. apply NoDup_cons in Hnodup as [Hk Hnodup].
    apply Forall_cons in Hall as [Hv Hrest]. simpl in Hv, Hk.
    destruct (mValueCopy_copies fuel v s {[destination]} Hv)
      as (c & s1 & Ec & [[h1 Hs1] Hsub1] & Hsame & Hout).
    assert ((heap s1 : gmap loc MArray) !! destination = Some a) as Ha1
      by (by eapply lookup_weaken).
    set (a2 := {| arrayValue := arrayValue a;
                  arrayChildren := <[k := c]> (arrayChildren a) |}).
    set (s2 := setHeap (mArraySet (heap s1) destination k c) s1).
    assert ((heap s2 : gmap loc MArray) !! destination = Some a2) as Ha2
      by (simpl; by rewrite (mArraySet_lookup _ _ _ _ _ Ha1)).
    assert (preserved (heap s1) (heap s2) {[destination]}) as Hp12
      by apply preserved_mArraySet.
    assert (preserved (heap s) (heap s2) {[destination]}) as Hp02.
    { eapply preserved_trans; [|exact Hp12]. by apply preserved_subseteq. }
    assert ({[destination]} ⊆ dom (heap s)) as Hdst.
    { apply singleton_subseteq_l. by apply elem_of_dom_2 in Ha. }
    assert (dom (heap s) ⊆ dom (heap s2)) as Hdom.
    { simpl. rewrite dom_mArraySet. by apply subseteq_dom. }
    destruct (IH s2 a2 Ha2 Hnodup) as (s' & a' & E' & [h' Hs'] & Hp' & Ha' & Hval & Hother & Hcopied).
    { eapply Forall_impl; [exact Hrest|]. intros p Hp.
      by eapply treeOutside_preserved. }
    exists s', a'. split; [|split; [|split; [|split; [|split; [|split]]]]].
    + simpl. rewrite (bind_Ok _ _ _ _ _ Ec). exact E'.
    + exists h'. rewrite Hs'. unfold s2. by rewrite Hs1.
    + by eapply preserved_trans.
    + exact Ha'.
    + by rewrite Hval.
    + intros k' Hk'. rewrite fmap_cons in Hk'. apply not_elem_of_cons in Hk' as [Hne Hk'].
      rewrite (Hother k' Hk'). simpl. by rewrite lookup_insert_ne.
    + rewrite Forall_forall in Hrest, Hcopied. apply Forall_cons. split.
      * exists c. simpl. split.
        -- rewrite (Hother k Hk). simpl. by rewrite lookup_insert_eq.
        -- split.
           ++ apply (sameTree_preserved fuel (heap s) (heap s) {[destination]} (heap s1)
                       (heap s') {[destination]} v c);
                [apply preserved_refl|by eapply preserved_trans|done| |done].
              by eapply treeOutside_subseteq.
           ++ eapply treeOutside_preserved; [|exact Hout].
              eapply preserved_weaken; [exact Hdst|]. by eapply preserved_trans.
      * apply Forall_forall. intros p Hp.
        destruct (Hcopied p Hp) as (c' & Hc' & Hsame' & Hout'). exists c'. split; [done|].
        split.
        -- apply (sameTree_preserved fuel (heap s) (heap s2) {[destination]} (heap s')
                    (heap s') (dom (heap s2)) p.2 c');
             [done|apply preserved_refl|by apply Hrest|done|done].
        -- by eapply treeOutside_subseteq.
Qed.

(** ** A merge whose subscripts are evaluated *)

(** A resolution that finds a reference without creating finds the same
    when it may create. *)
Lemma getReferenceLoop_canCreate ie count :
  forall i environment name subscripts subscriptValues array subscriptKey value s r s',
    getReferenceLoop ie count i environment name subscripts subscriptValues false array
      subscriptKey value s = Ok (FoundReference r) s' ->
    getReferenceLoop ie count i environment name subscripts subscriptValues true array
      subscriptKey value s = Ok (FoundReference r) s'.
Proof.
  induction count as [|count IH];
    intros i environment name subscripts subscriptValues array subscriptKey value s r s';
    simpl; [done|].
  destruct value as [[v|l]|]; try done.
  rewrite !bind_ret_l. unfold bind.
  destruct (getSubscriptKey ie i subscripts subscriptValues s) as [[[|c k]|] s1|]; try done.
  apply IH.
Qed.

Lemma getVariableReference_canCreate ie node subscriptCount subscriptValues s r s' :
  getVariableReference ie node subscriptCount subscriptValues false s = Ok (Some r) s' ->
  getVariableReference ie node subscriptCount subscriptValues true s = Ok (Some r) s'.
Proof.
  unfold getVariableReference, getReference, bind, getState.
  destruct (lookupName _ _ _) as [|r0|environment v|]; try done.
  - unfold ret. case_bool_decide; [done|].
    destruct (getReferenceLoop ie _ 0 environment _ _ _ false None None (Some v) s)
      as [[r1| |] s1|] eqn:E; try done.
    by rewrite (getReferenceLoop_canCreate _ _ _ _ _ _ _ _ _ _ _ _ _ E).
  - destruct (environmentStack s !! 0%nat) as [[env|]|]; try done.
    unfold ret. case_bool_decide; [done|].
    destruct (getReferenceLoop ie _ 0 (frame_id env) _ _ _ false None None None s)
      as [[r1| |] s1|] eqn:E; try done.
    by rewrite (getReferenceLoop_canCreate _ _ _ _ _ _ _ _ _ _ _ _ _ E).
Qed.

(** The merge of an array node into an array node: both variables resolve,
    without creation, to array nodes; the trees below the source have depth
    at most [fuel] and do not contain the destination node. *)
Lemma mergeVariables_merges ie fuel node L R s dref destination sref source a b :
  doVariablesOverlap (variableName (mergeLeft node)) L (variableName (mergeRight node)) R
  = false ->
  getVariableReference ie (mergeLeft node) (Some (length L)) (Some L) false s
  = Ok (Some dref) s ->
  getReferenceValue dref s = Ok (MArrayValue destination) s ->
  getVariableReference ie (mergeRight node) (Some (length R)) (Some R) false s
  = Ok (Some sref) s ->
  getReferenceValue sref s = Ok (MArrayValue source) s ->
  (heap s : gmap loc MArray) !! destination = Some a ->
  (heap s : gmap loc MArray) !! source = Some b ->
  map_Forall (fun _ v => treeOutside fuel (heap s) {[destination]} v) (arrayChildren b) ->
  exists s' a',
    mergeVariables ie fuel node L R s = Ok CommandResult.Continue s'
    /\ merged fuel destination (map_to_list (arrayChildren b)) s a s' a'.
Proof.
  intros Hoverlap Hdref Hdst Hsref Hsrc Ha Hb Htrees.
  destruct (mergeChildren_merged fuel destination (map_to_list (arrayChildren b)) s a Ha)
    as (s' & a' & E & Hmerged).
  { apply NoDup_fst_map_to_list. }
  { apply Forall_forall. intros [k v] Hkv. apply (Htrees k v).
    by apply elem_of_map_to_list. }
  exists s', a'. split; [|exact Hmerged].
  unfold mergeVariables. rewrite Hoverlap.
  rewrite (bind_Ok _ _ _ _ _ (getVariableReference_canCreate _ _ _ _ _ _ _ Hdref)).
  rewrite (bind_Ok _ _ _ _ _ Hdst). rewrite bind_ret_l.
  rewrite (bind_Ok _ _ _ _ _ Hsref). rewrite (bind_Ok _ _ _ _ _ Hsrc).
  unfold bind at 1, getState. unfold Heap in *. rewrite Hb.
  by rewrite (bind_Ok _ _ _ _ _ E).
Qed.

(** ** A destination that is created or promoted *)

(** The frame that a write of [name] goes to: the topmost frame that binds
    it, or the global frame. *)
Definition writeTarget (name : string) (s : InterpreterState) : option nat :=
  let stack := environmentStack s in
  match lookupName name stack (length stack) with
  | LookupBinding environment _ => Some environment
  | LookupNothing =>
      match stack !! 0%nat with
      | Some (Some globalFrame) => Some (frame_id globalFrame)
      | _ => None
      end
  | _ => None
  end.

(** The node or the frame of a reference is there. *)
Definition referenceExists (reference : MReference) (s : InterpreterState) : Prop :=
  match reference with
  | ArrayReference array _ => is_Some (heap s !! array)
  | EnvironmentReference environment _ =>
      is_Some (findFrame environment (environmentStack s))
  end.

(** The state after [interpretMerge] has replaced the scalar [v] that its
    destination held by a new array node of self-value [v]. *)
Definition promoted (reference : MReference) (v : MScalar) (s : InterpreterState)
    : InterpreterState :=
  match (let* l := newArray v in setReferenceValue reference (MArrayValue l)) s with
  | Ok _ s' => s'
  | Aborted _ => s
  end.

(** No value of the store or of a frame names a node that the store does
    not have. *)
Definition inStore (h : Heap) (v : MValue) : Prop :=
  match v with
  | MArrayValue l => is_Some (h !! l)
  | MScalarValue _ => True
  end.

Definition storeClosed (s : InterpreterState) : Prop :=
  (forall l a k v,
     heap s !! l = Some a -> arrayChildren a !! k = Some v -> inStore (heap s) v)
  /\ (forall env name v,
        Some env ∈ environmentStack s -> bindings env !! name = Some (Binding v) ->
        inStore (heap s) v).

Lemma mArrayGet_mArraySet h array key v :
  is_Some (h !! array) -> mArrayGet (mArraySet h array key v) array key = Some v.
Proof.
  intros [a Ha]. unfold mArrayGet. rewrite (mArraySet_lookup _ _ _ _ _ Ha). simpl.
  by rewrite lookup_insert_eq.
Qed.

Lemma inStore_mono (h g : Heap) v :
  (forall l, is_Some (h !! l) -> is_Some (g !! l)) -> inStore h v -> inStore g v.
Proof. intros Hsub. destruct v as [c|l]; [done|]. apply Hsub. Qed.

Lemma lookupName_bound_in name stack n environment value :
  lookupName name stack n = LookupBinding environment value ->
  exists env, Some env ∈ stack /\ bindings env !! name = Some (Binding value).
Proof.
  induction n as [|i IH]; simpl; [done|].
  destruct (stack !! i) as [[env|]|] eqn:Ei; try done.
  destruct (bindings env !! name) as [[w|r]|] eqn:E; try done.
  intros [= _ <-]. exists env. split; [|done]. by eapply list_elem_of_lookup_2.
Qed.

Lemma findFrame_in id stack env : findFrame id stack = Some env -> Some env ∈ stack.
Proof.
  induction stack as [|[env'|] rest IH]; simpl; [done| |].
  - case_decide; [intros [= ->]; apply list_elem_of_here|].
    intros Hfound. apply list_elem_of_further. by apply IH.
  - intros Hfound. apply list_elem_of_further. by apply IH.
Qed.

(** A new node, and a child of an existing node that names it. *)
Lemma storeClosed_child s array key v :
  let l := fresh (dom (heap s)) in
  let h1 := <[l := {| arrayValue := v; arrayChildren := ∅ |}]> (heap s) in
  storeClosed s ->
  is_Some (heap s !! array) ->
  storeClosed (setHeap (mArraySet h1 array key (MArrayValue l)) (setHeap h1 s)).
Proof.
  intros l h1 [Hnodes Hframes] [a Ha].
  assert (heap s !! l = None) as Hfresh by apply fresh_lookup.
  assert (l <> array) as Hl by (intros E; unfold Heap in *; congruence).
  assert (h1 !! array = Some a) as Ha1.
  { unfold h1, Heap in *. by rewrite lookup_insert_ne. }
  set (h2 := mArraySet h1 array key (MArrayValue l)).
  assert (h2 !! l = Some {| arrayValue := v; arrayChildren := ∅ |}) as Hl2.
  { unfold h2. rewrite mArraySet_lookup_ne by done. unfold h1, Heap in *.
    by rewrite lookup_insert_eq. }
  assert (h2 !! array
          = Some {| arrayValue := arrayValue a;
                    arrayChildren := <[key := MArrayValue l]> (arrayChildren a) |})
    as Ha2 by (unfold h2; by rewrite (mArraySet_lookup _ _ _ _ _ Ha1)).
  assert (forall l0, l0 <> array -> l0 <> l -> h2 !! l0 = heap s !! l0) as Hother.
  { intros l0 H0 H1. unfold h2. rewrite mArraySet_lookup_ne by done. unfold h1, Heap in *.
    by rewrite lookup_insert_ne. }
  assert (forall l0, is_Some (heap s !! l0) -> is_Some (h2 !! l0)) as Hsub.
  { intros l0 [a0 H0]. destruct (decide (l0 = array)) as [->|Hne]; [by rewrite Ha2|].
    rewrite Hother; [by rewrite H0|done|]. intros ->. unfold Heap in *. congruence. }
  split; simpl.
  - intros l0 a0 k0 v0 H0 Hk.
    destruct (decide (l0 = array)) as [->|Hne].
    + unfold Heap in *. rewrite Ha2 in H0. injection H0 as <-. simpl in Hk.
      destruct (decide (k0 = key)) as [->|Hkey].
      * rewrite lookup_insert_eq in Hk. injection Hk as <-. simpl. eexists. exact Hl2.
      * rewrite lookup_insert_ne in Hk by done.
        eapply inStore_mono; [exact Hsub|]. by eapply Hnodes.
    + destruct (decide (l0 = l)) as [->|Hne'].
      * unfold Heap in *. rewrite Hl2 in H0. injection H0 as <-. simpl in Hk.
        by rewrite lookup_empty in Hk.
      * rewrite Hother in H0 by done.
        eapply inStore_mono; [exact Hsub|]. by eapply Hnodes.
  - intros env name0 v0 Hin Hb. eapply inStore_mono; [exact Hsub|]. by eapply Hframes.
Qed.

(** A new node, and a binding that names it. *)
Lemma storeClosed_binding s environment name v :
  let l := fresh (dom (heap s)) in
  let h1 := <[l := {| arrayValue := v; arrayChildren := ∅ |}]> (heap s) in
  storeClosed s ->
  storeClosed
    (setEnvironmentStack
       (updateFrames environment <[name := Binding (MArrayValue l)]> (environmentStack s))
       (setHeap h1 s)).
Proof.
  intros l h1 [Hnodes Hframes].
  assert (heap s !! l = None) as Hfresh by apply fresh_lookup.
  assert (h1 !! l = Some {| arrayValue := v; arrayChildren := ∅ |}) as Hl1.
  { unfold h1, Heap in *. by rewrite lookup_insert_eq. }
  assert (forall l0, is_Some (heap s !! l0) -> is_Some (h1 !! l0)) as Hsub.
  { intros l0 [a0 H0]. unfold h1, Heap in *. rewrite lookup_insert_ne; [by rewrite H0|].
    intros ->. congruence. }
  split; simpl.
  - intros l0 a0 k0 v0 H0 Hk. destruct (decide (l0 = l)) as [->|Hne].
    + unfold Heap in *. rewrite Hl1 in H0. injection H0 as <-. simpl in Hk.
      by rewrite lookup_empty in Hk.
    + unfold h1, Heap in *. rewrite lookup_insert_ne in H0 by done.
      eapply inStore_mono; [exact Hsub|]. by eapply Hnodes.
  - intros env name0 v0 Hin Hb. unfold updateFrames in Hin.
    apply list_elem_of_fmap in Hin as (slot & Hslot & Hin).
    destruct slot as [env0|]; [|done]. case_decide as Hid.
    + injection Hslot as ->. simpl in Hb.
      destruct (decide (name0 = name)) as [->|Hname].
      * rewrite lookup_insert_eq in Hb. injection Hb as <-. simpl. eexists. exact Hl1.
      * rewrite lookup_insert_ne in Hb by done.
        eapply inStore_mono; [exact Hsub|]. by eapply Hframes.
    + injection Hslot as ->. eapply inStore_mono; [exact Hsub|]. by eapply Hframes.
Qed.

Section Resolving.

Variable ie : ExpressionAstNode -> M bool.
Variable environment : nat.
Variable name : string.
Variable subscripts : option (list ExpressionAstNode).
Variable L : list string.
Hypothesis keysOk : Forall (fun k : string => k <> "") L.

(** The loop of [getReference] that may create, on evaluated keys that are
    not empty, from the slot [(array, key)] of a node of a closed store: it
    ends at a slot of a node of the store. *)
Lemma getReferenceLoop_resolves count :
  forall i array key s,
    (S i + count)%nat = length L ->
    storeClosed s ->
    is_Some (heap s !! array) ->
    exists array' key' s',
      getReferenceLoop ie count (S i) environment name subscripts (Some L) true
        (Some array) (Some key) (mArrayGet (heap s) array key) s
      = Ok (FoundReference (ArrayReference array' key')) s'
      /\ is_Some (heap s' !! array')
      /\ storeClosed s'.
Proof.
  induction count as [|count IH]; intros i array key s Hlen Hclosed Harray.
  - by exists array, key, s.
  - assert (exists k, L !! S i = Some k) as [k Hk].
    { apply lookup_lt_is_Some. lia. }
    assert (k <> "") as Hne.
    { rewrite Forall_lookup in keysOk. exact (keysOk _ _ Hk). }
    destruct (mArrayGet (heap s) array key) as [[v|l]|] eqn:Hvalue.
    + destruct (IH (S i) (fresh (dom (heap s))) k
                  (setHeap
                     (mArraySet
                        (<[fresh (dom (heap s))
                           := {| arrayValue := v; arrayChildren := ∅ |}]> (heap s))
                        array key (MArrayValue (fresh (dom (heap s)))))
                     (setHeap
                        (<[fresh (dom (heap s))
                           := {| arrayValue := v; arrayChildren := ∅ |}]> (heap s)) s)))
        as (array' & key' & s' & E & Hsome & Hclosed').
      { lia. }
      { by apply storeClosed_child. }
      { simpl. destruct Harray as [a Ha].
        assert (fresh (dom (heap s)) <> array) as Hl.
        { intros E. pose proof (fresh_lookup (heap s)) as Hf. unfold Heap in *.
          rewrite E in Hf. congruence. }
        rewrite mArraySet_lookup_ne by done. unfold Heap in *.
        by rewrite lookup_insert_eq. }
      exists array', key', s'. split; [|done].
      simpl. unfold getSubscriptKey. rewrite Hk. destruct k as [|c k]; [done|].
      exact E.
    + assert (is_Some (heap s !! l)) as Hl.
      { destruct Hclosed as [Hnodes _]. unfold mArrayGet in Hvalue.
        destruct (heap s !! array) as [a|] eqn:Ha; [|done]. simpl in Hvalue.
        exact (Hnodes array a key (MArrayValue l) Ha Hvalue). }
      destruct (IH (S i) l k s) as (array' & key' & s' & E & Hsome & Hclosed');
        [lia|done|done|].
      exists array', key', s'. split; [|done].
      simpl. unfold getSubscriptKey. rewrite Hk. destruct k as [|c k]; [done|].
      exact E.
    + destruct (IH (S i) (fresh (dom (heap s))) k
                  (setHeap
                     (mArraySet
                        (<[fresh (dom (heap s))
                           := {| arrayValue := emptyString; arrayChildren := ∅ |}]>
                           (heap s))
                        array key (MArrayValue (fresh (dom (heap s)))))
                     (setHeap
                        (<[fresh (dom (heap s))
                           := {| arrayValue := emptyString; arrayChildren := ∅ |}]>
                           (heap s)) s)))
        as (array' & key' & s' & E & Hsome & Hclosed').
      { lia. }
      { by apply storeClosed_child. }
      { simpl. destruct Harray as [a Ha].
        assert (fresh (dom (heap s)) <> array) as Hl.
        { intros E. pose proof (fresh_lookup (heap s)) as Hf. unfold Heap in *.
          rewrite E in Hf. congruence. }
        rewrite mArraySet_lookup_ne by done. unfold Heap in *.
        by rewrite lookup_insert_eq. }
      exists array', key', s'. split; [|done].
      simpl. unfold getSubscriptKey. rewrite Hk. destruct k as [|c k]; [done|].
      exact E.
Qed.

End Resolving.

Lemma getReferenceLoop_first ie environment name subscripts L count k value s :
  L !! 0%nat = Some k -> k <> "" ->
  is_Some (findFrame environment (environmentStack s)) ->
  getReferenceLoop ie (S count) 0 environment name subscripts (Some L) true None None
    value s
  = match value with
    | Some (MArrayValue l) =>
        getReferenceLoop ie count 1 environment name subscripts (Some L) true (Some l)
          (Some k) (mArrayGet (heap s) l k) s
    | _ =>
        let l := fresh (dom (heap s)) in
        let s2 :=
          setEnvironmentStack
            (updateFrames environment <[name := Binding (MArrayValue l)]>
               (environmentStack s))
            (setHeap (<[l := {| arrayValue := slotScalar value; arrayChildren := ∅ |}]>
                        (heap s)) s) in
        getReferenceLoop ie count 1 environment name subscripts (Some L) true (Some l)
          (Some k) (mArrayGet (heap s2) l k) s2
    end.
Proof.
  intros Hk Hne _. simpl. unfold getSubscriptKey. rewrite Hk.
  destruct k as [|c k]; [done|]. by destruct value as [[v|l]|].
Qed.

Lemma getReference_resolves ie name subscripts L s :
  Forall (fun k : string => k <> "") L ->
  storeClosed s ->
  is_Some (writeTarget name s) ->
  exists r s1,
    getReference ie name (length L) subscripts (Some L) true s = Ok (FoundReference r) s1
    /\ referenceExists r s1
    /\ storeClosed s1.
Proof.
  intros Hkeys Hclosed [target Htarget].
  assert (forall environment value,
            is_Some (findFrame environment (environmentStack s)) ->
            (forall l, value = Some (MArrayValue l) -> is_Some (heap s !! l)) ->
            exists r s1,
              (if bool_decide (length L = 0)%nat
               then ret (FoundReference (EnvironmentReference environment name))
               else getReferenceLoop ie (length L) 0 environment name subscripts (Some L)
                      true None None value) s
              = Ok (FoundReference r) s1
              /\ referenceExists r s1 /\ storeClosed s1) as Hloop.
  { intros environment value Hframe Hvalue.
    destruct (L !! 0%nat) as [k0|] eqn:Hk.
    - assert (exists count, length L = S count) as [count Hcount].
      { destruct L; [done|]. simpl. eauto. }
      assert (k0 <> "") as Hne.
      { rewrite Forall_lookup in Hkeys. exact (Hkeys _ _ Hk). }
      rewrite bool_decide_eq_false_2 by lia. rewrite Hcount.
      rewrite (getReferenceLoop_first ie environment name subscripts L count k0 value s
                 Hk Hne Hframe).
      assert (forall l s2,
                is_Some (heap s2 !! l) -> storeClosed s2 ->
                exists r s1,
                  getReferenceLoop ie count 1 environment name subscripts (Some L) true
                    (Some l) (Some k0) (mArrayGet (heap s2) l k0) s2
                  = Ok (FoundReference r) s1
                  /\ referenceExists r s1 /\ storeClosed s1) as Hrest.
      { intros l s2 Hl Hc2.
        destruct (getReferenceLoop_resolves ie environment name subscripts L Hkeys
                    count 0 l k0 s2) as (array' & key' & s' & E & Hsome & Hclosed');
          [lia|done|done|].
        by exists (ArrayReference array' key'), s'. }
      destruct value as [[v|l]|].
      + apply Hrest; [|by apply storeClosed_binding].
        simpl. unfold Heap in *. by rewrite lookup_insert_eq.
      + apply Hrest; [by apply Hvalue|done].
      + apply Hrest; [|by apply (storeClosed_binding s environment name emptyString)].
        simpl. unfold Heap in *. by rewrite lookup_insert_eq.
    - assert (L = []) as -> by (by destruct L).
      exists (EnvironmentReference environment name), s. by split. }
  unfold getReference. unfold bind at 1, getState at 1.
  unfold writeTarget in Htarget.
  destruct (lookupName name (environmentStack s) (length (environmentStack s)))
    as [|r|environment w|] eqn:Efound; try done.
  - injection Htarget as ->. rewrite bind_ret_l.
    apply (Hloop target (Some w)); [by eapply lookupName_findFrame|].
    intros l [= ->]. destruct (lookupName_bound_in _ _ _ _ _ Efound) as (env & Hin & Hb).
    destruct Hclosed as [_ Hframes]. exact (Hframes env _ _ Hin Hb).
  - destruct (environmentStack s !! 0%nat) as [[g|]|] eqn:E0; try done.
    rewrite bind_ret_l.
    apply (Hloop (frame_id g) None); [by eapply findFrame_lookup|done].
Qed.

(** The resolution of the destination of a merge, which may create: on
    evaluated keys that are not empty, in a closed store where the write has
    a frame to go to, it finds a reference and reports nothing. *)
Lemma getVariableReference_resolves ie node L s :
  Forall (fun k : string => k <> "") L ->
  storeClosed s ->
  is_Some (writeTarget (variableName node) s) ->
  exists dref s1,
    getVariableReference ie node (Some (length L)) (Some L) true s = Ok (Some dref) s1
    /\ errors s1 = errors s
    /\ referenceExists dref s1
    /\ storeClosed s1.
Proof.
  intros Hkeys Hclosed Htarget.
  destruct (getReference_resolves ie (variableName node) (Some (variableSubscripts node)) L
              s Hkeys Hclosed Htarget) as (dref & s1 & E & He & Hc).
  assert (getVariableReference ie node (Some (length L)) (Some L) true s
          = Ok (Some dref) s1) as Hfound.
  { unfold getVariableReference. cbn [default]. by rewrite (bind_Ok _ _ _ _ _ E). }
  exists dref, s1. split; [done|]. split; [|done].
  exact (getVariableReference_errors ie node (Some (length L)) L true (errors s) s
           (Some dref) s1 eq_refl Hfound).
Qed.

(** The promotion of the destination: the new node is [fresh], the
    reference then holds it, and the nodes that were there are kept, the
    node of the reference apart. *)
Lemma promoted_spec dref v s :
  referenceExists dref s ->
  let l := fresh (dom (heap s)) in
  let s2 := promoted dref v s in
  (let* l := newArray v in setReferenceValue dref (MArrayValue l) ;;; ret l) s = Ok l s2
  /\ getReferenceValue dref s2 = Ok (MArrayValue l) s2
  /\ (heap s2 : gmap loc MArray) !! l = Some {| arrayValue := v; arrayChildren := ∅ |}
  /\ errors s2 = errors s
  /\ match dref with
     | ArrayReference array _ =>
         l <> array /\ is_Some (heap s2 !! array)
         /\ preserved (heap s) (heap s2) {[array]}
     | EnvironmentReference _ _ => preserved (heap s) (heap s2) ∅
     end.
Proof.
  intros Hexists l s2.
  assert (heap s !! l = None) as Hfresh by apply fresh_lookup.
  destruct dref as [array key|environment name]; simpl in Hexists.
  - destruct Hexists as [a Ha].
    assert (l <> array) as Hl by (intros E; unfold l, Heap in *; congruence).
    set (h1 := <[l := {| arrayValue := v; arrayChildren := ∅ |}]> (heap s)).
    assert (h1 !! array = Some a) as Ha1.
    { unfold h1, Heap in *. by rewrite lookup_insert_ne. }
    assert (s2 = setHeap (mArraySet h1 array key (MArrayValue l)) (setHeap h1 s)) as ->
      by reflexivity.
    split; [reflexivity|]. split; [|split; [|split; [reflexivity|split; [done|split]]]].
    + unfold getReferenceValue, bind, getState. simpl heap.
      rewrite mArrayGet_mArraySet; [done|by eexists].
    + simpl. rewrite mArraySet_lookup_ne by done. unfold h1, Heap in *.
      by rewrite lookup_insert_eq.
    + simpl. rewrite (mArraySet_lookup _ _ _ _ _ Ha1). by eexists.
    + intros l0 a0 Hl0 H0. simpl. rewrite mArraySet_lookup_ne by set_solver.
      unfold h1, Heap in *. rewrite lookup_insert_ne; [done|]. intros <-. congruence.
  - destruct Hexists as [env Henv].
    set (h1 := <[l := {| arrayValue := v; arrayChildren := ∅ |}]> (heap s)).
    assert (s2 = setEnvironmentStack
                   (updateFrames environment <[name := Binding (MArrayValue l)]>
                      (environmentStack s)) (setHeap h1 s)) as -> by reflexivity.
    split; [reflexivity|]. split; [|split; [|split; [reflexivity|]]].
    + unfold getReferenceValue, bind, getState.
      change (environmentStack (setEnvironmentStack ?x _)) with x.
      rewrite findFrame_updateFrames, Henv. simpl. by rewrite lookup_insert_eq.
    + simpl. unfold h1, Heap in *. by rewrite lookup_insert_eq.
    + intros l0 a0 _ H0. simpl. unfold h1, Heap in *.
      rewrite lookup_insert_ne; [done|]. intros <-. congruence.
Qed.

(** A reference holds what it held when its frames and its node are what
    they were. *)
Lemma getReferenceValue_preserved dref value s s' :
  getReferenceValue dref s = Ok value s ->
  environmentStack s' = environmentStack s ->
  match dref with
  | ArrayReference array _ => is_Some (heap s !! array) /\ heap s' !! array = heap s !! array
  | EnvironmentReference _ _ => True
  end ->
  getReferenceValue dref s' = Ok value s'.
Proof.
  unfold getReferenceValue, bind, getState, ret. intros Hvalue Hstack Hnode.
  destruct dref as [array key|environment name].
  - destruct Hnode as [_ Hnode]. unfold mArrayGet in *. rewrite Hnode.
    by injection Hvalue as ->.
  - rewrite Hstack. destruct (findFrame environment (environmentStack s)) as [env|]; [|done].
    destruct (bindings env !! name) as [[w|r]|]; try done; by injection Hvalue as ->.
Qed.

(** The merge of an array node into a destination that holds a scalar: the
    destination is replaced by a new array node, which gets the copies. *)
Lemma mergeVariables_promotes ie fuel node L R s dref s1 v sref source b :
  doVariablesOverlap (variableName (mergeLeft node)) L (variableName (mergeRight node)) R
  = false ->
  getVariableReference ie (mergeLeft node) (Some (length L)) (Some L) true s
  = Ok (Some dref) s1 ->
  getReferenceValue dref s1 = Ok (MScalarValue v) s1 ->
  referenceExists dref s1 ->
  let destination := fresh (dom (heap s1)) in
  let s2 := promoted dref v s1 in
  getVariableReference ie (mergeRight node) (Some (length R)) (Some R) false s2
  = Ok (Some sref) s2 ->
  getReferenceValue sref s2 = Ok (MArrayValue source) s2 ->
  (heap s2 : gmap loc MArray) !! source = Some b ->
  map_Forall (fun _ w => treeOutside fuel (heap s2) {[destination]} w) (arrayChildren b) ->
  exists s' a',
    mergeVariables ie fuel node L R s = Ok CommandResult.Continue s'
    /\ getReferenceValue dref s' = Ok (MArrayValue destination) s'
    /\ merged fuel destination (map_to_list (arrayChildren b)) s2
         {| arrayValue := v; arrayChildren := ∅ |} s' a'.
Proof.
  intros Hoverlap Hdref Hcurrent Hexists destination s2 Hsref Hsrc Hb Htrees.
  destruct (promoted_spec dref v s1 Hexists) as (Hpromote & Hheld & Hnode & _ & Hkept).
  fold destination s2 in Hpromote, Hheld, Hnode, Hkept.
  destruct (mergeChildren_merged fuel destination (map_to_list (arrayChildren b)) s2
              {| arrayValue := v; arrayChildren := ∅ |} Hnode)
    as (s' & a' & E & Hmerged).
  { apply NoDup_fst_map_to_list. }
  { apply Forall_forall. intros [k w] Hkw. apply (Htrees k w).
    by apply elem_of_map_to_list. }
  exists s', a'. split; [|split; [|exact Hmerged]].
  - unfold mergeVariables. rewrite Hoverlap.
    rewrite (bind_Ok _ _ _ _ _ Hdref). rewrite (bind_Ok _ _ _ _ _ Hcurrent).
    rewrite (bind_Ok _ _ _ _ _ Hpromote).
    rewrite (bind_Ok _ _ _ _ _ Hsref). rewrite (bind_Ok _ _ _ _ _ Hsrc).
    unfold bind at 1, getState. unfold Heap in *. rewrite Hb.
    by rewrite (bind_Ok _ _ _ _ _ E).
  - destruct Hmerged as ([h Hs'] & Hp & _).
    apply (getReferenceValue_preserved dref (MArrayValue destination) s2 s' Hheld).
    + by rewrite Hs'.
    + destruct dref as [array key|environment name]; [|done].
      destruct Hkept as (Hne & [a Ha] & _). split; [by eexists|].
      unfold Heap in *. rewrite Ha. apply Hp; [set_solver|done].
Qed.


(** [ s x("a")=1,x("c")=3,y("c")=4,y("d")=5 m x=y w x("a"),x("c"),x("d")]. *)
Definition mergeTokens : list (list Token) :=
  [ [token TokenKind.LeadingWhitespace 0 0 1; identifierToken "s" 0 1 2;
     token TokenKind.Space 0 2 3; identifierToken "x" 0 3 4;
     token TokenKind.LeftParen 0 4 5; stringToken "a" 0 5 8;
     token TokenKind.RightParen 0 8 9; token TokenKind.Equals 0 9 10;
     numberToken 1%float 0 10 11; token TokenKind.Comma 0 11 12;
     identifierToken "x" 0 12 13; token TokenKind.LeftParen 0 13 14;
     stringToken "c" 0 14 17; token TokenKind.RightParen 0 17 18;
     token TokenKind.Equals 0 18 19; numberToken 3%float 0 19 20;
     token TokenKind.Comma 0 20 21; identifierToken "y" 0 21 22;
     token TokenKind.LeftParen 0 22 23; stringToken "c" 0 23 26;
     token TokenKind.RightParen 0 26 27; token TokenKind.Equals 0 27 28;
     numberToken 4%float 0 28 29; token TokenKind.Comma 0 29 30;
     identifierToken "y" 0 30 31; token TokenKind.LeftParen 0 31 32;
     stringToken "d" 0 32 35; token TokenKind.RightParen 0 35 36;
     token TokenKind.Equals 0 36 37; numberToken 5%float 0 37 38;
     token TokenKind.Space 0 38 39; identifierToken "m" 0 39 40;
     token TokenKind.Space 0 40 41; identifierToken "x" 0 41 42;
     token TokenKind.Equals 0 42 43; identifierToken "y" 0 43 44;
     token TokenKind.Space 0 44 45; identifierToken "w" 0 45 46;
     token TokenKind.Space 0 46 47; identifierToken "x" 0 47 48;
     token TokenKind.LeftParen 0 48 49; stringToken "a" 0 49 52;
     token TokenKind.RightParen 0 52 53; token TokenKind.Comma 0 53 54;
     identifierToken "x" 0 54 55; token TokenKind.LeftParen 0 55 56;
     stringToken "c" 0 56 59; token TokenKind.RightParen 0 59 60;
     token TokenKind.Comma 0 60 61; identifierToken "x" 0 61 62;
     token TokenKind.LeftParen 0 62 63; stringToken "d" 0 63 66;
     token TokenKind.RightParen 0 66 67; token TokenKind.TrailingWhitespace 0 67 67] ].

(** [ s a(1,2)=3 m a=a(1)]. *)
Definition overlapTokens : list (list Token) :=
  [ [token TokenKind.LeadingWhitespace 0 0 1; identifierToken "s" 0 1 2;
     token TokenKind.Space 0 2 3; identifierToken "a" 0 3 4;
     token TokenKind.LeftParen 0 4 5; numberToken 1%float 0 5 6;
     token TokenKind.Comma 0 6 7; numberToken 2%float 0 7 8;
     token TokenKind.RightParen 0 8 9; token TokenKind.Equals 0 9 10;
     numberToken 3%float 0 10 11; token TokenKind.Space 0 11 12;
     identifierToken "m" 0 12 13; token TokenKind.Space 0 13 14;
     identifierToken "a" 0 14 15; token TokenKind.Equals 0 15 16;
     identifierToken "a" 0 16 17; token TokenKind.LeftParen 0 17 18;
     numberToken 1%float 0 18 19; token TokenKind.RightParen 0 19 20;
     token TokenKind.TrailingWhitespace 0 20 20] ].

(** The store of two arrays: [x("a")=1], [x("c")=3] at node 1 and
    [y("c")=4], [y("d")=5] at node 2. *)
Definition numberValue (z : Z) : MValue := MScalarValue (MNumber (numberOfZ z)).

Definition twoArrays : InterpreterState :=
  setHeap
    (<[1%positive := {| arrayValue := emptyString;
                        arrayChildren := <["a" := numberValue 1]> (<["c" := numberValue 3]> ∅) |}]>
       (<[2%positive := {| arrayValue := emptyString;
                           arrayChildren := <["c" := numberValue 4]> (<["d" := numberValue 5]> ∅) |}]>
          ∅))
    (setEnvironmentStack
       [Some {| frame_id := 0;
                bindings := <["x" := Binding (MArrayValue 1%positive)]>
                              (<["y" := Binding (MArrayValue 2%positive)]> ∅) |}]
       initialState).

Definition mergeXY : MergeAstNode :=
  {| mergeLeft := MkVariable (identifier "x") [] noRange;
     mergeRight := MkVariable (identifier "y") [] noRange;
     mergeRange := noRange |}.

(** The repository's test of a merge into a subscript, the quotes around
    [d] in the text of its last line left out:
    [ s dst("a")="1",dst("b")="2",dst("c")="3",dst("d")="4"],
    [ s src("c")="4",src("d")="5"], [ k dst("b")], [ m dst("d")=src], [ n key],
    [ f  s key=$O(dst(key)) q:key=""  w !,"Key: ",key," -> Value: ",dst(key)],
    [ f  s key=$O(dst("d",key)) q:key=""  w !,"Within d { Key: ",key," -> Value: ",dst("d",key)," }"]. *)
Definition mergeSubscriptTokens : list (list Token) :=
  [ [token TokenKind.TrailingWhitespace 0 0 0];
    [token TokenKind.LeadingWhitespace 1 0 4; identifierToken "s" 1 4 5;
     token TokenKind.Space 1 5 6; identifierToken "dst" 1 6 9;
     token TokenKind.LeftParen 1 9 10; stringToken "a" 1 10 13;
     token TokenKind.RightParen 1 13 14; token TokenKind.Equals 1 14 15;
     stringToken "1" 1 15 18; token TokenKind.Comma 1 18 19;
     identifierToken "dst" 1 19 22; token TokenKind.LeftParen 1 22 23;
     stringToken "b" 1 23 26; token TokenKind.RightParen 1 26 27;
     token TokenKind.Equals 1 27 28; stringToken "2" 1 28 31;
     token TokenKind.Comma 1 31 32; identifierToken "dst" 1 32 35;
     token TokenKind.LeftParen 1 35 36; stringToken "c" 1 36 39;
     token TokenKind.RightParen 1 39 40; token TokenKind.Equals 1 40 41;
     stringToken "3" 1 41 44; token TokenKind.Comma 1 44 45;
     identifierToken "dst" 1 45 48; token TokenKind.LeftParen 1 48 49;
     stringToken "d" 1 49 52; token TokenKind.RightParen 1 52 53;
     token TokenKind.Equals 1 53 54; stringToken "4" 1 54 57;
     token TokenKind.TrailingWhitespace 1 57 57];
    [token TokenKind.LeadingWhitespace 2 0 4; identifierToken "s" 2 4 5;
     token TokenKind.Space 2 5 6; identifierToken "src" 2 6 9;
     token TokenKind.LeftParen 2 9 10; stringToken "c" 2 10 13;
     token TokenKind.RightParen 2 13 14; token TokenKind.Equals 2 14 15;
     stringToken "4" 2 15 18; token TokenKind.Comma 2 18 19;
     identifierToken "src" 2 19 22; token TokenKind.LeftParen 2 22 23;
     stringToken "d" 2 23 26; token TokenKind.RightParen 2 26 27;
     token TokenKind.Equals 2 27 28; stringToken "5" 2 28 31;
     token TokenKind.TrailingWhitespace 2 31 31];
    [token TokenKind.LeadingWhitespace 3 0 4; identifierToken "k" 3 4 5;
     token TokenKind.Space 3 5 6; identifierToken "dst" 3 6 9;
     token TokenKind.LeftParen 3 9 10; stringToken "b" 3 10 13;
     token TokenKind.RightParen 3 13 14; token TokenKind.TrailingWhitespace 3 14 14];
    [token TokenKind.LeadingWhitespace 4 0 4; identifierToken "m" 4 4 5;
     token TokenKind.Space 4 5 6; identifierToken "dst" 4 6 9;
     token TokenKind.LeftParen 4 9 10; stringToken "d" 4 10 13;
     token TokenKind.RightParen 4 13 14; token TokenKind.Equals 4 14 15;
     identifierToken "src" 4 15 18; token TokenKind.TrailingWhitespace 4 18 18];
    [token TokenKind.LeadingWhitespace 5 0 4; identifierToken "n" 5 4 5;
     token TokenKind.Space 5 5 6; identifierToken "key" 5 6 9;
     token TokenKind.TrailingWhitespace 5 9 9];
    [token TokenKind.LeadingWhitespace 6 0 4; identifierToken "f" 6 4 5;
     token TokenKind.Space 6 5 6; token TokenKind.Space 6 6 7;
     identifierToken "s" 6 7 8; token TokenKind.Space 6 8 9;
     identifierToken "key" 6 9 12; token TokenKind.Equals 6 12 13;
     token TokenKind.Dollar 6 13 14; identifierToken "O" 6 14 15;
     token TokenKind.LeftParen 6 15 16; identifierToken "dst" 6 16 19;
     token TokenKind.LeftParen 6 19 20; identifierToken "key" 6 20 23;
     token TokenKind.RightParen 6 23 24; token TokenKind.RightParen 6 24 25;
     token TokenKind.Space 6 25 26; identifierToken "q" 6 26 27;
     token TokenKind.Colon 6 27 28; identifierToken "key" 6 28 31;
     token TokenKind.Equals 6 31 32; stringToken "" 6 32 34;
     token TokenKind.Space 6 34 35; token TokenKind.Space 6 35 36;
     identifierToken "w" 6 36 37; token TokenKind.Space 6 37 38;
     token TokenKind.ExclamationPoint 6 38 39; token TokenKind.Comma 6 39 40;
     stringToken "Key: " 6 40 47; token TokenKind.Comma 6 47 48;
     identifierToken "key" 6 48 51; token TokenKind.Comma 6 51 52;
     stringToken " -> Value: " 6 52 65; token TokenKind.Comma 6 65 66;
     identifierToken "dst" 6 66 69; token TokenKind.LeftParen 6 69 70;
     identifierToken "key" 6 70 73; token TokenKind.RightParen 6 73 74;
     token TokenKind.TrailingWhitespace 6 74 74];
    [token TokenKind.LeadingWhitespace 7 0 4; identifierToken "f" 7 4 5;
     token TokenKind.Space 7 5 6; token TokenKind.Space 7 6 7;
     identifierToken "s" 7 7 8; token TokenKind.Space 7 8 9;
     identifierToken "key" 7 9 12; token TokenKind.Equals 7 12 13;
     token TokenKind.Dollar 7 13 14; identifierToken "O" 7 14 15;
     token TokenKind.LeftParen 7 15 16; identifierToken "dst" 7 16 19;
     token TokenKind.LeftParen 7 19 20; stringToken "d" 7 20 23;
     token TokenKind.Comma 7 23 24; identifierToken "key" 7 24 27;
     token TokenKind.RightParen 7 27 28; token TokenKind.RightParen 7 28 29;
     token TokenKind.Space 7 29 30; identifierToken "q" 7 30 31;
     token TokenKind.Colon 7 31 32; identifierToken "key" 7 32 35;
     token TokenKind.Equals 7 35 36; stringToken "" 7 36 38;
     token TokenKind.Space 7 38 39; token TokenKind.Space 7 39 40;
     identifierToken "w" 7 40 41; token TokenKind.Space 7 41 42;
     token TokenKind.ExclamationPoint 7 42 43; token TokenKind.Comma 7 43 44;
     stringToken "Within d { Key: " 7 44 62; token TokenKind.Comma 7 62 63;
     identifierToken "key" 7 63 66; token TokenKind.Comma 7 66 67;
     stringToken " -> Value: " 7 67 80; token TokenKind.Comma 7 80 81;
     identifierToken "dst" 7 81 84; token TokenKind.LeftParen 7 84 85;
     stringToken "d" 7 85 88; token TokenKind.Comma 7 88 89;
     identifierToken "key" 7 89 92; token TokenKind.RightParen 7 92 93;
     token TokenKind.Comma 7 93 94; stringToken " }" 7 94 98;
     token TokenKind.TrailingWhitespace 7 98 98] ].

(** [ s src("c")=4 m dst=src w dst("c"),dst]. *)
Definition mergeUnboundTokens : list (list Token) :=
  [ [token TokenKind.LeadingWhitespace 0 0 1; identifierToken "s" 0 1 2;
     token TokenKind.Space 0 2 3; identifierToken "src" 0 3 6;
     token TokenKind.LeftParen 0 6 7; stringToken "c" 0 7 10;
     token TokenKind.RightParen 0 10 11; token TokenKind.Equals 0 11 12;
     numberToken 4%float 0 12 13; token TokenKind.Space 0 13 14;
     identifierToken "m" 0 14 15; token TokenKind.Space 0 15 16;
     identifierToken "dst" 0 16 19; token TokenKind.Equals 0 19 20;
     identifierToken "src" 0 20 23; token TokenKind.Space 0 23 24;
     identifierToken "w" 0 24 25; token TokenKind.Space 0 25 26;
     identifierToken "dst" 0 26 29; token TokenKind.LeftParen 0 29 30;
     stringToken "c" 0 30 33; token TokenKind.RightParen 0 33 34;
     token TokenKind.Comma 0 34 35; identifierToken "dst" 0 35 38;
     token TokenKind.TrailingWhitespace 0 38 38] ].

(** [ s dst=7,src("c")=4 m dst=src w dst,dst("c")]. *)
Definition mergeScalarTokens : list (list Token) :=
  [ [token TokenKind.LeadingWhitespace 0 0 1; identifierToken "s" 0 1 2;
     token TokenKind.Space 0 2 3; identifierToken "dst" 0 3 6;
     token TokenKind.Equals 0 6 7; numberToken 7%float 0 7 8;
     token TokenKind.Comma 0 8 9; identifierToken "src" 0 9 12;
     token TokenKind.LeftParen 0 12 13; stringToken "c" 0 13 16;
     token TokenKind.RightParen 0 16 17; token TokenKind.Equals 0 17 18;
     numberToken 4%float 0 18 19; token TokenKind.Space 0 19 20;
     identifierToken "m" 0 20 21; token TokenKind.Space 0 21 22;
     identifierToken "dst" 0 22 25; token TokenKind.Equals 0 25 26;
     identifierToken "src" 0 26 29; token TokenKind.Space 0 29 30;
     identifierToken "w" 0 30 31; token TokenKind.Space 0 31 32;
     identifierToken "dst" 0 32 35; token TokenKind.Comma 0 35 36;
     identifierToken "dst" 0 36 39; token TokenKind.LeftParen 0 39 40;
     stringToken "c" 0 40 43; token TokenKind.RightParen 0 43 44;
     token TokenKind.TrailingWhitespace 0 44 44] ].

(** The merge into [dst("d")], which holds 4: the element then reads 4 and
    has the children of [src]; the merge into a name that is not bound, and
    into a name that holds 7. *)
Example merge_into_subscript :
  interpretTokens (H := exampleEngine) 20 mergeSubscriptTokens
  = Some (Returned
            (newline ++ "Key: a -> Value: 1" ++ newline ++ "Key: c -> Value: 3"
             ++ newline ++ "Key: d -> Value: 4"
             ++ newline ++ "Within d { Key: c -> Value: 4 }"
             ++ newline ++ "Within d { Key: d -> Value: 5 }") [])
  /\ interpretTokens (H := exampleEngine) 20 mergeUnboundTokens = Some (Returned "4" [])
  /\ interpretTokens (H := exampleEngine) 20 mergeScalarTokens = Some (Returned "74" []).
Proof. repeat split; vm_compute; reflexivity. Qed.

(** The store where [dst("a")=1] and [dst("d")=4] at node 1 and [src("c")=4],
    [src("d")=5] at node 2. *)
Definition subscriptStore : InterpreterState :=
  setHeap
    (<[1%positive := {| arrayValue := emptyString;
                        arrayChildren := <["a" := numberValue 1]> (<["d" := numberValue 4]> ∅) |}]>
       (<[2%positive := {| arrayValue := emptyString;
                           arrayChildren := <["c" := numberValue 4]> (<["d" := numberValue 5]> ∅) |}]>
          ∅))
    (setEnvironmentStack
       [Some {| frame_id := 0;
                bindings := <["dst" := Binding (MArrayValue 1%positive)]>
                              (<["src" := Binding (MArrayValue 2%positive)]> ∅) |}]
       initialState).

Definition mergeIntoD : MergeAstNode :=
  {| mergeLeft := MkVariable (identifier "dst") [StringLiteral "d" noRange] noRange;
     mergeRight := MkVariable (identifier "src") [] noRange;
     mergeRange := noRange |}.

Lemma storeClosed_initialState : storeClosed initialState.
Proof.
  split.
  - intros l a k v Hl. change (heap initialState) with (∅ : Heap) in Hl.
    unfold Heap in Hl. by rewrite lookup_empty in Hl.
  - intros env name v Hin Hb.
    change (environmentStack initialState)
      with [Some {| frame_id := 0; bindings := ∅ |}] in Hin.
    apply list_elem_of_singleton in Hin. injection Hin as ->. simpl in Hb.
    by rewrite lookup_empty in Hb.
Qed.


(* ================================================================== *)
(** * Further properties of the interpreter and of the parser *)
(* ================================================================== *)

(** ** Truth values *)

(** The operators of comparison and of logic. *)
Definition isRelational (op : BinaryOp.t) : bool :=
  match op with
  | BinaryOp.Or | BinaryOp.And | BinaryOp.Equals | BinaryOp.LessThan
  | BinaryOp.GreaterThan => true
  | _ => false
  end.

Definition isTruthValue (v : MScalar) : Prop :=
  v = MNumber PrimFloat.zero \/ v = MNumber PrimFloat.one.

Lemma numberOfBool_truth b : isTruthValue (MNumber (numberOfBool b)).
Proof. destruct b; [by right|by left]. Qed.

(** A comparison, a logical operator, any negated operator and the unary
    ['] push the number 0 or the number 1, whatever the operands are. *)
Theorem truth_values_are_zero_or_one `{JsEngine} (ie : ExpressionAstNode -> M bool)
    (lhs rhs : ExpressionAstNode) (op : BinaryOp.t) (isNegated : bool)
    (s s' : InterpreterState) :
  (isRelational op || isNegated = true ->
   interpretBinaryOp ie lhs rhs op isNegated s = Ok true s' ->
   exists v rest, valueStack s' = v :: rest /\ isTruthValue v)
  /\ (interpretUnaryOp ie rhs UnaryOp.Not s = Ok true s' ->
      exists v rest, valueStack s' = v :: rest /\ isTruthValue v).
Proof.
  split.
  - intros Hop. unfold interpretBinaryOp, bind, pop, push, modify, ret.
    destruct (ie lhs s) as [[|] s1|]; try done.
    destruct (ie rhs s1) as [[|] s2|]; try done.
    destruct (valueStack s2) as [|r [|l rest]]; try done.
    intros [= <-]. simpl. eexists _, _. split; [reflexivity|].
    destruct isNegated; [apply numberOfBool_truth|].
    destruct op; try discriminate Hop; apply numberOfBool_truth.
  - unfold interpretUnaryOp, bind, pop, push, modify, ret.
    destruct (ie rhs s) as [[|] s1|]; try done.
    destruct (valueStack s1) as [|r rest]; try done.
    intros [= <-]. simpl. eexists _, _. split; [reflexivity|]. apply numberOfBool_truth.
Qed.

Lemma truth_values_are_zero_or_one_witness :
  exists v rest,
    valueStack
      (setValueStack
         [binaryOpValue (H := exampleEngine) BinaryOp.LessThan (MNumber 1%float)
            (MString "a")] initialState)
    = v :: rest
    /\ isTruthValue v.
Proof.
  apply (proj1 (truth_values_are_zero_or_one (H := exampleEngine)
                  (interpretExpression (H := exampleEngine) 1)
                  (NumberLiteral 1%float noRange) (StringLiteral "a" noRange)
                  BinaryOp.LessThan false initialState _));
    reflexivity.
Defined.

(** ** The names of commands and builtins *)

Definition commandNames : list string :=
  ["write"; "quit"; "do"; "if"; "else"; "for"; "set"; "new"; "kill"; "merge"; "halt"].

Definition builtinNames : list string :=
  ["order"; "length"; "extract"; "select"; "find"; "random"; "ascii"; "char"].

(** The names of a table begin with different letters. *)
Definition firstLetters (names : list string) : list (option ascii) :=
  (fun name => String.get 0 name) <$> names.

Lemma prefix_first_letter (name full : string) :
  name <> "" -> String.prefix name full = true -> String.get 0 full = String.get 0 name.
Proof.
  destruct name as [|c name]; [done|]. intros _. destruct full as [|d full]; [done|].
  simpl. destruct (ascii_dec c d) as [->|]; [done|discriminate].
Qed.

Lemma prefix_cons_eq c name d full :
  String.prefix (String c name) (String d full)
  = if ascii_dec c d then String.prefix name full else false.
Proof. reflexivity. Qed.

Lemma unique_by_first_letter (names : list string) (name a b : string) :
  NoDup (firstLetters names) -> a ∈ names -> b ∈ names -> name <> "" ->
  String.prefix name a = true -> String.prefix name b = true -> a = b.
Proof.
  intros Hnodup [i Hi]%list_elem_of_lookup [j Hj]%list_elem_of_lookup Hname Ha Hb.
  pose proof (prefix_first_letter _ _ Hname Ha) as Ea.
  pose proof (prefix_first_letter _ _ Hname Hb) as Eb.
  assert (i = j) as ->; [|congruence].
  apply (NoDup_lookup _ i j (String.get 0 name) Hnodup); unfold firstLetters;
    rewrite list_lookup_fmap; [rewrite Hi|rewrite Hj]; simpl; congruence.
Qed.

Section CommandNames.

Variable input : list (list Token).
Variable parseExpression : P (option ExpressionAstNode).
Variable parseCommand : P (option CommandAstNode).
Variable fuel : nat.

Let variants := commandBodyVariants input parseExpression parseCommand fuel.

(** The name of a command or of a builtin is matched as a prefix, and a
    non-empty one matches at most one name of the table: the names begin
    with different letters.  So [parseCommand], which runs every command
    parser whose name matches, runs the one parser that [find] gives, or
    none; the order of the tables does not matter. *)
Theorem names_select_one (name : string) :
  name <> "" ->
  (forall a b, a ∈ commandNames -> b ∈ commandNames ->
     String.prefix name a = true -> String.prefix name b = true -> a = b)
  /\ (forall a b, a ∈ builtinNames -> b ∈ builtinNames ->
        String.prefix name a = true -> String.prefix name b = true -> a = b)
  /\ variants.*1 = commandNames
  /\ (builtinVariants input parseExpression fuel).*1 = builtinNames
  /\ (forall s,
        parseVariants name variants None s
        = match List.find (fun variant => String.prefix name variant.1) variants with
          | Some variant => pbind variant.2 (fun parsed => pret (Some <$> parsed)) s
          | None => Parsed (Some None) s
          end).
Proof.
  intros Hname. split; [|split; [|split; [|split]]].
  - intros a b Ha Hb. apply (unique_by_first_letter commandNames); try done.
    apply NoDup_ListNoDup. vm_compute.
    repeat (apply List.NoDup_cons; [simpl; intuition discriminate|]). apply List.NoDup_nil.
  - intros a b Ha Hb. apply (unique_by_first_letter builtinNames); try done.
    apply NoDup_ListNoDup. vm_compute.
    repeat (apply List.NoDup_cons; [simpl; intuition discriminate|]). apply List.NoDup_nil.
  - reflexivity.
  - reflexivity.
  - intros s. destruct name as [|c rest]; [done|].
    unfold variants, commandBodyVariants.
    cbn [parseVariants List.find fst snd]. rewrite !prefix_cons_eq.
    repeat (match goal with
            | |- context [ascii_dec c ?d] => destruct (ascii_dec c d) as [->|?]
            end;
            [repeat (match goal with
                     | |- context [ascii_dec ?a ?b] =>
                         destruct (ascii_dec a b) as [?|_]; [discriminate|]
                     end);
             match goal with
             | |- context [String.prefix rest ?x] => destruct (String.prefix rest x)
             end;
             [unfold pbind; cbn [fst snd];
              match goal with
              | |- context [match ?m s with _ => _ end] => destruct (m s) as [[?|] ?|]
              end;
              reflexivity
             |reflexivity]
            |]).
    reflexivity.
Qed.

End CommandNames.

Definition startOfInput : ParserState :=
  {| position := makeParserPosition; indentationLevel := 0; parserErrors := [] |}.

(** [wr] selects [write]. *)
Lemma names_select_one_witness :
  parseVariants "wr" (commandBodyVariants [] (pabort OutOfFuel) (pabort OutOfFuel) 0) None
    startOfInput
  = pbind (parseWrite [] (pabort OutOfFuel) 0) (fun parsed => pret (Some <$> parsed))
      startOfInput.
Proof.
  destruct (names_select_one [] (pabort OutOfFuel) (pabort OutOfFuel) 0 "wr")
    as (_ & _ & _ & _ & Hrun); [discriminate|].
  rewrite Hrun. reflexivity.
Defined.

(** ** Unary operators and parentheses *)

Definition unaryOpToken (op : UnaryOp.t) : TokenKind.t :=
  match op with
  | UnaryOp.Not => TokenKind.SingleQuote
  | UnaryOp.Plus => TokenKind.Plus
  | UnaryOp.Minus => TokenKind.Minus
  end.

Section Grouping.
Context {engine : JsEngine}.

(** A unary operator applies to the operand next to it, not to a binary
    expression, and the binary operators around it associate to the left:
    [u a op1 b op2 c] is [((u a) op1 b) op2 c], [a op1 u b op2 c] is
    [(a op1 (u b)) op2 c] and [a op1 b op2 u c] is [(a op1 b) op2 (u c)],
    for all numbers, all unary operators and all binary operators, negated
    or not. *)
Theorem unary_operators_bind_tighter
    (a b c : number) (u : UnaryOp.t) (op1 op2 : BinaryOp.t) (n1 n2 : bool)
    (k : TokenKind.t) (ru ra q1 r1 rb q2 r2 rc rs : TextRange) (rest : list Token)
    (n m : nat) (s : InterpreterState) :
  (n1 = true -> negatable op1 = true) ->
  (n2 = true -> negatable op2 = true) ->
  isWhitespaceKind k = true ->
  let unary := tokenIn (unaryOpToken u) ru in
  let first :=
    ([unary; numberIn a ra] ++ operatorTokens op1 n1 q1 r1
     ++ [numberIn b rb] ++ operatorTokens op2 n2 q2 r2
     ++ [numberIn c rc; tokenIn k rs] ++ rest)%list in
  let second :=
    ([numberIn a ra] ++ operatorTokens op1 n1 q1 r1
     ++ [unary; numberIn b rb] ++ operatorTokens op2 n2 q2 r2
     ++ [numberIn c rc; tokenIn k rs] ++ rest)%list in
  let third :=
    ([numberIn a ra] ++ operatorTokens op1 n1 q1 r1
     ++ [numberIn b rb] ++ operatorTokens op2 n2 q2 r2
     ++ [unary; numberIn c rc; tokenIn k rs] ++ rest)%list in
  let unaryOf x rx := UnaryOpNode (NumberLiteral x rx) u (range (start ru) (end_ rx)) in
  let binary x y op isNegated :=
    BinaryOpNode x y op isNegated
      (range (start (expressionRange x)) (end_ (expressionRange y))) in
  let treeFirst :=
    binary (binary (unaryOf a ra) (NumberLiteral b rb) op1 n1) (NumberLiteral c rc) op2 n2 in
  let treeSecond :=
    binary (binary (NumberLiteral a ra) (unaryOf b rb) op1 n1) (NumberLiteral c rc) op2 n2 in
  let treeThird :=
    binary (binary (NumberLiteral a ra) (NumberLiteral b rb) op1 n1) (unaryOf c rc) op2 n2 in
  let parsed tokens tree :=
    parseExpression [tokens] (4 + n) (startOfLine 0)
    = Parsed (Some tree) (startOfLine (6 + Nat.b2n n1 + Nat.b2n n2)) in
  let value tree x y z :=
    interpretExpression (4 + m) tree s
    = Ok true
        (setValueStack (operatorValue op2 n2 (operatorValue op1 n1 x y) z :: valueStack s)
           s) in
  parsed first treeFirst
  /\ parsed second treeSecond
  /\ parsed third treeThird
  /\ value treeFirst (unaryOpValue u (MNumber a)) (MNumber b) (MNumber c)
  /\ value treeSecond (MNumber a) (unaryOpValue u (MNumber b)) (MNumber c)
  /\ value treeThird (MNumber a) (MNumber b) (unaryOpValue u (MNumber c)).
Proof.
  intros H1 H2 Hk unary first second third unaryOf binary treeFirst treeSecond treeThird
    parsed value.
  assert (k = TokenKind.Space \/ k = TokenKind.LeadingWhitespace
          \/ k = TokenKind.TrailingWhitespace) as Hkind
    by (destruct k; try discriminate Hk; auto).
  split; [|split; [|split; [|repeat split; reflexivity]]];
    subst parsed first second third treeFirst treeSecond treeThird binary unaryOf unary;
    (destruct n1; [specialize (H1 eq_refl)|clear H1]);
    (destruct n2; [specialize (H2 eq_refl)|clear H2]);
    destruct op1; try discriminate H1; destruct op2; try discriminate H2; destruct u;
    destruct Hkind as [->|[->| ->]]; reflexivity.
Qed.
(** Parentheses group: [a op1 (b op2 c)] has [b op2 c] as its right
    operand, where [a op1 b op2 c] has [a op1 b] as its left one. *)
Theorem parentheses_group
    (a b c : number) (op1 op2 : BinaryOp.t) (n1 n2 : bool) (k : TokenKind.t)
    (ra q1 r1 pl rb q2 r2 rc pr rs : TextRange) (rest : list Token) (n m : nat)
    (s : InterpreterState) :
  (n1 = true -> negatable op1 = true) ->
  (n2 = true -> negatable op2 = true) ->
  isWhitespaceKind k = true ->
  let tokens :=
    ([numberIn a ra] ++ operatorTokens op1 n1 q1 r1
     ++ [tokenIn TokenKind.LeftParen pl; numberIn b rb] ++ operatorTokens op2 n2 q2 r2
     ++ [numberIn c rc; tokenIn TokenKind.RightParen pr; tokenIn k rs] ++ rest)%list in
  let tree :=
    BinaryOpNode (NumberLiteral a ra)
      (BinaryOpNode (NumberLiteral b rb) (NumberLiteral c rc) op2 n2
         (range (start rb) (end_ rc)))
      op1 n1 (range (start ra) (end_ rc)) in
  parseExpression [tokens] (5 + n) (startOfLine 0)
    = Parsed (Some tree) (startOfLine (7 + Nat.b2n n1 + Nat.b2n n2))
  /\ interpretExpression (3 + m) tree s
    = Ok true
        (setValueStack
           (operatorValue op1 n1 (MNumber a) (operatorValue op2 n2 (MNumber b) (MNumber c))
            :: valueStack s) s).
Proof.
  intros H1 H2 Hk tokens tree.
  assert (k = TokenKind.Space \/ k = TokenKind.LeadingWhitespace
          \/ k = TokenKind.TrailingWhitespace) as Hkind
    by (destruct k; try discriminate Hk; auto).
  split; [|reflexivity].
  subst tokens tree.
  destruct n1; [specialize (H1 eq_refl)|clear H1];
    (destruct n2; [specialize (H2 eq_refl)|clear H2]);
    destruct op1; try discriminate H1; destruct op2; try discriminate H2;
    destruct Hkind as [->|[->| ->]]; reflexivity.
Qed.

End Grouping.

(** [-2+3*4] is [((-2)+3)*4], which is 4, and [2+3*-4] is [(2+3)*(-4)],
    which is -20. *)
Lemma unary_operators_bind_tighter_witness :
  let r := noRange in
  let minus x := UnaryOpNode (NumberLiteral x r) UnaryOp.Minus (range (start r) (end_ r)) in
  let binary x y op := BinaryOpNode x y op false (range (start r) (end_ r)) in
  let first :=
    binary (binary (minus 2%float) (NumberLiteral 3%float r) BinaryOp.Add)
      (NumberLiteral 4%float r) BinaryOp.Multiply in
  let third :=
    binary (binary (NumberLiteral 2%float r) (NumberLiteral 3%float r) BinaryOp.Add)
      (minus 4%float) BinaryOp.Multiply in
  parseExpression
    [[tokenIn TokenKind.Minus r; numberIn 2%float r; tokenIn TokenKind.Plus r;
      numberIn 3%float r; tokenIn TokenKind.Asterisk r; numberIn 4%float r;
      tokenIn TokenKind.TrailingWhitespace r]] 4 (startOfLine 0)
  = Parsed (Some first) (startOfLine 6)
  /\ interpretExpression (H := exampleEngine) 4 first initialState
     = Ok true (setValueStack [MNumber 4%float] initialState)
  /\ parseExpression
       [[numberIn 2%float r; tokenIn TokenKind.Plus r; numberIn 3%float r;
         tokenIn TokenKind.Asterisk r; tokenIn TokenKind.Minus r; numberIn 4%float r;
         tokenIn TokenKind.TrailingWhitespace r]] 4 (startOfLine 0)
     = Parsed (Some third) (startOfLine 6)
  /\ interpretExpression (H := exampleEngine) 4 third initialState
     = Ok true (setValueStack [MNumber (-20)%float] initialState).
Proof.
  intros r minus binary first third.
  destruct (unary_operators_bind_tighter (engine := exampleEngine) 2%float 3%float 4%float
              UnaryOp.Minus BinaryOp.Add BinaryOp.Multiply false false
              TokenKind.TrailingWhitespace r r r r r r r r r [] 0 0 initialState)
    as (Hfirst & _ & Hthird & Vfirst & _ & Vthird);
    [discriminate|discriminate|reflexivity|].
  split; [exact Hfirst|]. split; [exact Vfirst|]. split; [exact Hthird|exact Vthird].
Defined.

Lemma parentheses_group_witness :
  let r := noRange in
  interpretExpression (H := exampleEngine) 3
    (BinaryOpNode (NumberLiteral 3%float r)
       (BinaryOpNode (NumberLiteral 4%float r) (NumberLiteral 3%float r) BinaryOp.Multiply
          false (range (start r) (end_ r)))
       BinaryOp.Add false (range (start r) (end_ r))) initialState
  = Ok true (setValueStack [MNumber 15%float] initialState).
Proof.
  intros r.
  destruct (parentheses_group (engine := exampleEngine) 3%float 4%float 3%float
              BinaryOp.Add BinaryOp.Multiply false false TokenKind.TrailingWhitespace
              r r r r r r r r r r [] 0 0 initialState) as (_ & Hvalue);
    [discriminate|discriminate|reflexivity|].
  exact Hvalue.
Defined.

(** ** A failure of the parser without an error *)

Definition identifierIn (name : string) (r : TextRange) : Token :=
  {| kind := TokenKind.Identifier; tokenText := name; tokenString := "";
     tokenNumber := PrimFloat.zero; tokenRange := r |}.

(** The token [offset] places after the position of the parser. *)
Definition tokenAt (input : list (list Token)) (s : ParserState) (offset : nat)
    : option Token :=
  input !! positionLine (position s) ≫= (.!! (positionColumn (position s) + offset)%nat).

(** The state with the position [offset] tokens further on the line. *)
Definition movedBy (offset : nat) (s : ParserState) : ParserState :=
  {| position :=
       {| positionLine := positionLine (position s);
          positionColumn := positionColumn (position s) + offset;
          nextUnparsedLine := nextUnparsedLine (position s) |};
     indentationLevel := indentationLevel s;
     parserErrors := parserErrors s |}.

(** The spellings of [new]: the non-empty prefixes of the name, in any
    case. *)
Definition spellsNew (name : string) : Prop :=
  In (toLowerCase name) ["n"; "ne"; "new"].

Lemma getToken_tokenAt input s token :
  tokenAt input s 0 = Some token -> getToken input s = Parsed token s.
Proof.
  unfold tokenAt, getToken, pbind, pget. rewrite Nat.add_0_r. by intros ->.
Qed.

Lemma tokenAt_movedBy input s i j : tokenAt input (movedBy i s) j = tokenAt input s (i + j).
Proof. unfold tokenAt, movedBy. simpl. by rewrite Nat.add_assoc. Qed.

Lemma pbind_Parsed {A B} (m : P A) (f : A -> P B) s a s' :
  m s = Parsed a s' -> pbind m f s = f a s'.
Proof. intros H. unfold pbind. by rewrite H. Qed.

Lemma matchWhitespace_false input s token :
  tokenAt input s 0 = Some token -> isWhitespaceKind (kind token) = false ->
  matchWhitespace input s = Parsed false s.
Proof.
  intros Htoken Hws. unfold matchWhitespace, getWhitespace, pbind.
  rewrite (getToken_tokenAt _ _ _ Htoken). unfold pret at 1. by rewrite Hws.
Qed.

Lemma nextToken_moves input s token :
  tokenAt input s 0 = Some token -> kind token <> TokenKind.TrailingWhitespace ->
  nextToken input s = Parsed token (movedBy 1 s).
Proof.
  intros Htoken Hk. unfold nextToken.
  rewrite (pbind_Parsed _ _ _ _ _ (getToken_tokenAt _ _ _ Htoken)).
  unfold pbind at 1, pget at 1. rewrite bool_decide_eq_false_2 by done. reflexivity.
Qed.

Lemma matchWhitespace_true input s token :
  tokenAt input s 0 = Some token ->
  kind token = TokenKind.Space \/ kind token = TokenKind.LeadingWhitespace ->
  matchWhitespace input s = Parsed true (movedBy 1 s).
Proof.
  intros Htoken Hk. unfold matchWhitespace, getWhitespace, pbind.
  rewrite (getToken_tokenAt _ _ _ Htoken). unfold pret at 1.
  assert (isWhitespaceKind (kind token) = true) as -> by (by destruct Hk as [->| ->]).
  rewrite (nextToken_moves _ _ _ Htoken ltac:(destruct Hk; congruence)).
  reflexivity.
Qed.

Lemma matchToken_other input s token k :
  tokenAt input s 0 = Some token -> kind token <> k ->
  matchToken input k s = Parsed None s.
Proof.
  intros Htoken Hk. unfold matchToken.
  rewrite (pbind_Parsed _ _ _ _ _ (getToken_tokenAt _ _ _ Htoken)).
  by rewrite bool_decide_eq_false_2.
Qed.

Lemma matchToken_same input s token k :
  tokenAt input s 0 = Some token -> kind token = k -> k <> TokenKind.TrailingWhitespace ->
  matchToken input k s = Parsed (Some token) (movedBy 1 s).
Proof.
  intros Htoken Hk Hne. unfold matchToken.
  rewrite (pbind_Parsed _ _ _ _ _ (getToken_tokenAt _ _ _ Htoken)).
  rewrite bool_decide_eq_true_2 by done.
  rewrite (pbind_Parsed _ _ _ _ _ (nextToken_moves _ _ _ Htoken ltac:(congruence))).
  reflexivity.
Qed.

Lemma parseVariants_new input pe pc fuel name :
  spellsNew name ->
  parseVariants (toLowerCase name) (commandBodyVariants input pe pc fuel) None
  = pbind (parseNew input fuel)
      (fun parsed =>
         match parsed with
         | None => pret None
         | Some body => pret (Some (Some body))
         end).
Proof.
  unfold spellsNew. simpl. intros [<-|[<-|[<-|[]]]]; reflexivity.
Qed.

Lemma parseNew_fails input fuel s token :
  tokenAt input s 0 = Some token ->
  isWhitespaceKind (kind token) = false ->
  kind token <> TokenKind.Identifier ->
  parseNew input (S fuel) s = Parsed None s.
Proof.
  intros Htoken Hws Hk. unfold parseNew, parseIdentifierList.
  rewrite (pbind_Parsed _ _ _ _ _ (getToken_tokenAt _ _ _ Htoken)).
  cbn [parseIdentifierListLoop]. unfold pbind.
  rewrite (matchWhitespace_false _ _ _ Htoken Hws).
  by rewrite (matchToken_other _ _ _ _ Htoken Hk).
Qed.

Lemma parseCommand_new_fails input fuel s nameToken space token :
  kind nameToken = TokenKind.Identifier ->
  spellsNew (tokenText nameToken) ->
  kind space = TokenKind.Space \/ kind space = TokenKind.LeadingWhitespace ->
  isWhitespaceKind (kind token) = false ->
  kind token <> TokenKind.Identifier ->
  tokenAt input s 0 = Some nameToken ->
  tokenAt input s 1 = Some space ->
  tokenAt input s 2 = Some token ->
  parseCommand input (2 + fuel) s = Parsed None (movedBy 2 s).
Proof.
  intros Hname Hspells Hspace Hws Hk H0 H1 H2.
  change (parseCommandStep input (parseExpression input (S fuel))
            (parseCommand input (S fuel)) (S fuel) s = Parsed None (movedBy 2 s)).
  unfold parseCommandStep. unfold pbind at 1.
  rewrite (matchToken_other _ _ _ TokenKind.Comment H0) by (rewrite Hname; discriminate).
  unfold pbind at 1.
  rewrite (matchToken_same _ _ _ TokenKind.Identifier H0 Hname) by discriminate.
  assert (tokenAt input (movedBy 1 s) 0 = Some space) as H1' by by rewrite tokenAt_movedBy.
  unfold pbind at 1.
  rewrite (matchToken_other _ _ _ TokenKind.Colon H1')
    by (destruct Hspace as [->| ->]; discriminate).
  cbn [present]. unfold pbind at 1. unfold pret at 1. unfold pbind at 1.
  rewrite (matchWhitespace_true _ _ _ H1' Hspace).
  rewrite (parseVariants_new _ _ _ _ _ Hspells).
  assert (tokenAt input (movedBy 1 (movedBy 1 s)) 0 = Some token) as H2'
    by by rewrite !tokenAt_movedBy.
  unfold pbind at 1 2.
  rewrite (parseNew_fails input fuel _ token H2' Hws Hk).
  unfold pret. f_equal. unfold movedBy. simpl. do 2 f_equal. lia.
Qed.

Lemma last_nonempty {A} (l : list A) (ls : list (list A)) :
  l <> [] -> Forall (fun line => line <> []) ls -> List.last (l :: ls) [] <> [].
Proof.
  revert l. induction ls as [|l' ls IH]; intros l Hl Hls; [done|].
  apply Forall_cons in Hls as [Hl' Hls]. by apply (IH l').
Qed.

Lemma parseTopLevel_lines input pc fuel :
  input <> [] -> List.last input [] <> [] ->
  exists r,
    parseTopLevel input pc fuel
    = parseTopLevelLoop input pc fuel fuel
        {| tags := ∅; topLevelChildren := []; topLevelRange := r |}.
Proof.
  intros Hinput Hlast. unfold parseTopLevel.
  destruct input as [|l ls]; [done|]. destruct (List.last (l :: ls) []); [done|]. eauto.
Qed.

Lemma parseBlockLoop_fails input pc n s token s' :
  (positionLine (position s) < length input)%nat ->
  tokenAt input s 0 = Some token ->
  kind token <> TokenKind.TrailingWhitespace ->
  pc s = Parsed None s' ->
  parseBlockLoop input pc (S n) false [] s = Parsed None s'.
Proof.
  intros Hline Htoken Hk Hcommand. cbn [parseBlockLoop].
  unfold pbind at 1, pget at 1. rewrite bool_decide_eq_true_2 by done.
  unfold pbind at 1 2. rewrite (getToken_tokenAt _ _ _ Htoken). unfold pret at 1.
  rewrite bool_decide_eq_false_2 by done. unfold pbind. by rewrite Hcommand.
Qed.

Lemma parseTopLevelLoop_fails input pc fuel n topLevel s token s' :
  (positionLine (position s) < length input)%nat ->
  tokenAt input s 0 = Some token ->
  kind token = TokenKind.Space \/ kind token = TokenKind.LeadingWhitespace ->
  parseBlock input pc fuel false (movedBy 1 s) = Parsed None s' ->
  parseTopLevelLoop input pc fuel (S n) topLevel s = Parsed None s'.
Proof.
  intros Hline Htoken Hk Hblock. cbn [parseTopLevelLoop].
  unfold pbind at 1, pget at 1. rewrite bool_decide_eq_true_2 by done.
  unfold pbind at 1. rewrite (getToken_tokenAt _ _ _ Htoken).
  rewrite bool_decide_eq_false_2 by (destruct Hk as [->| ->]; discriminate).
  unfold pbind at 1 2. rewrite (matchWhitespace_true _ _ _ Htoken Hk).
  unfold pret at 1. unfold pbind. by rewrite Hblock.
Qed.

(** [new], under any of its spellings, followed by a token that is neither
    white space nor an identifier: [parseIdentifierList] returns
    [undefined] and reports nothing.
    - [parseNew] at such a token gives no node and leaves the state of the
      parser, its errors included, as it is.
    - [parseCommand], at the name of a command without a condition, gives
      no node and reports nothing: the parser state is two tokens further.
    - [parse], for a program whose first line begins with such a command,
      gives no tree and an empty list of errors, whatever follows. *)
Theorem new_fails_without_error (input : list (list Token)) (fuel : nat)
    (s : ParserState) (nameToken space token : Token) :
  kind nameToken = TokenKind.Identifier ->
  spellsNew (tokenText nameToken) ->
  kind space = TokenKind.Space \/ kind space = TokenKind.LeadingWhitespace ->
  isWhitespaceKind (kind token) = false ->
  kind token <> TokenKind.Identifier ->
  (tokenAt input s 0 = Some token -> parseNew input (1 + fuel) s = Parsed None s)
  /\ (tokenAt input s 0 = Some nameToken ->
      tokenAt input s 1 = Some space ->
      tokenAt input s 2 = Some token ->
      parseCommand input (2 + fuel) s = Parsed None (movedBy 2 s))
  /\ (forall r0 rest lines,
        Forall (fun line => line <> []) lines ->
        parse (3 + fuel)
          (([tokenIn TokenKind.LeadingWhitespace r0; nameToken; space; token] ++ rest)%list
           :: lines)
        = Some {| resultAst := None; resultErrors := [] |}).
Proof.
  intros Hname Hspells Hspace Hws Hk. split; [|split].
  - intros Htoken. by apply (parseNew_fails input fuel s token).
  - by apply parseCommand_new_fails.
  - intros r0 rest lines Hlines.
    set (program := (_ :: lines)). unfold parse.
    destruct (parseTopLevel_lines program (parseCommand program (3 + fuel)) (3 + fuel))
      as [r ->]; [done|by apply last_nonempty|].
    set (s0 := {| position := makeParserPosition; indentationLevel := 0;
                  parserErrors := [] |}).
    rewrite (parseTopLevelLoop_fails program _ _ (2 + fuel) _ s0
               (tokenIn TokenKind.LeadingWhitespace r0) (movedBy 2 (movedBy 1 s0)));
      [reflexivity|simpl; lia|reflexivity|by right|].
    apply (parseBlockLoop_fails program _ (2 + fuel) _ nameToken);
      [simpl; lia|reflexivity|rewrite Hname; discriminate|].
    by apply (parseCommand_new_fails program (S fuel) (movedBy 1 s0) nameToken space token).
Qed.

(** [ NE 1], followed by an empty line, gives no tree and no error. *)
Lemma new_fails_without_error_witness :
  parse 3
    [ [tokenIn TokenKind.LeadingWhitespace noRange; identifierIn "NE" noRange;
       tokenIn TokenKind.Space noRange; tokenIn TokenKind.Number noRange;
       tokenIn TokenKind.TrailingWhitespace noRange];
      [tokenIn TokenKind.TrailingWhitespace noRange] ]
  = Some {| resultAst := None; resultErrors := [] |}.
Proof.
  destruct (new_fails_without_error [] 0 startOfInput (identifierIn "NE" noRange)
              (tokenIn TokenKind.Space noRange) (tokenIn TokenKind.Number noRange))
    as (_ & _ & Hparse);
    [reflexivity|right; left; reflexivity|left; reflexivity|reflexivity|discriminate|].
  apply (Hparse noRange [tokenIn TokenKind.TrailingWhitespace noRange]
           [[tokenIn TokenKind.TrailingWhitespace noRange]]).
  repeat constructor. discriminate.
Defined.

(** ** The errors of the expression parser *)

Definition phoare {A} (pre : ParserState -> Prop) (m : P A)
    (post : A -> ParserState -> Prop) : Prop :=
  forall s r s', pre s -> m s = Parsed r s' -> post r s'.

(** The errors [E] are still there, and with [strict] there are more. *)
Definition reported (E : list MError) (strict : bool) (s : ParserState) : Prop :=
  exists extra, parserErrors s = (E ++ extra)%list /\ (strict = true -> extra <> []).

(** A parser that reports an error whenever its result is one that [failed]
    marks, and that removes no error. *)
Definition loud {A} (failed : A -> bool) (m : P A) : Prop :=
  forall E c, phoare (reported E c) m (fun r => reported E (failed r || c)).

Definition absent {A} (o : option A) : bool := negb (present o).
Definition never {A} (_ : A) : bool := false.

Lemma phoare_bind {A B} pre mid post (m : P A) (f : A -> P B) :
  phoare pre m mid -> (forall x, phoare (mid x) (f x) post) -> phoare pre (pbind m f) post.
Proof.
  intros Hm Hf s y s' Hpre. unfold pbind. destruct (m s) as [x s1|] eqn:E; [|done].
  intros Hy. exact (Hf x s1 y s' (Hm s x s1 Hpre E) Hy).
Qed.

Lemma phoare_pret {A} (pre : ParserState -> Prop) (post : A -> ParserState -> Prop) x :
  (forall s, pre s -> post x s) -> phoare pre (pret x) post.
Proof. intros H s y s' Hpre [= <- <-]. auto. Qed.

Lemma phoare_pabort {A} pre e post : phoare pre (@pabort A e) post.
Proof. intros s y s' _. discriminate. Qed.

Lemma phoare_pget_bind {B} (pre : ParserState -> Prop) post (f : ParserState -> P B) :
  (forall s0, phoare pre (f s0) post) -> phoare pre (pbind pget f) post.
Proof. intros H s y s' Hpre E. exact (H s s y s' Hpre E). Qed.

Lemma reported_weaken E c c' s : reported E c s -> (c' = true -> c = true) -> reported E c' s.
Proof. intros (extra & H & Hc) Himpl. exists extra. split; auto. Qed.

Lemma loud_pret {A} (failed : A -> bool) x : failed x = false -> loud failed (pret x).
Proof. intros Hx E c. apply phoare_pret. intros s Hs. by rewrite Hx. Qed.

Lemma reports E c message textRange :
  phoare (reported E c) (reportErrorAt message textRange) (fun _ => reported E true).
Proof.
  intros s r s' (extra & H & _) [= _ <-]. simpl. rewrite H.
  eexists. split; [by rewrite <- app_assoc|]. intros _. by destruct extra.
Qed.

Lemma loud_setPosition p : loud never (setPosition p).
Proof. by intros E c s r s' Hs [= _ <-]. Qed.

Create HintDb loud.

Section LoudExpressions.

Variable input : list (list Token).

Lemma loud_getToken : loud never (getToken input).
Proof.
  intros E c s r s' Hs. unfold getToken, pbind, pget.
  destruct (_ ≫= _); [|done]. by intros [= _ <-].
Qed.

Lemma loud_setColumn column : loud never (setColumn column).
Proof. by intros E c s r s' Hs [= _ <-]. Qed.

Lemma loud_nextToken : loud never (nextToken input).
Proof.
  intros E c. unfold nextToken.
  eapply phoare_bind; [apply loud_getToken|]. intros token. apply phoare_pget_bind.
  intros s0. eapply phoare_bind with (mid := fun _ => reported E c).
  - case_bool_decide; [by apply phoare_pret|apply (loud_setColumn _ E c)].
  - intros ?. by apply phoare_pret.
Qed.

Lemma loud_matchToken validKind : loud never (matchToken input validKind).
Proof.
  intros E c. unfold matchToken.
  eapply phoare_bind; [apply loud_getToken|]. intros token.
  case_bool_decide; [|by apply phoare_pret].
  eapply phoare_bind; [apply loud_nextToken|]. intros ?. by apply phoare_pret.
Qed.

Lemma loud_getWhitespace : loud never (getWhitespace input).
Proof.
  intros E c. unfold getWhitespace.
  eapply phoare_bind; [apply loud_getToken|]. intros ?. by apply phoare_pret.
Qed.

Lemma loud_matchWhitespace : loud never (matchWhitespace input).
Proof.
  intros E c. unfold matchWhitespace.
  eapply phoare_bind; [apply loud_getWhitespace|]. intros [|]; [|by apply phoare_pret].
  eapply phoare_bind; [apply loud_nextToken|]. intros ?. by apply phoare_pret.
Qed.

Lemma reports_parserReportError E c message :
  phoare (reported E c) (parserReportError input message) (fun _ => reported E true).
Proof.
  unfold parserReportError. eapply phoare_bind; [apply loud_getToken|].
  intros token. apply reports.
Qed.

Lemma loud_builtinRange builtinName : loud never (builtinRange input builtinName).
Proof.
  intros E c. unfold builtinRange.
  eapply phoare_bind; [apply loud_getToken|]. intros ?. by apply phoare_pret.
Qed.

Lemma loud_firstArg {T} (args : list T) : loud never (firstArg args).
Proof. intros E c. destruct args; [apply phoare_pabort|by apply phoare_pret]. Qed.

Lemma use_loud {A} (failed : A -> bool) (m : P A) E c :
  loud failed m -> phoare (reported E c) m (fun r => reported E (failed r || c)).
Proof. intros H. apply H. Qed.

Lemma phoare_weaken_post {A} pre (m : P A) (post post' : A -> ParserState -> Prop) :
  phoare pre m post' -> (forall r s, post' r s -> post r s) -> phoare pre m post.
Proof. intros H Hpost s r s' Hs E. eauto. Qed.

Lemma loud_pret_never {A} (x : A) : loud never (pret x).
Proof. by apply loud_pret. Qed.

#[local] Hint Resolve loud_pret_never : loud.

#[local] Hint Resolve loud_getToken loud_nextToken loud_matchToken loud_getWhitespace
  loud_matchWhitespace loud_builtinRange loud_firstArg : loud.

Ltac loud_side :=
  cbn [absent never present negb orb option_map fmap option_fmap];
  repeat match goal with
         | x : option _ |- _ => destruct x
         end;
  cbn [absent never present negb orb option_map fmap option_fmap];
  rewrite ?orb_true_r; auto.

Ltac loud_finish :=
  first [ eassumption
        | eapply reported_weaken; [eassumption|loud_side] ].

Ltac loud_call :=
  first [ apply use_loud; solve [eauto with loud]
        | eapply phoare_weaken_post;
          [apply use_loud; solve [eauto with loud]
          |intros ? ? ?; loud_finish] ].

Ltac loud_step :=
  lazymatch goal with
  | |- phoare _ (pret _) _ => apply phoare_pret; intros ? ?; loud_finish
  | |- phoare _ (pabort _) _ => apply phoare_pabort
  | |- phoare _ (pbind pget _) _ => apply phoare_pget_bind; intros ?
  | |- phoare _ (pbind (parserReportError _ _) _) _ =>
      eapply phoare_bind; [apply reports_parserReportError|intros ?]
  | |- phoare _ (pbind (reportErrorAt _ _) _) _ =>
      eapply phoare_bind; [apply reports|intros ?]
  | |- phoare _ (pbind (match ?x with _ => _ end) _) _ =>
      destruct x; cbn [absent never present negb orb]
  | |- phoare _ (pbind _ _) _ =>
      eapply phoare_bind; [apply use_loud; solve [eauto with loud]|intros ?];
      cbn beta; cbn [absent never present negb orb]
  | |- phoare _ (match ?x with _ => _ end) _ =>
      destruct x; cbn [absent never present negb orb]
  | |- phoare _ _ _ => loud_call
  end.

Ltac loud_auto := repeat loud_step.

Variable parseExpression : P (option ExpressionAstNode).
Variable fuel : nat.
Hypothesis loud_parseExpression : loud absent parseExpression.

#[local] Hint Resolve loud_parseExpression : loud.

Lemma loud_parseArgsLoop n args : loud absent (parseArgsLoop input parseExpression n args).
Proof.
  revert args. induction n as [|n IH]; intros args E c; simpl; loud_auto.
Qed.

#[local] Hint Resolve loud_parseArgsLoop : loud.

Lemma loud_parseArgs : loud absent (parseArgs input parseExpression fuel).
Proof. intros E c. unfold parseArgs. loud_auto. Qed.

Lemma loud_parseSubscriptsLoop n args :
  loud never (parseSubscriptsLoop input parseExpression n args).
Proof.
  revert args. induction n as [|n IH]; intros args E c; simpl; loud_auto.
Qed.

#[local] Hint Resolve loud_parseArgs loud_parseSubscriptsLoop : loud.

Lemma loud_parseSubscripts : loud absent (parseSubscripts input parseExpression fuel).
Proof. intros E c. unfold parseSubscripts. loud_auto. Qed.

#[local] Hint Resolve loud_parseSubscripts : loud.

Lemma loud_parseCall : loud absent (parseCall input parseExpression fuel).
Proof. intros E c. unfold parseCall. loud_auto. Qed.

Lemma loud_parseVariable : loud absent (parseVariable input parseExpression fuel).
Proof. intros E c. unfold parseVariable. loud_auto. Qed.

#[local] Hint Resolve loud_parseCall loud_parseVariable : loud.

Lemma loud_parseNodeListLoop {T} n (parser : P (option T)) nodes :
  loud absent parser -> loud absent (parseNodeListLoop input n parser nodes).
Proof.
  intros Hparser. revert nodes. induction n as [|n IH]; intros nodes E c; simpl; loud_auto.
Qed.

#[local] Hint Resolve loud_parseNodeListLoop : loud.

Lemma loud_parseBuiltinArgs {T} builtinName (parser : P (option T)) minArgCount
    maxArgCount :
  loud absent parser ->
  loud absent (parseBuiltinArgs input fuel builtinName parser minArgCount maxArgCount).
Proof.
  intros Hparser E c. unfold parseBuiltinArgs, parseNodeList. loud_auto.
Qed.

Lemma loud_parseSelectBuiltinArg :
  loud absent (parseSelectBuiltinArg input parseExpression).
Proof. intros E c. unfold parseSelectBuiltinArg. loud_auto. Qed.

#[local] Hint Resolve loud_parseBuiltinArgs loud_parseSelectBuiltinArg : loud.

Lemma loud_builtinVariants name parser builtinName :
  (name, parser) ∈ builtinVariants input parseExpression fuel ->
  loud absent (parser builtinName).
Proof.
  unfold builtinVariants. intros Hin E c.
  repeat (apply elem_of_cons in Hin as [[= _ ->]|Hin];
          [unfold parseOrderBuiltin, parseLengthBuiltin, parseExtractBuiltin,
             parseSelectBuiltin, parseFindBuiltin, parseRandomBuiltin,
             parseAsciiBuiltin, parseCharBuiltin;
           loud_auto|]).
  by apply elem_of_nil in Hin.
Qed.

Lemma loud_parseBuiltin : loud absent (parseBuiltin input parseExpression fuel).
Proof.
  intros E c. unfold parseBuiltin.
  eapply phoare_bind; [apply use_loud, loud_matchToken|]. intros [builtinName|]; cbn beta;
    cbn [never orb]; [|loud_auto].
  destruct (List.find _ _) as [[name parser]|] eqn:Efind; [|loud_auto].
  apply List.find_some in Efind as [Hin _]. apply list_elem_of_In in Hin.
  eapply phoare_weaken_post;
    [apply use_loud, (loud_builtinVariants name parser builtinName Hin)|].
  intros r s Hs. exact Hs.
Qed.

#[local] Hint Resolve loud_parseBuiltin : loud.

Lemma loud_parsePrimary : loud absent (parsePrimary input parseExpression fuel).
Proof. intros E c. unfold parsePrimary. loud_auto. Qed.

#[local] Hint Resolve loud_parsePrimary : loud.

Lemma loud_parseUnaryOp n : loud absent (parseUnaryOp input parseExpression fuel n).
Proof. induction n as [|n IH]; intros E c; simpl; loud_auto. Qed.

#[local] Hint Resolve loud_parseUnaryOp : loud.

Lemma loud_parseExpressionLoop n lhs :
  loud absent (parseExpressionLoop input parseExpression fuel n lhs).
Proof. revert lhs. induction n as [|n IH]; intros lhs E c; simpl; loud_auto. Qed.

#[local] Hint Resolve loud_parseExpressionLoop : loud.

Lemma loud_parseExpressionStep :
  loud absent (parseExpressionStep input parseExpression fuel).
Proof. intros E c. unfold parseExpressionStep. loud_auto. Qed.

End LoudExpressions.

(** [parseExpression] never fails without an error: when it returns
    [undefined], the list of errors has grown; and it removes no error,
    whatever it returns. *)
Theorem parseExpression_reports_its_failures (input : list (list Token)) (fuel : nat)
    (s s' : ParserState) (result : option ExpressionAstNode) :
  parseExpression input fuel s = Parsed result s' ->
  exists extra,
    parserErrors s' = (parserErrors s ++ extra)%list /\ (result = None -> extra <> []).
Proof.
  assert (loud absent (parseExpression input fuel)) as Hloud.
  { induction fuel as [|fuel IH]; simpl.
    - intros E c. apply phoare_pabort.
    - by apply loud_parseExpressionStep. }
  intros Hparse.
  destruct (Hloud (parserErrors s) false s result s') as (extra & Hextra & Hstrict);
    [exists []; split; [by rewrite app_nil_r|done]|done|].
  exists extra. split; [done|]. intros ->. by apply Hstrict.
Qed.

(** A comma where an expression is expected. *)
Lemma parseExpression_reports_its_failures_witness :
  exists extra,
    [{| message := "Expected an expression"; errorLine := 0; errorColumn := 0 |}]
    = (parserErrors startOfInput ++ extra)%list
    /\ (@None ExpressionAstNode = None -> extra <> []).
Proof.
  apply (parseExpression_reports_its_failures
           [[token TokenKind.Comma 0 0 1; token TokenKind.TrailingWhitespace 0 1 1]] 2
           startOfInput
           {| position := makeParserPosition; indentationLevel := 0;
              parserErrors :=
                [{| message := "Expected an expression"; errorLine := 0;
                    errorColumn := 0 |}] |}
           None).
  reflexivity.
Defined.

(** ** What the interpreter does to the state *)

(** The interpreter changes the state through a few operations only; a
    property of states that each of them keeps is an invariant of every
    expression, command and tag. *)
Section Invariant.

Context {engine : JsEngine}.
Variable Inv : InterpreterState -> Prop.

Hypothesis Inv_valueStack : forall v s, Inv s -> Inv (setValueStack v s).
Hypothesis Inv_output : forall o c s, Inv s -> Inv (setOutput o c s).
Hypothesis Inv_error : forall e s, Inv s -> Inv (setErrors (errors s ++ [e]) s).
Hypothesis Inv_heap : forall h s, Inv s -> Inv (setHeap h s).
Hypothesis Inv_random : forall n s, Inv s -> Inv (setRandomCalls n s).
Hypothesis Inv_frames :
  forall id f s, Inv s -> Inv (setEnvironmentStack (updateFrames id f (environmentStack s)) s).
Hypothesis Inv_push :
  forall b s, Inv s ->
    Inv (setNextFrameId (S (nextFrameId s))
           (setEnvironmentStack
              (environmentStack s ++ [Some {| frame_id := nextFrameId s; bindings := b |}])
              s)).
Hypothesis Inv_reset :
  forall s, Inv s ->
    Inv (setNextFrameId (S (nextFrameId s))
           (setEnvironmentStack [Some {| frame_id := nextFrameId s; bindings := ∅ |}] s)).
Hypothesis Inv_length :
  forall n s, Inv s ->
    Inv (setEnvironmentStack
           (take n (environmentStack s)
            ++ replicate (n - length (environmentStack s)) None) s).
Hypothesis Inv_special :
  forall name v env rest s, environmentStack s = Some env :: rest -> Inv s ->
    Inv (setEnvironmentStack
           (Some {| frame_id := frame_id env;
                    bindings := <[name := Binding v]> (bindings env) |} :: rest) s).

Definition kept {A} (m : M A) : Prop := hoare Inv m (fun _ => Inv).

Lemma kept_bind {A B} (m : M A) (f : A -> M B) :
  kept m -> (forall x, kept (f x)) -> kept (bind m f).
Proof. intros Hm Hf. eapply hoare_bind; [exact Hm|exact Hf]. Qed.

Lemma kept_ret {A} (x : A) : kept (ret x).
Proof. apply hoare_ret. auto. Qed.

Lemma kept_abort {A} e : kept (@abort A e).
Proof. intros s x s' _. discriminate. Qed.

Lemma kept_getState : kept getState.
Proof. by intros s x s' Hs [= _ <-]. Qed.

Lemma kept_modify f : (forall s, Inv s -> Inv (f s)) -> kept (modify f).
Proof. intros H s x s' Hs [= _ <-]. auto. Qed.

Lemma kept_pop : kept pop.
Proof.
  intros s x s' Hs. unfold pop. destruct (valueStack s); [done|]. intros [= _ <-]. auto.
Qed.

Lemma kept_push v : kept (push v).
Proof. apply kept_modify. auto. Qed.

Lemma kept_truncateValueStack n : kept (truncateValueStack n).
Proof.
  intros s x s' Hs. unfold truncateValueStack. case_decide; [|done]. intros [= _ <-]. auto.
Qed.

Lemma kept_reportError message range : kept (reportError message range).
Proof. apply kept_modify. intros s Hs. by apply Inv_error. Qed.

Lemma kept_newArray v : kept (newArray v).
Proof. intros s x s' Hs [= _ <-]. auto. Qed.

Lemma kept_getReferenceValue r : kept (getReferenceValue r).
Proof. intros s x s' Hs E. by rewrite (getReferenceValue_state _ _ _ _ E). Qed.

Lemma kept_environmentSet id name v : kept (environmentSet id name v).
Proof. apply kept_modify. intros s Hs. by apply Inv_frames. Qed.

Lemma kept_environmentDelete id name : kept (environmentDelete id name).
Proof. apply kept_modify. intros s Hs. by apply Inv_frames. Qed.

Lemma kept_setReferenceValue r v : kept (setReferenceValue r v).
Proof.
  destruct r; simpl; [apply kept_modify; auto|apply kept_environmentSet].
Qed.

Lemma kept_setSpecialVariable name v : kept (setSpecialVariable name v).
Proof.
  intros s x s' Hs. unfold setSpecialVariable, bind, getState, modify.
  destruct (environmentStack s) as [|[g|] rest] eqn:E; try done.
  intros [= _ <-]. by apply Inv_special.
Qed.

Lemma kept_getSpecialVariable name : kept (getSpecialVariable name).
Proof.
  intros s x s' Hs. unfold getSpecialVariable, bind, getState.
  destruct (environmentStack s !! 0%nat) as [[g|]|]; try done.
  destruct (bindings g !! name) as [[w|r]|]; try done; by intros [= _ <-].
Qed.

Lemma kept_pushEnvironment b : kept (pushEnvironment b).
Proof. intros s x s' Hs [= _ <-]. by apply Inv_push. Qed.

Lemma kept_resetEnvironmentStack : kept resetEnvironmentStack.
Proof. intros s x s' Hs [= _ <-]. by apply Inv_reset. Qed.

Lemma kept_setEnvironmentStackLength n : kept (setEnvironmentStackLength n).
Proof. apply kept_modify. intros s Hs. by apply Inv_length. Qed.

Lemma kept_mapM {A B} (f : A -> M B) l : (forall x, kept (f x)) -> kept (mapM f l).
Proof.
  intros Hf. induction l as [|x rest IH]; simpl; [apply kept_ret|].
  apply kept_bind; [apply Hf|]. intros y. apply kept_bind; [apply IH|].
  intros ys. apply kept_ret.
Qed.

Lemma kept_mValueCopy depth v : kept (mValueCopy depth v).
Proof.
  revert v. induction depth as [|depth IH]; intros [v|l]; simpl;
    try apply kept_ret; try apply kept_abort.
  apply kept_bind; [apply kept_getState|]. intros s0.
  destruct (heap s0 !! l); [|apply kept_abort].
  apply kept_bind.
  - apply kept_mapM. intros pair. apply kept_bind; [apply IH|]. intros ?. apply kept_ret.
  - intros copies s1 y s' Hs [= _ <-]. auto.
Qed.

Create HintDb kept.

#[local] Hint Resolve kept_ret kept_abort kept_getState kept_pop kept_push
  kept_truncateValueStack kept_reportError kept_newArray kept_getReferenceValue
  kept_environmentSet kept_environmentDelete kept_setReferenceValue
  kept_setSpecialVariable kept_getSpecialVariable kept_pushEnvironment
  kept_resetEnvironmentStack kept_setEnvironmentStackLength kept_mValueCopy : kept.

Section KeptStep.

Variable ie : ExpressionAstNode -> M bool.
Variable ic : CommandAstNode -> M CommandResult.t.
Variable fuel : nat.
Hypothesis Hie : forall e, kept (ie e).
Hypothesis Hic : forall c, kept (ic c).

Ltac kept_step :=
  lazymatch goal with
  | |- kept (throw _) => apply kept_abort
  | |- kept (ie _) => apply Hie
  | |- kept (ic _) => apply Hic
  | |- kept (modify _) => apply kept_modify; intros ? ?; auto
  | |- kept (bind _ _) => apply kept_bind; [|intros ?]
  | |- kept (match ?x with _ => _ end) => destruct x
  end.

Ltac kept_auto := repeat first [ assumption | solve [auto 3 with kept] | kept_step ].

Lemma kept_getSubscriptKey i subscripts subscriptValues :
  kept (getSubscriptKey ie i subscripts subscriptValues).
Proof. unfold getSubscriptKey. kept_auto. Qed.

#[local] Hint Resolve kept_getSubscriptKey : kept.

Lemma kept_getReferenceLoop count :
  forall i environment name subscripts subscriptValues canCreate array subscriptKey value,
    kept (getReferenceLoop ie count i environment name subscripts subscriptValues canCreate
            array subscriptKey value).
Proof.
  induction count as [|count IH];
    intros i environment name subscripts subscriptValues canCreate array subscriptKey value;
    simpl; kept_auto.
Qed.

#[local] Hint Resolve kept_getReferenceLoop : kept.

Lemma kept_getReference name subscriptCount subscripts subscriptValues canCreate :
  kept (getReference ie name subscriptCount subscripts subscriptValues canCreate).
Proof.
  unfold getReference. apply kept_bind; [apply kept_getState|]. intros s0.
  destruct (lookupName _ _ _); kept_auto.
Qed.

#[local] Hint Resolve kept_getReference : kept.

Lemma kept_getVariableReference node subscriptCount subscriptValues canCreate :
  kept (getVariableReference ie node subscriptCount subscriptValues canCreate).
Proof. unfold getVariableReference. kept_auto. Qed.

#[local] Hint Resolve kept_getVariableReference : kept.

Lemma kept_getCallArgumentReference node : kept (getCallArgumentReference ie node).
Proof. unfold getCallArgumentReference. kept_auto. Qed.

Lemma kept_setVariable node value : kept (setVariable ie node value).
Proof. unfold setVariable. kept_auto. Qed.

Lemma kept_interpretVariable node : kept (interpretVariable ie node).
Proof. unfold interpretVariable. kept_auto. Qed.

#[local] Hint Resolve kept_getCallArgumentReference kept_setVariable
  kept_interpretVariable : kept.

Lemma kept_externArguments args : kept (externArguments ie args).
Proof. induction args as [|arg rest IH]; simpl; kept_auto. Qed.

#[local] Hint Resolve kept_externArguments : kept.

Lemma kept_interpretExtern node extern hasReturnValue :
  kept (interpretExtern ie node extern hasReturnValue).
Proof. unfold interpretExtern. kept_auto. Qed.

Lemma kept_interpretChildCommands children : kept (interpretChildCommands ic children).
Proof. induction children as [|command rest IH]; simpl; kept_auto. Qed.

#[local] Hint Resolve kept_interpretExtern kept_interpretChildCommands : kept.

Lemma kept_interpretTopLevel start : kept (interpretTopLevel ic start).
Proof. unfold interpretTopLevel. kept_auto. Qed.

Lemma kept_bindArguments environment params args :
  kept (bindArguments ie environment params args).
Proof.
  revert args. induction params as [|param rest IH]; intros [|arg args]; simpl; kept_auto.
Qed.

Lemma kept_bindMissing environment params : kept (bindMissing environment params).
Proof. induction params as [|param rest IH]; simpl; kept_auto. Qed.

Lemma kept_bindValues environment params args :
  kept (bindValues environment params args).
Proof.
  revert args. induction params as [|param rest IH]; intros [|arg args]; simpl; kept_auto.
Qed.

#[local] Hint Resolve kept_interpretTopLevel kept_bindArguments kept_bindMissing : kept.

Lemma kept_interpretCall node hasReturnValue :
  kept (interpretCall ie ic node hasReturnValue).
Proof. unfold interpretCall. kept_auto. Qed.

#[local] Hint Resolve kept_interpretCall : kept.

Lemma kept_orderDirection direction : kept (orderDirection ie direction).
Proof. unfold orderDirection. kept_auto. Qed.

Lemma kept_getExtractionStart node : kept (getExtractionStart ie node).
Proof. unfold getExtractionStart. kept_auto. Qed.

Lemma kept_getExtractionEnd node start : kept (getExtractionEnd ie node start).
Proof. unfold getExtractionEnd. kept_auto. Qed.

Lemma kept_interpretSelectArgs args range : kept (interpretSelectArgs ie args range).
Proof. induction args as [|arg rest IH]; simpl; kept_auto. Qed.

#[local] Hint Resolve kept_orderDirection kept_getExtractionStart kept_getExtractionEnd
  kept_interpretSelectArgs : kept.

Lemma kept_interpretExpressionStep node : kept (interpretExpressionStep ie ic node).
Proof.
  destruct node; simpl;
    unfold interpretUnaryOp, interpretBinaryOp, interpretOrderBuiltin,
      interpretLengthBuiltin, interpretExtractBuiltin, interpretSelectBuiltin,
      interpretFindBuiltin, interpretRandomBuiltin, interpretAsciiBuiltin,
      interpretCharBuiltin;
    kept_auto.
Qed.

Lemma kept_interpretWriteArgs args : kept (interpretWriteArgs ie args).
Proof. induction args as [|arg rest IH]; simpl; kept_auto. Qed.

Lemma kept_interpretDoBlockLoop children : kept (interpretDoBlockLoop ic children).
Proof. induction children as [|command rest IH]; simpl; kept_auto. Qed.

#[local] Hint Resolve kept_interpretWriteArgs kept_interpretDoBlockLoop : kept.

Lemma kept_interpretIf conditions children : kept (interpretIf ie ic conditions children).
Proof. induction conditions as [|condition rest IH]; simpl; kept_auto. Qed.

Lemma kept_interpretForWithNoArgLoop n children :
  kept (interpretForWithNoArgLoop ic n children).
Proof. induction n as [|n IH]; simpl; kept_auto. Qed.

Lemma kept_stepVariable variable incrementValue :
  kept (stepVariable ie variable incrementValue).
Proof. unfold stepVariable. kept_auto. Qed.

#[local] Hint Resolve kept_stepVariable : kept.

Lemma kept_interpretForWithStartIncrementLoop n variable incrementValue children :
  kept (interpretForWithStartIncrementLoop ie ic n variable incrementValue children).
Proof. induction n as [|n IH]; simpl; kept_auto. Qed.

Lemma kept_interpretForWithStartIncrementEndLoop n variable incrementValue endValue
    children :
  kept (interpretForWithStartIncrementEndLoop ie ic n variable incrementValue endValue
          children).
Proof. induction n as [|n IH]; simpl; kept_auto. Qed.

#[local] Hint Resolve kept_interpretIf kept_interpretForWithNoArgLoop
  kept_interpretForWithStartIncrementLoop
  kept_interpretForWithStartIncrementEndLoop : kept.

Lemma kept_interpretForParameter variable parameter children range :
  kept (interpretForParameter ie ic fuel variable parameter children range).
Proof.
  unfold interpretForParameter, interpretForWithStart, interpretForWithStartIncrement,
    interpretForWithStartIncrementEnd.
  kept_auto.
Qed.

#[local] Hint Resolve kept_interpretForParameter : kept.

Lemma kept_interpretForParameters variable parameters children range :
  kept (interpretForParameters ie ic fuel variable parameters children range).
Proof. induction parameters as [|parameter rest IH]; simpl; kept_auto. Qed.

Lemma kept_interpretSetExtract node value : kept (interpretSetExtract ie node value).
Proof. unfold interpretSetExtract. kept_auto. Qed.

#[local] Hint Resolve kept_interpretForParameters kept_interpretSetExtract : kept.

Lemma kept_interpretSet args : kept (interpretSet ie args).
Proof.
  induction args as [|arg rest IH]; simpl; unfold interpretSetArgument; kept_auto.
Qed.

Lemma kept_interpretKillArgs args : kept (interpretKillArgs ie args).
Proof. induction args as [|arg rest IH]; simpl; kept_auto. Qed.

Lemma kept_interpretSubscripts nodes : kept (interpretSubscripts ie nodes).
Proof. induction nodes as [|node rest IH]; simpl; kept_auto. Qed.

Lemma kept_mergeChildren destination pairs : kept (mergeChildren fuel destination pairs).
Proof. induction pairs as [|[key value] rest IH]; simpl; kept_auto. Qed.

#[local] Hint Resolve kept_interpretSet kept_interpretKillArgs kept_interpretSubscripts
  kept_mergeChildren : kept.

Lemma kept_interpretCommandStep node : kept (interpretCommandStep ie ic fuel node).
Proof.
  destruct node as [condition body range].
  unfold interpretCommandStep, interpretCommandBody, interpretWrite, interpretQuit,
    interpretDoBlock, interpretElse, interpretFor, interpretForWithNoArg, interpretNew,
    interpretKill, interpretMerge, mergeVariables.
  kept_auto.
Qed.

End KeptStep.

Lemma kept_interpret fuel :
  (forall e, kept (interpretExpression fuel e)) /\ (forall c, kept (interpretCommand fuel c)).
Proof.
  induction fuel as [|fuel [IHe IHc]]; simpl.
  - split; intros; apply kept_abort.
  - split; intros; [by apply kept_interpretExpressionStep|by apply kept_interpretCommandStep].
Qed.

Lemma kept_interpretTag fuel tag args : kept (interpretTag fuel tag args).
Proof.
  destruct (kept_interpret fuel) as [He Hc].
  pose proof (kept_interpretTopLevel _ Hc) as Htop.
  pose proof kept_bindValues. pose proof kept_bindMissing.
  unfold interpretTag.
  repeat first [ assumption | solve [auto 3 with kept]
               | apply kept_bind; [|intros ?]
               | match goal with |- kept (match ?x with _ => _ end) => destruct x end ].
Qed.

End Invariant.

(** Interpreting never changes the syntax tree or the externs, and never
    removes or changes an error that was reported: the errors before are a
    prefix of the errors after.  This holds for every expression, command
    and tag, whatever the fuel. *)
Theorem interpretation_keeps_program_and_errors `{JsEngine} (fuel : nat) :
  let same (s s' : InterpreterState) :=
    ast s' = ast s /\ externs s' = externs s /\ errors s `prefix_of` errors s' in
  (forall e s ok s', interpretExpression fuel e s = Ok ok s' -> same s s')
  /\ (forall c s result s', interpretCommand fuel c s = Ok result s' -> same s s')
  /\ (forall tag args s result s', interpretTag fuel tag args s = Ok result s' -> same s s').
Proof.
  intros same.
  assert (forall s0 : InterpreterState,
            let Inv s := same s0 s in
            (forall e, hoare Inv (interpretExpression fuel e) (fun _ => Inv))
            /\ (forall c, hoare Inv (interpretCommand fuel c) (fun _ => Inv))
            /\ (forall tag args, hoare Inv (interpretTag fuel tag args) (fun _ => Inv)))
    as Hkept.
  { intros s0 Inv.
    assert (forall e s, Inv s -> Inv (setErrors (errors s ++ [e]) s)) as Herror.
    { intros e s (Ha & Hx & He). split; [done|]. split; [done|].
      simpl. by apply prefix_app_r. }
    split; [|split].
    - intros e. apply (proj1 (kept_interpret Inv ltac:(auto) ltac:(auto) Herror
                                ltac:(auto) ltac:(auto) ltac:(auto) ltac:(auto)
                                ltac:(auto) ltac:(auto) ltac:(auto) fuel)).
    - intros c. apply (proj2 (kept_interpret Inv ltac:(auto) ltac:(auto) Herror
                                ltac:(auto) ltac:(auto) ltac:(auto) ltac:(auto)
                                ltac:(auto) ltac:(auto) ltac:(auto) fuel)).
    - intros tag args. apply (kept_interpretTag Inv ltac:(auto) ltac:(auto) Herror
                                ltac:(auto) ltac:(auto) ltac:(auto) ltac:(auto)
                                ltac:(auto) ltac:(auto) ltac:(auto) fuel). }
  assert (forall s, same s s) as Hrefl by (intros s; by repeat split).
  split; [|split].
  - intros e s ok s' E. exact (proj1 (Hkept s) e s ok s' (Hrefl s) E).
  - intros c s result s' E. exact (proj1 (proj2 (Hkept s)) c s result s' (Hrefl s) E).
  - intros tag args s result s' E.
    exact (proj2 (proj2 (Hkept s)) tag args s result s' (Hrefl s) E).
Qed.

(** A call of a tag that does not exist adds an error to those that are
    there. *)
Definition callOfF : CommandAstNode :=
  MkCommand None (CallBody (MkCall (identifier "f") [] noRange)) noRange.

Lemma interpretation_keeps_program_and_errors_witness :
  exists s',
    interpretCommand (H := exampleEngine) 2 callOfF initialState
    = Ok CommandResult.Halt s'
    /\ length (errors s') = 1%nat
    /\ errors initialState `prefix_of` errors s'.
Proof.
  eexists. split; [reflexivity|]. split; [reflexivity|].
  eapply (proj1 (proj2 (interpretation_keeps_program_and_errors (H := exampleEngine) 2))
            callOfF initialState).
  reflexivity.
Defined.

(** ** Writing a variable and reading it *)

Lemma lookupName_nothing_update name stack n id v :
  lookupName name stack n = LookupNothing ->
  (exists j env, (j < n)%nat /\ stack !! j = Some (Some env) /\ frame_id env = id) ->
  lookupName name (updateFrames id <[name := Binding v]> stack) n = LookupBinding id v.
Proof.
  induction n as [|j IH]; simpl; [intros _ (j & env & Hj & _); lia|].
  unfold updateFrames at 1. rewrite list_lookup_fmap.
  destruct (stack !! j) as [[env|]|] eqn:Ej; simpl; try done.
  destruct (bindings env !! name) as [[w|r]|] eqn:E; try done.
  intros Hnothing (j0 & env0 & Hj0 & Hframe & Hid). case_decide as Hdec.
  - simpl. by rewrite lookup_insert_eq.
  - rewrite E. apply IH; [done|]. exists j0, env0. split; [|done].
    destruct (decide (j0 = j)) as [->|]; [|lia]. congruence.
Qed.

Lemma writeTarget_spec name s environment v :
  writeTarget name s = Some environment ->
  let stack := updateFrames environment <[name := Binding v]> (environmentStack s) in
  lookupName name stack (length stack) = LookupBinding environment v
  /\ exists env, findFrame environment stack = Some env
                 /\ bindings env !! name = Some (Binding v).
Proof.
  intros Htarget. cbv zeta. unfold writeTarget in Htarget.
  rewrite length_updateFrames, findFrame_updateFrames.
  destruct (lookupName name (environmentStack s) (length (environmentStack s)))
    as [|r|id w|] eqn:El; try done.
  - injection Htarget as ->. split; [by eapply lookupName_updateFrames|].
    destruct (lookupName_findFrame _ _ _ _ _ El) as [env Henv]. rewrite Henv.
    eexists. split; [reflexivity|]. simpl. by rewrite lookup_insert_eq.
  - destruct (environmentStack s !! 0%nat) as [[g|]|] eqn:E0; try done.
    injection Htarget as <-. split.
    + apply lookupName_nothing_update; [done|]. exists 0%nat, g. split; [|done].
      apply lookup_lt_Some in E0. lia.
    + destruct (findFrame_lookup _ _ _ E0) as [env Henv]. rewrite Henv.
      eexists. split; [reflexivity|]. simpl. by rewrite lookup_insert_eq.
Qed.

(** A variable without subscripts reads what was written to it, whether it
    was bound before or not (then the global frame binds it). *)
Theorem variable_reads_what_was_written (ie : ExpressionAstNode -> M bool)
    (name : IdentifierAstNode) (r r' : TextRange) (value : MValue) (s : InterpreterState)
    (environment : nat) :
  writeTarget (text name) s = Some environment ->
  let s' :=
    setEnvironmentStack
      (updateFrames environment <[text name := Binding value]> (environmentStack s)) s in
  setVariable ie (MkVariable name [] r) value s = Ok true s'
  /\ interpretVariable ie (MkVariable name [] r') s'
     = Ok true (setValueStack (mValueToScalar (heap s') value :: valueStack s') s').
Proof.
  intros Htarget s'.
  destruct (writeTarget_spec _ _ _ value Htarget) as (Hlookup & env & Henv & Hbound).
  split.
  - unfold setVariable, getVariableReference, getReference, bind, getState. simpl.
    unfold writeTarget in Htarget.
    destruct (lookupName (text name) (environmentStack s) (length (environmentStack s)))
      as [|r0|id w|]; try done.
    + by injection Htarget as ->.
    + destruct (environmentStack s !! 0%nat) as [[g|]|]; try done.
      by injection Htarget as <-.
  - unfold interpretVariable, getVariableReference, getReference, bind, getState. simpl.
    rewrite Hlookup. simpl. unfold getReferenceValue, bind, getState. simpl.
    rewrite Henv, Hbound. reflexivity.
Qed.

Definition variableXOnly : VariableAstNode := MkVariable (identifier "x") [] noRange.

(** [x] is not bound in the initial state; after [x=5] it reads 5. *)
Lemma variable_reads_what_was_written_witness :
  let ie := interpretExpression (H := exampleEngine) 1 in
  let s' :=
    setEnvironmentStack
      (updateFrames 0 <["x" := Binding (MScalarValue (MNumber 5%float))]>
         (environmentStack initialState)) initialState in
  setVariable ie variableXOnly (MScalarValue (MNumber 5%float)) initialState = Ok true s'
  /\ interpretVariable ie variableXOnly s'
     = Ok true (setValueStack [MNumber 5%float] s').
Proof.
  intros ie s'.
  apply (variable_reads_what_was_written ie (identifier "x") noRange noRange
           (MScalarValue (MNumber 5%float)) initialState 0).
  reflexivity.
Defined.

(** The variable holds no array node: it is not bound, or bound to a
    scalar. *)
Definition holdsNoArray (name : string) (s : InterpreterState) : bool :=
  let stack := environmentStack s in
  match lookupName name stack (length stack) with
  | LookupBinding _ (MScalarValue _) | LookupNothing => true
  | _ => false
  end.

Section Building.

Variable ie : ExpressionAstNode -> M bool.
Variable environment : nat.
Variable name : string.
Variable subscripts : option (list ExpressionAstNode).
Variable subscriptValues : option (list string).
Variable keys : list string.
Variable States : InterpreterState -> Prop.
Hypothesis closed : closedUnderWrites name States.
Hypothesis keysOk : keysResolveIn States ie subscripts subscriptValues keys.

#[local] Arguments getSubscriptKey : simpl never.

(** The path that a write creates below a slot that held no array node, and
    the read along that path after the write. *)
Definition built (count i : nat) (array : loc) (key : string) (s : InterpreterState)
    (array' : loc) (key' : string) (s' : InterpreterState) : Prop :=
  (exists h, s' = setHeap h s)
  /\ is_Some (heap s' !! array')
  /\ (count = 0%nat -> array' = array /\ key' = key /\ s' = s)
  /\ (count <> 0%nat -> heap s !! array' = None)
  /\ (forall l, is_Some (heap s !! l) -> is_Some (heap s' !! l))
  /\ (forall l, is_Some (heap s !! l) -> l <> array -> heap s' !! l = heap s !! l)
  /\ (forall s'' v,
        States s'' ->
        heap s'' = mArraySet (heap s') array' key' v ->
        getReferenceLoop ie count (S i) environment name subscripts subscriptValues false
          (Some array) (Some key) (mArrayGet (heap s'') array key) s''
        = Ok (FoundReference (ArrayReference array' key')) s'').

Lemma getReferenceLoop_builds count :
  forall i array key value s,
    States s ->
    (S i + count)%nat = length keys ->
    is_Some (heap s !! array) ->
    holdsArray value = false ->
    exists array' key' s',
      getReferenceLoop ie count (S i) environment name subscripts subscriptValues true
        (Some array) (Some key) value s
      = Ok (FoundReference (ArrayReference array' key')) s'
      /\ States s'
      /\ built count i array key s array' key' s'.
Proof.
  induction count as [|count IH]; intros i array key value s Hs Hlen [a Ha] Hvalue.
  - exists array, key, s. split; [done|]. split; [done|].
    split; [exists (heap s); by destruct s|]. split; [by exists a|].
    split; [done|]. split; [done|]. split; [done|]. split; [done|].
    intros s'' v _ _. reflexivity.
  - assert (exists k, keys !! S i = Some k) as [k Hk].
    { apply lookup_lt_is_Some. lia. }
    destruct (keysOk _ _ Hk) as [Hne Hkey].
    set (l := fresh (dom (heap s))).
    set (h1 := <[l := {| arrayValue := slotScalar value; arrayChildren := ∅ |}]> (heap s)).
    set (s2 := setHeap (mArraySet h1 array key (MArrayValue l)) (setHeap h1 s)).
    assert (States s2) as Hs2.
    { destruct closed as (Hnew & Hset & _).
      apply (Hset (setHeap h1 s) array key (MArrayValue l)). by apply Hnew. }
    assert (heap s !! l = None) as Hfresh by apply fresh_lookup.
    assert (l <> array) as Hl by (intros E; unfold Heap in *; congruence).
    assert (h1 !! array = Some a) as Ha1.
    { unfold h1, Heap in *. by rewrite lookup_insert_ne. }
    assert (heap s2 !! l = Some {| arrayValue := slotScalar value; arrayChildren := ∅ |})
      as Hl2.
    { simpl. rewrite mArraySet_lookup_ne by done. unfold h1, Heap in *.
      by rewrite lookup_insert_eq. }
    assert (heap s2 !! array
            = Some {| arrayValue := arrayValue a;
                      arrayChildren := <[key := MArrayValue l]> (arrayChildren a) |})
      as Ha2 by (simpl; by rewrite (mArraySet_lookup _ _ _ _ _ Ha1)).
    assert (forall l0, l0 <> array -> l0 <> l -> heap s2 !! l0 = heap s !! l0) as Hother2.
    { intros l0 H0 H1. simpl. rewrite mArraySet_lookup_ne by done. unfold h1, Heap in *.
      by rewrite lookup_insert_ne. }
    destruct (IH (S i) l k (mArrayGet (heap s2) l k) s2)
      as (array' & key' & s' & E & Hin & [h' Hs'] & Hsome & Hzero & Hnew & Hstay & Ho
          & Hread).
    { done. }
    { lia. }
    { by rewrite Hl2. }
    { unfold mArrayGet. rewrite Hl2. simpl. by rewrite lookup_empty. }
    assert (heap s !! array' = None) as Hfresh'.
    { destruct count as [|count].
      - destruct Hzero as (-> & _ & _); done.
      - destruct (heap s !! array') as [a0|] eqn:E0; [|done].
        assert (is_Some (heap s2 !! array')) as [a1 Ha1'].
        { destruct (decide (array' = array)) as [->|Hne']; [by rewrite Ha2|].
          destruct (decide (array' = l)) as [->|Hne'']; [by rewrite Hl2|].
          rewrite Hother2 by done. by rewrite E0. }
        rewrite Hnew in Ha1'; done. }
    assert (array' <> array) as Hne' by (intros ->; unfold Heap in *; congruence).
    assert (heap s' !! array = heap s2 !! array) as Hsame.
    { apply Ho; [by rewrite Ha2|done]. }
    exists array', key', s'.
    split; [|split; [done|split; [|split; [|split; [|split; [|split; [|split]]]]]]].
    + assert (getReferenceLoop ie (S count) (S i) environment name subscripts
                subscriptValues true (Some array) (Some key) value s
              = (let* key' := getSubscriptKey ie (S i) subscripts subscriptValues in
                 match key' with
                 | None | Some EmptyString => ret UndefinedReference
                 | Some k =>
                     let* s := getState in
                     getReferenceLoop ie count (S (S i)) environment name subscripts
                       subscriptValues true (Some l) (Some k) (mArrayGet (heap s) l k)
                 end) s2) as ->.
      { destruct value as [[v|l']|]; try done; reflexivity. }
      rewrite (bind_Ok _ _ _ _ _ (Hkey s2 Hs2)).
      destruct k as [|c k]; [done|]. exact E.
    + exists h'. rewrite Hs'. reflexivity.
    + exact Hsome.
    + done.
    + intros _. exact Hfresh'.
    + intros l0 [a0 H0]. apply Hstay.
      destruct (decide (l0 = array)) as [->|Hne0]; [by rewrite Ha2|].
      rewrite Hother2; [by rewrite H0|done|]. intros ->. unfold Heap in *. congruence.
    + intros l0 [a0 H0] Hne0. assert (l0 <> l) as Hne1.
      { intros ->. unfold Heap in *. congruence. }
      rewrite Ho; [by apply Hother2| |done]. rewrite Hother2 by done. by rewrite H0.
    + intros s'' v Hs'' Hheap.
      assert (mArrayGet (heap s'') array key = Some (MArrayValue l)) as Hchild.
      { unfold mArrayGet. rewrite Hheap, mArraySet_lookup_ne by done.
        rewrite Hsame, Ha2. simpl. by rewrite lookup_insert_eq. }
      rewrite Hchild. simpl. rewrite bind_ret_l.
      rewrite (bind_Ok _ _ _ _ _ (Hkey s'' Hs'')).
      destruct k as [|c k]; [done|]. unfold bind at 1, getState.
      by apply (Hread s'' v).
Qed.

End Building.

(** A variable with subscripts that held no array node reads what was
    written to it: the write creates the path of array nodes, the read
    follows it.  The subscripts evaluate without effect, to non-empty keys,
    in the states [States] that the write passes through ([keysResolveIn],
    [closedUnderWrites]): literals in all states, variables in the states
    where they hold their values. *)
Theorem new_path_reads_what_was_written (ie : ExpressionAstNode -> M bool)
    (name : IdentifierAstNode) (nodes : list ExpressionAstNode) (keys : list string)
    (States : InterpreterState -> Prop)
    (r r' : TextRange) (value : MValue) (s : InterpreterState) (environment : nat) :
  closedUnderWrites (text name) States ->
  keysResolveIn States ie (Some nodes) None keys ->
  States s ->
  length keys = length nodes ->
  keys <> [] ->
  writeTarget (text name) s = Some environment ->
  holdsNoArray (text name) s = true ->
  exists s',
    setVariable ie (MkVariable name nodes r) value s = Ok true s'
    /\ interpretVariable ie (MkVariable name nodes r') s'
       = Ok true (setValueStack (mValueToScalar (heap s') value :: valueStack s') s')
    /\ errors s' = errors s
    /\ environmentStack s'
       = updateFrames environment
           <[text name := Binding (MArrayValue (fresh (dom (heap s))))]>
           (environmentStack s).
Proof.
  intros Hclosed HK Hs Hlen Hkeys Htarget Hno.
  assert (exists k0, keys !! 0%nat = Some k0) as [k0 Hk].
  { apply lookup_lt_is_Some. destruct keys; [done|simpl; lia]. }
  destruct (HK _ _ Hk) as [Hne Hkey].
  assert (exists count, length keys = S count) as [count Hcount].
  { destruct keys; [done|]. simpl. eauto. }
  set (l := fresh (dom (heap s))).
  set (found := lookupName (text name) (environmentStack s) (length (environmentStack s))).
  set (value0 := match found with LookupBinding _ w => Some w | _ => None end).
  set (h1 := <[l := {| arrayValue := slotScalar value0; arrayChildren := ∅ |}]> (heap s)).
  set (s2 := setEnvironmentStack
               (updateFrames environment <[text name := Binding (MArrayValue l)]>
                  (environmentStack s)) (setHeap h1 s)).
  assert (States s2) as Hs2.
  { destruct Hclosed as (Hnew & _ & Hbind).
    apply (Hbind (setHeap h1 s) environment l). by apply Hnew. }
  assert (heap s2 !! l = Some {| arrayValue := slotScalar value0; arrayChildren := ∅ |})
    as Hl2.
  { simpl. unfold h1, Heap in *. by rewrite lookup_insert_eq. }
  destruct (getReferenceLoop_builds ie environment (text name) (Some nodes) None keys
              States Hclosed HK count 0 l k0 (mArrayGet (heap s2) l k0) s2)
    as (array' & key' & s1 & E & Hs1in & [h Hs1] & Hsome & _ & _ & _ & _ & Hread).
  { done. }
  { lia. }
  { by rewrite Hl2. }
  { unfold mArrayGet. rewrite Hl2. simpl. by rewrite lookup_empty. }
  assert (getReference ie (text name) (length nodes) (Some nodes) None true s
          = Ok (FoundReference (ArrayReference array' key')) s1) as Hwrite.
  { unfold getReference. unfold bind at 1, getState at 1.
    unfold writeTarget in Htarget. unfold holdsNoArray in Hno. fold found in Htarget, Hno |- *.
    rewrite <- Hlen, Hcount. rewrite bool_decide_eq_false_2 by lia.
    assert (getReferenceLoop ie (S count) 0 environment (text name) (Some nodes) None true
              None None value0 s
            = (let* key' := getSubscriptKey ie 0 (Some nodes) None in
               match key' with
               | None | Some EmptyString => ret UndefinedReference
               | Some k =>
                   let* s := getState in
                   getReferenceLoop ie count 1 environment (text name) (Some nodes) None
                     true (Some l) (Some k) (mArrayGet (heap s) l k)
               end) s2) as Hloop.
    { unfold value0. destruct found as [|r0|id [w|l']|]; try done; reflexivity. }
    assert ((let* key' := getSubscriptKey ie 0 (Some nodes) None in
               match key' with
               | None | Some EmptyString => ret UndefinedReference
               | Some k =>
                   let* s := getState in
                   getReferenceLoop ie count 1 environment (text name) (Some nodes) None
                     true (Some l) (Some k) (mArrayGet (heap s) l k)
               end) s2 = Ok (FoundReference (ArrayReference array' key')) s1) as Hrest.
    { rewrite (bind_Ok _ _ _ _ _ (Hkey s2 Hs2)). destruct k0 as [|c k0]; [done|].
      exact E. }
    rewrite <- Hrest, <- Hloop. unfold value0.
    destruct found as [|r0|id [w|l']|]; try done.
    - by injection Htarget as ->.
    - destruct (environmentStack s !! 0%nat) as [[g|]|]; try done.
      by injection Htarget as <-. }
  set (s' := setHeap (mArraySet (heap s1) array' key' value) s1).
  assert (States s') as Hs'.
  { destruct Hclosed as (_ & Hset & _). by apply Hset. }
  exists s'. split; [|split; [|split]].
  - unfold setVariable, getVariableReference. simpl.
    unfold bind at 1 2. rewrite Hwrite. reflexivity.
  - destruct (writeTarget_spec _ _ _ (MArrayValue l) Htarget) as (Hlookup & _).
    assert (environmentStack s' = environmentStack s2) as Hstack
      by (unfold s'; rewrite Hs1; reflexivity).
    assert (getReference ie (text name) (length nodes) (Some nodes) None false s'
            = Ok (FoundReference (ArrayReference array' key')) s') as Hfound.
    { unfold getReference. unfold bind at 1, getState at 1. rewrite Hstack. simpl.
      cbv zeta in Hlookup. rewrite Hlookup. rewrite bind_ret_l.
      rewrite <- Hlen, Hcount. rewrite bool_decide_eq_false_2 by lia.
      simpl. rewrite bind_ret_l. rewrite (bind_Ok _ _ _ _ _ (Hkey s' Hs')).
      destruct k0 as [|c k0]; [done|]. unfold bind at 1, getState.
      by apply (Hread s' value). }
    unfold interpretVariable, getVariableReference. simpl.
    unfold bind at 1 2. rewrite Hfound. cbn beta iota.
    assert (mArrayGet (heap s') array' key' = Some value) as Hvalue
      by (by apply mArrayGet_mArraySet).
    unfold ret at 1. cbn beta iota.
    unfold bind at 1, getReferenceValue, bind at 1, getState at 1.
    rewrite Hvalue. reflexivity.
  - unfold s'. rewrite Hs1. reflexivity.
  - unfold s'. rewrite Hs1. reflexivity.
Qed.

(** The global frame binds [i] to 1 and [j] to 2. *)
Definition heldIJ : InterpreterState :=
  setEnvironmentStack
    [Some {| frame_id := 0;
             bindings := {["i" := Binding (MScalarValue (MNumber 1%float));
                           "j" := Binding (MScalarValue (MNumber 2%float))]} |}]
    initialState.

(** [x] is not bound; with [i] holding 1 and [j] holding 2, [x(i,j)] reads 5
    after [x(i,j)=5]; and in the initial state [x(1,2)] reads 5 after
    [x(1,2)=5]. *)
Lemma new_path_reads_what_was_written_witness :
  let ie := interpretExpression (H := exampleEngine) 1 in
  let variables := [("i", MNumber 1%float); ("j", MNumber 2%float)] in
  let nodes :=
    (fun variable : string * MScalar =>
       VariableNode (MkVariable (identifier variable.1) [] noRange)) <$> variables in
  let literals := [NumberLiteral 1%float noRange; NumberLiteral 2%float noRange] in
  (exists s',
     setVariable ie (MkVariable (identifier "x") nodes noRange)
       (MScalarValue (MNumber 5%float)) heldIJ = Ok true s'
     /\ interpretVariable ie (MkVariable (identifier "x") nodes noRange) s'
        = Ok true (setValueStack (MNumber 5%float :: valueStack s') s'))
  /\ (exists s',
        setVariable ie (MkVariable (identifier "x") literals noRange)
          (MScalarValue (MNumber 5%float)) initialState = Ok true s'
        /\ interpretVariable ie (MkVariable (identifier "x") literals noRange) s'
           = Ok true (setValueStack (MNumber 5%float :: valueStack s') s')).
Proof.
  intros ie variables nodes literals. split.
  - destruct (new_path_reads_what_was_written ie (identifier "x") nodes
                ((fun variable : string * MScalar => scalarToString variable.2)
                 <$> variables)
                (variablesHold variables) noRange noRange
                (MScalarValue (MNumber 5%float)) heldIJ 0)
      as (s' & Hset & Hget & _).
    + apply variablesHold_closed. repeat constructor; discriminate.
    + apply (keysResolveIn_variables (H := exampleEngine) 0 variables noRange).
      repeat constructor; vm_compute; discriminate.
    + repeat constructor; exists 0%nat; eexists; repeat split; reflexivity.
    + reflexivity.
    + discriminate.
    + reflexivity.
    + reflexivity.
    + exists s'. split; [exact Hset|exact Hget].
  - destruct (keysResolve_everywhere ie (Some literals) None
                (scalarToString <$> [MNumber 1%float; MNumber 2%float]) "x")
      as [Hclosed HK].
    { apply (keysResolve_literals (H := exampleEngine) 0
               [MNumber 1%float; MNumber 2%float] noRange).
      repeat constructor; vm_compute; discriminate. }
    destruct (new_path_reads_what_was_written ie (identifier "x") literals
                (scalarToString <$> [MNumber 1%float; MNumber 2%float])
                (fun _ => True) noRange noRange
                (MScalarValue (MNumber 5%float)) initialState 0 Hclosed HK)
      as (s' & Hset & Hget & _); try done.
    exists s'. split; [exact Hset|exact Hget].
Defined.

(** ** Unbound and killed variables *)

Definition variableDoesNotExist (r : TextRange) : MError :=
  {| message := "Variable does not exist";
     errorLine := line (start r); errorColumn := column (start r) |}.

Lemma lookupName_nothing_frame name stack n :
  lookupName name stack n = LookupNothing ->
  forall j, (j < n)%nat ->
    exists env, stack !! j = Some (Some env) /\ bindings env !! name = None.
Proof.
  induction n as [|i IH]; simpl; [intros _ j; lia|].
  destruct (stack !! i) as [[env|]|] eqn:Ei; try done.
  destruct (bindings env !! name) as [[w|r]|] eqn:E; try done.
  intros Hrest j Hj. destruct (decide (j = i)) as [->|]; [by exists env|].
  apply IH; [done|lia].
Qed.

Lemma interpretVariable_unbound (ie : ExpressionAstNode -> M bool)
    (name : IdentifierAstNode) (r : TextRange) (s : InterpreterState) :
  lookupName (text name) (environmentStack s) (length (environmentStack s)) = LookupNothing ->
  environmentStack s <> [] ->
  interpretVariable ie (MkVariable name [] r) s
  = Ok true (setValueStack (emptyString :: valueStack s) s).
Proof.
  intros Hnothing Hstack.
  destruct (lookupName_nothing_frame _ _ _ Hnothing 0%nat) as (g & Hg & Hname).
  { destruct (environmentStack s); [done|simpl; lia]. }
  unfold interpretVariable, getVariableReference, getReference. simpl.
  unfold bind at 1 2 3. unfold getState at 1. rewrite Hnothing, Hg. simpl.
  unfold bind at 1, getReferenceValue, bind at 1, getState at 1.
  destruct (environmentStack s) as [|slot stack] eqn:Es; [done|].
  injection Hg as ->. simpl. rewrite decide_True by done. by rewrite Hname.
Qed.

(** A name that no frame binds reads as the empty string when it has no
    subscript, and is an error when it has one: the subscripts are not
    evaluated, and nothing but the value stack or the error list changes. *)
Theorem unbound_variable_reads (ie : ExpressionAstNode -> M bool) (name : IdentifierAstNode)
    (nodes : list ExpressionAstNode) (r : TextRange) (s : InterpreterState) :
  lookupName (text name) (environmentStack s) (length (environmentStack s)) = LookupNothing ->
  environmentStack s <> [] ->
  interpretVariable ie (MkVariable name nodes r) s
  = match nodes with
    | [] => Ok true (setValueStack (emptyString :: valueStack s) s)
    | _ => Ok false (setErrors (errors s ++ [variableDoesNotExist r]) s)
    end.
Proof.
  intros Hnothing Hstack.
  destruct nodes as [|node nodes]; [by apply interpretVariable_unbound|].
  destruct (lookupName_nothing_frame _ _ _ Hnothing 0%nat) as (g & Hg & Hname).
  { destruct (environmentStack s); [done|simpl; lia]. }
  unfold interpretVariable, getVariableReference, getReference.
  cbn [variableName variableSubscripts variableRange default length].
  unfold bind at 1 2 3. unfold getState at 1. rewrite Hnothing, Hg.
  reflexivity.
Qed.

(** In the initial state [x] reads as the empty string and [x(1)] is an
    error. *)
Lemma unbound_variable_reads_witness :
  let ie := interpretExpression (H := exampleEngine) 1 in
  interpretVariable ie (MkVariable (identifier "x") [] noRange) initialState
  = Ok true (setValueStack [emptyString] initialState)
  /\ interpretVariable ie
       (MkVariable (identifier "x") [NumberLiteral 1%float noRange] noRange) initialState
     = Ok false (setErrors [variableDoesNotExist noRange] initialState).
Proof.
  intros ie. split.
  - apply (unbound_variable_reads ie (identifier "x") [] noRange initialState);
      [reflexivity|discriminate].
  - apply (unbound_variable_reads ie (identifier "x") [NumberLiteral 1%float noRange]
             noRange initialState); [reflexivity|discriminate].
Defined.

(** The frames other than [environment] do not bind [name], and the stack
    has no hole. *)
Definition boundOnlyIn (environment : nat) (name : string)
    (stack : list (option Environment)) : Prop :=
  Forall (fun slot =>
            match slot with
            | Some env => frame_id env = environment \/ bindings env !! name = None
            | None => False
            end) stack.

(** The frames of the stack are different objects. *)
Definition distinctFrames (stack : list (option Environment)) : Prop :=
  forall i j env env',
    stack !! i = Some (Some env) -> stack !! j = Some (Some env') ->
    frame_id env = frame_id env' -> i = j.

(** The index of the frame where the scan of [getReference] finds [name],
    from frame [i - 1] down. *)
Fixpoint binderIndex (name : string) (stack : list (option Environment)) (i : nat)
    : option nat :=
  match i with
  | O => None
  | S j =>
      match stack !! j with
      | Some (Some possibleEnvironment) =>
          match bindings possibleEnvironment !! name with
          | None => binderIndex name stack j
          | Some _ => Some j
          end
      | _ => None
      end
  end.

Lemma lookupName_deleted name environment stack n :
  boundOnlyIn environment name stack -> (n <= length stack)%nat ->
  lookupName name (updateFrames environment (delete name) stack) n = LookupNothing.
Proof.
  intros Honly. induction n as [|i IH]; simpl; [done|]. intros Hi.
  unfold updateFrames at 1. rewrite list_lookup_fmap.
  destruct (stack !! i) as [slot|] eqn:Ei; [|apply lookup_ge_None in Ei; lia].
  unfold boundOnlyIn in Honly. rewrite Forall_lookup in Honly.
  specialize (Honly i slot Ei). destruct slot as [env|]; [|done]. simpl.
  case_decide as Hid; simpl.
  - rewrite lookup_delete_eq. apply IH. lia.
  - destruct Honly as [?|Hnone]; [done|]. rewrite Hnone. apply IH. lia.
Qed.

Lemma lookupName_other_frames name environment f stack n :
  (forall i env, (i < n)%nat -> stack !! i = Some (Some env) -> frame_id env <> environment) ->
  lookupName name (updateFrames environment f stack) n = lookupName name stack n.
Proof.
  induction n as [|i IH]; simpl; [done|]. intros Hother.
  unfold updateFrames at 1. rewrite list_lookup_fmap.
  destruct (stack !! i) as [[env|]|] eqn:Ei; simpl; try done.
  rewrite decide_False by (apply (Hother i); [lia|done]).
  rewrite IH; [done|]. intros i' env' Hi'. apply Hother. lia.
Qed.

Lemma lookupName_below name environment value stack n j :
  distinctFrames stack ->
  lookupName name stack n = LookupBinding environment value ->
  binderIndex name stack n = Some j ->
  lookupName name (updateFrames environment (delete name) stack) n
  = lookupName name stack j.
Proof.
  intros Hdistinct. induction n as [|i IH]; simpl; [done|].
  unfold updateFrames at 1. rewrite list_lookup_fmap.
  destruct (stack !! i) as [[env|]|] eqn:Ei; simpl; try done.
  destruct (bindings env !! name) as [[w|r]|] eqn:E; try done.
  - intros [= <- <-] [= <-]. rewrite decide_True by done. simpl. rewrite lookup_delete_eq.
    apply lookupName_other_frames. intros i' env' Hi' Ei' Hid.
    specialize (Hdistinct i' i env' env Ei' Ei Hid). lia.
  - intros Hfound Hindex. case_decide; simpl.
    + rewrite lookup_delete_eq. by apply IH.
    + rewrite E. by apply IH.
Qed.

Lemma lookupName_frame name stack n environment value :
  lookupName name stack n = LookupBinding environment value ->
  exists j env,
    stack !! j = Some (Some env) /\ frame_id env = environment
    /\ bindings env !! name = Some (Binding value).
Proof.
  induction n as [|i IH]; simpl; [done|].
  destruct (stack !! i) as [[env|]|] eqn:Ei; try done.
  destruct (bindings env !! name) as [[w|r]|] eqn:E; try done.
  intros [= <- <-]. by exists i, env.
Qed.

Lemma findFrame_distinct stack j env :
  distinctFrames stack -> stack !! j = Some (Some env) ->
  findFrame (frame_id env) stack = Some env.
Proof.
  revert j. induction stack as [|slot stack IH]; intros j Hdistinct Hj; [done|].
  assert (distinctFrames stack) as Htail.
  { intros i i' e e' Hi Hi' Hid.
    specialize (Hdistinct (S i) (S i') e e' Hi Hi' Hid). lia. }
  destruct slot as [env0|]; simpl.
  - case_decide as Hid.
    + specialize (Hdistinct 0%nat j env0 env eq_refl Hj Hid). subst j.
      by injection Hj as ->.
    + destruct j as [|j]; [injection Hj as ->; done|]. by apply (IH j).
  - destruct j as [|j]; [done|]. by apply (IH j).
Qed.

Lemma distinctFrames_updateFrames environment f stack :
  distinctFrames stack -> distinctFrames (updateFrames environment f stack).
Proof.
  intros Hdistinct i j env env'. unfold updateFrames. rewrite !list_lookup_fmap.
  destruct (stack !! i) as [[e|]|] eqn:Ei; simpl; try done.
  destruct (stack !! j) as [[e'|]|] eqn:Ej; simpl; try done.
  intros Hi Hj Hid. apply (Hdistinct i j e e' Ei Ej).
  repeat case_decide; simplify_eq; simpl in *; congruence.
Qed.

(** A bound name without subscripts reads the value of the frame where the
    scan finds it. *)
Lemma interpretVariable_bound (ie : ExpressionAstNode -> M bool) (name : IdentifierAstNode)
    (r : TextRange) (s : InterpreterState) (environment : nat) (value : MValue) :
  distinctFrames (environmentStack s) ->
  lookupName (text name) (environmentStack s) (length (environmentStack s))
  = LookupBinding environment value ->
  interpretVariable ie (MkVariable name [] r) s
  = Ok true (setValueStack (mValueToScalar (heap s) value :: valueStack s) s).
Proof.
  intros Hdistinct Hbound.
  destruct (lookupName_frame _ _ _ _ _ Hbound) as (j & env & Hj & <- & Hvalue).
  unfold interpretVariable, getVariableReference, getReference. simpl.
  unfold bind at 1 2 3. unfold getState at 1. rewrite Hbound. simpl.
  unfold bind at 1, getReferenceValue, bind at 1, getState at 1.
  rewrite (findFrame_distinct _ _ _ Hdistinct Hj), Hvalue. reflexivity.
Qed.

(** [kill x], for a name that the scan of the frames finds bound, deletes
    that binding in its frame and continues, whatever the other frames
    bind.  When no other frame binds [x], the name is unbound afterwards and
    reads as the empty string.  When the frames are different objects and a
    frame below binds [x], that binding shows again: [x] reads its value. *)
Theorem kill_unbinds (ie : ExpressionAstNode -> M bool) (name : IdentifierAstNode)
    (r r' : TextRange) (s : InterpreterState) (environment : nat) (value : MValue) :
  lookupName (text name) (environmentStack s) (length (environmentStack s))
  = LookupBinding environment value ->
  let s' :=
    setEnvironmentStack
      (updateFrames environment (delete (text name)) (environmentStack s)) s in
  let lookup t := lookupName (text name) (environmentStack t) (length (environmentStack t)) in
  interpretKill ie [MkVariable name [] r] s = Ok CommandResult.Continue s'
  /\ (boundOnlyIn environment (text name) (environmentStack s) ->
      lookup s' = LookupNothing
      /\ interpretVariable ie (MkVariable name [] r') s'
         = Ok true (setValueStack (emptyString :: valueStack s') s'))
  /\ (forall j environment' value',
        distinctFrames (environmentStack s) ->
        binderIndex (text name) (environmentStack s) (length (environmentStack s)) = Some j ->
        lookupName (text name) (environmentStack s) j = LookupBinding environment' value' ->
        lookup s' = LookupBinding environment' value'
        /\ interpretVariable ie (MkVariable name [] r') s'
           = Ok true (setValueStack (mValueToScalar (heap s') value' :: valueStack s') s')).
Proof.
  intros Hbound s' lookup. split; [|split].
  - unfold interpretKill, interpretKillArgs, getReference. simpl.
    unfold bind at 1 2. unfold getState at 1. by rewrite Hbound.
  - intros Honly.
    assert (lookup s' = LookupNothing) as Hnothing.
    { unfold lookup. simpl. apply lookupName_deleted; [done|].
      by rewrite length_updateFrames. }
    split; [done|]. apply (interpretVariable_unbound ie name r' s' Hnothing).
    simpl. intros Hnil. apply (f_equal length) in Hnil.
    rewrite length_updateFrames in Hnil. destruct (environmentStack s); [|done]. done.
  - intros j environment' value' Hdistinct Hindex Hbelow.
    assert (lookup s' = LookupBinding environment' value') as Hshown.
    { unfold lookup. simpl. rewrite length_updateFrames.
      by rewrite (lookupName_below _ _ value _ _ j). }
    split; [done|].
    apply (interpretVariable_bound ie name r' s' environment' value');
      [by apply distinctFrames_updateFrames|exact Hshown].
Qed.

(** A stack of two frames that both bind [a], as after
    [n a  s a="hi"  n a  s a="hello"]. *)
Definition shadowedA : InterpreterState :=
  setEnvironmentStack
    [Some {| frame_id := 0; bindings := ∅ |};
     Some {| frame_id := 1; bindings := {["a" := Binding (MScalarValue (MString "hi"))]} |};
     Some {| frame_id := 2;
             bindings := {["a" := Binding (MScalarValue (MString "hello"))]} |}]
    initialState.

(** [k a] with [a] bound in two frames: [a], which read [hello], then reads
    [hi]; after [x=5] in the initial state, [k x] leaves [x] unbound. *)
Lemma kill_unbinds_witness :
  let ie := interpretExpression (H := exampleEngine) 1 in
  let a := MkVariable (identifier "a") [] noRange in
  let x := MkVariable (identifier "x") [] noRange in
  let s :=
    setEnvironmentStack
      (updateFrames 0 <["x" := Binding (MScalarValue (MNumber 5%float))]>
         (environmentStack initialState)) initialState in
  (exists s',
     interpretKill ie [a] shadowedA = Ok CommandResult.Continue s'
     /\ interpretVariable ie a s' = Ok true (setValueStack [MString "hi"] s'))
  /\ interpretKill ie [x] s = Ok CommandResult.Continue initialState
  /\ interpretVariable ie x initialState
     = Ok true (setValueStack [emptyString] initialState).
Proof.
  intros ie a x s. split.
  - destruct (kill_unbinds ie (identifier "a") noRange noRange shadowedA 2
                (MScalarValue (MString "hello")) eq_refl) as (Hkill & _ & Hshadow).
    destruct (Hshadow 2%nat 1%nat (MScalarValue (MString "hi"))) as [_ Hread];
      [|reflexivity|reflexivity|].
    + intros [|[|[|i]]] [|[|[|j]]] env env' Hi Hj Hid; simpl in *; simplify_eq;
        simpl in *; by try lia.
    + eexists. split; [exact Hkill|exact Hread].
  - destruct (kill_unbinds ie (identifier "x") noRange noRange s 0
                (MScalarValue (MNumber 5%float)) eq_refl) as (Hkill & Hunbound & _).
    destruct Hunbound as [_ Hread]; [repeat constructor|].
    split; [exact Hkill|exact Hread].
Defined.

(** The repository's test "kill one identifier":
    [n a], [s a="hi"], [n a], [s a="hello"], [w !,a], [k a], [w !,a],
    [k a], [w !,a] writes [hello], [hi] and an empty line. *)
Definition killOneTokens : list (list Token) :=
  [ [token TokenKind.TrailingWhitespace 0 0 0];
    [token TokenKind.LeadingWhitespace 1 0 4; identifierToken "n" 1 4 5;
     token TokenKind.Space 1 5 6; identifierToken "a" 1 6 7;
     token TokenKind.TrailingWhitespace 1 7 7];
    [token TokenKind.LeadingWhitespace 2 0 4; identifierToken "s" 2 4 5;
     token TokenKind.Space 2 5 6; identifierToken "a" 2 6 7;
     token TokenKind.Equals 2 7 8; stringToken "hi" 2 8 12;
     token TokenKind.TrailingWhitespace 2 12 12];
    [token TokenKind.LeadingWhitespace 3 0 4; identifierToken "n" 3 4 5;
     token TokenKind.Space 3 5 6; identifierToken "a" 3 6 7;
     token TokenKind.TrailingWhitespace 3 7 7];
    [token TokenKind.LeadingWhitespace 4 0 4; identifierToken "s" 4 4 5;
     token TokenKind.Space 4 5 6; identifierToken "a" 4 6 7;
     token TokenKind.Equals 4 7 8; stringToken "hello" 4 8 15;
     token TokenKind.TrailingWhitespace 4 15 15];
    [token TokenKind.LeadingWhitespace 5 0 4; identifierToken "w" 5 4 5;
     token TokenKind.Space 5 5 6; token TokenKind.ExclamationPoint 5 6 7;
     token TokenKind.Comma 5 7 8; identifierToken "a" 5 8 9;
     token TokenKind.TrailingWhitespace 5 9 9];
    [token TokenKind.LeadingWhitespace 6 0 4; identifierToken "k" 6 4 5;
     token TokenKind.Space 6 5 6; identifierToken "a" 6 6 7;
     token TokenKind.TrailingWhitespace 6 7 7];
    [token TokenKind.LeadingWhitespace 7 0 4; identifierToken "w" 7 4 5;
     token TokenKind.Space 7 5 6; token TokenKind.ExclamationPoint 7 6 7;
     token TokenKind.Comma 7 7 8; identifierToken "a" 7 8 9;
     token TokenKind.TrailingWhitespace 7 9 9];
    [token TokenKind.LeadingWhitespace 8 0 4; identifierToken "k" 8 4 5;
     token TokenKind.Space 8 5 6; identifierToken "a" 8 6 7;
     token TokenKind.TrailingWhitespace 8 7 7];
    [token TokenKind.LeadingWhitespace 9 0 4; identifierToken "w" 9 4 5;
     token TokenKind.Space 9 5 6; token TokenKind.ExclamationPoint 9 6 7;
     token TokenKind.Comma 9 7 8; identifierToken "a" 9 8 9;
     token TokenKind.TrailingWhitespace 9 9 9] ].

Example kill_one_identifier :
  interpretTokens (H := exampleEngine) 20 killOneTokens
  = Some (Returned (newline ++ "hello" ++ newline ++ "hi" ++ newline) []).
Proof. vm_compute. reflexivity. Qed.

(** ** The value stack *)

(** [k] values at least lie on top of [base]. *)
Definition above (base : list MScalar) (k : nat) (s : InterpreterState) : Prop :=
  exists extra : list MScalar, valueStack s = (extra ++ base)%list /\ (k <= length extra)%nat.

(** [m] leaves what is on the value stack where it is. *)
Definition level {A} (m : M A) : Prop :=
  forall base k, hoare (above base k) m (fun _ => above base k).

(** [m] moreover leaves a value on top when it returns [true]. *)
Definition pushing (m : M bool) : Prop :=
  forall base k, hoare (above base k) m (fun ok : bool => above base (if ok then S k else k)).

Lemma above_mono base k k' s : (k' <= k)%nat -> above base k s -> above base k' s.
Proof. intros Hk (extra & E & Hlen). exists extra. split; [done|lia]. Qed.

Lemma above_same base k s s' : valueStack s' = valueStack s -> above base k s -> above base k s'.
Proof. intros E (extra & E' & Hlen). exists extra. split; [congruence|done]. Qed.

Lemma use_level {A} (m : M A) base k :
  level m -> hoare (above base k) m (fun _ => above base k).
Proof. intros H. apply H. Qed.

Lemma use_pushing (m : M bool) base k :
  pushing m -> hoare (above base k) m (fun ok : bool => above base (if ok then S k else k)).
Proof. intros H. apply H. Qed.

Lemma level_grows {A} (m : M A) s x s' :
  level m -> m s = Ok x s' -> exists extra : list MScalar, valueStack s' = (extra ++ valueStack s)%list.
Proof.
  intros H E. destruct (H (valueStack s) 0%nat s x s') as (extra & E' & _); [|done|by eexists].
  exists []. split; [done|simpl; lia].
Qed.

Lemma pushing_grows (m : M bool) s s' :
  pushing m -> m s = Ok true s' ->
  exists (v : MScalar) (extra : list MScalar), valueStack s' = (v :: extra ++ valueStack s)%list.
Proof.
  intros H E. destruct (H (valueStack s) 0%nat s true s') as (extra & E' & Hlen); [|done|].
  - exists []. split; [done|simpl; lia].
  - destruct extra as [|v extra]; [simpl in Hlen; lia|]. by exists v, extra.
Qed.

Lemma pushing_level (m : M bool) : pushing m -> level m.
Proof.
  intros H base k s ok s' Hs E. specialize (H base k s ok s' Hs E).
  destruct ok; [|done]. eapply above_mono; [|done]. lia.
Qed.

Lemma hoare_abort {A} P e (Q : A -> InterpreterState -> Prop) : hoare P (abort e) Q.
Proof. intros s x s' _. discriminate. Qed.

Lemma level_same {A} (m : M A) :
  (forall s x s', m s = Ok x s' -> valueStack s' = valueStack s) -> level m.
Proof. intros H base k s x s' Hs E. eapply above_same; [|done]. by eapply H. Qed.

Lemma level_bind {A B} (m : M A) (f : A -> M B) :
  level m -> (forall x, level (f x)) -> level (bind m f).
Proof.
  intros Hm Hf base k. eapply hoare_bind; [apply Hm|]. intros x. apply Hf.
Qed.

Lemma hoare_bind_assoc {A B C} P Q (m : M A) (f : A -> M B) (g : B -> M C) :
  hoare P (bind m (fun x => bind (f x) g)) Q -> hoare P (bind (bind m f) g) Q.
Proof.
  intros H s z s' HP E. apply (H s z s' HP). revert E. unfold bind.
  by destruct (m s).
Qed.

Lemma level_ret {A} (x : A) : level (ret x).
Proof. intros base k. by apply hoare_ret. Qed.

Lemma level_abort {A} e : level (@abort A e).
Proof. intros base k. apply hoare_abort. Qed.

Lemma level_getState : level getState.
Proof. apply level_same. by intros s x s' [= _ <-]. Qed.

Lemma level_modify f : (forall s, valueStack (f s) = valueStack s) -> level (modify f).
Proof. intros H. apply level_same. intros s x s' [= _ <-]. apply H. Qed.

Lemma stack_pop base k : hoare (above base (S k)) pop (fun _ => above base k).
Proof.
  intros s x s' (extra & E & Hlen). unfold pop. rewrite E.
  destruct extra as [|v extra]; [simpl in Hlen; lia|]. simpl. intros [= _ <-].
  exists extra. split; [done|]. simpl in Hlen. lia.
Qed.

Lemma stack_push v base k : hoare (above base k) (push v) (fun _ => above base (S k)).
Proof.
  intros s x s' (extra & E & Hlen). intros [= _ <-].
  exists (v :: extra). split; [simpl; by rewrite E|simpl; lia].
Qed.

Lemma level_reportError message range : level (reportError message range).
Proof. by apply level_modify. Qed.

Lemma level_newArray v : level (newArray v).
Proof. apply level_same. by intros s x s' [= _ <-]. Qed.

Lemma level_getReferenceValue r : level (getReferenceValue r).
Proof.
  apply level_same. intros s x s' E. by rewrite (getReferenceValue_state _ _ _ _ E).
Qed.

Lemma level_environmentSet id name v : level (environmentSet id name v).
Proof. by apply level_modify. Qed.

Lemma level_environmentDelete id name : level (environmentDelete id name).
Proof. by apply level_modify. Qed.

Lemma level_setReferenceValue r v : level (setReferenceValue r v).
Proof. destruct r; simpl; [by apply level_modify|apply level_environmentSet]. Qed.

Lemma level_setSpecialVariable name v : level (setSpecialVariable name v).
Proof.
  apply level_same. intros s x s'. unfold setSpecialVariable, bind, getState, modify.
  destruct (environmentStack s) as [|[g|] rest] eqn:E; try done. by intros [= _ <-].
Qed.

Lemma level_getSpecialVariable name : level (getSpecialVariable name).
Proof.
  apply level_same. intros s x s'. unfold getSpecialVariable, bind, getState.
  destruct (environmentStack s !! 0%nat) as [[g|]|]; try done.
  destruct (bindings g !! name) as [[w|r]|]; try done; by intros [= _ <-].
Qed.

Lemma level_pushEnvironment b : level (pushEnvironment b).
Proof. apply level_same. by intros s x s' [= _ <-]. Qed.

Lemma level_resetEnvironmentStack : level resetEnvironmentStack.
Proof. apply level_same. by intros s x s' [= _ <-]. Qed.

Lemma level_setEnvironmentStackLength n : level (setEnvironmentStackLength n).
Proof. by apply level_modify. Qed.

Lemma level_mapM {A B} (f : A -> M B) l : (forall x, level (f x)) -> level (mapM f l).
Proof.
  intros Hf. induction l as [|x rest IH]; simpl; [apply level_ret|].
  apply level_bind; [apply Hf|]. intros y. apply level_bind; [apply IH|].
  intros ys. apply level_ret.
Qed.

Lemma level_mValueCopy depth v : level (mValueCopy depth v).
Proof.
  revert v. induction depth as [|depth IH]; intros [v|l]; simpl;
    try apply level_ret; try apply level_abort.
  apply level_bind; [apply level_getState|]. intros s0.
  destruct (heap s0 !! l); [|apply level_abort].
  apply level_bind.
  - apply level_mapM. intros pair. apply level_bind; [apply IH|]. intros ?. apply level_ret.
  - intros copies. apply level_same. by intros s1 y s' [= _ <-].
Qed.

Create HintDb stack.

#[local] Hint Resolve level_ret level_abort level_getState level_reportError level_newArray
  level_getReferenceValue level_environmentSet level_environmentDelete
  level_setReferenceValue level_setSpecialVariable level_getSpecialVariable
  level_pushEnvironment level_resetEnvironmentStack level_setEnvironmentStackLength
  level_mValueCopy : stack.

Ltac above_finish :=
  cbv beta in *; cbn [andb];
  try match goal with
      | |- context [if ?b then _ else _] => is_var b; destruct b
      end;
  match goal with
  | H : above ?base _ ?s |- above ?base _ ?s => eapply above_mono; [|exact H]; lia
  end.

Ltac stack_known :=
  first [ assumption
        | match goal with H : forall _, _ |- _ => solve [apply H] end
        | solve [auto with stack] ].

Ltac stack_call :=
  first [ apply stack_pop
        | apply stack_push
        | apply use_pushing; stack_known
        | apply use_level; stack_known ].

Ltac stack_step :=
  lazymatch goal with
  | |- hoare _ (ret _) _ => apply hoare_ret; intros ? ?; above_finish
  | |- hoare _ (abort _) _ => apply hoare_abort
  | |- hoare _ (throw _) _ => apply hoare_abort
  | |- hoare _ (modify _) _ =>
      eapply hoare_weaken;
        [apply use_level, level_modify; intros ?; reflexivity
        |intros ? ?; eassumption|intros ? ? ?; above_finish]
  | |- hoare _ (bind (match ?x with _ => _ end) _) _ => destruct x
  | |- hoare _ (bind (bind _ _) _) _ => apply hoare_bind_assoc
  | |- hoare _ (bind (modify _) _) _ =>
      eapply hoare_bind;
        [apply use_level, level_modify; intros ?; reflexivity|intros ?; cbv beta]
  | |- hoare _ (bind _ _) _ => eapply hoare_bind; [stack_call|intros ?; cbv beta]
  | |- hoare _ (match ?x with _ => _ end) _ => destruct x
  | |- hoare _ _ _ =>
      eapply hoare_weaken;
        [stack_call|intros ? ?; eassumption|intros ? ? ?; above_finish]
  end.

Ltac stack_auto := intros ? ?; repeat stack_step.

Section StackStep.

Context {engine : JsEngine}.
Variable ie : ExpressionAstNode -> M bool.
Variable ic : CommandAstNode -> M CommandResult.t.
Variable fuel : nat.
Hypothesis Hie : forall e, pushing (ie e).
Hypothesis Hic : forall c, level (ic c).

#[local] Hint Resolve Hie Hic : stack.

Lemma level_getSubscriptKey i subscripts subscriptValues :
  level (getSubscriptKey ie i subscripts subscriptValues).
Proof. unfold getSubscriptKey. stack_auto. Qed.

#[local] Hint Resolve level_getSubscriptKey : stack.

Lemma level_getReferenceLoop count :
  forall i environment name subscripts subscriptValues canCreate array subscriptKey value,
    level (getReferenceLoop ie count i environment name subscripts subscriptValues canCreate
             array subscriptKey value).
Proof.
  induction count as [|count IH];
    intros i environment name subscripts subscriptValues canCreate array subscriptKey value;
    simpl; stack_auto.
Qed.

#[local] Hint Resolve level_getReferenceLoop : stack.

Lemma level_getReference name subscriptCount subscripts subscriptValues canCreate :
  level (getReference ie name subscriptCount subscripts subscriptValues canCreate).
Proof.
  unfold getReference. apply level_bind; [apply level_getState|]. intros s0.
  destruct (lookupName _ _ _); stack_auto.
Qed.

#[local] Hint Resolve level_getReference : stack.

Lemma level_getVariableReference node subscriptCount subscriptValues canCreate :
  level (getVariableReference ie node subscriptCount subscriptValues canCreate).
Proof. unfold getVariableReference. stack_auto. Qed.

#[local] Hint Resolve level_getVariableReference : stack.

Lemma level_getCallArgumentReference node : level (getCallArgumentReference ie node).
Proof. unfold getCallArgumentReference. stack_auto. Qed.

Lemma level_setVariable node value : level (setVariable ie node value).
Proof. unfold setVariable. stack_auto. Qed.

Lemma pushing_interpretVariable node : pushing (interpretVariable ie node).
Proof. unfold interpretVariable. stack_auto. Qed.

#[local] Hint Resolve level_getCallArgumentReference level_setVariable
  pushing_interpretVariable : stack.

Lemma level_externArguments args : level (externArguments ie args).
Proof. induction args as [|arg rest IH]; simpl; stack_auto. Qed.

#[local] Hint Resolve level_externArguments : stack.

Lemma pushing_interpretExtern node extern :
  pushing (interpretExtern ie node extern true).
Proof. unfold interpretExtern. destruct node. stack_auto. Qed.

Lemma level_interpretExtern node extern hasReturnValue :
  level (interpretExtern ie node extern hasReturnValue).
Proof. unfold interpretExtern. destruct node. stack_auto. Qed.

Lemma level_interpretChildCommands children : level (interpretChildCommands ic children).
Proof. induction children as [|command rest IH]; simpl; stack_auto. Qed.

#[local] Hint Resolve pushing_interpretExtern level_interpretExtern
  level_interpretChildCommands : stack.

Lemma level_interpretTopLevel start : level (interpretTopLevel ic start).
Proof. unfold interpretTopLevel. stack_auto. Qed.

Lemma level_bindArguments environment params args :
  level (bindArguments ie environment params args).
Proof.
  revert args. induction params as [|param rest IH]; intros [|arg args]; simpl; stack_auto.
Qed.

Lemma level_bindMissing environment params : level (bindMissing environment params).
Proof. induction params as [|param rest IH]; simpl; stack_auto. Qed.

Lemma level_bindValues environment params args :
  level (bindValues environment params args).
Proof.
  revert args. induction params as [|param rest IH]; intros [|arg args]; simpl; stack_auto.
Qed.

#[local] Hint Resolve level_interpretTopLevel level_bindArguments level_bindMissing : stack.

(** The end of a call: the values that the body left are cut off, or one
    value is left on top. *)
Lemma stack_callEnd (body : M CommandResult.t) (hasReturnValue : bool) (n : nat) base k :
  level body ->
  hoare (above base k)
    (let* s1 := getState in
     let callValueStackLength := length (valueStack s1) in
     let* _ := body in
     (if hasReturnValue then
        let* s2 := getState in
        if bool_decide (length (valueStack s2) = callValueStackLength)
        then push emptyString else ret tt
      else truncateValueStack callValueStackLength) ;;;
     setEnvironmentStackLength n ;;;
     ret true)
    (fun ok : bool => above base (if ok && hasReturnValue then S k else k)).
Proof.
  intros Hbody s ok s' (extra & E & Hlen). unfold bind at 1, getState at 1.
  unfold bind at 1. destruct (body s) as [result s2|] eqn:Eb; [|done].
  destruct (level_grows _ _ _ _ Hbody Eb) as (more & Emore).
  destruct hasReturnValue.
  - unfold bind at 1 2, getState at 1. case_bool_decide as Hsame.
    + intros [= <- <-]. exists (emptyString :: more ++ extra)%list. simpl.
      split; [by rewrite Emore, E, <- app_assoc|]. rewrite length_app. lia.
    + intros [= <- <-]. simpl. rewrite Emore, E, length_app in Hsame.
      destruct more as [|v more]; [done|]. exists ((v :: more) ++ extra)%list. simpl.
      split; [by rewrite Emore, E, <- app_assoc|]. rewrite length_app. simpl. lia.
  - unfold bind at 1, truncateValueStack. case_decide as Hle; [|done].
    intros [= <- <-]. exists extra. simpl. split; [|done].
    rewrite Emore, E. rewrite !length_app.
    replace (length more + (length extra + length base) - (length extra + length base))%nat
      with (length more) by lia.
    rewrite drop_app_length. done.
Qed.

Lemma stack_interpretCall node hasReturnValue base k :
  hoare (above base k) (interpretCall ie ic node hasReturnValue)
    (fun ok : bool => above base (if ok && hasReturnValue then S k else k)).
Proof.
  unfold interpretCall. destruct node as [name args range].
  eapply hoare_bind; [apply use_level, level_getState|]. intros s0. cbv beta.
  destruct (tags (ast s0) !! text name) as [tag|].
  - eapply hoare_bind with (R := fun _ => above base k).
    + repeat stack_step.
    + intros [|]; [|repeat stack_step].
      apply stack_callEnd. apply level_interpretTopLevel.
  - destruct (externs s0 !! text name) as [extern|]; [|repeat stack_step].
    destruct hasReturnValue.
    + eapply hoare_weaken; [apply use_pushing, pushing_interpretExtern|done|].
      by intros [|] s.
    + eapply hoare_weaken; [apply use_level, (level_interpretExtern _ _ false)|done|].
      intros ok s. cbv beta. by rewrite andb_false_r.
Qed.

Lemma pushing_interpretCall node : pushing (interpretCall ie ic node true).
Proof.
  intros base k. eapply hoare_weaken; [apply stack_interpretCall|done|].
  intros ok s. cbv beta. by rewrite andb_true_r.
Qed.

Lemma level_interpretCall node hasReturnValue :
  level (interpretCall ie ic node hasReturnValue).
Proof.
  intros base k. eapply hoare_weaken; [apply stack_interpretCall|done|].
  intros ok s. cbv beta. destruct (ok && hasReturnValue); [|done]. apply above_mono. lia.
Qed.

#[local] Hint Resolve pushing_interpretCall level_interpretCall : stack.

Lemma level_orderDirection direction : level (orderDirection ie direction).
Proof. unfold orderDirection. stack_auto. Qed.

Lemma level_getExtractionStart node : level (getExtractionStart ie node).
Proof. unfold getExtractionStart. destruct node. stack_auto. Qed.

Lemma level_getExtractionEnd node start : level (getExtractionEnd ie node start).
Proof. unfold getExtractionEnd. destruct node. stack_auto. Qed.

Lemma pushing_interpretSelectArgs args range : pushing (interpretSelectArgs ie args range).
Proof. induction args as [|arg rest IH]; simpl; stack_auto. Qed.

#[local] Hint Resolve level_orderDirection level_getExtractionStart level_getExtractionEnd
  pushing_interpretSelectArgs : stack.

Lemma pushing_interpretExpressionStep node : pushing (interpretExpressionStep ie ic node).
Proof.
  destruct node; simpl;
    unfold interpretUnaryOp, interpretBinaryOp, interpretOrderBuiltin,
      interpretLengthBuiltin, interpretExtractBuiltin, interpretSelectBuiltin,
      interpretFindBuiltin, interpretRandomBuiltin, interpretAsciiBuiltin,
      interpretCharBuiltin;
    stack_auto.
Qed.

Lemma level_interpretWriteArgs args : level (interpretWriteArgs ie args).
Proof. induction args as [|arg rest IH]; simpl; stack_auto. Qed.

Lemma level_interpretDoBlockLoop children : level (interpretDoBlockLoop ic children).
Proof. induction children as [|command rest IH]; simpl; stack_auto. Qed.

#[local] Hint Resolve level_interpretWriteArgs level_interpretDoBlockLoop : stack.

Lemma level_interpretIf conditions children : level (interpretIf ie ic conditions children).
Proof. induction conditions as [|condition rest IH]; simpl; stack_auto. Qed.

Lemma level_interpretForWithNoArgLoop n children :
  level (interpretForWithNoArgLoop ic n children).
Proof. induction n as [|n IH]; simpl; stack_auto. Qed.

Lemma level_stepVariable variable incrementValue :
  level (stepVariable ie variable incrementValue).
Proof. unfold stepVariable. stack_auto. Qed.

#[local] Hint Resolve level_stepVariable : stack.

Lemma level_interpretForWithStartIncrementLoop n variable incrementValue children :
  level (interpretForWithStartIncrementLoop ie ic n variable incrementValue children).
Proof. induction n as [|n IH]; simpl; stack_auto. Qed.

Lemma level_interpretForWithStartIncrementEndLoop n variable incrementValue endValue
    children :
  level (interpretForWithStartIncrementEndLoop ie ic n variable incrementValue endValue
           children).
Proof. induction n as [|n IH]; simpl; stack_auto. Qed.

#[local] Hint Resolve level_interpretIf level_interpretForWithNoArgLoop
  level_interpretForWithStartIncrementLoop
  level_interpretForWithStartIncrementEndLoop : stack.

Lemma level_interpretForParameter variable parameter children range :
  level (interpretForParameter ie ic fuel variable parameter children range).
Proof.
  unfold interpretForParameter, interpretForWithStart, interpretForWithStartIncrement,
    interpretForWithStartIncrementEnd.
  stack_auto.
Qed.

#[local] Hint Resolve level_interpretForParameter : stack.

Lemma level_interpretForParameters variable parameters children range :
  level (interpretForParameters ie ic fuel variable parameters children range).
Proof. induction parameters as [|parameter rest IH]; simpl; stack_auto. Qed.

Lemma level_interpretSetExtract node value : level (interpretSetExtract ie node value).
Proof. unfold interpretSetExtract. destruct node. stack_auto. Qed.

#[local] Hint Resolve level_interpretForParameters level_interpretSetExtract : stack.

Lemma level_interpretSet args : level (interpretSet ie args).
Proof.
  induction args as [|arg rest IH]; simpl; unfold interpretSetArgument; stack_auto.
Qed.

Lemma level_interpretKillArgs args : level (interpretKillArgs ie args).
Proof. induction args as [|arg rest IH]; simpl; stack_auto. Qed.

Lemma level_interpretSubscripts nodes : level (interpretSubscripts ie nodes).
Proof. induction nodes as [|node rest IH]; simpl; stack_auto. Qed.

Lemma level_mergeChildren destination pairs : level (mergeChildren fuel destination pairs).
Proof. induction pairs as [|[key value] rest IH]; simpl; stack_auto. Qed.

#[local] Hint Resolve level_interpretSet level_interpretKillArgs level_interpretSubscripts
  level_mergeChildren : stack.

Lemma level_interpretCommandStep node : level (interpretCommandStep ie ic fuel node).
Proof.
  destruct node as [condition body range].
  unfold interpretCommandStep, interpretCommandBody, interpretWrite, interpretQuit,
    interpretDoBlock, interpretElse, interpretFor, interpretForWithNoArg, interpretNew,
    interpretKill, interpretMerge, mergeVariables.
  stack_auto.
Qed.

End StackStep.

Lemma stack_interpret `{JsEngine} fuel :
  (forall e, pushing (interpretExpression fuel e))
  /\ (forall c, level (interpretCommand fuel c)).
Proof.
  induction fuel as [|fuel [IHe IHc]]; simpl.
  - split; intros ? ? ?; apply hoare_abort.
  - split; intros;
      [by apply pushing_interpretExpressionStep|by apply level_interpretCommandStep].
Qed.

(** The end of [interpretTag]: the value on top, if the body left one, is
    taken off. *)
Lemma stack_tagEnd (body : M CommandResult.t) (n : nat) base k :
  level body ->
  hoare (above base k)
    (let* s1 := getState in
     let callValueStackLength := length (valueStack s1) in
     let* result := body in
     match result with
     | CommandResult.Halt => ret None
     | _ =>
         setEnvironmentStackLength n ;;;
         let* s2 := getState in
         if bool_decide (length (valueStack s2) = callValueStackLength)
         then ret (Some (MScalarValue emptyString))
         else let* v := pop in ret (Some (MScalarValue v))
     end)
    (fun _ => above base k).
Proof.
  intros Hbody s x s' (extra & E & Hlen). unfold bind at 1, getState at 1.
  unfold bind at 1. destruct (body s) as [result s2|] eqn:Eb; [|done].
  destruct (level_grows _ _ _ _ Hbody Eb) as (more & Emore).
  assert (forall s3 : InterpreterState, valueStack s3 = valueStack s2 ->
            (let* s2 := getState in
             if bool_decide (length (valueStack s2) = length (valueStack s))
             then ret (Some (MScalarValue emptyString))
             else let* v := pop in ret (Some (MScalarValue v))) s3 = Ok x s' ->
            above base k s') as Hend.
  { intros s3 E3. unfold bind at 1, getState at 1. case_bool_decide as Hsame.
    - intros [= _ <-]. exists (more ++ extra)%list.
      split; [by rewrite E3, Emore, E, <- app_assoc|]. rewrite length_app. lia.
    - unfold bind, pop. rewrite E3, Emore.
      rewrite E3, Emore, length_app in Hsame.
      destruct more as [|v more]; [simpl in Hsame; lia|]. simpl. intros [= _ <-].
      exists (more ++ extra)%list. simpl.
      split; [by rewrite E, <- app_assoc|]. rewrite length_app. lia. }
  destruct result.
  - unfold bind at 1, setEnvironmentStackLength, modify. by apply Hend.
  - unfold bind at 1, setEnvironmentStackLength, modify. by apply Hend.
  - intros [= _ <-]. exists (more ++ extra)%list.
    split; [by rewrite Emore, E, <- app_assoc|]. rewrite length_app. lia.
Qed.

Lemma level_interpretTag `{JsEngine} fuel tag args : level (interpretTag fuel tag args).
Proof.
  destruct (stack_interpret fuel) as [He Hc].
  pose proof (level_interpretTopLevel _ Hc (default 0%nat (index <$> tag))) as Hbody.
  pose proof level_bindValues as Hvalues. pose proof level_bindMissing as Hmissing.
  intros base k. unfold interpretTag.
  eapply hoare_bind; [apply use_level, level_getState|]. intros s0. cbv beta.
  eapply hoare_bind with (R := fun _ => above base k).
  - destruct (tag ≫= params); repeat stack_step.
  - intros []. by apply stack_tagEnd.
Qed.

(** What is on the value stack stays there: an expression, a command or a
    tag only adds values on top of it, and an expression that succeeds adds
    one at least.  So no value is taken off the stack that was not put
    there by the same expression or command. *)
Theorem value_stack_is_kept `{JsEngine} (fuel : nat) :
  (forall e s ok s', interpretExpression fuel e s = Ok ok s' ->
     exists extra : list MScalar,
       valueStack s' = (extra ++ valueStack s)%list
       /\ (Nat.b2n ok <= length extra)%nat)
  /\ (forall c s result s', interpretCommand fuel c s = Ok result s' ->
        exists extra : list MScalar, valueStack s' = (extra ++ valueStack s)%list)
  /\ (forall tag args s result s', interpretTag fuel tag args s = Ok result s' ->
        exists extra : list MScalar, valueStack s' = (extra ++ valueStack s)%list).
Proof.
  destruct (stack_interpret fuel) as [He Hc]. split; [|split].
  - intros e s ok s' E.
    destruct (He e (valueStack s) 0%nat s ok s') as (extra & E' & Hlen); [|done|].
    + exists []. split; [done|simpl; lia].
    + exists extra. split; [done|]. by destruct ok.
  - intros c s result s' E. by apply (level_grows _ _ _ _ (Hc c) E).
  - intros tag args s result s' E.
    by apply (level_grows _ _ _ _ (level_interpretTag fuel tag args) E).
Qed.

(** [1+2] on a stack that holds a value leaves that value under the sum. *)
Lemma value_stack_is_kept_witness :
  let s := setValueStack [MString "below"] initialState in
  let e :=
    BinaryOpNode (NumberLiteral 1%float noRange) (NumberLiteral 2%float noRange)
      BinaryOp.Add false noRange in
  exists s',
    interpretExpression (H := exampleEngine) 2 e s = Ok true s'
    /\ exists extra : list MScalar,
         valueStack s' = (extra ++ [MString "below"])%list /\ (1 <= length extra)%nat.
Proof.
  intros s e. eexists. split; [vm_compute; reflexivity|].
  apply (proj1 (value_stack_is_kept (H := exampleEngine) 2) e s true).
  vm_compute. reflexivity.
Defined.

(** ** An element of an array *)

(** The element [name(other)] of the array node [l] that [name] holds. *)
Definition elementOf (l : loc) (other : string) (s : InterpreterState) : MScalar :=
  mValueToScalar (heap s) (default (MScalarValue emptyString) (mArrayGet (heap s) l other)).

Lemma mValueToScalar_mArraySet h array key v w :
  mValueToScalar (mArraySet h array key v) w = mValueToScalar h w.
Proof.
  destruct w as [c|l]; [done|]. simpl.
  destruct (decide (l = array)) as [->|Hne]; [|by rewrite mArraySet_lookup_ne].
  destruct (h !! array) as [a|] eqn:Ha.
  - by rewrite (mArraySet_lookup _ _ _ _ _ Ha).
  - unfold mArraySet. rewrite Ha. by rewrite Ha.
Qed.

Lemma interpretVariable_element (ie : ExpressionAstNode -> M bool) (name : IdentifierAstNode)
    (node : ExpressionAstNode) (key : string) (States : InterpreterState -> Prop)
    (r : TextRange) (s : InterpreterState) (environment : nat) (l : loc) :
  lookupName (text name) (environmentStack s) (length (environmentStack s))
  = LookupBinding environment (MArrayValue l) ->
  keysResolveIn States ie (Some [node]) None [key] ->
  States s ->
  (forall canCreate,
     getReference ie (text name) 1 (Some [node]) None canCreate s
     = Ok (FoundReference (ArrayReference l key)) s)
  /\ interpretVariable ie (MkVariable name [node] r) s
     = Ok true (setValueStack (elementOf l key s :: valueStack s) s).
Proof.
  intros Hbound HK Hs. destruct (HK 0%nat key eq_refl) as [Hne Hkey].
  assert (forall canCreate,
            getReference ie (text name) 1 (Some [node]) None canCreate s
            = Ok (FoundReference (ArrayReference l key)) s) as Hfound.
  { intros canCreate. unfold getReference. unfold bind at 1, getState at 1. rewrite Hbound.
    rewrite bind_ret_l. simpl. rewrite bind_ret_l. rewrite (bind_Ok _ _ _ _ _ (Hkey s Hs)).
    by destruct key. }
  split; [done|].
  unfold interpretVariable, getVariableReference. simpl.
  unfold bind at 1 2. rewrite Hfound. reflexivity.
Qed.

(** Writing the element [name(key)] of an array that [name] holds: the
    element then reads as the value written, and every other element reads
    as before.  The subscripts evaluate without effect, to non-empty keys,
    in the states [States], which the write does not leave
    ([keysResolveIn], [closedUnderWrites]): literals in all states,
    variables in the states where they hold their values. *)
Theorem element_reads_what_was_written (ie : ExpressionAstNode -> M bool)
    (name : IdentifierAstNode) (node : ExpressionAstNode) (key : string)
    (States : InterpreterState -> Prop) (r r' : TextRange)
    (value : MValue) (s : InterpreterState) (environment : nat) (l : loc) :
  lookupName (text name) (environmentStack s) (length (environmentStack s))
  = LookupBinding environment (MArrayValue l) ->
  is_Some (heap s !! l) ->
  closedUnderWrites (text name) States ->
  keysResolveIn States ie (Some [node]) None [key] ->
  States s ->
  let s' := setHeap (mArraySet (heap s) l key value) s in
  setVariable ie (MkVariable name [node] r) value s = Ok true s'
  /\ interpretVariable ie (MkVariable name [node] r') s'
     = Ok true (setValueStack (mValueToScalar (heap s) value :: valueStack s') s')
  /\ (forall node' other r'',
        keysResolveIn States ie (Some [node']) None [other] -> other <> key ->
        interpretVariable ie (MkVariable name [node'] r'') s'
        = Ok true (setValueStack (elementOf l other s :: valueStack s') s')).
Proof.
  intros Hbound Hl Hclosed HK Hs s'.
  assert (States s') as Hs' by (destruct Hclosed as (_ & Hset & _); by apply Hset).
  destruct (interpretVariable_element ie name node key States r s environment l Hbound HK Hs)
    as [Hfound _].
  assert (forall node' other r'', keysResolveIn States ie (Some [node']) None [other] ->
            interpretVariable ie (MkVariable name [node'] r'') s'
            = Ok true (setValueStack (elementOf l other s' :: valueStack s') s')) as Hread.
  { intros node' other r'' HK'.
    by apply (interpretVariable_element ie name node' other States r'' s' environment l). }
  split; [|split].
  - unfold setVariable, getVariableReference. simpl.
    unfold bind at 1 2. rewrite Hfound. reflexivity.
  - rewrite (Hread node key r' HK). unfold elementOf. simpl heap.
    rewrite (mArrayGet_mArraySet _ _ _ _ Hl). simpl default.
    by rewrite mValueToScalar_mArraySet.
  - intros node' other r'' HK' Hother. rewrite (Hread node' other r'' HK').
    unfold elementOf. simpl heap. rewrite mValueToScalar_mArraySet.
    destruct Hl as [a Ha]. unfold mArrayGet.
    rewrite (mArraySet_lookup _ _ _ _ _ Ha), Ha. simpl.
    by rewrite lookup_insert_ne.
Qed.

(** [x] holds an array with [x(1)=5], [i] holds 2 and [j] holds 1. *)
Definition arrayX : InterpreterState :=
  setHeap
    {[ 1%positive :=
         {| arrayValue := emptyString;
            arrayChildren := {[ "1" := MScalarValue (MNumber 5%float) ]} |} ]}
    (setEnvironmentStack
       [Some {| frame_id := 0;
                bindings := {["x" := Binding (MArrayValue 1%positive);
                              "i" := Binding (MScalarValue (MNumber 2%float));
                              "j" := Binding (MScalarValue (MNumber 1%float))]} |}]
       initialState).

(** After [x(i)=7], [x(i)] and [x(2)] read 7, and [x(j)] and [x(1)] still
    read 5. *)
Lemma element_reads_what_was_written_witness :
  let ie := interpretExpression (H := exampleEngine) 1 in
  let x node := MkVariable (identifier "x") [node] noRange in
  let variable name := VariableNode (MkVariable (identifier name) [] noRange) in
  let s' := setHeap (mArraySet (heap arrayX) 1%positive "2"
                       (MScalarValue (MNumber 7%float))) arrayX in
  setVariable ie (x (variable "i")) (MScalarValue (MNumber 7%float)) arrayX = Ok true s'
  /\ interpretVariable ie (x (variable "i")) s'
     = Ok true (setValueStack [MNumber 7%float] s')
  /\ interpretVariable ie (x (NumberLiteral 2%float noRange)) s'
     = Ok true (setValueStack [MNumber 7%float] s')
  /\ interpretVariable ie (x (variable "j")) s'
     = Ok true (setValueStack [MNumber 5%float] s')
  /\ interpretVariable ie (x (NumberLiteral 1%float noRange)) s'
     = Ok true (setValueStack [MNumber 5%float] s').
Proof.
  intros ie x variable s'.
  set (States := variablesHold [("i", MNumber 2%float); ("j", MNumber 1%float)]).
  assert (keysResolveIn States ie (Some [variable "i"]) None ["2"]) as Hi.
  { apply (keysResolveIn_weaken States (variablesHold [("i", MNumber 2%float)])).
    - intros s Hs. apply Forall_cons in Hs as [Hs _]. by constructor.
    - apply (keysResolveIn_variables (H := exampleEngine) 0 [("i", MNumber 2%float)]
               noRange).
      repeat constructor; vm_compute; discriminate. }
  assert (keysResolveIn States ie (Some [variable "j"]) None ["1"]) as Hj.
  { apply (keysResolveIn_weaken States (variablesHold [("j", MNumber 1%float)])).
    - intros s Hs. apply Forall_cons in Hs as [_ Hs]. exact Hs.
    - apply (keysResolveIn_variables (H := exampleEngine) 0 [("j", MNumber 1%float)]
               noRange).
      repeat constructor; vm_compute; discriminate. }
  assert (forall k, scalarToString (MNumber k) <> "" ->
            keysResolveIn States ie (Some [NumberLiteral k noRange]) None
              [scalarToString (MNumber k)]) as Hliteral.
  { intros k Hk. apply (keysResolveIn_weaken States (fun _ => True)); [done|].
    apply keysResolve_everywhere with (name := "x").
    apply (keysResolve_literals (H := exampleEngine) 0 [MNumber k] noRange).
    by repeat constructor. }
  destruct (element_reads_what_was_written ie (identifier "x") (variable "i") "2" States
              noRange noRange (MScalarValue (MNumber 7%float)) arrayX 0 1%positive)
    as (Hset & Hget & Hother).
  - reflexivity.
  - by eexists.
  - apply variablesHold_closed. repeat constructor; discriminate.
  - exact Hi.
  - repeat constructor; exists 0%nat; eexists; repeat split; reflexivity.
  - split; [exact Hset|]. split; [exact Hget|]. split; [|split].
    + destruct (element_reads_what_was_written ie (identifier "x")
                  (NumberLiteral 2%float noRange) "2" States
                  noRange noRange (MScalarValue (MNumber 7%float)) arrayX 0 1%positive)
        as (_ & Hget' & _).
      * reflexivity.
      * by eexists.
      * apply variablesHold_closed. repeat constructor; discriminate.
      * apply (Hliteral 2%float). vm_compute. discriminate.
      * repeat constructor; exists 0%nat; eexists; repeat split; reflexivity.
      * exact Hget'.
    + apply (Hother (variable "j") "1" noRange); [exact Hj|discriminate].
    + apply (Hother (NumberLiteral 1%float noRange) "1" noRange); [|discriminate].
      apply (Hliteral 1%float). vm_compute. discriminate.
Defined.

(** ** [$CHAR] and [$ASCII] *)

Lemma fromCharCode_code (c : ascii) :
  fromCharCode (numberOfZ (Z.of_N (N_of_ascii c))) = Some (String c "").
Proof.
  destruct c as [[] [] [] [] [] [] [] []]; vm_compute; reflexivity.
Qed.

(** [$CHAR($ASCII(e))] is the first character of the value of [e], when that
    is not the empty string. *)
Theorem char_inverts_ascii `{JsEngine} (fuel : nat) (e : ExpressionAstNode)
    (r r' : TextRange) (s s1 : InterpreterState) (v : MScalar) (rest : list MScalar)
    (c : ascii) (tail : string) :
  interpretExpression fuel e s = Ok true s1 ->
  valueStack s1 = v :: rest ->
  scalarToString v = String c tail ->
  interpretExpression (S (S fuel)) (CharBuiltin (AsciiBuiltin e r) r') s
  = Ok true (setValueStack (MString (String c "") :: rest) s1).
Proof.
  intros He Hstack Hstring.
  change (interpretCharBuiltin
            (interpretExpressionStep (interpretExpression fuel) (interpretCommand fuel))
            (AsciiBuiltin e r) s
          = Ok true (setValueStack (MString (String c "") :: rest) s1)).
  unfold interpretCharBuiltin. cbn [interpretExpressionStep]. unfold interpretAsciiBuiltin.
  unfold bind at 1 2. rewrite He. unfold bind at 1, pop at 1. rewrite Hstack.
  unfold bind at 1, push at 1, modify at 1. unfold ret at 1.
  unfold bind at 1, pop at 1. cbn [valueStack setValueStack].
  rewrite Hstring. cbn [scalarToNumber]. rewrite fromCharCode_code.
  unfold bind, push, modify, ret. by destruct s1.
Qed.

(** [$C($A("abc"))] is [a]. *)
Lemma char_inverts_ascii_witness :
  interpretExpression (H := exampleEngine) 3
    (CharBuiltin (AsciiBuiltin (StringLiteral "abc" noRange) noRange) noRange) initialState
  = Ok true (setValueStack [MString "a"] initialState).
Proof.
  apply (char_inverts_ascii (H := exampleEngine) 1 (StringLiteral "abc" noRange) noRange
           noRange initialState (setValueStack [MString "abc"] initialState)
           (MString "abc") [] "a"%char "bc"); reflexivity.
Defined.
